(** * genDataSet: a shallow embedding of src/python/bin/genDataSet.py

    The generator builds a random tree of directory, file and copy nodes in
    memory from a seeded pseudo-random stream, names the nodes, and then
    either writes the tree to a file system or verifies a file system against
    it.  The development follows the script class by class:

    - Python values and exceptions that matter for the control flow;
    - IEEE-754 binary64 arithmetic (Python's [float]) through [SpecFloat];
    - [RandomState] over an abstract numpy generator;
    - the node store, [RandomDirTree] and its builder;
    - the file system, [write] and [verify];
    - [genTree].
*)

From Stdlib Require Import ZArith List Bool Lia DecimalString.
From Stdlib.Strings Require Import Byte.
From Stdlib Require Import SpecFloat.
From stdpp Require Import base list strings gmap.

Local Open Scope string_scope.
Local Open Scope list_scope.
Local Open Scope stdpp_scope.
Local Open Scope Z_scope.

(** ** Exceptions and outcomes *)

(** The exceptions the script can raise.  [Error] is the script's own class;
    the others are Python built-ins raised by the interpreter or by numpy. *)
Inductive exn : Type :=
  | Error (msg : string)
  | TypeError (msg : string)
  | AttributeError (msg : string)
  | ValueError (msg : string)
  | OverflowError (msg : string)
  | OSError (msg : string).

(** Result of running a piece of the script: a value, a raised exception, or
    [Diverge] when a loop was cut off by its iteration bound. *)
Inductive outcome (A : Type) : Type :=
  | Ok (a : A)
  | Raise (e : exn)
  | Diverge.
Arguments Ok {A} a.
Arguments Raise {A} e.
Arguments Diverge {A}.

(** State and exception monad: the state survives a raised exception, as the
    heap and the file system do in Python. *)
Definition M (St A : Type) : Type := St -> outcome A * St.

Definition ret {St A} (a : A) : M St A := fun s => (Ok a, s).
Definition raise {St A} (e : exn) : M St A := fun s => (Raise e, s).
Definition diverge {St A} : M St A := fun s => (Diverge, s).
Definition bind {St A B} (m : M St A) (k : A -> M St B) : M St B :=
  fun s => match m s with
           | (Ok a, s') => k a s'
           | (Raise e, s') => (Raise e, s')
           | (Diverge, s') => (Diverge, s')
           end.
Definition get {St} : M St St := fun s => (Ok s, s).
Definition gets {St A} (f : St -> A) : M St A := fun s => (Ok (f s), s).
Definition put {St} (s : St) : M St unit := fun _ => (Ok tt, s).
Definition modify {St} (f : St -> St) : M St unit := fun s => (Ok tt, f s).

Declare Scope monad_scope.
Delimit Scope monad_scope with monad.
Notation "'let*' p ':=' m 'in' k" := (bind m (fun p => k))
  (at level 10, p pattern, m at level 100, k at level 200) : monad_scope.
Notation "m ;;; k" := (bind m (fun _ => k))
  (at level 100, right associativity) : monad_scope.
Local Open Scope monad_scope.

(** ** Python values *)

Definition bytes : Type := list byte.

#[global] Instance byte_eq_dec : EqDecision byte := Byte.byte_eq_dec.
#[global] Instance bytes_eq_dec : EqDecision bytes := list_eq_dec.

(** The few dynamically typed values whose type decides what an operation
    does. *)
Inductive pyobj : Type :=
  | PyStr (s : string)
  | PyBytes (b : bytes)
  | PyInt (z : Z).

Definition type_name (v : pyobj) : string :=
  match v with
  | PyStr _ => "str"
  | PyBytes _ => "bytes"
  | PyInt _ => "int"
  end.

(** [str(n)] for an integer. *)
Definition str_of_Z (z : Z) : string :=
  NilZero.string_of_int (Z.to_int z).

(** [a + b] where [a] is a [str]: only another [str] can be concatenated. *)
Definition str_add (a : string) (b : pyobj) : exn + string :=
  match b with
  | PyStr s => inr (a +:+ s)
  | _ => inl (TypeError ("can only concatenate str (not " +:+ type_name b
                         +:+ ") to str"))
  end.

(** [b.encode(codec)] on a [bytes] object: [bytes] has no method [encode]. *)
Definition bytes_encode (b : bytes) (codec : string) : exn + string :=
  inl (AttributeError "'bytes' object has no attribute 'encode'").

(** ** Floating point

    Python's [float] is IEEE-754 binary64; [SpecFloat] is the Standard
    Library's executable specification of it. *)
Module Float.

Definition prec : Z := 53.
Definition emax : Z := 1024.

(** [float(n)], rounding to nearest even. *)
Definition of_int (n : Z) : spec_float := binary_normalize prec emax n 0 false.

Definition mul : spec_float -> spec_float -> spec_float := SFmul prec emax.
Definition div : spec_float -> spec_float -> spec_float := SFdiv prec emax.

(** [0.0 < x] *)
Definition gt0 (x : spec_float) : bool := SFltb (S754_zero false) x.

(** [int(math.floor(x))] *)
Definition floor (x : spec_float) : exn + Z :=
  match x with
  | S754_zero _ => inr 0
  | S754_finite s m e =>
      let n := if s then Z.neg m else Z.pos m in
      inr (if 0 <=? e then n * 2 ^ e else n / 2 ^ (- e))
  | S754_infinity _ => inl (OverflowError "cannot convert float infinity to integer")
  | S754_nan => inl (ValueError "cannot convert float NaN to integer")
  end.

End Float.

(** [int(math.floor(chunkSize * (rate / 100.0)))] with
    [rate = float(percentage)]. *)
Definition compress_size (chunkSize : Z) (rate : spec_float) : exn + Z :=
  Float.floor (Float.mul (Float.of_int chunkSize)
                         (Float.div rate (Float.of_int 100))).

(** [rate / 100.0] is zero or a positive float not above one. *)
Definition rate_ok (p : Z) : bool :=
  match Float.div (Float.of_int p) (Float.of_int 100) with
  | S754_zero false => true
  | S754_finite false m e => (e <=? 0) && (Z.pos m <=? 2 ^ (- e))
  | _ => false
  end
  && Bool.eqb (Float.gt0 (Float.of_int p)) (0 <? p).



(** ** numpy.random.RandomState

  The generator of numpy is outside the repository; it enters as an
  interface.  Every operation takes the generator state and returns the
  draw with the next state.  The laws are the documented ranges of the
  draws and the [ValueError] numpy raises for an empty range; the bounds of
  [random_integers] and the length of [bytes] are 64-bit integers there,
  and the laws say nothing outside of them.  The bound of [randint] is the
  length of a list in memory. *)
Class NumpyRandomState : Type := {
rng_state : Type;
(** [numpy.random.RandomState(seed)] for an array of 32-bit words. *)
np_seed : list Z -> rng_state;
(** [randint(high)]: an integer in [[0, high)]. *)
np_randint : Z -> M rng_state Z;
(** [randint(high, size=n)]: [n] integers in [[0, high)]. *)
np_randint_array : Z -> nat -> M rng_state (list Z);
(** [random_integers(low, high)]: an integer in [[low, high]]. *)
np_random_integers : Z -> Z -> M rng_state Z;
(** [bytes(length)]: [length] random bytes. *)
np_bytes : Z -> M rng_state bytes;

np_randint_ok : forall high st, 0 < high ->
  exists v st', np_randint high st = (Ok v, st') /\ 0 <= v < high;
np_randint_array_ok : forall high n st, 0 < high ->
  exists vs st', np_randint_array high n st = (Ok vs, st')
                 /\ length vs = n /\ Forall (fun v => 0 <= v < high) vs;
np_random_integers_ok : forall low high st,
  - 2 ^ 63 <= low -> low <= high -> high < 2 ^ 63 ->
  exists v st', np_random_integers low high st = (Ok v, st') /\ low <= v <= high;
np_random_integers_empty : forall low high st,
  - 2 ^ 63 <= low -> high < low -> high < 2 ^ 63 ->
  np_random_integers low high st = (Raise (ValueError "low >= high"), st);
np_bytes_ok : forall n st, 0 <= n < 2 ^ 63 ->
  exists b st', np_bytes n st = (Ok b, st') /\ Z.of_nat (length b) = n
}.

(** The script's [RandomState] subclass. *)
Module RandomState.
Section WithRandom.
Context {R : NumpyRandomState}.

(** [numpy.array((seed,)).view(numpy.uint32)]: the two 32-bit words of the
    64-bit two's complement representation, low word first. *)
Definition seed_words (seed : Z) : list Z :=
  [seed mod 2 ^ 32; (seed / 2 ^ 32) mod 2 ^ 32].

(** [RandomState(seed)] for an integer seed. *)
Definition init (seed : Z) : rng_state := np_seed (seed_words seed).

(** [seq[i]] *)
Definition getitem {St A} (seq : list A) (i : Z) : M St A :=
  match (if i <? 0 then None else seq !! Z.to_nat i) with
  | Some a => ret a
  | None => raise (Error "IndexError: list index out of range")
  end.

(** [choice(seq)] *)
Definition choice {A} (seq : list A) : M rng_state A :=
  let* i := np_randint (Z.of_nat (length seq)) in
  getitem seq i.

(** [astype(numpy.int8).view(numpy.int64)[0]]: eight bytes, little endian,
    read as a signed 64-bit integer. *)
Definition int64_of_le_bytes (vs : list Z) : Z :=
  let u := fold_right (fun v acc => v mod 256 + 256 * acc) 0 vs in
  if u <? 2 ^ 63 then u else u - 2 ^ 64.

(** [randomSeed()] *)
Definition randomSeed : M rng_state Z :=
  let* vs := np_randint_array 256 8 in
  ret (int64_of_le_bytes vs).

End WithRandom.
End RandomState.

(** ** Configuration: the global [gen] *)

Record category : Type := {
cat_min : Z;
cat_max : Z;
cat_num : Z;
cat_numCoalescent : Z;
cat_coalescent : Z
}.

Record Config : Type := {
gen_huge : category;
gen_large : category;
gen_medium : category;
gen_small : category;
gen_copied_num : Z;
gen_copied_sourceDir : string;
gen_dirs_num : Z;
gen_dirs_maxDepth : Z;
gen_compressible_percentage : Z;
gen_compressible_blockSize : Z;
gen_root_dir : string;
gen_readable_filenames : bool;
gen_fsync : bool;
gen_truncate : bool;
gen_randseed : Z;
gen_name_prefix : string
}.

Definition KB : Z := 1024.
Definition MB : Z := KB * KB.

(** [initConfig()]: the default value of every property.  The working
    directory and the seed, which [main] sets before the run, are given. *)
Definition initConfig (cwd : string) (seed : Z) : Config := {|
  gen_huge := {| cat_min := 100 * MB; cat_max := 500 * MB; cat_num := 0;
                 cat_numCoalescent := 0; cat_coalescent := 0 |};
  gen_large := {| cat_min := 10 * MB; cat_max := 15 * MB; cat_num := 0;
                  cat_numCoalescent := 0; cat_coalescent := 0 |};
  gen_medium := {| cat_min := 1 * KB; cat_max := 200 * KB; cat_num := 0;
                   cat_numCoalescent := 0; cat_coalescent := 0 |};
  gen_small := {| cat_min := 0 * KB; cat_max := 1 * KB; cat_num := 0;
                  cat_numCoalescent := 0; cat_coalescent := 0 |};
  gen_copied_num := 0;
  gen_copied_sourceDir := "";
  gen_dirs_num := 0;
  gen_dirs_maxDepth := 2 ^ 63 - 1;
  gen_compressible_percentage := 0;
  gen_compressible_blockSize := 4096;
  gen_root_dir := cwd;
  gen_readable_filenames := true;
  gen_fsync := false;
  gen_truncate := false;
  gen_randseed := seed;
  gen_name_prefix := ""
|}.

(** Overrides of single properties ([-Dgen.x=v] on the command line). *)
Definition set_small (c : category) (g : Config) : Config := {|
  gen_huge := gen_huge g; gen_large := gen_large g; gen_medium := gen_medium g;
  gen_small := c;
  gen_copied_num := gen_copied_num g; gen_copied_sourceDir := gen_copied_sourceDir g;
  gen_dirs_num := gen_dirs_num g; gen_dirs_maxDepth := gen_dirs_maxDepth g;
  gen_compressible_percentage := gen_compressible_percentage g;
  gen_compressible_blockSize := gen_compressible_blockSize g;
  gen_root_dir := gen_root_dir g; gen_readable_filenames := gen_readable_filenames g;
  gen_fsync := gen_fsync g; gen_truncate := gen_truncate g;
  gen_randseed := gen_randseed g; gen_name_prefix := gen_name_prefix g |}.

Definition set_dirs (num maxDepth : Z) (g : Config) : Config := {|
  gen_huge := gen_huge g; gen_large := gen_large g; gen_medium := gen_medium g;
  gen_small := gen_small g;
  gen_copied_num := gen_copied_num g; gen_copied_sourceDir := gen_copied_sourceDir g;
  gen_dirs_num := num; gen_dirs_maxDepth := maxDepth;
  gen_compressible_percentage := gen_compressible_percentage g;
  gen_compressible_blockSize := gen_compressible_blockSize g;
  gen_root_dir := gen_root_dir g; gen_readable_filenames := gen_readable_filenames g;
  gen_fsync := gen_fsync g; gen_truncate := gen_truncate g;
  gen_randseed := gen_randseed g; gen_name_prefix := gen_name_prefix g |}.

Definition set_compressible (percentage blockSize : Z) (g : Config) : Config := {|
  gen_huge := gen_huge g; gen_large := gen_large g; gen_medium := gen_medium g;
  gen_small := gen_small g;
  gen_copied_num := gen_copied_num g; gen_copied_sourceDir := gen_copied_sourceDir g;
  gen_dirs_num := gen_dirs_num g; gen_dirs_maxDepth := gen_dirs_maxDepth g;
  gen_compressible_percentage := percentage;
  gen_compressible_blockSize := blockSize;
  gen_root_dir := gen_root_dir g; gen_readable_filenames := gen_readable_filenames g;
  gen_fsync := gen_fsync g; gen_truncate := gen_truncate g;
  gen_randseed := gen_randseed g; gen_name_prefix := gen_name_prefix g |}.

Definition set_truncate (b : bool) (g : Config) : Config := {|
  gen_huge := gen_huge g; gen_large := gen_large g; gen_medium := gen_medium g;
  gen_small := gen_small g;
  gen_copied_num := gen_copied_num g; gen_copied_sourceDir := gen_copied_sourceDir g;
  gen_dirs_num := gen_dirs_num g; gen_dirs_maxDepth := gen_dirs_maxDepth g;
  gen_compressible_percentage := gen_compressible_percentage g;
  gen_compressible_blockSize := gen_compressible_blockSize g;
  gen_root_dir := gen_root_dir g; gen_readable_filenames := gen_readable_filenames g;
  gen_fsync := gen_fsync g; gen_truncate := b;
  gen_randseed := gen_randseed g; gen_name_prefix := gen_name_prefix g |}.

(** The maximum size of a chunk read from or written to a file. *)
Definition MAX_CHUNK_SIZE : Z := 64 * KB.

(** ** The chunk generator: [FileNode.generateChunks] *)
Section Chunks.
Context {R : NumpyRandomState}.
Variable gen : Config.

(** The local variables of the generator between two [yield]s. *)
Record chunk_gen : Type := {
  cg_rng : rng_state;
  cg_maxChunkSize : Z;
  cg_rate : spec_float;
  cg_remaining : Z
}.

(** The statements before the loop. *)
Definition generateChunks (fileSeed fileSize : Z) : chunk_gen :=
  let rng := RandomState.init fileSeed in
  let rate := Float.of_int (gen_compressible_percentage gen) in
  let maxChunkSize :=
    if Float.gt0 rate then gen_compressible_blockSize gen else MAX_CHUNK_SIZE in
  {| cg_rng := rng; cg_maxChunkSize := maxChunkSize; cg_rate := rate;
     cg_remaining := fileSize |}.

(** One turn of the loop: the next chunk, or [None] when the generator is
    exhausted. *)
Definition next_chunk : M chunk_gen (option bytes) := fun g =>
  if 0 <? cg_remaining g then
    let chunkSize := Z.min (cg_remaining g) (cg_maxChunkSize g) in
    let remaining := cg_remaining g - chunkSize in
    let g1 := {| cg_rng := cg_rng g; cg_maxChunkSize := cg_maxChunkSize g;
                 cg_rate := cg_rate g; cg_remaining := remaining |} in
    match compress_size chunkSize (cg_rate g) with
    | inl e => (Raise e, g1)
    | inr compressSize =>
        match np_bytes (chunkSize - compressSize) (cg_rng g) with
        | (Ok random, rng') =>
            (Ok (Some (repeat xff (Z.to_nat compressSize) ++ random)),
             {| cg_rng := rng'; cg_maxChunkSize := cg_maxChunkSize g;
                cg_rate := cg_rate g; cg_remaining := remaining |})
        | (Raise e, rng') =>
            (Raise e, {| cg_rng := rng'; cg_maxChunkSize := cg_maxChunkSize g;
                         cg_rate := cg_rate g; cg_remaining := remaining |})
        | (Diverge, rng') =>
            (Diverge, {| cg_rng := rng'; cg_maxChunkSize := cg_maxChunkSize g;
                         cg_rate := cg_rate g; cg_remaining := remaining |})
        end
    end
  else (Ok None, g).

(** [for chunk in generateChunks(): body]; the body carries a value from
    turn to turn (the open file) and answers whether the loop goes on
    ([false] stands for a [return] out of the loop).  The boolean of the
    result tells whether the generator was consumed to its end. *)
Fixpoint for_chunks {St A} (fuel : nat) (g : chunk_gen)
    (body : A -> bytes -> M St (A * bool)) (a : A) : M St (A * bool) :=
  match fuel with
  | O => diverge
  | S fuel' =>
      match next_chunk g with
      | (Ok None, _) => ret (a, true)
      | (Ok (Some chunk), g') =>
          let* r := body a chunk in
          if snd r then for_chunks fuel' g' body (fst r) else ret (fst r, false)
      | (Raise e, _) => raise e
      | (Diverge, _) => diverge
      end
  end.

(** All the chunks of a generator, in order. *)
Fixpoint all_chunks (fuel : nat) (g : chunk_gen) : outcome (list bytes) :=
  match fuel with
  | O => Diverge
  | S fuel' =>
      match next_chunk g with
      | (Ok None, _) => Ok []
      | (Ok (Some chunk), g') =>
          match all_chunks fuel' g' with
          | Ok chunks => Ok (chunk :: chunks)
          | Raise e => Raise e
          | Diverge => Diverge
          end
      | (Raise e, _) => Raise e
      | (Diverge, _) => Diverge
      end
  end.

(** The size of the chunks as the specification words it: [blockSize] for
    compressible data, the maximum transfer unit otherwise. *)
Definition effective_chunk_size : Z :=
  if 0 <? gen_compressible_percentage gen
  then gen_compressible_blockSize gen else MAX_CHUNK_SIZE.

(** Every chunk has the size [min(remaining_bytes, effective_chunk_size)],
    where the remaining bytes are those not yet yielded. *)
Definition chunk_sizes_as_specified (fileSize : Z) (chunks : list bytes) : Prop :=
  forall (i : nat) (c : bytes),
    chunks !! i = Some c ->
    Z.of_nat (length c)
    = Z.min (fileSize - Z.of_nat (length (concat (take i chunks))))
            effective_chunk_size.

(** Every chunk is a run of fill bytes, as many as [fill] gives for the size
    of the chunk, followed by the next bytes of the content stream. *)
Inductive chunk_layout (fill : Z -> option Z) : rng_state -> list bytes -> Prop :=
  | chunk_layout_nil (st : rng_state) : chunk_layout fill st []
  | chunk_layout_cons (st st' : rng_state) (c : bytes) (cs : list bytes)
      (k : Z) (random : bytes) :
      fill (Z.of_nat (length c)) = Some k ->
      0 <= k <= Z.of_nat (length c) ->
      np_bytes (Z.of_nat (length c) - k) st = (Ok random, st') ->
      c = repeat xff (Z.to_nat k) ++ random ->
      chunk_layout fill st' cs ->
      chunk_layout fill st (c :: cs).

(** The fill count in floating point, as the generator computes it. *)
Definition fill_float (chunkSize : Z) : option Z :=
  match compress_size chunkSize (Float.of_int (gen_compressible_percentage gen)) with
  | inr k => Some k
  | inl _ => None
  end.

(** The fill count as the specification words it:
    [floor(C * percentage / 100)]. *)
Definition fill_exact (chunkSize : Z) : option Z :=
  Some (chunkSize * gen_compressible_percentage gen / 100).

End Chunks.

(** ** Loops *)

(** [for _ in range(n): body] *)
Fixpoint repeatM {St} (n : nat) (body : M St unit) : M St unit :=
  match n with
  | O => ret tt
  | S n' => body ;;; repeatM n' body
  end.

(** [for x in l: acc = f(acc, x)] *)
Fixpoint foldM {St A B} (f : B -> A -> M St B) (l : list A) (b : B) : M St B :=
  match l with
  | [] => ret b
  | a :: l' => let* b' := f b a in foldM f l' b'
  end.

(** [for x in l: f(x)] *)
Fixpoint forM_ {St A} (f : A -> M St unit) (l : list A) : M St unit :=
  match l with
  | [] => ret tt
  | a :: l' => f a ;;; forM_ f l'
  end.

(** [[f(x) for x in l]] *)
Fixpoint mapM {St A B} (f : A -> M St B) (l : list A) : M St (list B) :=
  match l with
  | [] => ret []
  | a :: l' => let* b := f a in let* bs := mapM f l' in ret (b :: bs)
  end.

(** ** The node model

    Nodes are Python objects that refer to each other: a directory lists its
    children, and every node refers back to its parent.  The objects live in
    a store, a node being referred to by its index there. *)

Inductive node_kind : Type :=
  | DirNode (children : list nat)
  | FileNode (fileSeed fileSize : Z)
  | CopyNode (sourcePath : string).

Record node : Type := {
  node_parent : option nat;
  node_depth : Z;
  node_path : option string;
  node_kind_of : node_kind
}.

Definition isDir (n : node) : bool :=
  match node_kind_of n with DirNode _ => true | _ => false end.

Definition isFileNode (n : node) : bool :=
  match node_kind_of n with FileNode _ _ => true | _ => false end.

(** [DirNode.isRoot] *)
Definition isRoot (n : node) : bool :=
  match node_parent n with None => true | Some _ => false end.

(** [Node.__init__] followed by the subclass's own fields. *)
Definition Node_init (k : node_kind) : node :=
  {| node_parent := None; node_depth := 0; node_path := None; node_kind_of := k |}.

Definition set_parent (p : nat) (d : Z) (n : node) : node :=
  {| node_parent := Some p; node_depth := d; node_path := node_path n;
     node_kind_of := node_kind_of n |}.

Definition set_path (s : string) (n : node) : node :=
  {| node_parent := node_parent n; node_depth := node_depth n; node_path := Some s;
     node_kind_of := node_kind_of n |}.

Definition set_children (cs : list nat) (n : node) : node :=
  {| node_parent := node_parent n; node_depth := node_depth n;
     node_path := node_path n; node_kind_of := DirNode cs |}.

(** ** The file system and the log *)

Inductive entry : Type :=
  | Dir
  | File (content : bytes).

Inductive level : Type := INFO | ERROR.

(** The world outside the process: the files by path, what [os.walk] lists
    under a directory, in the order of the operating system, and the lines
    logged at level INFO and above. *)
Record World : Type := {
  fs : gmap string entry;
  walk : string -> list string;
  log : list (level * string)
}.

Definition set_fs (f : gmap string entry) (w : World) : World :=
  {| fs := f; walk := walk w; log := log w |}.

Definition log_msg (l : level) (msg : string) : M World unit :=
  modify (fun w => {| fs := fs w; walk := walk w; log := log w ++ [(l, msg)] |}).

Definition log_error : string -> M World unit := log_msg ERROR.
Definition log_info : string -> M World unit := log_msg INFO.

(** [os.path.join(a, b)] on POSIX. *)
Definition os_path_join (a b : string) : string :=
  if String.prefix "/" b then b
  else if (String.eqb a "") || String.eqb (String.substring (String.length a - 1) 1 a) "/"
       then a +:+ b
       else a +:+ "/" +:+ b.

Definition os_path_isdir (w : World) (p : string) : bool :=
  match fs w !! p with Some Dir => true | _ => false end.

Definition os_path_isfile (w : World) (p : string) : bool :=
  match fs w !! p with Some (File _) => true | _ => false end.

Definition os_path_exists (w : World) (p : string) : bool :=
  match fs w !! p with Some _ => true | None => false end.

(** [os.path.getsize(p)]; a directory has the size of its table. *)
Definition os_path_getsize (p : string) : M World Z := fun w =>
  match fs w !! p with
  | Some (File c) => (Ok (Z.of_nat (length c)), w)
  | Some Dir => (Ok 4096, w)
  | None => (Raise (OSError "No such file or directory"), w)
  end.

(** [os.mkdir(p)] *)
Definition os_mkdir (p : string) : M World unit := fun w =>
  match fs w !! p with
  | Some _ => (Raise (OSError "File exists"), w)
  | None => (Ok tt, set_fs (<[p := Dir]> (fs w)) w)
  end.

(** [os.makedirs(p)]; the intermediate directories are not tracked. *)
Definition os_makedirs (p : string) : M World unit := os_mkdir p.

(** An open file: its path and the position of the next read or write. *)
Record file : Type := { f_path : string; f_pos : Z }.

(** [open(p, "wb", 0)]: create or empty the file. *)
Definition open_wb (p : string) : M World file := fun w =>
  match fs w !! p with
  | Some Dir => (Raise (OSError "Is a directory"), w)
  | _ => (Ok {| f_path := p; f_pos := 0 |}, set_fs (<[p := File []]> (fs w)) w)
  end.

(** [open(p, "rb", 0)] *)
Definition open_rb (p : string) : M World file := fun w =>
  match fs w !! p with
  | Some (File _) => (Ok {| f_path := p; f_pos := 0 |}, w)
  | Some Dir => (Raise (OSError "Is a directory"), w)
  | None => (Raise (OSError "No such file or directory"), w)
  end.

Definition file_content (f : file) : M World bytes := fun w =>
  match fs w !! f_path f with
  | Some (File c) => (Ok c, w)
  | _ => (Raise (OSError "Bad file descriptor"), w)
  end.

Definition set_content (f : file) (c : bytes) : M World unit :=
  modify (fun w => set_fs (<[f_path f := File c]> (fs w)) w).

(** [f.truncate(size)]: cut the file, or extend it with zero bytes. *)
Definition file_truncate (f : file) (size : Z) : M World unit :=
  if size <? 0 then raise (OSError "Invalid argument")
  else
    let* c := file_content f in
    set_content f (resize (Z.to_nat size) x00 c).

(** [f.seek(pos)] *)
Definition file_seek (f : file) (pos : Z) : M World file :=
  if pos <? 0 then raise (OSError "Invalid argument")
  else ret {| f_path := f_path f; f_pos := pos |}.

(** The content after [data] is written at [pos], the gap after a shorter
    file filled with zero bytes. *)
Definition write_at (c : bytes) (pos : nat) (data : bytes) : bytes :=
  resize pos x00 c ++ data ++ drop (pos + length data) c.

(** [f.write(data)] on a binary file: only bytes can be written. *)
Definition file_write (f : file) (data : pyobj) : M World file :=
  match data with
  | PyBytes b =>
      let* c := file_content f in
      set_content f (write_at c (Z.to_nat (f_pos f)) b) ;;;
      ret {| f_path := f_path f; f_pos := f_pos f + Z.of_nat (length b) |}
  | _ => raise (TypeError ("a bytes-like object is required, not '"
                           +:+ type_name data +:+ "'"))
  end.

(** [f.read(n)] *)
Definition file_read (f : file) (n : Z) : M World (bytes * file) :=
  let* c := file_content f in
  let b := take (Z.to_nat n) (drop (Z.to_nat (f_pos f)) c) in
  ret (b, {| f_path := f_path f; f_pos := f_pos f + Z.of_nat (length b) |}).

(** [f.tell()] *)
Definition file_tell (f : file) : Z := f_pos f.

(** [shutil.copyfile(src, dst)] *)
Definition shutil_copyfile (src dst : string) : M World unit := fun w =>
  match fs w !! src with
  | Some (File c) =>
      match fs w !! dst with
      | Some Dir => (Raise (OSError "Is a directory"), w)
      | _ => if String.eqb src dst
             then (Raise (OSError "SameFileError"), w)
             else (Ok tt, set_fs (<[dst := File c]> (fs w)) w)
      end
  | Some Dir => (Raise (OSError "Is a directory"), w)
  | None => (Raise (OSError "No such file or directory"), w)
  end.

(** [filecmp.cmp(a, b, shallow=False)] on two regular files. *)
Definition filecmp_cmp (a b : string) : M World bool := fun w =>
  match fs w !! a, fs w !! b with
  | Some (File ca), Some (File cb) => (Ok (bool_decide (ca = cb)), w)
  | _, _ => (Raise (OSError "No such file or directory"), w)
  end.

(** [len(os.path.commonprefix((a, b)))] *)
Fixpoint commonprefix_len (a b : bytes) : nat :=
  match a, b with
  | x :: a', y :: b' => if bool_decide (x = y) then S (commonprefix_len a' b') else O
  | _, _ => O
  end.

(** ** Statistics *)

(** [GenerateStats] without its clock. *)
Record GenerateStats : Type := {
  numBytes : Z;
  numFiles : Z;
  numDirs : Z;
  verified : bool
}.

Definition GenerateStats_init : GenerateStats :=
  {| numBytes := 0; numFiles := 0; numDirs := 0; verified := true |}.

(** ** RandomDirTree *)
Section Tree.
Context {R : NumpyRandomState}.
Variable gen : Config.

(** The fields of a [RandomDirTree] and the nodes it refers to; the root is
    the first node of the store. *)
Record RandomDirTree : Type := {
  rng : rng_state;
  nodes : list node;
  dirNodes : list nat
}.

Definition root : nat := 0%nat.

Definition lift_rng {A} (m : M rng_state A) : M RandomDirTree A := fun t =>
  let '(r, st) := m (rng t) in
  (r, {| rng := st; nodes := nodes t; dirNodes := dirNodes t |}).

(** Allocation of a new object. *)
Definition new_node (n : node) : M RandomDirTree nat := fun t =>
  (Ok (length (nodes t)),
   {| rng := rng t; nodes := nodes t ++ [n]; dirNodes := dirNodes t |}).

Definition get_node (i : nat) : M RandomDirTree node := fun t =>
  match nodes t !! i with
  | Some n => (Ok n, t)
  | None => (Raise (Error "dangling reference"), t)
  end.

Definition set_node (i : nat) (n : node) : M RandomDirTree unit :=
  modify (fun t => {| rng := rng t; nodes := <[i := n]> (nodes t);
                      dirNodes := dirNodes t |}).

Definition set_dirNodes (l : list nat) : M RandomDirTree unit :=
  modify (fun t => {| rng := rng t; nodes := nodes t; dirNodes := l |}).

(** [Node.setParent] *)
Definition setParent (self parent : nat) : M RandomDirTree unit :=
  let* p := get_node parent in
  let* n := get_node self in
  set_node self (set_parent parent (node_depth p + 1) n).

(** [DirNode.addNode]; only a directory has the method. *)
Definition addNode (self child : nat) : M RandomDirTree unit :=
  let* d := get_node self in
  match node_kind_of d with
  | DirNode _ =>
      setParent child self ;;;
      let* d := get_node self in
      match node_kind_of d with
      | DirNode children => set_node self (set_children (children ++ [child]) d)
      | _ => raise (AttributeError "object has no attribute 'children'")
      end
  | _ => raise (AttributeError "object has no attribute 'addNode'")
  end.

(** [RandomDirTree._attach] *)
Definition _attach (n : nat) : M RandomDirTree unit :=
  let* dn := gets dirNodes in
  let* parent := lift_rng (RandomState.choice dn) in
  let* nd := get_node n in
  let* parent' :=
    (if isDir nd then
       let* p := get_node parent in
       (* Prevent the tree from getting too deep. *)
       let parent' :=
         if (0 <? node_depth p) && (gen_dirs_maxDepth gen <=? node_depth p)
         then node_parent p else Some parent in
       let* dn := gets dirNodes in
       set_dirNodes (dn ++ [n]) ;;;
       ret parent'
     else ret (Some parent)) in
  match parent' with
  | Some p => addNode p n
  | None => raise (AttributeError "'NoneType' object has no attribute 'addNode'")
  end.

(** [FileNode(rng, category)]: the seed is drawn before the size. *)
Definition FileNode_init (c : category) : M RandomDirTree nat :=
  let* fileSeed := lift_rng RandomState.randomSeed in
  let* fileSize := lift_rng (np_random_integers (cat_min c) (cat_max c)) in
  new_node (Node_init (FileNode fileSeed fileSize)).

(** [copy.copy(node)] *)
Definition copy_copy (i : nat) : M RandomDirTree nat :=
  let* n := get_node i in
  new_node n.

(** The choice of the number of copies in [_createFileNodes], with the two
    coalescence counters after it: [(copies, numCoal, numCoalLegacy)]. *)
Definition coalescence (numFiles numCoal numCoalLegacy : Z) : M rng_state (Z * Z * Z) :=
  if 0 <? numCoal then
    let* copies :=
      (if numFiles =? numCoal then ret numCoal
       else let* r := np_random_integers 1 3 in ret (Z.min numCoal r)) in
    ret (copies, numCoal - copies, numCoalLegacy)
  else if 0 <? numCoalLegacy then
    let* copies := np_random_integers 1 3 in
    ret (copies, numCoal, numCoalLegacy - 1)
  else ret (0, numCoal, numCoalLegacy).

(** The [while] loop of [_createFileNodes]; every turn takes at least one
    file off [numFiles]. *)
Fixpoint createFileNodes_loop (fuel : nat) (c : category)
    (numFiles numCoal numCoalLegacy : Z) : M RandomDirTree unit :=
  if 0 <? numFiles then
    match fuel with
    | O => diverge
    | S fuel' =>
        (* Create the base file that may be cloned, and place it into the tree. *)
        let* fileNode := FileNode_init c in
        let numFiles := numFiles - 1 in
        _attach fileNode ;;;
        let* r := lift_rng (coalescence numFiles numCoal numCoalLegacy) in
        let '(copies, numCoal, numCoalLegacy) := r in
        let copies := Z.min copies numFiles in
        if 0 <? copies then
          let numFiles := numFiles - copies in
          repeatM (Z.to_nat copies)
                  (let* clone := copy_copy fileNode in _attach clone) ;;;
          createFileNodes_loop fuel' c numFiles numCoal numCoalLegacy
        else createFileNodes_loop fuel' c numFiles numCoal numCoalLegacy
    end
  else ret tt.

(** [RandomDirTree._createFileNodes] *)
Definition _createFileNodes (c : category) : M RandomDirTree unit :=
  let numFiles := cat_num c in
  let numCoal := cat_numCoalescent c in
  let numCoalLegacy := cat_coalescent c in
  if (numFiles <? numCoal) || (numFiles <? numCoalLegacy) then
    raise (Error "A coalescent file count is greater than the maximum")
  else createFileNodes_loop (Z.to_nat numFiles) c numFiles numCoal numCoalLegacy.

(** [RandomDirTree._createCopyNodes] *)
Definition _createCopyNodes (w : World) : M RandomDirTree unit :=
  if gen_copied_num gen =? 0 then ret tt
  else
    let fileList := walk w (gen_copied_sourceDir gen) in
    let fileList := filter (fun f => os_path_isfile w f = true) fileList in
    match fileList with
    | [] => raise (Error ("no files found in " +:+ gen_copied_sourceDir gen))
    | _ =>
        repeatM (Z.to_nat (gen_copied_num gen))
          (let* sourcePath := lift_rng (RandomState.choice fileList) in
           let* n := new_node (Node_init (CopyNode sourcePath)) in
           _attach n)
    end.

(** [self._attach(DirNode())] *)
Definition attach_DirNode : M RandomDirTree unit :=
  let* d := new_node (Node_init (DirNode [])) in _attach d.

(** [RandomDirTree._createNodes] *)
Definition _createNodes (w : World) : M RandomDirTree unit :=
  (* Build a random tree of directory nodes. *)
  repeatM (Z.to_nat (gen_dirs_num gen)) attach_DirNode ;;;
  (* If subdirectories were created, don't put files in the root dir. *)
  let* dn := gets dirNodes in
  (if (1 <? length dn)%nat then set_dirNodes (drop 1 dn) else ret tt) ;;;
  (* Create the file nodes for each size category. *)
  _createFileNodes (gen_huge gen) ;;;
  _createFileNodes (gen_large gen) ;;;
  _createFileNodes (gen_medium gen) ;;;
  _createFileNodes (gen_small gen) ;;;
  (* Generate all file copy nodes. *)
  _createCopyNodes w.

(** [Node.setName] *)
Definition setName (self : nat) (name : Z) : M RandomDirTree unit :=
  let* n := get_node self in
  match node_parent n with
  | None => raise (AttributeError "'NoneType' object has no attribute 'path'")
  | Some p =>
      let* pn := get_node p in
      match node_path pn with
      | None => raise (TypeError "expected str, bytes or os.PathLike object, not NoneType")
      | Some ppath =>
          set_node self
            (set_path (os_path_join ppath (gen_name_prefix gen +:+ str_of_Z name)) n)
      end
  end.

(** [Node.nameNodes]: the name is the next value of the counter. *)
Definition Node_nameNodes (self : nat) (namer : Z) : M RandomDirTree Z :=
  setName self namer ;;; ret (namer + 1).

(** [nameNodes], by the class of the node; the recursion of
    [DirNode.nameNodes] goes down the tree, [fuel] bounding its depth.  The
    counter [namer] is [itertools.count]. *)
Fixpoint nameNodes (fuel : nat) (self : nat) (namer : Z) : M RandomDirTree Z :=
  match fuel with
  | O => diverge
  | S fuel' =>
      let* n := get_node self in
      match node_kind_of n with
      | DirNode children =>
          let* namer :=
            (if isRoot n then ret namer else Node_nameNodes self namer) in
          foldM (fun namer child => nameNodes fuel' child namer) children namer
      | _ => Node_nameNodes self namer
      end
  end.

(** [measure], by the class of the node. *)
Fixpoint measure (fuel : nat) (w : World) (t : RandomDirTree) (self : nat)
    (stats : GenerateStats) : outcome GenerateStats :=
  match fuel with
  | O => Diverge
  | S fuel' =>
      match nodes t !! self with
      | None => Raise (Error "dangling reference")
      | Some n =>
          match node_kind_of n with
          | DirNode children =>
              let stats :=
                if isRoot n then stats
                else {| numBytes := numBytes stats; numFiles := numFiles stats;
                        numDirs := numDirs stats + 1; verified := verified stats |} in
              fold_left
                (fun acc child =>
                   match acc with
                   | Ok stats => measure fuel' w t child stats
                   | _ => acc
                   end)
                children (Ok stats)
          | FileNode _ fileSize =>
              Ok {| numBytes := numBytes stats + fileSize;
                    numFiles := numFiles stats + 1;
                    numDirs := numDirs stats; verified := verified stats |}
          | CopyNode sourcePath =>
              match fst (os_path_getsize sourcePath w) with
              | Ok size =>
                  Ok {| numBytes := numBytes stats + size;
                        numFiles := numFiles stats + 1;
                        numDirs := numDirs stats; verified := verified stats |}
              | Raise e => Raise e
              | Diverge => Diverge
              end
          end
      end
  end.

(** The first statements of [RandomDirTree.__init__]: the generator, the
    root directory and the list of directories. *)
Definition RandomDirTree_new (rootDir : string) : RandomDirTree :=
  {| rng := RandomState.init (gen_randseed gen);
     nodes := [set_path rootDir (Node_init (DirNode []))];
     dirNodes := [root] |}.

(** The rest of [RandomDirTree.__init__]. *)
Definition RandomDirTree_build (w : World) : M RandomDirTree GenerateStats :=
  (if gen_dirs_maxDepth gen <? 0 then
     match str_add "MaxDirDepth must be positive: " (PyInt (gen_dirs_maxDepth gen)) with
     | inr msg => raise (Error msg)
     | inl e => raise e
     end
   else ret tt) ;;;
  (* Create a random tree of nodes. *)
  _createNodes w ;;;
  (* Assign names to all the nodes, constructing paths as we go. *)
  (if gen_readable_filenames gen then
     let* t := get in
     let* _ := nameNodes (length (nodes t)) root 0 in ret tt
   else raise (Error "ugly filenames are not currently supported")) ;;;
  (* All the nodes are allocated and the file sizes known. *)
  let* t := get in
  match measure (length (nodes t)) w t root GenerateStats_init with
  | Ok stats => ret stats
  | Raise e => raise e
  | Diverge => diverge
  end.

(** [RandomDirTree(rootDir, stats)] *)
Definition RandomDirTree_init (w : World) (rootDir : string)
  : outcome GenerateStats * RandomDirTree :=
  RandomDirTree_build w (RandomDirTree_new rootDir).

(** The invariant of the builder on directories: the root comes first, the
    candidate pool is not empty and holds directories, and every directory
    is one level below its parent and not deeper than the limit (or one,
    under a limit of zero). *)
Record dir_ok (t : RandomDirTree) : Prop := {
  ok_root :
    exists r, nodes t !! root = Some r /\ isDir r = true
              /\ node_parent r = None /\ node_depth r = 0;
  ok_dirNodes_ne : dirNodes t <> [];
  ok_dirNodes :
    forall i, i ∈ dirNodes t -> exists n, nodes t !! i = Some n /\ isDir n = true;
  ok_dirs :
    forall i n, nodes t !! i = Some n -> isDir n = true ->
      0 <= node_depth n <= Z.max (gen_dirs_maxDepth gen) 1
      /\ match node_parent n with
         | None => node_depth n = 0
         | Some p => exists pn, nodes t !! p = Some pn /\ isDir pn = true
                                /\ node_depth n = node_depth pn + 1
         end
}.

End Tree.

(** ** Writing and verifying *)
Section Run.
Context {R : NumpyRandomState}.
Variable gen : Config.

(** [self.path] where a path is needed. *)
Definition path_of (n : node) : M World string :=
  match node_path n with
  | Some p => ret p
  | None => raise (TypeError "expected str, bytes or os.PathLike object, not NoneType")
  end.

(** The string of the single character NUL. *)
Definition nul : string := String Ascii.zero EmptyString.

(** [FileNode.truncate] *)
Definition FileNode_truncate (fileSize : Z) (f : file) : M World file :=
  file_truncate f fileSize ;;;
  if 0 <? fileSize then
    let* f := file_seek f (fileSize - 1) in
    file_write f (PyStr nul)
  else ret f.

(** [FileNode.write] *)
Definition FileNode_write (n : node) (fileSeed fileSize : Z) : M World unit :=
  let* p := path_of n in
  let* output := open_wb p in
  let* output :=
    (if gen_truncate gen then FileNode_truncate fileSize output else ret output) in
  let* output := file_seek output 0 in
  let* _ :=
    for_chunks (S (Z.to_nat fileSize)) (generateChunks gen fileSeed fileSize)
      (fun output chunk =>
         let* output := file_write output (PyBytes chunk) in ret (output, true))
      output in
  ret tt.

(** [CopyNode.write] *)
Definition CopyNode_write (n : node) (sourcePath : string) : M World unit :=
  let* p := path_of n in
  shutil_copyfile sourcePath p.

(** [os.open(path, 0)], [os.fsync], [os.close] on a directory. *)
Definition fsync_dir (p : string) : M World unit :=
  let* w := get in
  if os_path_exists w p then ret tt
  else raise (OSError "No such file or directory").

(** [write], by the class of the node. *)
Fixpoint write (fuel : nat) (t : RandomDirTree) (self : nat) : M World unit :=
  match fuel with
  | O => diverge
  | S fuel' =>
      match nodes t !! self with
      | None => raise (Error "dangling reference")
      | Some n =>
          match node_kind_of n with
          | DirNode children =>
              (if isRoot n then ret tt
               else let* p := path_of n in os_mkdir p) ;;;
              forM_ (write fuel' t) children ;;;
              if gen_fsync gen then let* p := path_of n in fsync_dir p
              else ret tt
          | FileNode fileSeed fileSize => FileNode_write n fileSeed fileSize
          | CopyNode sourcePath => CopyNode_write n sourcePath
          end
      end
  end.

(** [Node.isFile] *)
Definition isFile (p : string) : M World bool :=
  let* w := get in
  if negb (os_path_exists w p) then
    log_error (p +:+ ": missing!") ;;; ret false
  else if negb (os_path_isfile w p) then
    log_error (p +:+ ": not a regular file!") ;;; ret false
  else ret true.

(** [FileNode.verifySize] *)
Definition verifySize (p : string) (fileSize : Z) : M World bool :=
  let* size := os_path_getsize p in
  if negb (size =? fileSize) then
    log_error (p +:+ " is " +:+ str_of_Z size +:+ " bytes; should be "
               +:+ str_of_Z fileSize) ;;;
    ret false
  else ret true.

(** [FileNode.verifyChunk]; the arguments of the message are evaluated
    before anything is logged. *)
Definition verifyChunk (p : string) (input : file) (expected : bytes)
  : M World (file * bool) :=
  let* r := file_read input (Z.of_nat (length expected)) in
  let actual := fst r in
  let input := snd r in
  if bool_decide (actual = expected) then ret (input, true)
  else if negb (length actual =? length expected)%nat then
    log_error (p +:+ " contains fewer bytes than stat indicated") ;;;
    ret (input, false)
  else
    (* Report the file offset where the first difference occurs. *)
    let offset := file_tell input - Z.of_nat (length actual) in
    let offset := offset + Z.of_nat (commonprefix_len actual expected) in
    match bytes_encode expected "hex" with
    | inl e => raise e
    | inr wanted =>
        match bytes_encode actual "hex" with
        | inl e => raise e
        | inr got =>
            log_error (p +:+ " corrupt at " +:+ str_of_Z offset) ;;;
            ret (input, false)
        end
    end.

(** [FileNode.verifyContents] *)
Definition verifyContents (p : string) (fileSeed fileSize : Z) : M World bool :=
  let* input := open_rb p in
  let* r :=
    for_chunks (S (Z.to_nat fileSize)) (generateChunks gen fileSeed fileSize)
      (verifyChunk p) input in
  ret (snd r).

(** [FileNode.verify]; the call of [filefrag] prints to the terminal only. *)
Definition FileNode_verify (n : node) (fileSeed fileSize : Z) : M World bool :=
  let* p := path_of n in
  let* is_file := isFile p in
  if negb is_file then ret false
  else
    let* size_ok := verifySize p fileSize in
    if negb size_ok then ret false
    else
      let* contents_ok := verifyContents p fileSeed fileSize in
      if contents_ok then ret true
      else log_error "Filefrag output:" ;;; ret false.

(** [CopyNode.verify] *)
Definition CopyNode_verify (n : node) (sourcePath : string) : M World bool :=
  let* src_ok := isFile sourcePath in
  if negb src_ok then ret false
  else
    let* p := path_of n in
    let* dst_ok := isFile p in
    if negb dst_ok then ret false
    else filecmp_cmp sourcePath p.

(** [verify], by the class of the node. *)
Fixpoint verify (fuel : nat) (t : RandomDirTree) (self : nat) : M World bool :=
  match fuel with
  | O => diverge
  | S fuel' =>
      match nodes t !! self with
      | None => raise (Error "dangling reference")
      | Some n =>
          match node_kind_of n with
          | DirNode children =>
              let* p := path_of n in
              let* w := get in
              if negb (os_path_isdir w p) then
                log_error (p +:+ ": directory missing!") ;;; ret false
              else
                let* results := mapM (verify fuel' t) children in
                ret (forallb id results)
          | FileNode fileSeed fileSize => FileNode_verify n fileSeed fileSize
          | CopyNode sourcePath => CopyNode_verify n sourcePath
          end
      end
  end.

Definition root_path (t : RandomDirTree) : string :=
  match nodes t !! root with
  | Some n => default "" (node_path n)
  | None => ""
  end.

(** [RandomDirTree.write] *)
Definition RandomDirTree_write (t : RandomDirTree) : M World unit :=
  log_info ("Writing random tree at " +:+ root_path t) ;;;
  write (length (nodes t)) t root.

(** [RandomDirTree.verify] *)
Definition RandomDirTree_verify (t : RandomDirTree) : M World bool :=
  log_info ("Verifying tree at " +:+ root_path t) ;;;
  verify (length (nodes t)) t root.

(** [genTree(verify, rootDir, createRoot)]: the statistics, and the tree
    that was built in memory. *)
Definition genTree (verify_mode : bool) (rootDir : option string) (createRoot : bool)
  : M World (GenerateStats * RandomDirTree) :=
  let rootDir' := match rootDir with None => gen_root_dir gen | Some d => d end in
  let createRoot' := match rootDir with None => true | Some _ => createRoot end in
  (if createRoot' then
     let* w := get in
     if negb (os_path_isdir w rootDir') then os_makedirs rootDir' else ret tt
   else ret tt) ;;;
  let* w := get in
  if negb (os_path_isdir w rootDir') then
    raise (Error ("No such directory: " +:+ rootDir'))
  else
    (* We create the structure of the directory tree in memory first. *)
    match RandomDirTree_init gen w rootDir' with
    | (Ok stats, tree) =>
        if verify_mode then
          let* ok := RandomDirTree_verify tree in
          (if ok then log_info "Tree is OK." else log_error "Tree is corrupted!") ;;;
          ret ({| numBytes := numBytes stats; numFiles := numFiles stats;
                  numDirs := numDirs stats; verified := ok |}, tree)
        else
          RandomDirTree_write tree ;;;
          ret (stats, tree)
    | (Raise e, _) => raise e
    | (Diverge, _) => diverge
    end.

End Run.

(** ** A small linear congruential generator

    An instance of the generator interface, to run the model on concrete
    inputs.  Its constants are small so that its functions stay small when
    they are normalised. *)
Module Lcg.

Definition next (st : Z) : Z := (13 * st + 7) mod 256.

Definition seed (ws : list Z) : Z := fold_left (fun acc w => next (acc + w)) ws 1.

Definition randint (high : Z) : M Z Z := fun st =>
  if 0 <? high then (Ok (st mod high), next st)
  else (Raise (ValueError "low >= high"), st).

Fixpoint randint_array (high : Z) (n : nat) : M Z (list Z) :=
  match n with
  | O => ret []
  | S n' =>
      let* v := randint high in
      let* vs := randint_array high n' in
      ret (v :: vs)
  end.

Definition random_integers (low high : Z) : M Z Z := fun st =>
  if high <? low then (Raise (ValueError "low >= high"), st)
  else (Ok (low + st mod (high - low + 1)), next st).

Definition byte_of_Z (v : Z) : byte :=
  match Byte.of_N (Z.to_N (v mod 256)) with
  | Some b => b
  | None => x00
  end.

Fixpoint bytes_nat (n : nat) (st : Z) : bytes * Z :=
  match n with
  | O => ([], st)
  | S n' =>
      let '(bs, st') := bytes_nat n' (next st) in
      (byte_of_Z st :: bs, st')
  end.

Definition bytes (n : Z) : M Z bytes := fun st =>
  if n <? 0 then (Raise (ValueError "negative dimensions are not allowed"), st)
  else let '(bs, st') := bytes_nat (Z.to_nat n) st in (Ok bs, st').

End Lcg.

(** ** Configurations of the scenarios *)

(** Half compressible data in blocks of 100 bytes. *)
Definition config_half : Config :=
  set_compressible 50 100 (initConfig "/data" 42).

(** Compressible data with a block size of zero. *)
Definition config_block0 : Config :=
  set_compressible 50 0 (initConfig "/data" 42).

(** Compressible data in blocks too large for a double's mantissa. *)
Definition config_block_huge : Config :=
  set_compressible 100 (2 ^ 53 + 3) (initConfig "/data" 42).

(** 29 percent compressible data in blocks of 100 bytes. *)
Definition config_29 : Config :=
  set_compressible 29 100 (initConfig "/data" 42).

(** ** Specifications in the words of the design *)

(** A range of sizes that [random_integers] draws from: not empty, and
    within the 64-bit integers. *)
Definition range_ok (c : category) : Prop :=
  - 2 ^ 63 <= cat_min c /\ cat_min c <= cat_max c /\ cat_max c < 2 ^ 63.

(** The paths a tree names, and the files its copy nodes read. *)
Definition touched {R : NumpyRandomState} (t : RandomDirTree) : list string :=
  omap node_path (nodes t)
  ++ omap (fun n => match node_kind_of n with CopyNode s => Some s | _ => None end)
          (nodes t).

(** Two worlds with the same entries at the paths of [S]; they may differ
    anywhere else, and in their logs. *)
Definition agree (S : list string) (w1 w2 : World) : Prop :=
  forall p, p ∈ S -> fs w1 !! p = fs w2 !! p.

(** The bytes [FileNode.write] streams into the file of a node: the chunks
    of its generator, when they come to the size of the file. *)
Definition generated_content {R : NumpyRandomState} (gen : Config) (n : node)
  : option bytes :=
  match node_kind_of n with
  | FileNode fileSeed fileSize =>
      match all_chunks (S (Z.to_nat fileSize)) (generateChunks gen fileSeed fileSize) with
      | Ok chunks =>
          if Z.of_nat (length (concat chunks)) =? fileSize then Some (concat chunks)
          else None
      | _ => None
      end
  | _ => None
  end.

(** The file of node [c] is on disk as it was generated. *)
Definition intact {R : NumpyRandomState} (gen : Config) (t : RandomDirTree)
    (w : World) (c : nat) : bool :=
  match nodes t !! c with
  | Some n =>
      match node_path n, generated_content gen n with
      | Some p, Some e =>
          match fs w !! p with
          | Some (File content) => bool_decide (content = e)
          | _ => false
          end
      | _, _ => false
      end
  | None => false
  end.

(** The file of node [c] is on disk as it was generated but for the byte at
    offset [k], which has another value. *)
Definition flipped {R : NumpyRandomState} (gen : Config) (t : RandomDirTree)
    (w : World) (c k : nat) : bool :=
  match nodes t !! c with
  | Some n =>
      match node_path n, generated_content gen n with
      | Some p, Some e =>
          match fs w !! p, e !! k with
          | Some (File content), Some b =>
              match content !! k with
              | Some b' => negb (bool_decide (b' = b))
                           && bool_decide (content = <[k := b']> e)
              | None => false
              end
          | _, _ => false
          end
      | _, _ => false
      end
  | None => false
  end.

(** The byte with every bit inverted. *)
Definition invert (b : byte) : byte :=
  default b (Byte.of_N (N.lxor (Byte.to_N b) 255)).

(** The world after the byte at offset [k] of the file [p] is inverted. *)
Definition flip_byte (p : string) (k : nat) (w : World) : World :=
  match fs w !! p with
  | Some (File content) =>
      match content !! k with
      | Some b => set_fs (<[p := File (<[k := invert b]> content)]> (fs w)) w
      | None => w
      end
  | _ => w
  end.

(** A world with the root directory, another file and a line in the log. *)
Definition other_world : World :=
  {| fs := {["/data" := Dir; "/other" := File [x01; x02]]};
     walk := fun _ => []; log := [(INFO, "earlier run")] |}.

(** The class of a node, whatever its fields hold. *)
Inductive node_class : Type := IsDir | IsFile | IsCopy.

Definition class_of (n : node) : node_class :=
  match node_kind_of n with
  | DirNode _ => IsDir
  | FileNode _ _ => IsFile
  | CopyNode _ => IsCopy
  end.

(** The number of generated files among the nodes. *)
Definition count_files (l : list node) : Z :=
  Z.of_nat (length (filter (fun n => isFileNode n = true) l)).

(** The clone count of one base file: [draw] is the value of
    [uniform_int(1,3)] when the rule draws one.

    - numCoalescent mode: with a positive budget, the count is the budget
      exactly when the remaining file count equals the budget, else
      [min(budget, uniform_int(1,3))]; the budget decreases by the count.
    - legacy mode, only when the budget is exhausted: with a positive
      counter, the count is [uniform_int(1,3)] and the counter decreases by
      one.
    - otherwise the count is zero. *)
Inductive clone_count (remaining budget legacy : Z)
  : option Z -> Z -> Z -> Z -> Prop :=
  | clone_budget_exact :
      0 < budget -> remaining = budget ->
      clone_count remaining budget legacy None budget (budget - budget) legacy
  | clone_budget_draw (draw : Z) :
      0 < budget -> remaining <> budget ->
      clone_count remaining budget legacy (Some draw)
                  (Z.min budget draw) (budget - Z.min budget draw) legacy
  | clone_legacy (draw : Z) :
      budget <= 0 -> 0 < legacy ->
      clone_count remaining budget legacy (Some draw) draw budget (legacy - 1)
  | clone_none :
      budget <= 0 -> legacy <= 0 ->
      clone_count remaining budget legacy None 0 budget legacy.

(** A category of three files of ten bytes (scenario A). *)
Definition three_small : category :=
  {| cat_min := 10; cat_max := 10; cat_num := 3;
     cat_numCoalescent := 0; cat_coalescent := 0 |}.

(** Scenario A: seed 42, no directories, three small files of ten bytes. *)
Definition config_A : Config := set_small three_small (initConfig "/data" 42).

(** Scenario A with the truncate option. *)
Definition config_A_truncate : Config := set_truncate true config_A.

(** A negative depth limit. *)
Definition config_negative_depth : Config :=
  set_dirs 2 (-1) (initConfig "/data" 42).

(** One directory under a depth limit of zero. *)
Definition config_depth0 : Config :=
  set_dirs 1 0 (initConfig "/data" 42).

(** Five directories at most two deep, and files of every kind of
    coalescence. *)
Definition config_dirs : Config :=
  set_small {| cat_min := 0; cat_max := 20; cat_num := 7;
               cat_numCoalescent := 3; cat_coalescent := 2 |}
            (set_dirs 5 2 (initConfig "/data" 42)).

(** A category whose size range is empty. *)
Definition empty_range : category :=
  {| cat_min := 5; cat_max := 1; cat_num := 1;
     cat_numCoalescent := 0; cat_coalescent := 0 |}.

(** A world with the root directory and nothing else. *)
Definition empty_world : World :=
  {| fs := {["/data" := Dir]}; walk := fun _ => []; log := [] |}.

(** * Properties *)

(** *** Facts about rounding used below *)
Section FloatFacts.

Example compress_size_50 : compress_size 100 (Float.of_int 50) = inr 50.
Proof. vm_compute. reflexivity. Qed.

Example compress_size_29 : compress_size 100 (Float.of_int 29) = inr 28.
Proof. vm_compute. reflexivity. Qed.



Lemma iter_pos_nat {A} (f : A -> A) (p : positive) (x : A) :
  SpecFloat.iter_pos f p x = Nat.iter (Pos.to_nat p) f x.
Proof.
  revert x. induction p as [p IH|p IH|]; intros x; cbn [SpecFloat.iter_pos].
  - rewrite !IH, Pos2Nat.inj_xI.
    replace (S (2 * Pos.to_nat p))%nat with (Pos.to_nat p + S (Pos.to_nat p))%nat by lia.
    rewrite Nat.iter_add, Nat.iter_succ_r. reflexivity.
  - rewrite !IH, Pos2Nat.inj_xO.
    replace (2 * Pos.to_nat p)%nat with (Pos.to_nat p + Pos.to_nat p)%nat by lia.
    rewrite Nat.iter_add. reflexivity.
  - reflexivity.
Qed.

Lemma shr_1_nonneg (m : Z) (r s : bool) :
  0 <= m ->
  shr_1 (Build_shr_record m r s) = Build_shr_record (m / 2) (Z.odd m) (r || s).
Proof.
  intros Hm. destruct m as [|p|p]; [reflexivity| |lia].
  destruct p as [p|p|]; simpl shr_1.
  - f_equal. apply (Z.div_unique_pos _ _ _ 1); lia.
  - f_equal. apply (Z.div_unique_pos _ _ _ 0); lia.
  - reflexivity.
Qed.

Lemma iter_shr_1 (n : nat) (m0 : Z) :
  0 <= m0 ->
  exists r s,
    Nat.iter n shr_1 (Build_shr_record m0 false false)
    = Build_shr_record (m0 / 2 ^ Z.of_nat n) r s
    /\ (r || s = true -> m0 mod 2 ^ Z.of_nat n <> 0).
Proof.
  intros Hm. induction n as [|n IH].
  - exists false, false. simpl. rewrite Z.div_1_r. split; [reflexivity|discriminate].
  - destruct IH as (r & s & Hit & Hex).
    cbn [Nat.iter nat_rect]. unfold Nat.iter in Hit. rewrite Hit.
    assert (Hpow : 0 < 2 ^ Z.of_nat n) by (apply Z.pow_pos_nonneg; lia).
    rewrite shr_1_nonneg by (apply Z.div_pos; lia).
    exists (Z.odd (m0 / 2 ^ Z.of_nat n)), (r || s).
    rewrite Nat2Z.inj_succ, Z.pow_succ_r by lia.
    split.
    + f_equal. rewrite Z.div_div by lia. f_equal. lia.
    + intros Hflag Hmod.
      apply Z.mod_divide in Hmod; [|lia].
      destruct Hmod as [q Hq].
      assert (Hm0 : m0 = (2 * q) * 2 ^ Z.of_nat n) by lia.
      destruct (r || s) eqn:Hrs.
      * apply Hex; [reflexivity|]. rewrite Hm0. apply Z_mod_mult.
      * rewrite orb_false_r in Hflag.
        rewrite Hm0, Z_div_mult in Hflag by lia.
        rewrite Z.odd_mul in Hflag. discriminate.
Qed.

(** Shifting right by [n] (no shift when [n <= 0]) divides the mantissa by
    a power of two, and reports an inexact result only when bits were
    lost. *)
Lemma shr_spec (m0 e n : Z) :
  0 <= m0 ->
  exists r s,
    shr (Build_shr_record m0 false false) e n
    = (Build_shr_record (m0 / 2 ^ Z.max n 0) r s, e + Z.max n 0)
    /\ (r || s = true -> m0 mod 2 ^ Z.max n 0 <> 0).
Proof.
  intros Hm. destruct n as [|p|p].
  - exists false, false. simpl. rewrite Z.div_1_r, Z.add_0_r.
    split; [reflexivity|discriminate].
  - destruct (iter_shr_1 (Pos.to_nat p) m0 Hm) as (r & s & Hit & Hex).
    exists r, s. rewrite Z.max_l by lia.
    rewrite positive_nat_Z in Hit, Hex.
    simpl shr. rewrite iter_pos_nat, Hit. split; [reflexivity|exact Hex].
  - exists false, false. simpl. rewrite Z.div_1_r, Z.add_0_r.
    split; [reflexivity|discriminate].
Qed.

Lemma round_nearest_even_cases (m : Z) (r s : bool) :
  let m' := round_nearest_even m (loc_of_shr_record (Build_shr_record m r s)) in
  m' = m \/ (m' = m + 1 /\ r || s = true).
Proof.
  destruct r, s; simpl; auto.
  destruct (Z.even m); auto.
Qed.

Lemma Zdigits2_bounds (m : Z) :
  0 < m -> 2 ^ (Zdigits2 m - 1) <= m < 2 ^ Zdigits2 m.
Proof.
  intros Hm. destruct m as [|p|p]; try lia. simpl Zdigits2. clear Hm.
  induction p as [p IH|p IH|]; simpl digits2_pos.
  - pose proof (Pos2Z.inj_xI p) as Hp. rewrite Pos2Z.inj_succ.
    set (d := Z.pos (digits2_pos p)) in *.
    replace (Z.succ d - 1) with (Z.succ (d - 1)) by lia.
    rewrite !Z.pow_succ_r by lia. lia.
  - pose proof (Pos2Z.inj_xO p) as Hp. rewrite Pos2Z.inj_succ.
    set (d := Z.pos (digits2_pos p)) in *.
    replace (Z.succ d - 1) with (Z.succ (d - 1)) by lia.
    rewrite !Z.pow_succ_r by lia. lia.
  - simpl. lia.
Qed.

Lemma Zdigits2_nonneg (m : Z) : 0 <= Zdigits2 m.
Proof. destruct m; simpl; lia. Qed.

Lemma Zdigits2_le (m b : Z) : 0 <= m -> 0 <= b -> m < 2 ^ b -> Zdigits2 m <= b.
Proof.
  intros Hm Hb Hlt. destruct (Z.eq_dec m 0) as [->|Hne]; [simpl; lia|].
  destruct (Zdigits2_bounds m ltac:(lia)) as [Hlo _].
  destruct (Z_le_gt_dec (Zdigits2 m) b) as [|Hgt]; [assumption|exfalso].
  assert (2 ^ b <= 2 ^ (Zdigits2 m - 1)) by (apply Z.pow_le_mono_r; lia).
  lia.
Qed.

(** Rounding a positive value that does not exceed the integer [c] gives a
    float whose floor does not exceed [c] either: a 53-bit integer is
    representable, so rounding to nearest cannot step over it. *)
Lemma round_floor_le (M : positive) (K c : Z) :
  0 <= K -> 0 < c < 2 ^ 53 -> Z.pos M <= c * 2 ^ K ->
  exists z,
    Float.floor (binary_round_aux Float.prec Float.emax false (Z.pos M) (- K) loc_Exact)
    = inr z /\ 0 <= z <= c.
Proof.
  intros HK Hc HM.
  unfold binary_round_aux, shr_fexp, Float.prec, Float.emax.
  cbn [shr_record_of_loc].
  set (n1 := fexp 53 1024 (Zdigits2 (Z.pos M) + - K) - - K).
  destruct (shr_spec (Z.pos M) (- K) n1 ltac:(lia)) as (r & s & Hshr & Hex).
  rewrite Hshr. cbn [shr_m].
  set (t1 := Z.max n1 0) in *.
  set (m1 := Z.pos M / 2 ^ t1) in *.
  assert (HpK : 0 < 2 ^ K) by (apply Z.pow_pos_nonneg; lia).
  pose proof (Zdigits2_bounds (Z.pos M) ltac:(lia)) as [HdLo HdHi].
  pose proof (Zdigits2_nonneg (Z.pos M)) as Hd0.
  set (d := Zdigits2 (Z.pos M)) in *.
  assert (HdK : d <= 53 + K).
  { apply Zdigits2_le; [lia|lia|].
    rewrite Z.pow_add_r by lia. nia. }
  assert (Ht1 : 0 <= t1 <= K /\ d - 53 <= t1).
  { unfold t1, n1, fexp, emin. lia. }
  destruct Ht1 as [Ht1 Ht1d].
  assert (Hpt1 : 0 < 2 ^ t1) by (apply Z.pow_pos_nonneg; lia).
  set (k := K - t1).
  assert (Hpk : 0 < 2 ^ k) by (apply Z.pow_pos_nonneg; lia).
  assert (HKs : 2 ^ K = 2 ^ k * 2 ^ t1).
  { rewrite <- Z.pow_add_r by lia. f_equal. lia. }
  assert (Hm1 : 0 <= m1) by (apply Z.div_pos; lia).
  assert (Hm1hi : m1 < 2 ^ 53).
  { apply Z.div_lt_upper_bound; [lia|].
    rewrite <- Z.pow_add_r by lia.
    apply Z.lt_le_trans with (2 ^ d); [lia|].
    apply Z.pow_le_mono_r; lia. }
  set (m2 := round_nearest_even m1 (loc_of_shr_record (Build_shr_record m1 r s))).
  assert (Hm2 : 0 <= m2 <= 2 ^ 53 /\ m2 <= c * 2 ^ k).
  { assert (Hle : m1 <= c * 2 ^ k).
    { apply Z.div_le_upper_bound; [lia|]. nia. }
    destruct (round_nearest_even_cases m1 r s) as [Heq|[Heq Hrs]]; fold m2 in Heq.
    - lia.
    - split; [lia|].
      assert (Hne : Z.pos M <> (c * 2 ^ k) * 2 ^ t1).
      { intros Heq'. apply (Hex Hrs). rewrite Heq'. apply Z_mod_mult. }
      assert (m1 < c * 2 ^ k); [|lia].
      apply Z.div_lt_upper_bound; [lia|]. nia. }
  destruct Hm2 as [Hm2 Hm2c].
  set (n2 := fexp 53 1024 (Zdigits2 m2 + (- K + t1)) - (- K + t1)).
  destruct (shr_spec m2 (- K + t1) n2 ltac:(lia)) as (r' & s' & Hshr' & _).
  rewrite Hshr'. cbn [shr_m].
  set (t2 := Z.max n2 0) in *.
  assert (Hd2 : Zdigits2 m2 <= 54).
  { apply Zdigits2_le; [lia|lia|].
    apply Z.le_lt_trans with (2 ^ 53); [lia|].
    apply Z.pow_lt_mono_r; lia. }
  pose proof (Zdigits2_nonneg m2) as Hd2'.
  assert (Ht2 : 0 <= t2 /\ - K + t1 + t2 <= 1).
  { unfold t2, n2, fexp, emin. lia. }
  destruct Ht2 as [Ht2 He3].
  assert (Hpt2 : 0 < 2 ^ t2) by (apply Z.pow_pos_nonneg; lia).
  set (m3 := m2 / 2 ^ t2).
  assert (Hm3 : 0 <= m3) by (apply Z.div_pos; lia).
  assert (Hm3' : m3 * 2 ^ t2 <= m2).
  { unfold m3. pose proof (Z.mul_div_le m2 (2 ^ t2) Hpt2). lia. }
  destruct m3 as [|p3|p3] eqn:Em3; [exists 0; simpl; split; [reflexivity|lia]| |lia].
  replace (- K + t1 + t2 <=? 1024 - 53) with true by (symmetry; apply Z.leb_le; lia).
  cbn [Float.floor].
  eexists. split; [reflexivity|].
  destruct (0 <=? - K + t1 + t2) eqn:Ee3.
  - apply Z.leb_le in Ee3.
    assert (Hpe : 0 < 2 ^ (- K + t1 + t2)) by (apply Z.pow_pos_nonneg; lia).
    split; [lia|].
    assert (Hsplit : 2 ^ t2 = 2 ^ (- K + t1 + t2) * 2 ^ k).
    { rewrite <- Z.pow_add_r by lia. f_equal. lia. }
    rewrite Hsplit in Hm3'. nia.
  - apply Z.leb_gt in Ee3.
    assert (Hpe : 0 < 2 ^ (- (- K + t1 + t2))) by (apply Z.pow_pos_nonneg; lia).
    split; [apply Z.div_pos; lia|].
    apply Z.div_le_upper_bound; [lia|].
    assert (Hsplit : 2 ^ k = 2 ^ (- (- K + t1 + t2)) * 2 ^ t2).
    { rewrite <- Z.pow_add_r by lia. f_equal. lia. }
    rewrite Hsplit in Hm2c. nia.
Qed.

Lemma shr_noop (mrs : shr_record) (e n : Z) : n <= 0 -> shr mrs e n = (mrs, e).
Proof. intros Hn. destruct n; [reflexivity|lia|reflexivity]. Qed.

(** A value that already fits the format is left alone by rounding. *)
Lemma binary_round_aux_exact (M : positive) (E : Z) :
  Z.pos M < 2 ^ 53 -> -1074 <= E <= 971 ->
  binary_round_aux Float.prec Float.emax false (Z.pos M) E loc_Exact
  = S754_finite false M E.
Proof.
  intros HM HE.
  assert (Hd : Zdigits2 (Z.pos M) <= 53) by (apply Zdigits2_le; lia).
  unfold binary_round_aux, shr_fexp, Float.prec, Float.emax.
  cbn [shr_record_of_loc].
  rewrite shr_noop by (unfold fexp, emin; lia).
  cbn [shr_m loc_of_shr_record round_nearest_even shr_record_of_loc].
  rewrite shr_noop by (unfold fexp, emin; lia).
  cbn [shr_m].
  replace (E <=? 1024 - 53) with true by (symmetry; apply Z.leb_le; lia).
  reflexivity.
Qed.

Lemma pos_iter_xO (m q : positive) :
  Z.pos (Pos.iter xO m q) = Z.pos m * 2 ^ Z.pos q.
Proof.
  induction q as [|q IH] using Pos.peano_ind.
  - simpl Pos.iter. pose proof (Pos2Z.inj_xO m). lia.
  - rewrite Pos.iter_succ, Pos2Z.inj_succ, Z.pow_succ_r by lia.
    pose proof (Pos2Z.inj_xO (Pos.iter xO m q)). lia.
Qed.

(** [float(c)] is exact for an integer of at most 53 bits. *)
Lemma of_int_small (c : Z) :
  0 < c < 2 ^ 53 ->
  exists m e, Float.of_int c = S754_finite false m e
              /\ -1074 <= e <= 0 /\ Z.pos m = c * 2 ^ (- e).
Proof.
  intros Hc. destruct c as [|p|p]; try lia.
  unfold Float.of_int, binary_normalize, binary_round.
  pose proof (Zdigits2_bounds (Z.pos p) ltac:(lia)) as [HdLo HdHi].
  assert (Hd : Zdigits2 (Z.pos p) <= 53) by (apply Zdigits2_le; lia).
  pose proof (Zdigits2_nonneg (Z.pos p)) as Hd0.
  cbn [Zdigits2] in *. set (d := Z.pos (digits2_pos p)) in *.
  assert (Hfexp : fexp Float.prec Float.emax (d + 0) = d - 53).
  { unfold fexp, emin, Float.prec, Float.emax. lia. }
  rewrite Hfexp. unfold shl_align.
  destruct (d - 53 - 0) as [|q|q] eqn:Ediff; [|lia|].
  - rewrite binary_round_aux_exact by lia.
    exists p, 0. split; [reflexivity|]. simpl. lia.
  - assert (Hq : Z.pos q = 53 - d) by lia.
    assert (Hp2 : 0 < 2 ^ Z.pos q) by (apply Z.pow_pos_nonneg; lia).
    assert (Hlt : Z.pos (Pos.iter xO p q) < 2 ^ 53).
    { rewrite pos_iter_xO.
      replace 53 with (d + Z.pos q) by lia.
      rewrite Z.pow_add_r by lia. nia. }
    rewrite binary_round_aux_exact by lia.
    exists (Pos.iter xO p q), (d - 53). split; [reflexivity|].
    split; [lia|]. rewrite pos_iter_xO. do 2 f_equal. lia.
Qed.

Lemma rate_ok_table : forallb rate_ok (map Z.of_nat (seq 0 101)) = true.
Proof. vm_compute. reflexivity. Qed.

Lemma rate_ok_percent (p : Z) : 0 <= p <= 100 -> rate_ok p = true.
Proof.
  intros Hp. pose proof rate_ok_table as Htab.
  rewrite forallb_forall in Htab. apply Htab.
  apply in_map_iff. exists (Z.to_nat p). split; [lia|].
  apply in_seq. lia.
Qed.

(** The number of fill bytes of a chunk lies between zero and the chunk
    size. *)
Lemma compress_size_bounds (c p : Z) :
  0 < c < 2 ^ 53 -> 0 <= p <= 100 ->
  exists k, compress_size c (Float.of_int p) = inr k /\ 0 <= k <= c.
Proof.
  intros Hc Hp. unfold compress_size.
  destruct (of_int_small c Hc) as (mc & ec & -> & Hec & Hmc).
  pose proof (rate_ok_percent p Hp) as Hr. unfold rate_ok in Hr.
  apply andb_true_iff in Hr as [Hr _].
  destruct (Float.div (Float.of_int p) (Float.of_int 100)) as [[]|?| |[] mr er]; try discriminate.
  - exists 0. split; [reflexivity|lia].
  - apply andb_true_iff in Hr as [Her Hmr].
    apply Z.leb_le in Her, Hmr.
    unfold Float.mul, SFmul. cbn [xorb].
    replace (ec + er) with (- (- ec + - er)) by lia.
    apply round_floor_le; [lia|lia|].
    rewrite Pos2Z.inj_mul, Hmc, Z.pow_add_r by lia.
    assert (0 < 2 ^ (- ec)) by (apply Z.pow_pos_nonneg; lia).
    nia.
Qed.

(** [rate > 0] on floats agrees with [percentage > 0]. *)
Lemma gt0_percent (p : Z) :
  0 <= p <= 100 -> Float.gt0 (Float.of_int p) = (0 <? p).
Proof.
  intros Hp. pose proof (rate_ok_percent p Hp) as Hr. unfold rate_ok in Hr.
  apply andb_true_iff in Hr as [_ Hr]. apply Bool.eqb_prop in Hr. exact Hr.
Qed.

End FloatFacts.

(** ** The small generator is a generator *)

Lemma lcg_randint_array_ok (high : Z) (n : nat) (st : Z) :
  0 < high ->
  exists vs st', Lcg.randint_array high n st = (Ok vs, st')
                 /\ length vs = n /\ Forall (fun v => 0 <= v < high) vs.
Proof.
  intros Hh. revert st. induction n as [|n IH]; intros st.
  - exists [], st. repeat split. constructor.
  - cbn [Lcg.randint_array]. unfold bind at 1. unfold Lcg.randint at 1.
    replace (0 <? high) with true by (symmetry; apply Z.ltb_lt; lia).
    destruct (IH (Lcg.next st)) as (vs & st' & Heq & Hlen & Hall).
    unfold bind at 1. rewrite Heq.
    exists (st mod high :: vs), st'. split; [reflexivity|].
    split; [simpl; lia|]. constructor; [apply Z.mod_pos_bound; lia|assumption].
Qed.

Lemma lcg_bytes_nat_length (n : nat) (st : Z) :
  length (fst (Lcg.bytes_nat n st)) = n.
Proof.
  revert st. induction n as [|n IH]; intros st; [reflexivity|].
  cbn [Lcg.bytes_nat]. specialize (IH (Lcg.next st)).
  destruct (Lcg.bytes_nat n (Lcg.next st)) as [bs st']. simpl in *. lia.
Qed.

#[local] Program Instance lcg : NumpyRandomState := {|
  rng_state := Z;
  np_seed := Lcg.seed;
  np_randint := Lcg.randint;
  np_randint_array := Lcg.randint_array;
  np_random_integers := Lcg.random_integers;
  np_bytes := Lcg.bytes
|}.
Next Obligation.
  intros high st Hh. unfold Lcg.randint.
  replace (0 <? high) with true by (symmetry; apply Z.ltb_lt; lia).
  eexists _, _. split; [reflexivity|]. apply Z.mod_pos_bound; lia.
Qed.
Next Obligation. intros. by apply lcg_randint_array_ok. Qed.
Next Obligation.
  intros low high st _ Hh _. unfold Lcg.random_integers.
  replace (high <? low) with false by (symmetry; apply Z.ltb_ge; lia).
  eexists _, _. split; [reflexivity|].
  pose proof (Z.mod_pos_bound st (high - low + 1) ltac:(lia)). lia.
Qed.
Next Obligation.
  intros low high st _ Hh _. unfold Lcg.random_integers.
  replace (high <? low) with true by (symmetry; apply Z.ltb_lt; lia).
  reflexivity.
Qed.
Next Obligation.
  intros n st Hn. unfold Lcg.bytes.
  replace (n <? 0) with false by (symmetry; apply Z.ltb_ge; lia).
  pose proof (lcg_bytes_nat_length (Z.to_nat n) st) as Hlen.
  destruct (Lcg.bytes_nat (Z.to_nat n) st) as [bs st'].
  eexists _, _. split; [reflexivity|]. simpl in Hlen. lia.
Qed.

(** ** The chunk generator *)
Section ChunkFacts.
Context {R : NumpyRandomState}.
Variable gen : Config.

(** The chunk sizes counted from [r] remaining bytes. *)
Definition sizes_from (eff r : Z) (chunks : list bytes) : Prop :=
  forall (i : nat) (c : bytes),
    chunks !! i = Some c ->
    Z.of_nat (length c) = Z.min (r - Z.of_nat (length (concat (take i chunks)))) eff.

Lemma sizes_from_cons (eff r : Z) (c : bytes) (cs : list bytes) :
  Z.of_nat (length c) = Z.min r eff ->
  sizes_from eff (r - Z.of_nat (length c)) cs ->
  sizes_from eff r (c :: cs).
Proof.
  intros Hc Hcs [|i] c' Hi; simpl in *.
  - injection Hi as <-. rewrite Z.sub_0_r. exact Hc.
  - rewrite (Hcs i c' Hi), length_app. f_equal. lia.
Qed.

(** One turn of the loop with bytes left. *)
Lemma next_chunk_some (g : chunk_gen) (p : Z) :
  0 <= p <= 100 ->
  cg_rate g = Float.of_int p ->
  1 <= cg_maxChunkSize g < 2 ^ 53 ->
  0 < cg_remaining g ->
  let c := Z.min (cg_remaining g) (cg_maxChunkSize g) in
  exists k random rng',
    compress_size c (Float.of_int p) = inr k /\ 0 <= k <= c
    /\ np_bytes (c - k) (cg_rng g) = (Ok random, rng')
    /\ Z.of_nat (length random) = c - k
    /\ next_chunk g
       = (Ok (Some (repeat xff (Z.to_nat k) ++ random)),
          {| cg_rng := rng'; cg_maxChunkSize := cg_maxChunkSize g;
             cg_rate := cg_rate g; cg_remaining := cg_remaining g - c |}).
Proof.
  intros Hp Hrate Hmax Hrem c.
  destruct (compress_size_bounds c p ltac:(lia) Hp) as (k & Hk & Hkc).
  destruct (np_bytes_ok (c - k) (cg_rng g) ltac:(lia)) as (random & rng' & Hb & Hlen).
  exists k, random, rng'. repeat split; try assumption; try lia.
  unfold next_chunk.
  replace (0 <? cg_remaining g) with true by (symmetry; apply Z.ltb_lt; lia).
  fold c. rewrite Hrate, Hk, Hb. reflexivity.
Qed.

Lemma next_chunk_none (g : chunk_gen) :
  cg_remaining g <= 0 -> next_chunk g = (Ok None, g).
Proof.
  intros Hrem. unfold next_chunk.
  replace (0 <? cg_remaining g) with false by (symmetry; apply Z.ltb_ge; lia).
  reflexivity.
Qed.

(** The generator runs to its end, and its chunks have the sizes and the
    layout of the loop body. *)
Lemma all_chunks_ok (p : Z) (fuel : nat) (g : chunk_gen) :
  0 <= p <= 100 ->
  cg_rate g = Float.of_int p ->
  1 <= cg_maxChunkSize g < 2 ^ 53 ->
  (Z.to_nat (cg_remaining g) < fuel)%nat ->
  exists chunks,
    all_chunks fuel g = Ok chunks
    /\ sizes_from (cg_maxChunkSize g) (cg_remaining g) chunks
    /\ Z.of_nat (length (concat chunks)) = Z.max (cg_remaining g) 0
    /\ Forall (fun c => c <> []) chunks
    /\ chunk_layout
         (fun c => match compress_size c (Float.of_int p) with
                   | inr k => Some k | inl _ => None end)
         (cg_rng g) chunks.
Proof.
  intros Hp. revert g. induction fuel as [|fuel IH]; intros g Hrate Hmax Hfuel; [lia|].
  cbn [all_chunks].
  destruct (Z_lt_le_dec 0 (cg_remaining g)) as [Hrem|Hrem].
  - destruct (next_chunk_some g p Hp Hrate Hmax Hrem)
      as (k & random & rng' & Hk & Hkc & Hb & Hlen & Hnext).
    rewrite Hnext.
    set (c := Z.min (cg_remaining g) (cg_maxChunkSize g)) in *.
    set (g' := {| cg_rng := rng'; cg_maxChunkSize := cg_maxChunkSize g;
                  cg_rate := cg_rate g; cg_remaining := cg_remaining g - c |}).
    destruct (IH g') as (chunks & Hall & Hsz & Hcat & Hne & Hlay);
      [exact Hrate|exact Hmax|simpl; lia|].
    rewrite Hall.
    set (chunk := repeat xff (Z.to_nat k) ++ random).
    assert (Hchunk : Z.of_nat (length chunk) = c).
    { unfold chunk. rewrite length_app, repeat_length. lia. }
    exists (chunk :: chunks). split; [reflexivity|]. split; [|split; [|split]].
    + apply sizes_from_cons; rewrite Hchunk; [reflexivity|exact Hsz].
    + simpl concat. rewrite length_app. simpl in Hcat. lia.
    + constructor; [|exact Hne]. intros Hnil. rewrite Hnil in Hchunk. simpl in Hchunk. lia.
    + apply chunk_layout_cons with (st' := rng') (k := k) (random := random);
        rewrite ?Hchunk; try assumption; try reflexivity.
      rewrite Hk. reflexivity.
  - rewrite next_chunk_none by lia.
    exists []. split; [reflexivity|]. split; [|split; [|split]].
    + intros i c Hi. destruct i; discriminate.
    + simpl. lia.
    + constructor.
    + constructor.
Qed.

End ChunkFacts.

(** ** Properties of the chunk generator *)
Section ChunkClaims.
Context {R : NumpyRandomState}.
Variable gen : Config.

Lemma all_chunks_fuel_mono (fuel extra : nat) (g : chunk_gen) (chunks : list bytes) :
  all_chunks fuel g = Ok chunks -> all_chunks (fuel + extra) g = Ok chunks.
Proof.
  revert g chunks. induction fuel as [|fuel IH]; intros g chunks; [discriminate|].
  cbn [all_chunks Nat.add].
  destruct (next_chunk g) as [[[c|]| |] g']; try discriminate; [|auto].
  destruct (all_chunks fuel g') as [cs| |] eqn:Hcs; try discriminate.
  rewrite (IH _ _ Hcs). auto.
Qed.

Lemma generateChunks_start (fileSeed fileSize : Z) :
  0 <= gen_compressible_percentage gen <= 100 ->
  let g := generateChunks gen fileSeed fileSize in
  cg_rng g = RandomState.init fileSeed
  /\ cg_rate g = Float.of_int (gen_compressible_percentage gen)
  /\ cg_maxChunkSize g = effective_chunk_size gen
  /\ cg_remaining g = fileSize.
Proof.
  intros Hp. unfold generateChunks, effective_chunk_size. cbn.
  rewrite gt0_percent by assumption. auto.
Qed.

Lemma effective_chunk_size_bounds :
  (0 < gen_compressible_percentage gen ->
   1 <= gen_compressible_blockSize gen < 2 ^ 53) ->
  1 <= effective_chunk_size gen < 2 ^ 53.
Proof.
  intros Hb. unfold effective_chunk_size.
  destruct (0 <? gen_compressible_percentage gen) eqn:Hp.
  - apply Z.ltb_lt in Hp. auto.
  - unfold MAX_CHUNK_SIZE, KB. lia.
Qed.

(** C4 (amended).  For a file of [fileSize >= 0] bytes, a percentage between
    0 and 100 and, for compressible data, a block size of at least one byte
    (and below 2^53), the chunk generator yields a finite sequence of chunks:
    every chunk has the size [min(remaining_bytes, effective_chunk_size)],
    where the effective chunk size is [blockSize] when the percentage is
    positive and 64 KiB otherwise, and the chunks together have exactly
    [fileSize] bytes. *)
Theorem generateChunks_sizes (fileSeed fileSize : Z) :
  0 <= fileSize ->
  0 <= gen_compressible_percentage gen <= 100 ->
  (0 < gen_compressible_percentage gen ->
   1 <= gen_compressible_blockSize gen < 2 ^ 53) ->
  exists chunks : list bytes,
    (forall fuel : nat, (Z.to_nat fileSize < fuel)%nat ->
       all_chunks fuel (generateChunks gen fileSeed fileSize) = Ok chunks)
    /\ chunk_sizes_as_specified gen fileSize chunks
    /\ Z.of_nat (length (concat chunks)) = fileSize.
Proof.
  intros Hsize Hp Hb.
  destruct (generateChunks_start fileSeed fileSize Hp) as (Hrng & Hrate & Hmax & Hrem).
  pose proof (effective_chunk_size_bounds Hb) as Heff.
  destruct (all_chunks_ok (gen_compressible_percentage gen)
              (S (Z.to_nat fileSize)) (generateChunks gen fileSeed fileSize))
    as (chunks & Hall & Hsz & Hcat & _ & _); try assumption.
  { rewrite Hmax. exact Heff. }
  { rewrite Hrem. lia. }
  exists chunks. split; [|split].
  - intros fuel Hfuel.
    replace fuel with (S (Z.to_nat fileSize) + (fuel - S (Z.to_nat fileSize)))%nat by lia.
    apply all_chunks_fuel_mono. exact Hall.
  - rewrite Hmax, Hrem in Hsz. exact Hsz.
  - rewrite Hcat, Hrem. lia.
Qed.

(** C5 (amended).  Every chunk of size C starts with
    [floor(C * (rate / 100.0))] bytes 0xFF, the product and the quotient
    taken in double precision as the generator computes them, and the
    remaining bytes are the next bytes of the content stream seeded with the
    file's seed.  With percentage 50, block size 100 and file size 100 the
    single chunk is exactly 50 fill bytes followed by 50 bytes of the
    stream. *)
Theorem generateChunks_layout (fileSeed fileSize : Z) :
  0 <= fileSize ->
  0 <= gen_compressible_percentage gen <= 100 ->
  (0 < gen_compressible_percentage gen ->
   1 <= gen_compressible_blockSize gen < 2 ^ 53) ->
  exists chunks : list bytes,
    all_chunks (S (Z.to_nat fileSize)) (generateChunks gen fileSeed fileSize) = Ok chunks
    /\ chunk_layout (fill_float gen) (RandomState.init fileSeed) chunks
    /\ (gen_compressible_percentage gen = 50 ->
        gen_compressible_blockSize gen = 100 ->
        fileSize = 100 ->
        exists (random : bytes) (st' : rng_state),
          np_bytes 50 (RandomState.init fileSeed) = (Ok random, st')
          /\ length random = 50%nat
          /\ chunks = [repeat xff 50 ++ random]).
Proof.
  intros Hsize Hp Hb.
  destruct (generateChunks_start fileSeed fileSize Hp) as (Hrng & Hrate & Hmax & Hrem).
  pose proof (effective_chunk_size_bounds Hb) as Heff.
  destruct (all_chunks_ok (gen_compressible_percentage gen)
              (S (Z.to_nat fileSize)) (generateChunks gen fileSeed fileSize))
    as (chunks & Hall & Hsz & Hcat & Hne & Hlay); try assumption.
  { rewrite Hmax. exact Heff. }
  { rewrite Hrem. lia. }
  exists chunks. split; [exact Hall|]. split.
  - rewrite Hrng in Hlay. exact Hlay.
  - intros H50 H100 ->.
    rewrite Hrng, Hrem in *.
    assert (Heff100 : effective_chunk_size gen = 100).
    { unfold effective_chunk_size. rewrite H50, H100. reflexivity. }
    rewrite Hmax, Heff100, H50 in *.
    inversion Hlay as [|st st' c cs k random Hfill Hk Hbytes Hc Hlay']; subst.
    { simpl in Hcat. lia. }
    assert (Hlen : Z.of_nat (length (repeat xff (Z.to_nat k) ++ random)) = 100).
    { rewrite (Hsz 0%nat _ eq_refl). simpl. lia. }
    rewrite Hlen in Hfill, Hbytes.
    assert (Hk50 : k = 50).
    { change (compress_size 100 (Float.of_int 50)) with (@inr exn Z 50) in Hfill.
      congruence. }
    subst k. change (100 - 50) with 50 in Hbytes.
    rewrite length_app, repeat_length in Hlen.
    destruct cs as [|c' cs].
    + exists random, st'. repeat split; [exact Hbytes|lia].
    + exfalso.
      pose proof (Hsz 1%nat c' eq_refl) as Hc'.
      cbn [firstn concat] in Hc'. rewrite app_nil_r, length_app, repeat_length in Hc'.
      inversion Hne as [|? ? _ Hne']; subst. inversion Hne' as [|? ? Hc0 _]; subst.
      destruct c'; [congruence|simpl in Hc'; lia].
Qed.

End ChunkClaims.

(** The amended C4 at a file of 250 bytes, half compressible in blocks of
    100 bytes. *)
Lemma generateChunks_sizes_witness :
  0 <= 250
  /\ 0 <= gen_compressible_percentage config_half <= 100
  /\ (0 < gen_compressible_percentage config_half ->
      1 <= gen_compressible_blockSize config_half < 2 ^ 53)
  /\ exists chunks : list bytes,
      (forall fuel : nat, (Z.to_nat 250 < fuel)%nat ->
         all_chunks (R := lcg) fuel (generateChunks config_half 7 250)
         = Ok chunks)
      /\ chunk_sizes_as_specified config_half 250 chunks
      /\ Z.of_nat (length (concat chunks)) = 250.
Proof.
  split; [lia|]. split; [simpl; lia|]. split; [simpl; lia|].
  apply (generateChunks_sizes (R := lcg) config_half 7 250); simpl; lia.
Defined.

(** C4 as stated fails: with a block size of zero the generator yields empty
    chunks for ever, and with a block of more than 2^53 bytes the fill count
    computed in floating point exceeds the chunk size. *)
Lemma generateChunks_sizes_counterexample :
  ~ (exists (fuel : nat) (chunks : list bytes),
       all_chunks (R := lcg) fuel (generateChunks config_block0 7 1)
       = Ok chunks)
  /\ compress_size (2 ^ 53 + 3) (Float.of_int 100) = inr (2 ^ 53 + 4)
  /\ ~ (exists (fuel : nat) (chunks : list bytes),
          all_chunks (R := lcg) fuel
            (generateChunks config_block_huge 7 (2 ^ 53 + 3))
          = Ok chunks).
Proof.
  split; [|split].
  - intros (fuel & chunks & H).
    set (g := generateChunks (R := lcg) config_block0 7 1) in H.
    assert (Hstep : next_chunk (R := lcg) g = (Ok (Some []), g))
      by (vm_compute; reflexivity).
    assert (Hdiv : all_chunks (R := lcg) fuel g = Diverge).
    { clear H. induction fuel as [|fuel IH]; [reflexivity|].
      cbn [all_chunks]. rewrite Hstep, IH. reflexivity. }
    congruence.
  - vm_compute. reflexivity.
  - intros (fuel & chunks & H).
    destruct fuel as [|fuel]; [discriminate|].
    cbn [all_chunks] in H.
    set (g := generateChunks (R := lcg) config_block_huge 7 (2 ^ 53 + 3)) in H.
    assert (Hstep : fst (next_chunk (R := lcg) g)
                    = Raise (ValueError "negative dimensions are not allowed"))
      by (vm_compute; reflexivity).
    destruct (next_chunk (R := lcg) g) as [[[c|]| |] g']; discriminate.
Qed.

(** The amended C5 at scenario C: a file of 100 bytes, half compressible in
    blocks of 100 bytes. *)
Lemma generateChunks_layout_witness :
  0 <= 100
  /\ 0 <= gen_compressible_percentage config_half <= 100
  /\ (0 < gen_compressible_percentage config_half ->
      1 <= gen_compressible_blockSize config_half < 2 ^ 53)
  /\ exists chunks : list bytes,
      all_chunks (R := lcg) (S (Z.to_nat 100))
        (generateChunks config_half 7 100) = Ok chunks
      /\ chunk_layout (fill_float config_half) (RandomState.init (R := lcg) 7) chunks
      /\ (gen_compressible_percentage config_half = 50 ->
          gen_compressible_blockSize config_half = 100 ->
          100 = 100 ->
          exists (random : bytes) (st' : rng_state),
            np_bytes 50 (RandomState.init 7) = (Ok random, st')
            /\ length random = 50%nat
            /\ chunks = [repeat xff 50 ++ random]).
Proof.
  split; [lia|]. split; [simpl; lia|]. split; [simpl; lia|].
  apply (generateChunks_layout (R := lcg) config_half 7 100); simpl; lia.
Defined.

(** C5 as stated fails: for a chunk of 100 bytes at 29 percent the generator
    writes 28 fill bytes, not [floor(100 * 29 / 100) = 29], because
    [29.0 / 100.0] is below 0.29 in double precision. *)
Lemma generateChunks_layout_counterexample :
  fill_float config_29 100 = Some 28
  /\ fill_exact config_29 100 = Some 29
  /\ ~ (exists chunks : list bytes,
          all_chunks (R := lcg) 101 (generateChunks config_29 7 100)
          = Ok chunks
          /\ chunk_layout (R := lcg) (fill_exact config_29) (RandomState.init 7) chunks).
Proof.
  split; [vm_compute; reflexivity|]. split; [vm_compute; reflexivity|].
  intros (chunks & Hall & Hlay).
  vm_compute in Hall. injection Hall as <-.
  inversion Hlay as [|st st' c cs k random Hfill Hk Hbytes Hc Hlay']; subst.
  vm_compute in Hfill. injection Hfill as <-.
  vm_compute in Hbytes. injection Hbytes as <- <-.
  vm_compute in Hc. discriminate Hc.
Qed.

(** ** Reasoning about the monad *)

(** [hoare P m Q E]: from a state in [P], [m] ends with a value and a state
    in [Q], or stops (raising or cut off) in a state in [E]. *)
Definition hoare {St A} (P : St -> Prop) (m : M St A) (Q : A -> St -> Prop)
    (E : St -> Prop) : Prop :=
  forall s, P s ->
    match m s with
    | (Ok a, s') => Q a s'
    | (_, s') => E s'
    end.

Lemma hoare_bind {St A B} (P : St -> Prop) (m : M St A) (k : A -> M St B)
    (Q : A -> St -> Prop) (Q' : B -> St -> Prop) (E : St -> Prop) :
  hoare P m Q E -> (forall a, hoare (Q a) (k a) Q' E) -> hoare P (bind m k) Q' E.
Proof.
  intros Hm Hk s Hs. unfold bind. specialize (Hm s Hs).
  destruct (m s) as [[a|e|] s']; auto. apply (Hk a s' Hm).
Qed.

Lemma hoare_ret {St A} (P : St -> Prop) (a : A) (Q : A -> St -> Prop) (E : St -> Prop) :
  (forall s, P s -> Q a s) -> hoare P (ret a) Q E.
Proof. intros H s Hs. simpl. auto. Qed.

Lemma hoare_weaken {St A} (P P' : St -> Prop) (m : M St A) (Q Q' : A -> St -> Prop)
    (E E' : St -> Prop) :
  hoare P m Q E -> (forall s, P' s -> P s) -> (forall a s, Q a s -> Q' a s) ->
  (forall s, E s -> E' s) -> hoare P' m Q' E'.
Proof.
  intros H HP HQ HE s Hs. specialize (H s (HP s Hs)).
  destruct (m s) as [[a|e|] s']; auto.
Qed.

Lemma hoare_repeatM {St} (I : St -> Prop) (E : St -> Prop) (n : nat) (body : M St unit) :
  hoare I body (fun _ => I) E -> hoare I (repeatM n body) (fun _ => I) E.
Proof.
  intros Hb. induction n as [|n IH]; simpl.
  - apply hoare_ret. auto.
  - eapply hoare_bind; [exact Hb|]. intros []. exact IH.
Qed.

(** A loop that adds to a counter at every turn. *)
Lemma hoare_repeatM_count {St} (I : Z -> St -> Prop) (E : St -> Prop) (n : nat)
    (body : M St unit) (k : Z) :
  (forall j, hoare (I j) body (fun _ => I (j + 1)) E) ->
  hoare (I k) (repeatM n body) (fun _ => I (k + Z.of_nat n)) E.
Proof.
  intros Hb. revert k. induction n as [|n IH]; intros k; simpl repeatM.
  - apply hoare_ret. intros s Hs. replace (k + Z.of_nat 0) with k by lia. exact Hs.
  - eapply hoare_bind; [apply Hb|]. intros [].
    eapply hoare_weaken; [apply (IH (k + 1))|auto| |auto].
    intros [] s Hs. replace (k + Z.of_nat (S n)) with (k + 1 + Z.of_nat n) by lia.
    exact Hs.
Qed.

(** ** The tree builder *)
Section TreeFacts.
Context {R : NumpyRandomState}.
Variable gen : Config.

(** What [_attach] leaves alone in a node: everything but the children of a
    directory. *)
Definition same_attrs (n0 n1 : node) : Prop :=
  node_parent n1 = node_parent n0
  /\ node_depth n1 = node_depth n0
  /\ node_path n1 = node_path n0
  /\ class_of n1 = class_of n0
  /\ (class_of n0 <> IsDir -> node_kind_of n1 = node_kind_of n0).

Lemma same_attrs_refl (n : node) : same_attrs n n.
Proof. repeat split. Qed.

Lemma same_attrs_trans (a b c : node) :
  same_attrs a b -> same_attrs b c -> same_attrs a c.
Proof.
  intros (H1 & H2 & H3 & H4 & H5) (G1 & G2 & G3 & G4 & G5).
  repeat split; try congruence.
  intros Hc. rewrite G5, H5; congruence.
Qed.

Lemma isDir_class (n : node) : isDir n = true <-> class_of n = IsDir.
Proof. unfold isDir, class_of. destruct (node_kind_of n); split; congruence. Qed.

Lemma isFileNode_class (n : node) : isFileNode n = true <-> class_of n = IsFile.
Proof. unfold isFileNode, class_of. destruct (node_kind_of n); split; congruence. Qed.

Lemma get_node_eq (t : RandomDirTree) (i : nat) (n : node) :
  nodes t !! i = Some n -> get_node i t = (Ok n, t).
Proof. intros H. unfold get_node. rewrite H. reflexivity. Qed.

Lemma choice_ok {A} (l : list A) (st : rng_state) :
  l <> [] ->
  exists v st' a,
    np_randint (Z.of_nat (length l)) st = (Ok v, st')
    /\ 0 <= v /\ l !! Z.to_nat v = Some a
    /\ RandomState.choice l st = (Ok a, st').
Proof.
  intros Hne.
  assert (Hlen : 0 < Z.of_nat (length l)) by (destruct l; [congruence|simpl; lia]).
  destruct (np_randint_ok _ st Hlen) as (v & st' & Hv & Hrange).
  destruct (lookup_lt_is_Some_2 l (Z.to_nat v) ltac:(lia)) as [a Ha].
  exists v, st', a. repeat split; try assumption; try lia.
  unfold RandomState.choice, bind. rewrite Hv.
  unfold RandomState.getitem.
  replace (v <? 0) with false by (symmetry; apply Z.ltb_ge; lia).
  rewrite Ha. reflexivity.
Qed.

(** [addNode] of a node that was just allocated. *)
Lemma addNode_new (t : RandomDirTree) (nd : node) (st' : rng_state)
    (dn : list nat) (q : nat) (qn : node) (cs : list nat) :
  nodes t !! q = Some qn -> node_kind_of qn = DirNode cs ->
  let n := length (nodes t) in
  addNode q n {| rng := st'; nodes := nodes t ++ [nd]; dirNodes := dn |}
  = (Ok tt,
     {| rng := st';
        nodes := <[q := set_children (cs ++ [n]) qn]>
                   (nodes t ++ [set_parent q (node_depth qn + 1) nd]);
        dirNodes := dn |}).
Proof.
  intros Hqn Hcs n.
  assert (Hqlt : (q < n)%nat) by (apply lookup_lt_Some in Hqn; exact Hqn).
  unfold addNode.
  unfold bind at 1. rewrite (get_node_eq _ q qn);
    [|cbn [nodes]; rewrite lookup_app_l by exact Hqlt; exact Hqn].
  rewrite Hcs.
  unfold bind at 1. unfold setParent.
  unfold bind at 1. rewrite (get_node_eq _ q qn);
    [|cbn [nodes]; rewrite lookup_app_l by exact Hqlt; exact Hqn].
  unfold bind at 1. rewrite (get_node_eq _ n nd);
    [|cbn [nodes]; apply list_lookup_middle; reflexivity].
  unfold set_node at 1, modify at 1. cbn [rng nodes dirNodes].
  assert (Hins : <[n := set_parent q (node_depth qn + 1) nd]> (nodes t ++ [nd])
                 = nodes t ++ [set_parent q (node_depth qn + 1) nd]).
  { unfold n. rewrite insert_app_r_alt by lia. rewrite Nat.sub_diag. reflexivity. }
  rewrite Hins.
  unfold bind at 1. rewrite (get_node_eq _ q qn);
    [|cbn [nodes]; rewrite lookup_app_l by exact Hqlt; exact Hqn].
  rewrite Hcs. reflexivity.
Qed.

(** [_attach] of a node that was just allocated: the store and the pool
    after it. *)
Lemma attach_new (t : RandomDirTree) (nd : node) :
  dir_ok gen t ->
  let n := length (nodes t) in
  exists v st' p pn q qn cs,
    np_randint (Z.of_nat (length (dirNodes t))) (rng t) = (Ok v, st')
    /\ 0 <= v /\ dirNodes t !! Z.to_nat v = Some p
    /\ nodes t !! p = Some pn /\ isDir pn = true
    /\ Some q = (if isDir nd && ((0 <? node_depth pn)
                                 && (gen_dirs_maxDepth gen <=? node_depth pn))
                 then node_parent pn else Some p)
    /\ nodes t !! q = Some qn /\ node_kind_of qn = DirNode cs
    /\ _attach gen n (snd (new_node nd t))
       = (Ok tt,
          {| rng := st';
             nodes := <[q := set_children (cs ++ [n]) qn]>
                        (nodes t ++ [set_parent q (node_depth qn + 1) nd]);
             dirNodes := dirNodes t ++ (if isDir nd then [n] else []) |}).
Proof.
  intros Hok n.
  destruct (choice_ok (dirNodes t) (rng t) (ok_dirNodes_ne gen t Hok))
    as (v & st' & p & Hv & Hv0 & Hp & Hchoice).
  destruct (ok_dirNodes gen t Hok p) as (pn & Hpn & Hpdir).
  { apply list_elem_of_lookup. eauto. }
  set (parent' := if isDir nd && ((0 <? node_depth pn)
                                  && (gen_dirs_maxDepth gen <=? node_depth pn))
                  then node_parent pn else Some p).
  assert (Hq : exists q qn, parent' = Some q /\ nodes t !! q = Some qn /\ isDir qn = true).
  { unfold parent'.
    destruct (isDir nd && _) eqn:Hcond; [|eauto].
    apply andb_true_iff in Hcond as [_ Hcond].
    apply andb_true_iff in Hcond as [Hpos _]. apply Z.ltb_lt in Hpos.
    destruct (ok_dirs gen t Hok p pn Hpn Hpdir) as [_ Hpar].
    destruct (node_parent pn) as [g|]; [|lia].
    destruct Hpar as (gn & Hgn & Hgdir & _). eauto. }
  destruct Hq as (q & qn & Hq & Hqn & Hqdir).
  assert (Hcs : exists cs, node_kind_of qn = DirNode cs).
  { unfold isDir in Hqdir. destruct (node_kind_of qn); try discriminate. eauto. }
  destruct Hcs as [cs Hcs].
  exists v, st', p, pn, q, qn, cs.
  repeat (split; [first [assumption|symmetry; exact Hq]|]).
  assert (Hplt : (p < n)%nat) by (apply lookup_lt_Some in Hpn; exact Hpn).
  unfold _attach, new_node. cbn [snd].
  unfold bind at 1. unfold gets at 1. cbn [dirNodes].
  unfold bind at 1. unfold lift_rng at 1. cbn [rng nodes dirNodes]. rewrite Hchoice.
  unfold bind at 1. rewrite (get_node_eq _ n nd);
    [|cbn [nodes]; apply list_lookup_middle; reflexivity].
  unfold parent' in Hq. destruct (isDir nd); cbn [andb] in Hq.
  - unfold bind at 1. unfold bind at 1. rewrite (get_node_eq _ p pn);
      [|cbn [nodes]; rewrite lookup_app_l by exact Hplt; exact Hpn].
    cbv zeta. rewrite Hq.
    unfold bind at 1, gets at 1. cbn [dirNodes].
    unfold bind at 1, set_dirNodes at 1, modify at 1. cbn [rng nodes dirNodes ret].
    apply addNode_new; assumption.
  - unfold bind at 1. cbn [ret]. injection Hq as ->. rewrite app_nil_r.
    apply addNode_new; assumption.
Qed.

Lemma count_files_app (l : list node) (x : node) :
  count_files (l ++ [x]) = count_files l + (if isFileNode x then 1 else 0).
Proof.
  unfold count_files. rewrite filter_app, length_app.
  rewrite filter_cons, filter_nil.
  destruct (decide (isFileNode x = true)) as [->|Hx]; simpl.
  - lia.
  - destruct (isFileNode x); [congruence|simpl; lia].
Qed.

Lemma count_files_insert (l : list node) (q : nat) (x y : node) :
  l !! q = Some y -> isFileNode x = isFileNode y ->
  count_files (<[q := x]> l) = count_files l.
Proof.
  unfold count_files. revert q. induction l as [|a l IH]; intros q Hq Hxy.
  - discriminate.
  - destruct q as [|q]; simpl in Hq.
    + injection Hq as ->. cbn [insert list_insert]. rewrite !filter_cons, Hxy.
      destruct (decide (isFileNode y = true)); reflexivity.
    + change (<[S q := x]> (a :: l)) with (a :: <[q := x]> l).
      rewrite !filter_cons. specialize (IH q Hq Hxy).
      destruct (decide (isFileNode a = true)); simpl length; lia.
Qed.

(** What [_attach] of a new node establishes. *)
Lemma attach_new_props (t : RandomDirTree) (nd : node) :
  dir_ok gen t ->
  let n := length (nodes t) in
  exists t',
    _attach gen n (snd (new_node nd t)) = (Ok tt, t')
    /\ dir_ok gen t'
    /\ length (nodes t') = S n
    /\ (forall i n0, nodes t !! i = Some n0 ->
          exists n1, nodes t' !! i = Some n1 /\ same_attrs n0 n1)
    /\ (exists nd', nodes t' !! n = Some nd'
                    /\ node_kind_of nd' = node_kind_of nd
                    /\ node_path nd' = node_path nd)
    /\ count_files (nodes t')
       = count_files (nodes t) + (if isFileNode nd then 1 else 0)
    /\ (forall i n1, nodes t' !! i = Some n1 ->
          node_kind_of n1 = node_kind_of nd
          \/ exists n0, nodes t !! i = Some n0 /\ same_attrs n0 n1).
Proof.
  intros Hok n.
  destruct (attach_new t nd Hok)
    as (v & st' & p & pn & q & qn & cs & Hv & Hv0 & Hp & Hpn & Hpdir & Hq & Hqn & Hcs & Heq).
  fold n in Heq.
  set (nd' := set_parent q (node_depth qn + 1) nd) in *.
  set (qn' := set_children (cs ++ [n]) qn) in *.
  set (t' := {| rng := st'; nodes := <[q := qn']> (nodes t ++ [nd']);
                dirNodes := dirNodes t ++ (if isDir nd then [n] else []) |}) in *.
  assert (Hqlt : (q < n)%nat) by (apply lookup_lt_Some in Hqn; exact Hqn).
  assert (Hqq : same_attrs qn qn').
  { unfold qn', set_children, same_attrs, class_of. cbn. rewrite Hcs.
    repeat split. congruence. }
  assert (Hqdir : isDir qn = true) by (unfold isDir; rewrite Hcs; reflexivity).
  assert (Hold : forall i n0, nodes t !! i = Some n0 ->
                   exists n1, nodes t' !! i = Some n1 /\ same_attrs n0 n1).
  { intros i n0 Hi. cbn [nodes t'].
    destruct (decide (i = q)) as [->|Hne].
    - exists qn'. split.
      + apply list_lookup_insert_eq. rewrite length_app. simpl. lia.
      + replace n0 with qn by congruence. exact Hqq.
    - exists n0. split; [|apply same_attrs_refl].
      rewrite list_lookup_insert_ne by congruence.
      rewrite lookup_app_l by (apply lookup_lt_Some in Hi; exact Hi). exact Hi. }
  assert (Hnew : nodes t' !! n = Some nd').
  { cbn [nodes t']. rewrite list_lookup_insert_ne by lia.
    apply list_lookup_middle. reflexivity. }
  assert (Hinv : forall i n1, nodes t' !! i = Some n1 ->
                   (i = n /\ n1 = nd')
                   \/ (exists n0, nodes t !! i = Some n0 /\ same_attrs n0 n1)).
  { intros i n1 Hi. cbn [nodes t'] in Hi.
    destruct (decide (i = q)) as [->|Hne].
    - right. exists qn. split; [exact Hqn|].
      rewrite list_lookup_insert_eq in Hi by (rewrite length_app; simpl; lia).
      injection Hi as <-. exact Hqq.
    - rewrite list_lookup_insert_ne in Hi by congruence.
      destruct (decide (i = n)) as [->|Hne'].
      + left. split; [reflexivity|].
        rewrite list_lookup_middle in Hi by reflexivity. congruence.
      + right. exists n1. split; [|apply same_attrs_refl].
        assert (i < length (nodes t ++ [nd']))%nat by (apply lookup_lt_Some in Hi; exact Hi).
        rewrite length_app in *. simpl in *.
        rewrite lookup_app_l in Hi by (fold n; lia). exact Hi. }
  assert (Hdir_attrs : forall a b, same_attrs a b -> isDir a = isDir b).
  { intros a b (_ & _ & _ & Hc & _). unfold isDir, class_of in *.
    destruct (node_kind_of a), (node_kind_of b); congruence. }
  exists t'. split; [exact Heq|]. split; [|split; [|split; [|split; [|split]]]].
  - constructor.
    + destruct (ok_root gen t Hok) as (r & Hr & Hrdir & Hrp & Hrd).
      destruct (Hold _ _ Hr) as (r' & Hr' & Hrr').
      exists r'. split; [exact Hr'|].
      pose proof (Hdir_attrs _ _ Hrr') as Hd.
      destruct Hrr' as (H1 & H2 & _). repeat split; congruence.
    + cbn [dirNodes t']. intros Hnil. apply app_eq_nil in Hnil as [Hnil _].
      exact (ok_dirNodes_ne gen t Hok Hnil).
    + intros i Hi. cbn [dirNodes t'] in Hi. apply elem_of_app in Hi as [Hi|Hi].
      * destruct (ok_dirNodes gen t Hok i Hi) as (n0 & Hn0 & Hn0dir).
        destruct (Hold _ _ Hn0) as (n1 & Hn1 & Hattrs).
        exists n1. split; [exact Hn1|]. rewrite <- (Hdir_attrs _ _ Hattrs). exact Hn0dir.
      * destruct (isDir nd) eqn:Hnd; [|inversion Hi].
        apply list_elem_of_singleton in Hi as ->.
        exists nd'. split; [exact Hnew|]. exact Hnd.
    + intros i n1 Hi Hdir.
      assert (Hparent : forall p0 pn0, nodes t !! p0 = Some pn0 -> isDir pn0 = true ->
                exists pn1, nodes t' !! p0 = Some pn1 /\ isDir pn1 = true
                            /\ node_depth pn1 = node_depth pn0).
      { intros p0 pn0 Hp0 Hp0dir. destruct (Hold _ _ Hp0) as (pn1 & Hpn1 & Hattrs).
        exists pn1. split; [exact Hpn1|]. rewrite <- (Hdir_attrs _ _ Hattrs).
        destruct Hattrs as (_ & Hd & _). auto. }
      destruct (Hinv i n1 Hi) as [[-> ->]|(n0 & Hn0 & Hattrs)].
      * (* the new directory *)
        assert (Hnd : isDir nd = true) by exact Hdir.
        rewrite Hnd in Hq. cbn [andb] in Hq.
        destruct (ok_dirs gen t Hok q qn Hqn Hqdir) as [Hqd _].
        destruct (Hparent q qn Hqn Hqdir) as (qn1 & Hqn1 & Hqn1dir & Hqn1d).
        cbn [nd' set_parent node_depth node_parent].
        split; [|exists qn1; repeat split; [exact Hqn1|exact Hqn1dir|lia]].
        destruct (ok_dirs gen t Hok p pn Hpn Hpdir) as [Hpd Hpp].
        destruct ((0 <? node_depth pn) && (gen_dirs_maxDepth gen <=? node_depth pn)) eqn:Hc.
        -- apply andb_true_iff in Hc as [Hc1 Hc2].
           apply Z.ltb_lt in Hc1. apply Z.leb_le in Hc2.
           rewrite <- Hq in Hpp. destruct Hpp as (g & Hg & _ & Hgd).
           replace g with qn in Hgd by congruence. lia.
        -- injection Hq as ->. replace qn with pn by congruence.
           apply andb_false_iff in Hc as [Hc|Hc];
             [apply Z.ltb_ge in Hc|apply Z.leb_gt in Hc]; lia.
      * (* an older directory *)
        assert (Hn0dir : isDir n0 = true) by (rewrite (Hdir_attrs _ _ Hattrs); exact Hdir).
        destruct (ok_dirs gen t Hok i n0 Hn0 Hn0dir) as [Hd Hp0].
        destruct Hattrs as (Hpar & Hdep & _).
        rewrite Hpar, Hdep. split; [exact Hd|].
        destruct (node_parent n0) as [p0|]; [|exact Hp0].
        destruct Hp0 as (pn0 & Hpn0 & Hpn0dir & Hpn0d).
        destruct (Hparent p0 pn0 Hpn0 Hpn0dir) as (pn1 & Hpn1 & Hpn1dir & Hpn1d).
        exists pn1. repeat split; [exact Hpn1|exact Hpn1dir|lia].
  - cbn [nodes t']. rewrite length_insert, length_app. simpl. fold n. lia.
  - exact Hold.
  - exists nd'. split; [exact Hnew|]. split; reflexivity.
  - cbn [nodes t'].
    rewrite (count_files_insert _ q qn' qn).
    + rewrite count_files_app. reflexivity.
    + rewrite lookup_app_l by (fold n; lia). exact Hqn.
    + unfold isFileNode, qn', set_children. cbn. rewrite Hcs. reflexivity.
  - intros i n1 Hi. destruct (Hinv i n1 Hi) as [[_ ->]|H]; [left; reflexivity|right; exact H].
Qed.

(** *** The steps of the builder keep the invariant *)

(** The files the copy nodes may refer to. *)
Variable sources : list string.

(** Every copy node refers to one of [sources]. *)
Definition copies_from (t : RandomDirTree) : Prop :=
  forall i n src, nodes t !! i = Some n -> node_kind_of n = CopyNode src ->
                  src ∈ sources.

(** A node that may join the tree. *)
Definition source_ok (nd : node) : Prop :=
  forall src, node_kind_of nd = CopyNode src -> src ∈ sources.

(** The invariant together with the number of generated files. *)
Definition Inv (k : Z) (t : RandomDirTree) : Prop :=
  dir_ok gen t /\ count_files (nodes t) = k /\ copies_from t.

(** The invariant, whatever the number of files. *)
Definition tree_ok (t : RandomDirTree) : Prop :=
  dir_ok gen t /\ copies_from t.

(** [f] refers to a generated file. *)
Definition valid_file (f : nat) (t : RandomDirTree) : Prop :=
  exists b, nodes t !! f = Some b /\ isFileNode b = true.

(** A property of the nodes and the pool only. *)
Definition stable (P : RandomDirTree -> Prop) : Prop :=
  forall t t', P t -> nodes t' = nodes t -> dirNodes t' = dirNodes t -> P t'.

Lemma dir_ok_stable : stable (dir_ok gen).
Proof.
  intros t t' [H1 H2 H3 H4] Hn Hd.
  constructor; rewrite ?Hn, ?Hd; assumption.
Qed.

Lemma copies_from_stable : stable copies_from.
Proof. intros t t' H Hn Hd i n src Hi. rewrite Hn in Hi. eauto. Qed.

Lemma Inv_stable (k : Z) : stable (Inv k).
Proof.
  intros t t' (H1 & H2 & H3) Hn Hd.
  split; [eapply dir_ok_stable; eauto|]. split; [congruence|].
  eapply copies_from_stable; eauto.
Qed.

Lemma tree_ok_stable : stable tree_ok.
Proof.
  intros t t' [H1 H2] Hn Hd.
  split; [eapply dir_ok_stable|eapply copies_from_stable]; eauto.
Qed.

Lemma valid_file_stable (f : nat) : stable (valid_file f).
Proof. intros t t' (b & Hb & Hf) Hn Hd. exists b. rewrite Hn. auto. Qed.

Lemma Inv_tree_ok (k : Z) (t : RandomDirTree) : Inv k t -> tree_ok t.
Proof. intros (H1 & _ & H3). split; assumption. Qed.

Lemma tree_ok_Inv (t : RandomDirTree) : tree_ok t -> Inv (count_files (nodes t)) t.
Proof. intros [H1 H2]. split; [exact H1|split; [reflexivity|exact H2]]. Qed.

(** A draw changes the state of the generator only. *)
Lemma hoare_lift_rng {A} (m : M rng_state A) (P : RandomDirTree -> Prop) :
  stable P -> hoare P (lift_rng m) (fun _ => P) P.
Proof.
  intros HP t Ht. unfold lift_rng.
  destruct (m (rng t)) as [[a|e|] st]; (eapply HP; [exact Ht|reflexivity|reflexivity]).
Qed.

Lemma randomSeed_ok (st : rng_state) :
  exists a st', RandomState.randomSeed st = (Ok a, st') /\ True.
Proof.
  unfold RandomState.randomSeed, bind.
  destruct (np_randint_array_ok 256 8 st ltac:(lia)) as (vs & st' & -> & _).
  eauto.
Qed.

Lemma coalescence_ok (numFiles numCoal numCoalLegacy : Z) (st : rng_state) :
  exists a st', coalescence numFiles numCoal numCoalLegacy st = (Ok a, st') /\ True.
Proof.
  unfold coalescence.
  destruct (np_random_integers_ok 1 3 st ltac:(lia) ltac:(lia) ltac:(lia)) as (v & st' & Hv & _).
  destruct (0 <? numCoal).
  - destruct (numFiles =? numCoal); unfold bind, ret; [eauto|].
    rewrite Hv. eauto.
  - destruct (0 <? numCoalLegacy); unfold bind, ret; [|eauto].
    rewrite Hv. eauto.
Qed.

(** [_attach] of a new node. *)
Lemma attach_counted (k : Z) (nd : node) (t : RandomDirTree) :
  Inv k t -> source_ok nd ->
  exists t',
    _attach gen (length (nodes t)) (snd (new_node nd t)) = (Ok tt, t')
    /\ Inv (k + (if isFileNode nd then 1 else 0)) t'
    /\ (forall f, valid_file f t -> valid_file f t')
    /\ (isFileNode nd = true -> valid_file (length (nodes t)) t').
Proof.
  intros (Hok & Hk & Hsrc) Hnd.
  destruct (attach_new_props t nd Hok)
    as (t' & Heq & Hok' & _ & Hold & (nd' & Hnd' & Hkind & _) & Hcount & Hinv).
  exists t'. split; [exact Heq|]. split; [split; [exact Hok'|split; [lia|]]|]; [|split].
  - intros i n1 src Hi Hcopy.
    destruct (Hinv i n1 Hi) as [Hnew|(n0 & Hn0 & Hattrs)].
    + apply Hnd. congruence.
    + apply (Hsrc i n0 src Hn0).
      destruct Hattrs as (_ & _ & _ & Hc & Hkeep).
      rewrite <- Hkeep; [exact Hcopy|].
      rewrite <- Hc. unfold class_of. rewrite Hcopy. discriminate.
  - intros f (b & Hb & Hbf).
    destruct (Hold f b Hb) as (b' & Hb' & (_ & _ & _ & Hc & _)).
    exists b'. split; [exact Hb'|].
    apply isFileNode_class. rewrite Hc. apply isFileNode_class. exact Hbf.
  - intros Hf. exists nd'. split; [exact Hnd'|].
    unfold isFileNode in *. rewrite Hkind. exact Hf.
Qed.

(** [_attach(DirNode())] *)
Lemma hoare_attach_DirNode (k : Z) :
  hoare (Inv k) (attach_DirNode gen) (fun _ => Inv k) (fun _ => False).
Proof.
  intros t HInv. unfold attach_DirNode, bind.
  destruct (attach_counted k (Node_init (DirNode [])) t HInv)
    as (t' & Heq & HInv' & _); [intros src; discriminate|].
  change (new_node (Node_init (DirNode [])) t)
    with (Ok (length (nodes t)), snd (new_node (Node_init (DirNode [])) t)).
  cbv beta iota. rewrite Heq. cbn in HInv'.
  replace (k + 0) with k in HInv' by lia. exact HInv'.
Qed.

(** A new file node: the store gets the node, unless the draw of the size
    fails, which it does not for a range that is [range_ok]. *)
Lemma FileNode_init_cases (c : category) (t : RandomDirTree) :
  (exists seed size st',
     FileNode_init c t
     = (Ok (length (nodes t)),
        snd (new_node (Node_init (FileNode seed size))
               {| rng := st'; nodes := nodes t; dirNodes := dirNodes t |})))
  \/ (exists o st',
        FileNode_init c t
        = (o, {| rng := st'; nodes := nodes t; dirNodes := dirNodes t |})
        /\ (forall a, o <> Ok a)
        /\ ~ range_ok c).
Proof.
  destruct (randomSeed_ok (rng t)) as (seed & st1 & Hseed & _).
  assert (Hstep : FileNode_init c t
            = match np_random_integers (cat_min c) (cat_max c) st1 with
              | (Ok size, st2) =>
                  new_node (Node_init (FileNode seed size))
                    {| rng := st2; nodes := nodes t; dirNodes := dirNodes t |}
              | (Raise e, st2) =>
                  (Raise e, {| rng := st2; nodes := nodes t; dirNodes := dirNodes t |})
              | (Diverge, st2) =>
                  (Diverge, {| rng := st2; nodes := nodes t; dirNodes := dirNodes t |})
              end).
  { unfold FileNode_init.
    unfold bind at 1, lift_rng at 1. rewrite Hseed.
    unfold bind at 1, lift_rng at 1. cbn [rng nodes dirNodes].
    destruct (np_random_integers (cat_min c) (cat_max c) st1) as [[size|e|] st2];
      reflexivity. }
  rewrite Hstep.
  destruct (np_random_integers (cat_min c) (cat_max c) st1) as [[size|e|] st2] eqn:Hdraw.
  - left. exists seed, size, st2. reflexivity.
  - right. exists (Raise e), st2. split; [reflexivity|]. split; [discriminate|].
    intros (Hlo & Hne & Hhi).
    destruct (np_random_integers_ok _ _ st1 Hlo Hne Hhi) as (v & st' & Hv & _).
    congruence.
  - right. exists Diverge, st2. split; [reflexivity|]. split; [discriminate|].
    intros (Hlo & Hne & Hhi).
    destruct (np_random_integers_ok _ _ st1 Hlo Hne Hhi) as (v & st' & Hv & _).
    congruence.
Qed.

(** One clone of a base file. *)
Lemma hoare_clone (f : nat) (j : Z) :
  hoare (fun t => Inv j t /\ valid_file f t)
        (let* clone := copy_copy f in _attach gen clone)
        (fun _ t => Inv (j + 1) t /\ valid_file f t) (fun _ => False).
Proof.
  intros t [HInv Hf]. pose proof Hf as (b & Hb & Hbf).
  unfold bind at 1, copy_copy, bind at 1. rewrite (get_node_eq _ _ _ Hb).
  destruct (attach_counted j b t HInv) as (t' & Heq & HInv' & Hold & _).
  { intros src Hsrc. unfold isFileNode in Hbf. rewrite Hsrc in Hbf. discriminate. }
  change (new_node b t) with (Ok (length (nodes t)), snd (new_node b t)).
  cbv beta iota. rewrite Heq. rewrite Hbf in HInv'. auto.
Qed.

(** The loop of [_createFileNodes] creates [numFiles] files, or stops at
    the first draw of a size from an empty range. *)
Lemma createFileNodes_loop_spec (c : category) (fuel : nat) :
  forall (numFiles numCoal numCoalLegacy k : Z),
    (Z.to_nat numFiles <= fuel)%nat ->
    hoare (Inv k)
          (createFileNodes_loop gen fuel c numFiles numCoal numCoalLegacy)
          (fun _ => Inv (k + Z.max numFiles 0))
          (fun t => tree_ok t /\ ~ range_ok c).
Proof.
  induction fuel as [|fuel IH]; intros numFiles numCoal numCoalLegacy k Hfuel t HInv.
  - cbn [createFileNodes_loop].
    replace (0 <? numFiles) with false by (symmetry; apply Z.ltb_ge; lia).
    simpl. replace (k + Z.max numFiles 0) with k by lia. exact HInv.
  - cbn [createFileNodes_loop].
    destruct (0 <? numFiles) eqn:Hpos.
    2:{ apply Z.ltb_ge in Hpos. simpl.
        replace (k + Z.max numFiles 0) with k by lia. exact HInv. }
    apply Z.ltb_lt in Hpos.
    destruct (FileNode_init_cases c t)
      as [(seed & size & st1 & Hinit)|(o & st' & Herr & Ho & Hbad)].
    2:{ unfold bind at 1. rewrite Herr.
        assert (Hok' : tree_ok {| rng := st'; nodes := nodes t; dirNodes := dirNodes t |})
          by (eapply tree_ok_stable;
              [exact (Inv_tree_ok _ _ HInv)|reflexivity|reflexivity]).
        destruct o as [a|e|]; [destruct (Ho a eq_refl)|split; assumption..]. }
    unfold bind at 1. rewrite Hinit.
    set (t0 := {| rng := st1; nodes := nodes t; dirNodes := dirNodes t |}).
    assert (HInv0 : Inv k t0) by (eapply Inv_stable; [exact HInv|reflexivity|reflexivity]).
    destruct (attach_counted k (Node_init (FileNode seed size)) t0 HInv0)
      as (t1 & Hatt & HInv1 & _ & Hvalid); [intros src; discriminate|].
    change (length (nodes t0)) with (length (nodes t)) in Hatt, Hvalid.
    unfold bind at 1. rewrite Hatt.
    cbn [isFileNode Node_init node_kind_of] in HInv1, Hvalid.
    specialize (Hvalid eq_refl).
    set (f := length (nodes t)) in *.
    unfold bind at 1, lift_rng at 1.
    destruct (coalescence_ok (numFiles - 1) numCoal numCoalLegacy (rng t1))
      as ([[copies nc] ncl] & st2 & Hco & _).
    rewrite Hco.
    set (t2 := {| rng := st2; nodes := nodes t1; dirNodes := dirNodes t1 |}).
    assert (HInv2 : Inv (k + 1) t2 /\ valid_file f t2).
    { split; [eapply Inv_stable|eapply valid_file_stable]; eauto. }
    destruct (0 <? Z.min copies (numFiles - 1)) eqn:Hcopies.
    + apply Z.ltb_lt in Hcopies.
      assert (Htail :
        hoare (fun t => Inv (k + 1) t /\ valid_file f t)
              (repeatM (Z.to_nat (Z.min copies (numFiles - 1)))
                       (let* clone := copy_copy f in _attach gen clone);;;
               createFileNodes_loop gen fuel c
                 (numFiles - 1 - Z.min copies (numFiles - 1)) nc ncl)
              (fun _ => Inv (k + Z.max numFiles 0))
              (fun t => tree_ok t /\ ~ range_ok c)).
      { eapply hoare_bind.
        - eapply hoare_weaken;
            [apply (hoare_repeatM_count
                      (fun j t => Inv j t /\ valid_file f t) (fun _ => False)
                      _ _ (k + 1)); intros j; apply hoare_clone
            |auto|intros a s H; exact H|intros s []].
        - intros []. eapply hoare_weaken;
            [apply (IH (numFiles - 1 - Z.min copies (numFiles - 1)) nc ncl
                       (k + 1 + Z.of_nat (Z.to_nat (Z.min copies (numFiles - 1)))));
             lia
            |intros s [H _]; exact H| |auto].
          intros [] s H.
          replace (k + Z.max numFiles 0)
            with (k + 1 + Z.of_nat (Z.to_nat (Z.min copies (numFiles - 1)))
                  + Z.max (numFiles - 1 - Z.min copies (numFiles - 1)) 0) by lia.
          exact H. }
      exact (Htail t2 HInv2).
    + apply Z.ltb_ge in Hcopies.
      assert (Htail := IH (numFiles - 1) nc ncl (k + 1) ltac:(lia) t2 (proj1 HInv2)).
      replace (k + Z.max numFiles 0) with (k + 1 + Z.max (numFiles - 1) 0) by lia.
      exact Htail.
Qed.

(** *** The invariant holds whatever the outcome *)

(** [m] keeps [I], also when it raises. *)
Definition keeps {St A} (I : St -> Prop) (m : M St A) : Prop :=
  hoare I m (fun _ => I) I.

Lemma keeps_bind {St A B} (I : St -> Prop) (m : M St A) (k : A -> M St B) :
  keeps I m -> (forall a, keeps I (k a)) -> keeps I (bind m k).
Proof. intros Hm Hk. eapply hoare_bind; [exact Hm|exact Hk]. Qed.

Lemma keeps_ret {St A} (I : St -> Prop) (a : A) : keeps I (ret a).
Proof. intros s Hs. exact Hs. Qed.

Lemma keeps_raise {St A} (I : St -> Prop) (e : exn) : keeps I (@raise St A e).
Proof. intros s Hs. exact Hs. Qed.

Lemma keeps_diverge {St A} (I : St -> Prop) : keeps I (@diverge St A).
Proof. intros s Hs. exact Hs. Qed.

Lemma keeps_gets {St A} (I : St -> Prop) (f : St -> A) : keeps I (gets f).
Proof. intros s Hs. exact Hs. Qed.

Lemma keeps_get {St} (I : St -> Prop) : keeps I get.
Proof. intros s Hs. exact Hs. Qed.

Lemma keeps_repeatM {St} (I : St -> Prop) (n : nat) (body : M St unit) :
  keeps I body -> keeps I (repeatM n body).
Proof. apply hoare_repeatM. Qed.

Lemma keeps_foldM {St A B} (I : St -> Prop) (f : B -> A -> M St B) (l : list A) :
  (forall b a, keeps I (f b a)) -> forall b, keeps I (foldM f l b).
Proof.
  intros Hf. induction l as [|a l IH]; intros b; cbn [foldM].
  - apply keeps_ret.
  - apply keeps_bind; [apply Hf|]. intros b'. apply IH.
Qed.

(** Two stores whose nodes agree on what the invariant looks at. *)
Definition sim (t t' : RandomDirTree) : Prop :=
  dirNodes t' = dirNodes t
  /\ forall j,
       match nodes t !! j, nodes t' !! j with
       | Some a, Some b =>
           node_parent b = node_parent a /\ node_depth b = node_depth a
           /\ isDir b = isDir a
           /\ forall src, node_kind_of b = CopyNode src -> node_kind_of a = CopyNode src
       | None, None => True
       | _, _ => False
       end.

Lemma tree_ok_sim (t t' : RandomDirTree) : sim t t' -> tree_ok t -> tree_ok t'.
Proof.
  intros [Hd Hs] [[H1 H2 H3 H4] H5].
  assert (Hfwd : forall j a, nodes t !! j = Some a ->
            exists b, nodes t' !! j = Some b /\ node_parent b = node_parent a
                      /\ node_depth b = node_depth a /\ isDir b = isDir a).
  { intros j a Ha. specialize (Hs j). rewrite Ha in Hs.
    destruct (nodes t' !! j) as [b|]; [|contradiction].
    destruct Hs as (? & ? & ? & _). eauto. }
  assert (Hbwd : forall j b, nodes t' !! j = Some b ->
            exists a, nodes t !! j = Some a /\ node_parent b = node_parent a
                      /\ node_depth b = node_depth a /\ isDir b = isDir a
                      /\ forall src, node_kind_of b = CopyNode src ->
                                     node_kind_of a = CopyNode src).
  { intros j b Hb. specialize (Hs j). rewrite Hb in Hs.
    destruct (nodes t !! j) as [a|]; [|contradiction].
    destruct Hs as (? & ? & ? & ?). eauto 10. }
  split; [constructor|].
  - destruct H1 as (r & Hr & Hrd & Hrp & Hrz).
    destruct (Hfwd _ _ Hr) as (r' & Hr' & Hp & Hz & Hdir).
    exists r'. repeat split; congruence.
  - congruence.
  - intros i Hi. rewrite Hd in Hi.
    destruct (H3 i Hi) as (a & Ha & Hadir).
    destruct (Hfwd _ _ Ha) as (b & Hb & _ & _ & Hdir). exists b. split; congruence.
  - intros i b Hb Hbdir.
    destruct (Hbwd _ _ Hb) as (a & Ha & Hp & Hz & Hdir & _).
    destruct (H4 i a Ha ltac:(congruence)) as [Hrange Hpar].
    rewrite Hp, Hz. split; [exact Hrange|].
    destruct (node_parent a) as [p|]; [|exact Hpar].
    destruct Hpar as (pn & Hpn & Hpdir & Hpz).
    destruct (Hfwd _ _ Hpn) as (pn' & Hpn' & _ & Hz' & Hdir').
    exists pn'. repeat split; congruence.
  - intros i b src Hb Hsrc.
    destruct (Hbwd _ _ Hb) as (a & Ha & _ & _ & _ & Hk). eauto.
Qed.

Lemma tree_ok_set_path (t : RandomDirTree) (i : nat) (n : node) (s : string) :
  tree_ok t -> nodes t !! i = Some n ->
  tree_ok {| rng := rng t; nodes := <[i := set_path s n]> (nodes t);
             dirNodes := dirNodes t |}.
Proof.
  intros Hok Hi. apply (tree_ok_sim t); [|exact Hok].
  split; [reflexivity|]. intros j. cbn [nodes].
  destruct (decide (j = i)) as [->|Hne].
  - rewrite Hi, list_lookup_insert_eq by (apply lookup_lt_Some in Hi; exact Hi).
    repeat split. auto.
  - rewrite list_lookup_insert_ne by congruence.
    destruct (nodes t !! j); repeat split. auto.
Qed.

Lemma keeps_get_node (I : RandomDirTree -> Prop) (i : nat) : keeps I (get_node i).
Proof. intros t Ht. unfold get_node. destruct (nodes t !! i); exact Ht. Qed.

Lemma keeps_setName (self : nat) (name : Z) : keeps tree_ok (setName gen self name).
Proof.
  intros t Hok. unfold setName, bind, get_node.
  destruct (nodes t !! self) as [n|] eqn:Hn; [|exact Hok].
  destruct (node_parent n) as [p|]; [|exact Hok].
  destruct (nodes t !! p) as [pn|]; [|exact Hok].
  destruct (node_path pn) as [pp|]; [|exact Hok].
  apply tree_ok_set_path; assumption.
Qed.

Lemma keeps_Node_nameNodes (self : nat) (namer : Z) :
  keeps tree_ok (Node_nameNodes gen self namer).
Proof.
  unfold Node_nameNodes. apply keeps_bind; [apply keeps_setName|].
  intros []. apply keeps_ret.
Qed.

Lemma keeps_nameNodes (fuel : nat) :
  forall self namer, keeps tree_ok (nameNodes gen fuel self namer).
Proof.
  induction fuel as [|fuel IH]; intros self namer; cbn [nameNodes].
  - apply keeps_diverge.
  - apply keeps_bind; [apply keeps_get_node|]. intros n.
    destruct (node_kind_of n); try apply keeps_Node_nameNodes.
    apply keeps_bind.
    + destruct (isRoot n); [apply keeps_ret|apply keeps_Node_nameNodes].
    + intros namer'. apply keeps_foldM. intros b a. apply IH.
Qed.

Lemma keeps_attach_DirNode : keeps tree_ok (attach_DirNode gen).
Proof.
  intros t Hok.
  pose proof (hoare_attach_DirNode _ t (tree_ok_Inv t Hok)) as H.
  destruct (attach_DirNode gen t) as [[a|e|] t']; try contradiction.
  exact (Inv_tree_ok _ _ H).
Qed.

Lemma keeps_createFileNodes (c : category) : keeps tree_ok (_createFileNodes gen c).
Proof.
  intros t Hok. unfold _createFileNodes.
  destruct ((cat_num c <? cat_numCoalescent c) || (cat_num c <? cat_coalescent c));
    [exact Hok|].
  pose proof (createFileNodes_loop_spec c (Z.to_nat (cat_num c)) (cat_num c)
                (cat_numCoalescent c) (cat_coalescent c) (count_files (nodes t))
                ltac:(lia) t (tree_ok_Inv t Hok)) as H.
  destruct (createFileNodes_loop _ _ _ _ _ _ t) as [[a|e|] t'];
    [exact (Inv_tree_ok _ _ H)|exact (proj1 H)|exact (proj1 H)].
Qed.

Lemma keeps_new_leaf_attach (nd : node) :
  source_ok nd -> keeps tree_ok (let* n := new_node nd in _attach gen n).
Proof.
  intros Hnd t Hok. unfold bind.
  destruct (attach_counted _ nd t (tree_ok_Inv t Hok) Hnd) as (t' & Heq & HInv' & _).
  change (new_node nd t) with (Ok (length (nodes t)), snd (new_node nd t)).
  cbv beta iota. rewrite Heq. exact (Inv_tree_ok _ _ HInv').
Qed.

Lemma keeps_choice_source (l : list string) (k : string -> M RandomDirTree unit) :
  (forall src, src ∈ l -> keeps tree_ok (k src)) ->
  keeps tree_ok (let* src := lift_rng (RandomState.choice l) in k src).
Proof.
  intros Hk t Hok. unfold bind at 1, lift_rng.
  destruct (RandomState.choice l (rng t)) as [[src|e|] st] eqn:Hch;
    try (eapply tree_ok_stable; [exact Hok|reflexivity|reflexivity]).
  assert (Hin : src ∈ l).
  { unfold RandomState.choice, bind in Hch.
    destruct (np_randint _ _) as [[v| |] st1]; try discriminate.
    unfold RandomState.getitem in Hch.
    destruct (if v <? 0 then None else l !! Z.to_nat v) as [a|] eqn:Hl; try discriminate.
    injection Hch as <- <-.
    destruct (v <? 0); [discriminate|].
    apply list_elem_of_lookup. eauto. }
  apply (Hk src Hin). eapply tree_ok_stable; [exact Hok|reflexivity|reflexivity].
Qed.

Lemma keeps_createCopyNodes (w : World) :
  (forall src, src ∈ walk w (gen_copied_sourceDir gen) -> src ∈ sources) ->
  keeps tree_ok (_createCopyNodes gen w).
Proof.
  intros Hsub. unfold _createCopyNodes.
  destruct (gen_copied_num gen =? 0); [apply keeps_ret|].
  destruct (filter _ _) as [|a l] eqn:Hl; [apply keeps_raise|].
  apply keeps_repeatM. apply keeps_choice_source.
  intros src Hin. apply keeps_new_leaf_attach.
  intros src' Hsrc'. cbn in Hsrc'. injection Hsrc' as <-.
  apply Hsub. rewrite <- Hl in Hin. apply list_elem_of_filter in Hin. tauto.
Qed.

Lemma hoare_pop0 (dn : list nat) :
  hoare (fun t => tree_ok t /\ dn = dirNodes t)
        (if (1 <? length dn)%nat then set_dirNodes (drop 1 dn) else ret tt)
        (fun _ => tree_ok) tree_ok.
Proof.
  intros t [Hok ->].
  destruct (1 <? length (dirNodes t))%nat eqn:Hlen; [|exact Hok].
  apply Nat.ltb_lt in Hlen.
  unfold set_dirNodes, modify. destruct Hok as [[H1 H2 H3 H4] H5].
  split; [constructor|]; cbn [nodes dirNodes]; try assumption.
  - destruct (dirNodes t) as [|a [|b l]]; simpl in *; try lia. discriminate.
  - intros i Hi. apply H3. destruct (dirNodes t); [inversion Hi|].
    simpl in Hi. rewrite drop_0 in Hi. right. exact Hi.
Qed.

Lemma keeps_createNodes (w : World) :
  (forall src, src ∈ walk w (gen_copied_sourceDir gen) -> src ∈ sources) ->
  keeps tree_ok (_createNodes gen w).
Proof.
  intros Hsub. unfold _createNodes.
  apply keeps_bind; [apply keeps_repeatM, keeps_attach_DirNode|]. intros [].
  eapply hoare_bind with (Q := fun dn t => tree_ok t /\ dn = dirNodes t).
  { intros t Ht. split; [exact Ht|reflexivity]. }
  intros dn. eapply hoare_bind; [apply hoare_pop0|]. intros [].
  repeat (apply keeps_bind; [apply keeps_createFileNodes|]; intros []).
  apply keeps_createCopyNodes. exact Hsub.
Qed.

Lemma keeps_build (w : World) :
  (forall src, src ∈ walk w (gen_copied_sourceDir gen) -> src ∈ sources) ->
  keeps tree_ok (RandomDirTree_build gen w).
Proof.
  intros Hsub. unfold RandomDirTree_build.
  apply keeps_bind.
  { destruct (gen_dirs_maxDepth gen <? 0); [|apply keeps_ret].
    destruct (str_add _ _); apply keeps_raise. }
  intros []. apply keeps_bind; [apply keeps_createNodes; exact Hsub|]. intros [].
  apply keeps_bind.
  { destruct (gen_readable_filenames gen); [|apply keeps_raise].
    apply keeps_bind; [apply keeps_get|]. intros t.
    apply keeps_bind; [apply keeps_nameNodes|]. intros ?. apply keeps_ret. }
  intros []. apply keeps_bind; [apply keeps_get|]. intros t.
  destruct (measure _ _ _ _ _); [apply keeps_ret|apply keeps_raise|apply keeps_diverge].
Qed.

Lemma dir_ok_new (rootDir : string) : dir_ok gen (RandomDirTree_new gen rootDir).
Proof.
  constructor; cbn.
  - eexists. repeat split.
  - discriminate.
  - intros i Hi. apply list_elem_of_singleton in Hi as ->. eexists. split; reflexivity.
  - intros [|i] n Hn Hdir; [|destruct i; discriminate].
    injection Hn as <-. cbn. split; [lia|reflexivity].
Qed.

Lemma tree_ok_new (rootDir : string) : tree_ok (RandomDirTree_new gen rootDir).
Proof.
  split; [apply dir_ok_new|].
  intros [|i] n src Hn Hsrc; [|destruct i; discriminate].
  injection Hn as <-. discriminate.
Qed.

Lemma tree_ok_init (w : World) (rootDir : string) :
  (forall src, src ∈ walk w (gen_copied_sourceDir gen) -> src ∈ sources) ->
  tree_ok (snd (RandomDirTree_init gen w rootDir)).
Proof.
  intros Hsub. unfold RandomDirTree_init.
  pose proof (keeps_build w Hsub _ (tree_ok_new rootDir)) as H.
  destruct (RandomDirTree_build gen w _) as [[a|e|] t]; exact H.
Qed.

End TreeFacts.

Section TreeCorollaries.
Context {R : NumpyRandomState}.
Variable gen : Config.

(** The sources of the copy nodes of a tree. *)
Definition all_sources (t : RandomDirTree) : list string :=
  omap (fun n => match node_kind_of n with CopyNode s => Some s | _ => None end)
       (nodes t).

Lemma copies_from_all_sources (t : RandomDirTree) : copies_from (all_sources t) t.
Proof.
  intros i n src Hi Hk. apply list_elem_of_omap. exists n.
  split; [eapply list_elem_of_lookup_2; exact Hi|]. rewrite Hk. reflexivity.
Qed.

Lemma dir_ok_init (w : World) (rootDir : string) :
  dir_ok gen (snd (RandomDirTree_init gen w rootDir)).
Proof.
  apply (tree_ok_init gen (walk w (gen_copied_sourceDir gen)) w rootDir).
  auto.
Qed.

Lemma dir_ok_directories (rootDir : string) (k : nat) :
  dir_ok gen (snd (repeatM k (attach_DirNode gen) (RandomDirTree_new gen rootDir))).
Proof.
  pose proof (keeps_repeatM (tree_ok gen []) k _ (keeps_attach_DirNode gen [])
                _ (tree_ok_new gen [] rootDir)) as H.
  destruct (repeatM k _ _) as [[a|e|] t0]; exact (proj1 H).
Qed.

End TreeCorollaries.

(** ** Properties of the tree builder *)
Section TreeClaims.
Context {R : NumpyRandomState}.
Variable gen : Config.

(** C3 (amended).  For every configuration with [maxDepth >= 1], every
    directory node of the built tree has [depth <= maxDepth]; and whenever,
    while the directories are created, the drawn parent is not the root and
    has a depth of at least [maxDepth], the new directory is attached to that
    parent's parent instead. *)
Theorem directory_depth_bound :
  1 <= gen_dirs_maxDepth gen ->
  (forall (w : World) (rootDir : string) (i : nat) (n : node),
     nodes (snd (RandomDirTree_init gen w rootDir)) !! i = Some n ->
     isDir n = true ->
     node_depth n <= gen_dirs_maxDepth gen)
  /\ (forall (rootDir : string) (k : nat),
        let t := snd (repeatM k (attach_DirNode gen) (RandomDirTree_new gen rootDir)) in
        forall (v : Z) (st' : rng_state) (p : nat) (pn : node) (g : nat),
          np_randint (Z.of_nat (length (dirNodes t))) (rng t) = (Ok v, st') ->
          dirNodes t !! Z.to_nat v = Some p ->
          nodes t !! p = Some pn ->
          gen_dirs_maxDepth gen <= node_depth pn ->
          node_parent pn = Some g ->
          exists (t' : RandomDirTree) (nd' gn : node) (cs : list nat),
            attach_DirNode gen t = (Ok tt, t')
            /\ nodes t' !! length (nodes t) = Some nd'
            /\ node_parent nd' = Some g
            /\ nodes t' !! g = Some gn
            /\ node_kind_of gn = DirNode (cs ++ [length (nodes t)])).
Proof.
  intros Hmax. split.
  - intros w rootDir i n Hn Hdir.
    destruct (ok_dirs gen _ (dir_ok_init gen w rootDir) i n Hn Hdir) as [Hd _]. lia.
  - intros rootDir k t v st' p pn g Hv Hp Hpn Hdeep Hg.
    assert (Hok : dir_ok gen t) by apply dir_ok_directories.
    destruct (attach_new gen t (Node_init (DirNode [])) Hok)
      as (v0 & st0 & p0 & pn0 & q & qn & cs & Hv0 & _ & Hp0 & Hpn0 & Hpdir & Hq
          & Hqn & Hcs & Heq).
    rewrite Hv in Hv0. injection Hv0 as <- <-.
    rewrite Hp in Hp0. injection Hp0 as <-.
    rewrite Hpn in Hpn0. injection Hpn0 as <-.
    assert (Hpos : 0 < node_depth pn).
    { destruct (ok_dirs gen t Hok p pn Hpn Hpdir) as [_ Hpar].
      rewrite Hg in Hpar. destruct Hpar as (gn & Hgn & Hgdir & Hgd).
      destruct (ok_dirs gen t Hok g gn Hgn Hgdir) as [Hgz _]. lia. }
    cbn [isDir Node_init node_kind_of andb] in Hq.
    replace (0 <? node_depth pn) with true in Hq by (symmetry; apply Z.ltb_lt; lia).
    replace (gen_dirs_maxDepth gen <=? node_depth pn) with true in Hq
      by (symmetry; apply Z.leb_le; lia).
    cbn [andb] in Hq. rewrite Hg in Hq. injection Hq as ->.
    assert (Hglt : (g < length (nodes t))%nat) by (apply lookup_lt_Some in Hqn; exact Hqn).
    eexists _, _, _, cs. split; [|split; [|split; [|split]]].
    + unfold attach_DirNode, bind.
      change (new_node (Node_init (DirNode [])) t)
        with (Ok (length (nodes t)), snd (new_node (Node_init (DirNode [])) t)).
      cbv beta iota. exact Heq.
    + cbn [nodes]. rewrite list_lookup_insert_ne by lia.
      apply list_lookup_middle. reflexivity.
    + reflexivity.
    + cbn [nodes]. apply list_lookup_insert_eq. rewrite length_app. simpl. lia.
    + reflexivity.
Qed.


(** C8.  With a negative [maxDepth] the construction of the tree stops
    before any node beyond the root is created.  The exception is the
    [TypeError] of the concatenation of the message with the integer, not
    the [Error] the statement means to raise. *)
Theorem negative_maxDepth_raises_TypeError (w : World) (rootDir : string) :
  gen_dirs_maxDepth gen < 0 ->
  RandomDirTree_init gen w rootDir
  = (Raise (TypeError "can only concatenate str (not int) to str"),
     RandomDirTree_new gen rootDir)
  /\ length (nodes (RandomDirTree_new gen rootDir)) = 1%nat.
Proof.
  intros Hneg. split; [|reflexivity].
  unfold RandomDirTree_init, RandomDirTree_build.
  unfold bind at 1.
  replace (gen_dirs_maxDepth gen <? 0) with true by (symmetry; apply Z.ltb_lt; lia).
  reflexivity.
Qed.

(** C10 (amended).  For a size category with a non-negative file count,
    coalescence settings not above that count and a size range that is not
    empty ([min <= max]) and lies within the 64-bit integers,
    [_createFileNodes] creates exactly [num] file nodes, base files and
    clones together, whatever the draws. *)
Theorem createFileNodes_count (c : category) (t : RandomDirTree) :
  dir_ok gen t ->
  0 <= cat_num c ->
  cat_numCoalescent c <= cat_num c ->
  cat_coalescent c <= cat_num c ->
  - 2 ^ 63 <= cat_min c ->
  cat_min c <= cat_max c ->
  cat_max c < 2 ^ 63 ->
  exists t' : RandomDirTree,
    _createFileNodes gen c t = (Ok tt, t')
    /\ count_files (nodes t') = count_files (nodes t) + cat_num c.
Proof.
  intros Hok Hnum Hcoal Hleg Hlo Hrange Hhi. unfold _createFileNodes.
  replace (cat_num c <? cat_numCoalescent c) with false
    by (symmetry; apply Z.ltb_ge; lia).
  replace (cat_num c <? cat_coalescent c) with false
    by (symmetry; apply Z.ltb_ge; lia).
  cbn [orb].
  pose proof (createFileNodes_loop_spec gen (all_sources t) c (Z.to_nat (cat_num c))
                (cat_num c) (cat_numCoalescent c) (cat_coalescent c)
                (count_files (nodes t)) ltac:(lia) t
                (conj Hok (conj eq_refl (copies_from_all_sources t)))) as H.
  destruct (createFileNodes_loop _ _ _ _ _ _ t) as [[[]|e|] t'].
  - exists t'. split; [reflexivity|]. destruct H as (_ & H & _). rewrite H. lia.
  - destruct H as [_ []]. repeat split; assumption.
  - destruct H as [_ []]. repeat split; assumption.
Qed.

End TreeClaims.

(** The amended C3 at five directories under a depth limit of two: the
    directory [/data/4/5] is two levels deep, and the fifth directory, whose
    drawn parent is that directory, goes to [/data/4] instead. *)
Lemma directory_depth_bound_witness :
  1 <= gen_dirs_maxDepth config_dirs
  /\ (exists n : node,
        nodes (snd (RandomDirTree_init (R := lcg) config_dirs empty_world "/data"))
          !! 4%nat = Some n
        /\ node_path n = Some "/data/4/5"
        /\ isDir n = true
        /\ node_depth n <= gen_dirs_maxDepth config_dirs)
  /\ (let t := snd (repeatM 4 (attach_DirNode config_dirs)
                      (RandomDirTree_new (R := lcg) config_dirs "/data")) in
      exists (t' : RandomDirTree) (nd' gn : node) (cs : list nat),
        attach_DirNode config_dirs t = (Ok tt, t')
        /\ nodes t' !! length (nodes t) = Some nd'
        /\ node_parent nd' = Some 2%nat
        /\ nodes t' !! 2%nat = Some gn
        /\ node_kind_of gn = DirNode (cs ++ [length (nodes t)])).
Proof.
  assert (Hmax : 1 <= gen_dirs_maxDepth config_dirs) by (simpl; lia).
  destruct (directory_depth_bound (R := lcg) config_dirs Hmax) as [Hdepth Hmove].
  split; [exact Hmax|]. split.
  - eexists. split; [vm_compute; reflexivity|]. split; [reflexivity|].
    split; [reflexivity|].
    apply (Hdepth empty_world "/data" 4%nat); [vm_compute; reflexivity|reflexivity].
  - apply (Hmove "/data" 4%nat 4 156 4%nat
             {| node_parent := Some 2%nat; node_depth := 2; node_path := None;
                node_kind_of := DirNode [] |} 2%nat).
    + vm_compute. reflexivity.
    + vm_compute. reflexivity.
    + vm_compute. reflexivity.
    + simpl. lia.
    + reflexivity.
Defined.

(** C3 as stated fails for [maxDepth = 0]: the first directory is attached
    to the root, which has no parent to move it to, and has depth 1. *)
Lemma directory_depth_bound_counterexample :
  0 <= gen_dirs_maxDepth config_depth0
  /\ exists n : node,
       nodes (snd (RandomDirTree_init (R := lcg) config_depth0 empty_world "/data"))
         !! 1%nat = Some n
       /\ isDir n = true
       /\ node_depth n = 1
       /\ ~ node_depth n <= gen_dirs_maxDepth config_depth0.
Proof.
  split; [simpl; lia|].
  eexists. split; [vm_compute; reflexivity|].
  split; [reflexivity|]. split; [reflexivity|]. simpl. lia.
Qed.

(** C8 at a depth limit of -1. *)
Lemma negative_maxDepth_witness :
  gen_dirs_maxDepth config_negative_depth < 0
  /\ RandomDirTree_init (R := lcg) config_negative_depth empty_world "/data"
     = (Raise (TypeError "can only concatenate str (not int) to str"),
        RandomDirTree_new config_negative_depth "/data")
  /\ length (nodes (RandomDirTree_new (R := lcg) config_negative_depth "/data")) = 1%nat.
Proof.
  split; [simpl; lia|].
  apply (negative_maxDepth_raises_TypeError (R := lcg) config_negative_depth).
  simpl. lia.
Defined.

(** The amended C10 at seven files, three of them coalescent, in an empty
    tree. *)
Lemma createFileNodes_count_witness :
  dir_ok config_dirs (RandomDirTree_new (R := lcg) config_dirs "/data")
  /\ 0 <= cat_num (gen_small config_dirs)
  /\ cat_numCoalescent (gen_small config_dirs) <= cat_num (gen_small config_dirs)
  /\ cat_coalescent (gen_small config_dirs) <= cat_num (gen_small config_dirs)
  /\ - 2 ^ 63 <= cat_min (gen_small config_dirs)
  /\ cat_min (gen_small config_dirs) <= cat_max (gen_small config_dirs)
  /\ cat_max (gen_small config_dirs) < 2 ^ 63
  /\ exists t' : RandomDirTree,
       _createFileNodes config_dirs (gen_small config_dirs)
         (RandomDirTree_new (R := lcg) config_dirs "/data") = (Ok tt, t')
       /\ count_files (nodes t')
          = count_files (nodes (RandomDirTree_new (R := lcg) config_dirs "/data"))
            + cat_num (gen_small config_dirs).
Proof.
  split; [apply dir_ok_new|].
  split; [simpl; lia|]. split; [simpl; lia|]. split; [simpl; lia|].
  split; [simpl; lia|]. split; [simpl; lia|]. split; [simpl; lia|].
  apply (createFileNodes_count (R := lcg) config_dirs);
    [apply dir_ok_new|simpl; lia..].
Defined.

(** C10 as stated fails for a category whose size range is empty: the draw
    of the first file size raises [ValueError], and no file node is
    created. *)
Lemma createFileNodes_count_counterexample :
  0 <= cat_num empty_range
  /\ cat_numCoalescent empty_range <= cat_num empty_range
  /\ cat_coalescent empty_range <= cat_num empty_range
  /\ fst (_createFileNodes (R := lcg) config_A empty_range
            (RandomDirTree_new config_A "/data"))
     = Raise (ValueError "low >= high")
  /\ count_files
       (nodes (snd (_createFileNodes (R := lcg) config_A empty_range
                      (RandomDirTree_new config_A "/data"))))
     <> count_files (nodes (RandomDirTree_new (R := lcg) config_A "/data"))
        + cat_num empty_range.
Proof.
  split; [simpl; lia|]. split; [simpl; lia|]. split; [simpl; lia|].
  split; [vm_compute; reflexivity|]. vm_compute. discriminate.
Qed.

(** ** Writing and verifying one file *)
Section FileFacts.
Context {R : NumpyRandomState}.
Variable gen : Config.

Lemma set_fs_id (w : World) : set_fs (fs w) w = w.
Proof. destruct w. reflexivity. Qed.

Lemma set_fs_set_fs (f g : gmap string entry) (w : World) :
  set_fs f (set_fs g w) = set_fs f w.
Proof. reflexivity. Qed.

Lemma file_content_eq (f : file) (c : bytes) (w : World) :
  fs w !! f_path f = Some (File c) -> file_content f w = (Ok c, w).
Proof. intros H. unfold file_content. rewrite H. reflexivity. Qed.

Lemma open_wb_eq (p : string) (w : World) :
  fs w !! p <> Some Dir ->
  open_wb p w = (Ok {| f_path := p; f_pos := 0 |}, set_fs (<[p := File []]> (fs w)) w).
Proof.
  intros H. unfold open_wb. destruct (fs w !! p) as [[|c]|]; try reflexivity.
  congruence.
Qed.

(** With the truncate option the write of a file of positive size stops at
    the boundary byte. *)
Lemma FileNode_write_truncate (n : node) (fileSeed fileSize : Z)
    (p : string) (w : World) :
  gen_truncate gen = true ->
  0 < fileSize ->
  node_path n = Some p ->
  fs w !! p <> Some Dir ->
  FileNode_write gen n fileSeed fileSize w
  = (Raise (TypeError "a bytes-like object is required, not 'str'"),
     set_fs (<[p := File (replicate (Z.to_nat fileSize) x00)]> (fs w)) w).
Proof.
  intros Htrunc Hsize Hpath Hdir.
  unfold FileNode_write, path_of. rewrite Hpath, Htrunc.
  unfold bind at 1. cbn [ret].
  unfold bind at 1. rewrite open_wb_eq by exact Hdir.
  unfold bind at 1. unfold FileNode_truncate.
  unfold bind at 1. unfold file_truncate.
  replace (fileSize <? 0) with false by (symmetry; apply Z.ltb_ge; lia).
  unfold bind at 1.
  rewrite (file_content_eq _ []) by (cbn; apply lookup_insert_eq).
  unfold set_content, modify. cbn [f_path fs set_fs].
  rewrite insert_insert_eq.
  replace (0 <? fileSize) with true by (symmetry; apply Z.ltb_lt; lia).
  unfold bind at 1. unfold file_seek.
  replace (fileSize - 1 <? 0) with false by (symmetry; apply Z.ltb_ge; lia).
  cbn [ret file_write raise type_name].
  rewrite resize_nil. reflexivity.
Qed.


Lemma write_at_end (c d : bytes) : write_at c (length c) d = c ++ d.
Proof.
  unfold write_at. rewrite resize_all, drop_ge by lia. rewrite app_nil_r. reflexivity.
Qed.

(** The loop of [FileNode.write] appends the chunks to the file. *)
Lemma for_chunks_write (p : string) (fuel : nat) :
  forall (g : chunk_gen) (chunks : list bytes) (w : World) (c0 : bytes),
    all_chunks fuel g = Ok chunks ->
    fs w !! p = Some (File c0) ->
    for_chunks fuel g
      (fun output chunk =>
         let* output := file_write output (PyBytes chunk) in ret (output, true))
      {| f_path := p; f_pos := Z.of_nat (length c0) |} w
    = (Ok ({| f_path := p; f_pos := Z.of_nat (length (c0 ++ concat chunks)) |}, true),
       set_fs (<[p := File (c0 ++ concat chunks)]> (fs w)) w).
Proof.
  induction fuel as [|fuel IH]; intros g chunks w c0 Hall Hfs; [discriminate|].
  cbn [all_chunks] in Hall. cbn [for_chunks].
  destruct (next_chunk g) as [[[c|]| |] g']; try discriminate.
  - destruct (all_chunks fuel g') as [cs| |] eqn:Hcs; try discriminate.
    injection Hall as <-.
    unfold bind at 1. unfold bind at 1. unfold file_write.
    unfold bind at 1. rewrite (file_content_eq _ c0) by exact Hfs.
    unfold bind at 1. unfold set_content, modify. cbn [f_path f_pos ret fst snd].
    rewrite Nat2Z.id, write_at_end.
    replace (Z.of_nat (length c0) + Z.of_nat (length c))
      with (Z.of_nat (length (c0 ++ c))) by (rewrite length_app; lia).
    rewrite (IH g' cs _ (c0 ++ c) Hcs) by (cbn; apply lookup_insert_eq).
    cbn [fs set_fs concat]. rewrite insert_insert_eq, <- !app_assoc. reflexivity.
  - injection Hall as <-. cbn [ret concat]. rewrite app_nil_r.
    rewrite insert_id by exact Hfs. rewrite set_fs_id. reflexivity.
Qed.

(** Without the truncate option the file holds the chunks, one after the
    other. *)
Lemma FileNode_write_ok (n : node) (fileSeed fileSize : Z) (p : string)
    (chunks : list bytes) (w : World) :
  gen_truncate gen = false ->
  node_path n = Some p ->
  fs w !! p <> Some Dir ->
  all_chunks (S (Z.to_nat fileSize)) (generateChunks gen fileSeed fileSize) = Ok chunks ->
  FileNode_write gen n fileSeed fileSize w
  = (Ok tt, set_fs (<[p := File (concat chunks)]> (fs w)) w).
Proof.
  intros Htrunc Hpath Hdir Hall.
  unfold FileNode_write, path_of. rewrite Hpath, Htrunc.
  unfold bind at 1. cbn [ret].
  unfold bind at 1. rewrite open_wb_eq by exact Hdir.
  unfold bind at 1. cbn [ret].
  unfold bind at 1. unfold file_seek. cbn [Z.ltb Z.compare ret f_path].
  unfold bind at 1.
  change 0 with (Z.of_nat (length (@nil byte))).
  rewrite (for_chunks_write p _ _ chunks _ [] Hall) by (cbn; apply lookup_insert_eq).
  cbn [fs set_fs app]. rewrite insert_insert_eq. reflexivity.
Qed.

(** Reading back what the generator yields. *)
Lemma for_chunks_verify_ok (p : string) (fuel : nat) :
  forall (g : chunk_gen) (chunks : list bytes) (pre : bytes) (w : World),
    all_chunks fuel g = Ok chunks ->
    fs w !! p = Some (File (pre ++ concat chunks)) ->
    exists input,
      for_chunks fuel g (verifyChunk p)
        {| f_path := p; f_pos := Z.of_nat (length pre) |} w
      = (Ok (input, true), w).
Proof.
  induction fuel as [|fuel IH]; intros g chunks pre w Hall Hfs; [discriminate|].
  cbn [all_chunks] in Hall. cbn [for_chunks].
  destruct (next_chunk g) as [[[c|]| |] g']; try discriminate.
  - destruct (all_chunks fuel g') as [cs| |] eqn:Hcs; try discriminate.
    injection Hall as <-. cbn [concat] in Hfs.
    unfold bind at 1. unfold verifyChunk at 1. unfold bind at 1.
    unfold file_read. unfold bind at 1.
    rewrite (file_content_eq _ (pre ++ c ++ concat cs)) by exact Hfs.
    cbn [ret fst snd f_pos f_path].
    rewrite !Nat2Z.id, drop_app_length, take_app_length.
    rewrite bool_decide_eq_true_2 by reflexivity. cbn [ret fst snd].
    replace (Z.of_nat (length pre) + Z.of_nat (length c))
      with (Z.of_nat (length (pre ++ c))) by (rewrite length_app; lia).
    apply (IH g' cs (pre ++ c) w Hcs). rewrite <- app_assoc. exact Hfs.
  - eexists. reflexivity.
Qed.

(** A file of the right size and other content: the first chunk that
    differs is read in full, and the message for it cannot be built. *)
Lemma for_chunks_verify_mismatch (p : string) (fuel : nat) :
  forall (g : chunk_gen) (chunks : list bytes) (pre rest : bytes) (w : World),
    all_chunks fuel g = Ok chunks ->
    fs w !! p = Some (File (pre ++ rest)) ->
    length rest = length (concat chunks) ->
    rest <> concat chunks ->
    for_chunks fuel g (verifyChunk p)
      {| f_path := p; f_pos := Z.of_nat (length pre) |} w
    = (Raise (AttributeError "'bytes' object has no attribute 'encode'"), w).
Proof.
  induction fuel as [|fuel IH]; intros g chunks pre rest w Hall Hfs Hlen Hne;
    [discriminate|].
  cbn [all_chunks] in Hall. cbn [for_chunks].
  destruct (next_chunk g) as [[[c|]| |] g']; try discriminate.
  - destruct (all_chunks fuel g') as [cs| |] eqn:Hcs; try discriminate.
    injection Hall as <-. cbn [concat] in Hlen, Hne. rewrite length_app in Hlen.
    unfold bind at 1. unfold verifyChunk at 1. unfold bind at 1.
    unfold file_read. unfold bind at 1.
    rewrite (file_content_eq _ (pre ++ rest)) by exact Hfs.
    cbn [ret fst snd f_pos f_path].
    rewrite !Nat2Z.id, drop_app_length.
    assert (Htake : length (take (length c) rest) = length c)
      by (rewrite length_take; lia).
    destruct (decide (take (length c) rest = c)) as [Heq|Hdiff].
    + rewrite bool_decide_eq_true_2 by exact Heq. cbn [ret fst snd].
      rewrite Heq.
      replace (Z.of_nat (length pre) + Z.of_nat (length c))
        with (Z.of_nat (length (pre ++ c))) by (rewrite length_app; lia).
      assert (Hrest : c ++ drop (length c) rest = rest).
      { pose proof (take_drop (length c) rest) as Htd. rewrite Heq in Htd. exact Htd. }
      apply (IH g' cs (pre ++ c) (drop (length c) rest) w Hcs).
      * rewrite <- app_assoc, Hrest. exact Hfs.
      * rewrite length_drop. lia.
      * intros Hd. apply Hne. rewrite <- Hd. symmetry. exact Hrest.
    + rewrite bool_decide_eq_false_2 by exact Hdiff.
      rewrite Htake, Nat.eqb_refl. reflexivity.
  - injection Hall as <-. exfalso. apply Hne.
    destruct rest; [reflexivity|discriminate].
Qed.

Lemma isFile_true (p : string) (c : bytes) (w : World) :
  fs w !! p = Some (File c) -> isFile p w = (Ok true, w).
Proof.
  intros H. unfold isFile, bind, get, os_path_exists, os_path_isfile.
  rewrite H. reflexivity.
Qed.

Lemma verifySize_true (p : string) (c : bytes) (w : World) :
  fs w !! p = Some (File c) -> verifySize p (Z.of_nat (length c)) w = (Ok true, w).
Proof.
  intros H. unfold verifySize, bind, os_path_getsize. rewrite H.
  rewrite Z.eqb_refl. reflexivity.
Qed.

(** Verification of an untouched file succeeds and logs nothing. *)
Lemma FileNode_verify_ok (n : node) (fileSeed fileSize : Z) (p : string)
    (chunks : list bytes) (w : World) :
  node_path n = Some p ->
  all_chunks (S (Z.to_nat fileSize)) (generateChunks gen fileSeed fileSize) = Ok chunks ->
  Z.of_nat (length (concat chunks)) = fileSize ->
  fs w !! p = Some (File (concat chunks)) ->
  FileNode_verify gen n fileSeed fileSize w = (Ok true, w).
Proof.
  intros Hpath Hall Hsize Hfs.
  unfold FileNode_verify, path_of. rewrite Hpath.
  unfold bind at 1. cbn [ret].
  unfold bind at 1. rewrite (isFile_true _ _ _ Hfs). cbn [negb].
  unfold bind at 1. rewrite <- Hsize at 1. rewrite (verifySize_true _ _ _ Hfs).
  cbn [negb].
  unfold bind at 1. unfold verifyContents.
  unfold bind at 1. unfold open_rb. rewrite Hfs.
  unfold bind at 1.
  destruct (for_chunks_verify_ok p _ _ chunks [] w Hall Hfs) as [input Hloop].
  change (Z.of_nat (length (@nil byte))) with 0 in Hloop. rewrite Hloop. reflexivity.
Qed.

(** Verification of a file of the right size and other content raises
    [AttributeError] and logs nothing. *)
Lemma FileNode_verify_mismatch (n : node) (fileSeed fileSize : Z) (p : string)
    (chunks : list bytes) (c : bytes) (w : World) :
  node_path n = Some p ->
  all_chunks (S (Z.to_nat fileSize)) (generateChunks gen fileSeed fileSize) = Ok chunks ->
  Z.of_nat (length (concat chunks)) = fileSize ->
  fs w !! p = Some (File c) ->
  length c = length (concat chunks) ->
  c <> concat chunks ->
  FileNode_verify gen n fileSeed fileSize w
  = (Raise (AttributeError "'bytes' object has no attribute 'encode'"), w).
Proof.
  intros Hpath Hall Hsize Hfs Hlen Hne.
  unfold FileNode_verify, path_of. rewrite Hpath.
  unfold bind at 1. cbn [ret].
  unfold bind at 1. rewrite (isFile_true _ _ _ Hfs). cbn [negb].
  unfold bind at 1. rewrite <- Hsize at 1. rewrite <- Hlen.
  rewrite (verifySize_true _ _ _ Hfs). cbn [negb].
  unfold bind at 1. unfold verifyContents.
  unfold bind at 1. unfold open_rb. rewrite Hfs.
  unfold bind at 1.
  pose proof (for_chunks_verify_mismatch p _ _ chunks [] c w Hall Hfs Hlen Hne) as Hloop.
  change (Z.of_nat (length (@nil byte))) with 0 in Hloop. rewrite Hloop. reflexivity.
Qed.

(** The content that [generated_content] gives is what verification expects. *)
Lemma generated_content_chunks (n : node) (e : bytes) :
  generated_content gen n = Some e ->
  exists fileSeed fileSize chunks,
    node_kind_of n = FileNode fileSeed fileSize
    /\ all_chunks (S (Z.to_nat fileSize)) (generateChunks gen fileSeed fileSize) = Ok chunks
    /\ Z.of_nat (length (concat chunks)) = fileSize
    /\ e = concat chunks.
Proof.
  unfold generated_content. intros H.
  destruct (node_kind_of n) as [|fileSeed fileSize|]; try discriminate.
  destruct (all_chunks _ _) as [chunks| |] eqn:Hall; try discriminate.
  destruct (Z.of_nat (length (concat chunks)) =? fileSize) eqn:Hlen; try discriminate.
  injection H as <-. apply Z.eqb_eq in Hlen. eauto 10.
Qed.

Lemma verify_intact (t : RandomDirTree) (w : World) (c : nat) (fuel : nat) :
  intact gen t w c = true -> verify gen (S fuel) t c w = (Ok true, w).
Proof.
  unfold intact. intros H. cbn [verify].
  destruct (nodes t !! c) as [n|]; [|discriminate].
  destruct (node_path n) as [p|] eqn:Hp; [|discriminate].
  destruct (generated_content gen n) as [e|] eqn:He; [|discriminate].
  destruct (fs w !! p) as [[|content]|] eqn:Hfs; try discriminate.
  apply bool_decide_eq_true in H. subst content.
  destruct (generated_content_chunks n e He) as (fileSeed & fileSize & chunks & Hk & Hall & Hlen & ->).
  rewrite Hk. eapply FileNode_verify_ok; eassumption.
Qed.

Lemma verify_flipped (t : RandomDirTree) (w : World) (c k : nat) (fuel : nat) :
  flipped gen t w c k = true ->
  verify gen (S fuel) t c w
  = (Raise (AttributeError "'bytes' object has no attribute 'encode'"), w).
Proof.
  unfold flipped. intros H. cbn [verify].
  destruct (nodes t !! c) as [n|]; [|discriminate].
  destruct (node_path n) as [p|] eqn:Hp; [|discriminate].
  destruct (generated_content gen n) as [e|] eqn:He; [|discriminate].
  destruct (fs w !! p) as [[|content]|] eqn:Hfs; try discriminate.
  destruct (e !! k) as [b|] eqn:Hb; [|discriminate].
  destruct (content !! k) as [b'|] eqn:Hb'; [|discriminate].
  apply andb_true_iff in H as [Hne Heq].
  apply negb_true_iff, bool_decide_eq_false in Hne.
  apply bool_decide_eq_true in Heq.
  destruct (generated_content_chunks n e He) as (fileSeed & fileSize & chunks & Hk & Hall & Hlen & ->).
  rewrite Hk. eapply FileNode_verify_mismatch; try eassumption.
  - rewrite Heq. apply length_insert.
  - intros Hsame. rewrite Hsame in Hb'. congruence.
Qed.

Lemma verify_dir (t : RandomDirTree) (w : World) (fuel : nat) (i : nat) (n : node)
    (children : list nat) (p : string) :
  nodes t !! i = Some n ->
  node_kind_of n = DirNode children ->
  node_path n = Some p ->
  os_path_isdir w p = true ->
  verify gen (S fuel) t i w
  = (let* results := mapM (verify gen fuel t) children in ret (forallb id results)) w.
Proof.
  intros Hn Hk Hp Hdir. cbn [verify]. rewrite Hn, Hk. unfold path_of. rewrite Hp.
  unfold bind at 1. cbn [ret]. unfold bind at 1. unfold get at 1.
  rewrite Hdir. reflexivity.
Qed.

(** The children of a directory are verified in turn: the files before a
    flipped one pass, and the traversal ends at the flipped one. *)
Lemma mapM_verify_flipped (t : RandomDirTree) (w : World) (fuel : nat)
    (pre post : list nat) (c k : nat) :
  forallb (intact gen t w) pre = true ->
  flipped gen t w c k = true ->
  mapM (verify gen (S fuel) t) (pre ++ c :: post) w
  = (Raise (AttributeError "'bytes' object has no attribute 'encode'"), w).
Proof.
  intros Hpre Hc. induction pre as [|a pre IH].
  - cbn [app mapM]. unfold bind. rewrite (verify_flipped t w c k fuel Hc). reflexivity.
  - cbn [forallb] in Hpre. apply andb_true_iff in Hpre as [Ha Hpre].
    cbn [app mapM]. unfold bind at 1. rewrite (verify_intact t w a fuel Ha).
    unfold bind at 1. rewrite (IH Hpre). reflexivity.
Qed.

Lemma flipped_is_file (t : RandomDirTree) (w : World) (c k : nat) :
  flipped gen t w c k = true ->
  exists n, nodes t !! c = Some n /\ isDir n = false.
Proof.
  unfold flipped. intros H. destruct (nodes t !! c) as [n|]; [|discriminate].
  exists n. split; [reflexivity|].
  destruct (node_path n); [|discriminate].
  destruct (generated_content gen n) as [e|] eqn:He; [|discriminate].
  destruct (generated_content_chunks n e He) as (? & ? & ? & Hk & _).
  unfold isDir. rewrite Hk. reflexivity.
Qed.

Lemma invert_neq (b : byte) : invert b <> b.
Proof. destruct b; discriminate. Qed.

(** Flipping one byte of an intact file gives a flipped file. *)
Lemma flip_byte_flipped (t : RandomDirTree) (w : World) (c k : nat) (n : node)
    (p : string) (e : bytes) :
  nodes t !! c = Some n ->
  node_path n = Some p ->
  generated_content gen n = Some e ->
  fs w !! p = Some (File e) ->
  (k < length e)%nat ->
  flipped gen t (flip_byte p k w) c k = true.
Proof.
  intros Hn Hp He Hfs Hk.
  destruct (lookup_lt_is_Some_2 e k Hk) as [b Hb].
  unfold flip_byte. rewrite Hfs. cbv beta iota. unfold bytes in *. rewrite Hb.
  unfold flipped. rewrite Hn, Hp, He. cbn [fs set_fs].
  rewrite lookup_insert_eq. cbv beta iota. unfold bytes in *.
  rewrite Hb, list_lookup_insert_eq by exact Hk.
  apply andb_true_iff. split.
  - apply negb_true_iff, bool_decide_eq_false, invert_neq.
  - apply bool_decide_eq_true. reflexivity.
Qed.

(** A store with a directory at the root and another node has two nodes. *)
Lemma two_nodes (t : RandomDirTree) (n m : node) (c : nat) :
  nodes t !! root = Some n -> isDir n = true ->
  nodes t !! c = Some m -> isDir m = false ->
  exists fuel, length (nodes t) = S (S fuel).
Proof.
  intros Hn Hdn Hm Hdm.
  assert (c <> root) by (intros ->; congruence).
  apply lookup_lt_Some in Hm. unfold root in *.
  exists (length (nodes t) - 2)%nat. lia.
Qed.

End FileFacts.

(** ** Whole runs *)
Section RunClaims.
Context {R : NumpyRandomState}.
Variable gen : Config.

(** C9.  With the truncate option, writing a file of positive size extends
    the new file to [fileSize] zero bytes and then stops: the boundary byte
    is given to [write] as a [str], which a binary file refuses with
    [TypeError].  No chunk is written, and the file is left with its
    [fileSize] zero bytes. *)
Theorem truncate_write_raises_TypeError (n : node) (fileSeed fileSize : Z)
    (p : string) (w : World) :
  gen_truncate gen = true ->
  0 < fileSize ->
  node_path n = Some p ->
  fs w !! p <> Some Dir ->
  fst (FileNode_write gen n fileSeed fileSize w)
  = Raise (TypeError "a bytes-like object is required, not 'str'")
  /\ fs (snd (FileNode_write gen n fileSeed fileSize w)) !! p
     = Some (File (replicate (Z.to_nat fileSize) x00)).
Proof.
  intros Htrunc Hsize Hpath Hdir.
  rewrite (FileNode_write_truncate gen n fileSeed fileSize p w Htrunc Hsize Hpath Hdir).
  split; [reflexivity|]. cbn [snd fs set_fs]. apply lookup_insert_eq.
Qed.

(** C1.  Generation with the truncate option does not reach verification:
    when the first entry of the root directory is a generated file of
    positive size, the generation run ends with the [TypeError] of the
    boundary byte, the file left with zero bytes and nothing else written. *)
Theorem generate_truncate_raises_TypeError (w : World) (stats : GenerateStats)
    (t : RandomDirTree) (n fn : node) (c : nat) (cs : list nat)
    (fileSeed fileSize : Z) (p : string) :
  gen_truncate gen = true ->
  os_path_isdir w (gen_root_dir gen) = true ->
  RandomDirTree_init gen w (gen_root_dir gen) = (Ok stats, t) ->
  nodes t !! root = Some n ->
  isRoot n = true ->
  node_kind_of n = DirNode (c :: cs) ->
  nodes t !! c = Some fn ->
  node_kind_of fn = FileNode fileSeed fileSize ->
  0 < fileSize ->
  node_path fn = Some p ->
  fs w !! p <> Some Dir ->
  genTree gen false None true w
  = (Raise (TypeError "a bytes-like object is required, not 'str'"),
     {| fs := <[p := File (replicate (Z.to_nat fileSize) x00)]> (fs w);
        walk := walk w;
        log := log w ++ [(INFO, "Writing random tree at " +:+ root_path t)] |}).
Proof.
  intros Htrunc Hroot Hinit Hn Hisroot Hkind Hfn Hfkind Hsize Hpath Hdir.
  destruct (two_nodes t n fn c Hn) as [fuel Hlen]; try assumption.
  { unfold isDir. rewrite Hkind. reflexivity. }
  { unfold isDir. rewrite Hfkind. reflexivity. }
  unfold genTree. unfold bind at 1. unfold bind at 1. unfold get at 1.
  rewrite Hroot. cbn [negb ret]. unfold bind at 1. unfold get at 1.
  rewrite Hroot. cbn [negb]. rewrite Hinit.
  unfold RandomDirTree_write. rewrite Hlen.
  unfold bind at 1. unfold bind at 1. unfold log_info, log_msg, modify.
  cbn [write]. rewrite Hn, Hkind, Hisroot.
  unfold bind at 1. unfold bind at 1. cbn [ret forM_].
  unfold bind at 1. cbn [write]. rewrite Hfn, Hfkind.
  rewrite (FileNode_write_truncate gen fn fileSeed fileSize p _ Htrunc Hsize Hpath)
    by exact Hdir.
  reflexivity.
Qed.

(** C7.  A run of verification over a tree of which one byte of one file
    was flipped, the files before it in the root directory untouched, ends
    with the [AttributeError] of the message for the mismatch: [bytes] has
    no method [encode].  The exception leaves [genTree]; no mismatch is
    logged, no result is returned and the files after the flipped one are
    not looked at. *)
Theorem verify_flipped_byte_raises_AttributeError (w : World) (stats : GenerateStats)
    (t : RandomDirTree) (n : node) (pre post : list nat) (c k : nat) :
  os_path_isdir w (gen_root_dir gen) = true ->
  RandomDirTree_init gen w (gen_root_dir gen) = (Ok stats, t) ->
  nodes t !! root = Some n ->
  node_path n = Some (gen_root_dir gen) ->
  node_kind_of n = DirNode (pre ++ c :: post) ->
  forallb (intact gen t w) pre = true ->
  flipped gen t w c k = true ->
  genTree gen true None true w
  = (Raise (AttributeError "'bytes' object has no attribute 'encode'"),
     {| fs := fs w; walk := walk w;
        log := log w ++ [(INFO, "Verifying tree at " +:+ gen_root_dir gen)] |}).
Proof.
  intros Hroot Hinit Hn Hpath Hkind Hpre Hc.
  destruct (flipped_is_file gen t w c k Hc) as (m & Hm & Hdm).
  destruct (two_nodes t n m c Hn) as [fuel Hlen]; try assumption.
  { unfold isDir. rewrite Hkind. reflexivity. }
  unfold genTree. unfold bind at 1. unfold bind at 1. unfold get at 1.
  rewrite Hroot. cbn [negb ret]. unfold bind at 1. unfold get at 1.
  rewrite Hroot. cbn [negb]. rewrite Hinit.
  unfold RandomDirTree_verify, root_path. rewrite Hlen, Hn, Hpath. cbn [default].
  unfold bind at 1. unfold bind at 1. unfold log_info, log_msg, modify.
  set (w' := {| fs := fs w; walk := walk w; log := _ |}).
  rewrite (verify_dir gen t w' (S fuel) root n _ _ Hn Hkind Hpath Hroot).
  unfold bind at 1.
  rewrite (mapM_verify_flipped gen t w' fuel pre post c k); [reflexivity| |].
  - exact Hpre.
  - exact Hc.
Qed.

End RunClaims.

(** *** Scenario A and its variants, with the small generator *)

(** The tree of scenario A. *)
Definition tree_A : RandomDirTree :=
  snd (RandomDirTree_init (R := lcg) config_A empty_world "/data").

(** The world after the generation run of scenario A. *)
Definition world_A : World :=
  snd (genTree (R := lcg) config_A false None true empty_world).

(** Scenario B: the fifth byte of file 1 is flipped after the run. *)
Definition world_B : World := flip_byte "/data/1" 4 world_A.

Definition stats_A : GenerateStats :=
  {| numBytes := 30; numFiles := 3; numDirs := 0; verified := true |}.

Definition root_A : node :=
  {| node_parent := None; node_depth := 0; node_path := Some "/data";
     node_kind_of := DirNode [1; 2; 3]%nat |}.

Definition file_0 : node :=
  {| node_parent := Some 0%nat; node_depth := 1; node_path := Some "/data/0";
     node_kind_of := FileNode 6841984511428724933 10 |}.

(** Scenario A: the tree has the three files under the root, the run writes
    ten bytes to each, and verification of the untouched tree succeeds. *)
Lemma scenario_A_round_trip :
  map node_path (nodes tree_A)
  = [Some "/data"; Some "/data/0"; Some "/data/1"; Some "/data/2"]
  /\ fst (genTree (R := lcg) config_A false None true empty_world)
     = Ok (stats_A, tree_A)
  /\ fst (genTree (R := lcg) config_A true None true world_A)
     = Ok (stats_A, tree_A)
  /\ log (snd (genTree (R := lcg) config_A true None true world_A))
     = [(INFO, "Writing random tree at /data");
        (INFO, "Verifying tree at /data"); (INFO, "Tree is OK.")].
Proof. repeat split; vm_compute; reflexivity. Qed.

(** C9 at the first file of scenario A. *)
Lemma truncate_write_witness :
  fst (FileNode_write (R := lcg) config_A_truncate file_0 6841984511428724933 10
         empty_world)
  = Raise (TypeError "a bytes-like object is required, not 'str'")
  /\ fs (snd (FileNode_write (R := lcg) config_A_truncate file_0
                6841984511428724933 10 empty_world)) !! "/data/0"
     = Some (File (replicate (Z.to_nat 10) x00)).
Proof.
  apply (truncate_write_raises_TypeError (R := lcg) config_A_truncate file_0
           6841984511428724933 10 "/data/0" empty_world).
  - reflexivity.
  - lia.
  - reflexivity.
  - vm_compute. discriminate.
Defined.

(** C1 at scenario A with the truncate option. *)
Lemma generate_truncate_witness :
  genTree (R := lcg) config_A_truncate false None true empty_world
  = (Raise (TypeError "a bytes-like object is required, not 'str'"),
     {| fs := <["/data/0" := File (replicate (Z.to_nat 10) x00)]> (fs empty_world);
        walk := walk empty_world;
        log := log empty_world
               ++ [(INFO, "Writing random tree at "
                          +:+ root_path
                                (snd (RandomDirTree_init (R := lcg) config_A_truncate
                                        empty_world "/data")))] |}).
Proof.
  apply (generate_truncate_raises_TypeError (R := lcg) config_A_truncate empty_world
           stats_A
           (snd (RandomDirTree_init (R := lcg) config_A_truncate empty_world "/data"))
           root_A file_0 1%nat [2; 3]%nat 6841984511428724933 10 "/data/0").
  - reflexivity.
  - vm_compute. reflexivity.
  - vm_compute. reflexivity.
  - vm_compute. reflexivity.
  - reflexivity.
  - reflexivity.
  - vm_compute. reflexivity.
  - reflexivity.
  - lia.
  - reflexivity.
  - vm_compute. discriminate.
Defined.

(** C7 at scenario B. *)
Lemma verify_flipped_byte_witness :
  genTree (R := lcg) config_A true None true world_B
  = (Raise (AttributeError "'bytes' object has no attribute 'encode'"),
     {| fs := fs world_B; walk := walk world_B;
        log := log world_B ++ [(INFO, "Verifying tree at " +:+ gen_root_dir config_A)] |}).
Proof.
  apply (verify_flipped_byte_raises_AttributeError (R := lcg) config_A world_B
           stats_A tree_A root_A [1%nat] [3%nat] 2%nat 4%nat).
  - vm_compute. reflexivity.
  - vm_compute. reflexivity.
  - vm_compute. reflexivity.
  - reflexivity.
  - reflexivity.
  - vm_compute. reflexivity.
  - vm_compute. reflexivity.
Defined.

(** ** Two runs *)
Section Determinism.
Context {R : NumpyRandomState}.
Variable gen : Config.

(** *** The tree does not depend on the world beyond the source files *)

Lemma filter_isfile_agree (w1 w2 : World) (l : list string) :
  (forall p, p ∈ l -> fs w1 !! p = fs w2 !! p) ->
  filter (fun f => os_path_isfile w1 f = true) l
  = filter (fun f => os_path_isfile w2 f = true) l.
Proof.
  induction l as [|a l IH]; intros H; [reflexivity|].
  rewrite !filter_cons.
  assert (Ha : os_path_isfile w1 a = os_path_isfile w2 a).
  { unfold os_path_isfile. rewrite (H a) by left. reflexivity. }
  rewrite IH by (intros p Hp; apply H; right; exact Hp).
  rewrite Ha. destruct (decide (os_path_isfile w2 a = true)); reflexivity.
Qed.

Lemma createNodes_agree (w1 w2 : World) :
  walk w1 (gen_copied_sourceDir gen) = walk w2 (gen_copied_sourceDir gen) ->
  (forall p, p ∈ walk w1 (gen_copied_sourceDir gen) -> fs w1 !! p = fs w2 !! p) ->
  _createNodes gen w1 = _createNodes gen w2.
Proof.
  intros Hwalk Hfs. unfold _createNodes, _createCopyNodes.
  rewrite <- Hwalk, (filter_isfile_agree w1 w2 _ Hfs). reflexivity.
Qed.

Lemma measure_agree (sources : list string) (w1 w2 : World) (t : RandomDirTree) :
  (forall p, p ∈ sources -> fs w1 !! p = fs w2 !! p) ->
  copies_from sources t ->
  forall fuel self stats, measure fuel w1 t self stats = measure fuel w2 t self stats.
Proof.
  intros Hfs Hsrc. induction fuel as [|fuel IH]; intros self stats; [reflexivity|].
  cbn [measure]. destruct (nodes t !! self) as [n|] eqn:Hn; [|reflexivity].
  destruct (node_kind_of n) as [children| |src] eqn:Hk; [|reflexivity|].
  - clear Hk. generalize (Ok (if isRoot n then stats
                    else {| numBytes := numBytes stats; numFiles := numFiles stats;
                            numDirs := numDirs stats + 1;
                            verified := verified stats |})).
    induction children as [|c cs IHc]; intros acc; [reflexivity|].
    cbn [fold_left]. rewrite IHc. f_equal. destruct acc; try reflexivity.
    apply IH.
  - unfold os_path_getsize. rewrite (Hfs src) by (eapply Hsrc; eauto).
    destruct (fs w2 !! src) as [[]|]; reflexivity.
Qed.

(** Continuations that agree on the states of an invariant can be exchanged
    after a computation that keeps it. *)
Lemma bind_agree_on {St A B} (I : St -> Prop) (m : M St A) (k1 k2 : A -> M St B) :
  keeps I m -> (forall a s, I s -> k1 a s = k2 a s) ->
  forall s, I s -> bind m k1 s = bind m k2 s.
Proof.
  intros Hm Hk s Hs. unfold bind. specialize (Hm s Hs).
  destruct (m s) as [[a| |] s']; [apply Hk; exact Hm|reflexivity|reflexivity].
Qed.

(** Two worlds that list the same source files, with the same content,
    give the same tree. *)
Lemma init_agree (w1 w2 : World) (rootDir : string) :
  walk w1 (gen_copied_sourceDir gen) = walk w2 (gen_copied_sourceDir gen) ->
  (forall p, p ∈ walk w1 (gen_copied_sourceDir gen) -> fs w1 !! p = fs w2 !! p) ->
  RandomDirTree_init gen w1 rootDir = RandomDirTree_init gen w2 rootDir.
Proof.
  intros Hwalk Hfs.
  set (sources := walk w1 (gen_copied_sourceDir gen)).
  unfold RandomDirTree_init, RandomDirTree_build.
  rewrite (createNodes_agree w1 w2 Hwalk Hfs).
  apply (bind_agree_on (tree_ok gen sources)); [| |apply tree_ok_new].
  { destruct (gen_dirs_maxDepth gen <? 0); [|apply keeps_ret].
    destruct (str_add _ _); apply keeps_raise. }
  intros _ s1 Hs1.
  apply (bind_agree_on (tree_ok gen sources)); [| |exact Hs1].
  { apply keeps_createNodes. intros src Hs. unfold sources. rewrite Hwalk. exact Hs. }
  intros _ s2 Hs2.
  apply (bind_agree_on (tree_ok gen sources)); [| |exact Hs2].
  { destruct (gen_readable_filenames gen); [|apply keeps_raise].
    apply keeps_bind; [apply keeps_get|]. intros t.
    apply keeps_bind; [apply keeps_nameNodes|]. intros ?. apply keeps_ret. }
  intros _ s3 Hs3. unfold bind, get.
  rewrite (measure_agree sources w1 w2 s3 Hfs (proj2 Hs3)). reflexivity.
Qed.

(** *** Writing the tree depends on the touched paths only *)

(** [m] gives the same outcome in two worlds that agree on [S], leaves them
    in agreement, and its results satisfy [Q]. *)
Definition rel (S : list string) {A} (m : M World A) (Q : A -> Prop) : Prop :=
  forall w1 w2, agree S w1 w2 ->
    fst (m w1) = fst (m w2)
    /\ agree S (snd (m w1)) (snd (m w2))
    /\ forall a, fst (m w1) = Ok a -> Q a.

Lemma rel_bind (S : list string) {A B} (m : M World A) (k : A -> M World B)
    (Q : A -> Prop) (Q' : B -> Prop) :
  rel S m Q -> (forall a, Q a -> rel S (k a) Q') -> rel S (bind m k) Q'.
Proof.
  intros Hm Hk w1 w2 Hw. unfold bind.
  destruct (Hm w1 w2 Hw) as (Hout & Hagree & HQ).
  destruct (m w1) as [o1 w1'], (m w2) as [o2 w2']. cbn [fst snd] in *. subst o2.
  destruct o1 as [a|e|].
  - apply Hk; [apply HQ; reflexivity|exact Hagree].
  - cbn [fst snd]. split; [reflexivity|]. split; [exact Hagree|discriminate].
  - cbn [fst snd]. split; [reflexivity|]. split; [exact Hagree|discriminate].
Qed.

Lemma rel_ret (S : list string) {A} (a : A) (Q : A -> Prop) :
  Q a -> rel S (ret a) Q.
Proof.
  intros Ha w1 w2 Hw. cbn. split; [reflexivity|]. split; [exact Hw|].
  intros b [= <-]. exact Ha.
Qed.

Lemma rel_raise (S : list string) {A} (e : exn) (Q : A -> Prop) :
  rel S (raise e) Q.
Proof.
  intros w1 w2 Hw. cbn. split; [reflexivity|]. split; [exact Hw|discriminate].
Qed.

Lemma rel_diverge (S : list string) {A} (Q : A -> Prop) :
  rel S (@diverge World A) Q.
Proof.
  intros w1 w2 Hw. cbn. split; [reflexivity|]. split; [exact Hw|discriminate].
Qed.

Lemma rel_weaken (S : list string) {A} (m : M World A) (Q Q' : A -> Prop) :
  rel S m Q -> (forall a, Q a -> Q' a) -> rel S m Q'.
Proof.
  intros Hm HQ w1 w2 Hw. destruct (Hm w1 w2 Hw) as (H1 & H2 & H3).
  split; [exact H1|]. split; [exact H2|]. intros a Ha. apply HQ, H3, Ha.
Qed.

Lemma agree_insert (S : list string) (w1 w2 : World) (p : string) (e : entry) :
  agree S w1 w2 ->
  agree S (set_fs (<[p := e]> (fs w1)) w1) (set_fs (<[p := e]> (fs w2)) w2).
Proof.
  intros Hw q Hq. cbn. destruct (decide (p = q)) as [->|Hne].
  - rewrite !lookup_insert_eq. reflexivity.
  - rewrite !lookup_insert_ne by exact Hne. apply Hw, Hq.
Qed.

Lemma rel_log_msg (S : list string) (l : level) (msg : string) :
  rel S (log_msg l msg) (fun _ => True).
Proof.
  intros w1 w2 Hw. cbn. split; [reflexivity|]. split; [exact Hw|trivial].
Qed.

Lemma rel_path_of (S : list string) (n : node) :
  rel S (path_of n) (fun p => node_path n = Some p).
Proof.
  unfold path_of. destruct (node_path n); [apply rel_ret; reflexivity|apply rel_raise].
Qed.

Lemma rel_os_mkdir (S : list string) (p : string) :
  p ∈ S -> rel S (os_mkdir p) (fun _ => True).
Proof.
  intros Hp w1 w2 Hw. unfold os_mkdir. rewrite <- (Hw p Hp).
  destruct (fs w1 !! p); cbn [fst snd].
  - split; [reflexivity|]. split; [exact Hw|trivial].
  - split; [reflexivity|]. split; [apply agree_insert, Hw|trivial].
Qed.

Lemma rel_open_wb (S : list string) (p : string) :
  p ∈ S -> rel S (open_wb p) (fun f => f_path f = p).
Proof.
  intros Hp w1 w2 Hw. unfold open_wb. rewrite <- (Hw p Hp).
  destruct (fs w1 !! p) as [[|c]|]; cbn [fst snd].
  - split; [reflexivity|]. split; [exact Hw|discriminate].
  - split; [reflexivity|]. split; [apply agree_insert, Hw|]. intros a [= <-]. reflexivity.
  - split; [reflexivity|]. split; [apply agree_insert, Hw|]. intros a [= <-]. reflexivity.
Qed.

Lemma rel_file_content (S : list string) (f : file) :
  f_path f ∈ S -> rel S (file_content f) (fun _ => True).
Proof.
  intros Hp w1 w2 Hw. unfold file_content. rewrite <- (Hw _ Hp).
  destruct (fs w1 !! f_path f) as [[|c]|]; cbn [fst snd];
    (split; [reflexivity|]; split; [exact Hw|trivial]).
Qed.

Lemma rel_set_content (S : list string) (f : file) (c : bytes) :
  rel S (set_content f c) (fun _ => True).
Proof.
  intros w1 w2 Hw. unfold set_content, modify. cbn [fst snd].
  split; [reflexivity|]. split; [apply agree_insert, Hw|trivial].
Qed.

Lemma rel_file_truncate (S : list string) (f : file) (size : Z) :
  f_path f ∈ S -> rel S (file_truncate f size) (fun _ => True).
Proof.
  intros Hp. unfold file_truncate. destruct (size <? 0); [apply rel_raise|].
  eapply rel_bind; [apply rel_file_content, Hp|]. intros c _. apply rel_set_content.
Qed.

Lemma rel_file_seek (S : list string) (f : file) (pos : Z) :
  rel S (file_seek f pos) (fun f' => f_path f' = f_path f).
Proof.
  unfold file_seek. destruct (pos <? 0); [apply rel_raise|]. apply rel_ret. reflexivity.
Qed.

Lemma rel_file_write (S : list string) (f : file) (data : pyobj) :
  f_path f ∈ S -> rel S (file_write f data) (fun f' => f_path f' = f_path f).
Proof.
  intros Hp. unfold file_write. destruct data; try apply rel_raise.
  eapply rel_bind; [apply rel_file_content, Hp|]. intros c _.
  eapply rel_bind; [apply rel_set_content|]. intros _ _. apply rel_ret. reflexivity.
Qed.

Lemma rel_shutil_copyfile (S : list string) (src dst : string) :
  src ∈ S -> dst ∈ S -> rel S (shutil_copyfile src dst) (fun _ => True).
Proof.
  intros Hsrc Hdst w1 w2 Hw. unfold shutil_copyfile.
  rewrite <- (Hw _ Hsrc), <- (Hw _ Hdst).
  destruct (fs w1 !! src) as [[|c]|]; cbn [fst snd];
    try (split; [reflexivity|]; split; [exact Hw|trivial]).
  destruct (fs w1 !! dst) as [[|c']|], (String.eqb src dst); cbn [fst snd];
    try (split; [reflexivity|]; split; [exact Hw|trivial]);
    (split; [reflexivity|]; split; [apply agree_insert, Hw|trivial]).
Qed.

Lemma rel_fsync_dir (S : list string) (p : string) :
  p ∈ S -> rel S (fsync_dir p) (fun _ => True).
Proof.
  intros Hp w1 w2 Hw. unfold fsync_dir, bind, get, os_path_exists.
  rewrite <- (Hw _ Hp). destruct (fs w1 !! p); cbn [fst snd];
    (split; [reflexivity|]; split; [exact Hw|trivial]).
Qed.

Lemma rel_for_chunks (S : list string) (p : string)
    (body : file -> bytes -> M World (file * bool)) :
  (forall f chunk, f_path f = p ->
     rel S (body f chunk) (fun r => f_path (fst r) = p)) ->
  forall fuel g f, f_path f = p ->
    rel S (for_chunks fuel g body f) (fun _ => True).
Proof.
  intros Hbody. induction fuel as [|fuel IH]; intros g f Hf; [apply rel_diverge|].
  cbn [for_chunks]. destruct (next_chunk g) as [[[chunk|]|e|] g'];
    [|apply rel_ret; trivial|apply rel_raise|apply rel_diverge].
  eapply rel_bind; [apply Hbody, Hf|]. intros r Hr.
  destruct (snd r); [apply IH, Hr|apply rel_ret; trivial].
Qed.

Lemma rel_forM_ (S : list string) {A} (f : A -> M World unit) (l : list A) :
  (forall a, rel S (f a) (fun _ => True)) -> rel S (forM_ f l) (fun _ => True).
Proof.
  intros Hf. induction l as [|a l IH]; [apply rel_ret; trivial|].
  cbn [forM_]. eapply rel_bind; [apply Hf|]. intros _ _. exact IH.
Qed.

Lemma rel_FileNode_truncate (S : list string) (fileSize : Z) (f : file) :
  f_path f ∈ S ->
  rel S (FileNode_truncate fileSize f) (fun f' => f_path f' = f_path f).
Proof.
  intros Hp. unfold FileNode_truncate.
  eapply rel_bind; [apply rel_file_truncate, Hp|]. intros _ _.
  destruct (0 <? fileSize); [|apply rel_ret; reflexivity].
  eapply rel_bind; [apply rel_file_seek|]. intros f' Hf'.
  eapply rel_weaken; [apply rel_file_write; rewrite Hf'; exact Hp|].
  intros f'' ->. exact Hf'.
Qed.

Lemma rel_FileNode_write (S : list string) (n : node) (p : string)
    (fileSeed fileSize : Z) :
  node_path n = Some p -> p ∈ S ->
  rel S (FileNode_write gen n fileSeed fileSize) (fun _ => True).
Proof.
  intros Hn Hp. unfold FileNode_write.
  eapply rel_bind; [apply rel_path_of|]. intros p' Hp'.
  assert (p' = p) as -> by congruence.
  eapply rel_bind; [apply rel_open_wb, Hp|]. intros f Hf.
  eapply rel_bind with (Q := fun f' => f_path f' = p).
  { destruct (gen_truncate gen); [|apply rel_ret, Hf].
    eapply rel_weaken; [apply rel_FileNode_truncate; rewrite Hf; exact Hp|].
    intros f' ->. exact Hf. }
  intros f1 Hf1.
  eapply rel_bind with (Q := fun f' => f_path f' = p).
  { eapply rel_weaken; [apply rel_file_seek|]. intros f' ->. exact Hf1. }
  intros f2 Hf2.
  eapply rel_bind; [|intros _ _; apply rel_ret; trivial].
  apply (rel_for_chunks S p); [|exact Hf2].
  intros f' chunk Hf'.
  eapply rel_bind; [apply rel_file_write; rewrite Hf'; exact Hp|].
  intros f'' Hf''. apply rel_ret. cbn [fst]. congruence.
Qed.

Lemma touched_path (t : RandomDirTree) (i : nat) (n : node) (p : string) :
  nodes t !! i = Some n -> node_path n = Some p -> p ∈ touched t.
Proof.
  intros Hi Hp. unfold touched. apply elem_of_app. left.
  apply list_elem_of_omap. exists n. split; [|exact Hp].
  eapply list_elem_of_lookup_2, Hi.
Qed.

Lemma touched_source (t : RandomDirTree) (i : nat) (n : node) (src : string) :
  nodes t !! i = Some n -> node_kind_of n = CopyNode src -> src ∈ touched t.
Proof.
  intros Hi Hk. unfold touched. apply elem_of_app. right.
  apply list_elem_of_omap. exists n. split; [eapply list_elem_of_lookup_2, Hi|].
  rewrite Hk. reflexivity.
Qed.

Lemma rel_write (t : RandomDirTree) (fuel : nat) :
  forall self, rel (touched t) (write gen fuel t self) (fun _ => True).
Proof.
  induction fuel as [|fuel IH]; intros self; [apply rel_diverge|].
  cbn [write]. destruct (nodes t !! self) as [n|] eqn:Hn; [|apply rel_raise].
  destruct (node_kind_of n) as [children|fileSeed fileSize|src] eqn:Hk.
  - eapply rel_bind with (Q := fun _ => True).
    { destruct (isRoot n); [apply rel_ret; trivial|].
      eapply rel_bind; [apply rel_path_of|]. intros p Hp.
      apply rel_os_mkdir. eapply touched_path; eauto. }
    intros _ _. eapply rel_bind; [apply rel_forM_, IH|]. intros _ _.
    destruct (gen_fsync gen); [|apply rel_ret; trivial].
    eapply rel_bind; [apply rel_path_of|]. intros p Hp.
    apply rel_fsync_dir. eapply touched_path; eauto.
  - destruct (node_path n) as [p|] eqn:Hp.
    + eapply rel_FileNode_write; [exact Hp|]. eapply touched_path; eauto.
    + unfold FileNode_write, path_of. rewrite Hp. unfold bind, raise.
      intros w1 w2 Hw. cbn. split; [reflexivity|]. split; [exact Hw|discriminate].
  - unfold CopyNode_write. eapply rel_bind; [apply rel_path_of|]. intros p Hp.
    apply rel_shutil_copyfile; [eapply touched_source|eapply touched_path]; eauto.
Qed.

Lemma rel_RandomDirTree_write (t : RandomDirTree) :
  rel (touched t) (RandomDirTree_write gen t) (fun _ => True).
Proof.
  unfold RandomDirTree_write.
  eapply rel_bind; [apply rel_log_msg|]. intros _ _. apply rel_write.
Qed.

End Determinism.

Section DeterminismClaim.
Context {R : NumpyRandomState}.
Variable gen : Config.


End DeterminismClaim.


(** * Further properties of the script *)

(** ** Verification only reads *)
Section ReadOnly.
Context {R : NumpyRandomState}.
Variable gen : Config.

(** [m] leaves the file system as it is, and only adds lines to the log. *)
Definition only_logs {A} (m : M World A) : Prop :=
  forall w, fs (snd (m w)) = fs w /\ walk (snd (m w)) = walk w
            /\ exists l, log (snd (m w)) = log w ++ l.

Lemma only_logs_bind {A B} (m : M World A) (k : A -> M World B) :
  only_logs m -> (forall a, only_logs (k a)) -> only_logs (bind m k).
Proof.
  intros Hm Hk w. unfold bind. destruct (Hm w) as (Hfs & Hwalk & l & Hlog).
  destruct (m w) as [[a|e|] w1]; cbn [snd] in *.
  - destruct (Hk a w1) as (Hfs' & Hwalk' & l' & Hlog').
    split; [congruence|]. split; [congruence|].
    exists (l ++ l'). rewrite Hlog', Hlog, app_assoc. reflexivity.
  - eauto.
  - eauto.
Qed.

Lemma only_logs_pure {A} (o : outcome A) : only_logs (fun w => (o, w)).
Proof. intros w. cbn. split; [reflexivity|]. split; [reflexivity|]. exists []. symmetry. apply app_nil_r. Qed.

Lemma only_logs_ret {A} (a : A) : only_logs (ret a).
Proof. apply only_logs_pure. Qed.

Lemma only_logs_raise {A} (e : exn) : only_logs (@raise World A e).
Proof. apply only_logs_pure. Qed.

Lemma only_logs_diverge {A} : only_logs (@diverge World A).
Proof. apply only_logs_pure. Qed.

(** A computation that reads the world and goes on. *)
Lemma only_logs_get {B} (k : World -> M World B) :
  (forall w0, only_logs (k w0)) -> only_logs (bind get k).
Proof. intros Hk w. unfold bind, get. apply Hk. Qed.

Lemma only_logs_log_msg (l : level) (msg : string) : only_logs (log_msg l msg).
Proof.
  intros w. cbn. split; [reflexivity|]. split; [reflexivity|]. exists [(l, msg)]. reflexivity.
Qed.

Lemma only_logs_reader {A} (f : World -> outcome A) : only_logs (fun w => (f w, w)).
Proof. intros w. cbn. split; [reflexivity|]. split; [reflexivity|]. exists []. symmetry. apply app_nil_r. Qed.

Lemma only_logs_eq {A} (m m' : M World A) :
  (forall w, m w = m' w) -> only_logs m' -> only_logs m.
Proof. intros Heq Hm w. rewrite Heq. apply Hm. Qed.

Lemma only_logs_file_content (f : file) : only_logs (file_content f).
Proof.
  apply (only_logs_eq _ (fun w => (fst (file_content f w), w))); [|apply only_logs_reader].
  intros w. unfold file_content. destruct (fs w !! f_path f) as [[|c]|]; reflexivity.
Qed.

Lemma only_logs_open_rb (p : string) : only_logs (open_rb p).
Proof.
  apply (only_logs_eq _ (fun w => (fst (open_rb p w), w))); [|apply only_logs_reader].
  intros w. unfold open_rb. destruct (fs w !! p) as [[|c]|]; reflexivity.
Qed.

Lemma only_logs_getsize (p : string) : only_logs (os_path_getsize p).
Proof.
  apply (only_logs_eq _ (fun w => (fst (os_path_getsize p w), w))); [|apply only_logs_reader].
  intros w. unfold os_path_getsize. destruct (fs w !! p) as [[|c]|]; reflexivity.
Qed.

Lemma only_logs_filecmp (a b : string) : only_logs (filecmp_cmp a b).
Proof.
  apply (only_logs_eq _ (fun w => (fst (filecmp_cmp a b w), w))); [|apply only_logs_reader].
  intros w. unfold filecmp_cmp.
  destruct (fs w !! a) as [[|ca]|]; try reflexivity.
  destruct (fs w !! b) as [[|cb]|]; reflexivity.
Qed.

Lemma only_logs_path_of (n : node) : only_logs (path_of n).
Proof. unfold path_of. destruct (node_path n); [apply only_logs_ret|apply only_logs_raise]. Qed.

Lemma only_logs_file_read (f : file) (n : Z) : only_logs (file_read f n).
Proof.
  unfold file_read. apply only_logs_bind; [apply only_logs_file_content|].
  intros c. apply only_logs_ret.
Qed.

Lemma only_logs_isFile (p : string) : only_logs (isFile p).
Proof.
  unfold isFile. apply only_logs_get. intros w0.
  destruct (negb (os_path_exists w0 p)).
  - apply only_logs_bind; [apply only_logs_log_msg|]. intros _. apply only_logs_ret.
  - destruct (negb (os_path_isfile w0 p)); [|apply only_logs_ret].
    apply only_logs_bind; [apply only_logs_log_msg|]. intros _. apply only_logs_ret.
Qed.

Lemma only_logs_verifySize (p : string) (fileSize : Z) : only_logs (verifySize p fileSize).
Proof.
  unfold verifySize. apply only_logs_bind; [apply only_logs_getsize|]. intros size.
  destruct (negb (size =? fileSize)); [|apply only_logs_ret].
  apply only_logs_bind; [apply only_logs_log_msg|]. intros _. apply only_logs_ret.
Qed.

Lemma only_logs_verifyChunk (p : string) (input : file) (expected : bytes) :
  only_logs (verifyChunk p input expected).
Proof.
  unfold verifyChunk. apply only_logs_bind; [apply only_logs_file_read|]. intros r.
  destruct (bool_decide (fst r = expected)); [apply only_logs_ret|].
  destruct (negb (length (fst r) =? length expected)%nat).
  - apply only_logs_bind; [apply only_logs_log_msg|]. intros _. apply only_logs_ret.
  - destruct (bytes_encode expected "hex"); [apply only_logs_raise|].
    destruct (bytes_encode (fst r) "hex"); [apply only_logs_raise|].
    apply only_logs_bind; [apply only_logs_log_msg|]. intros _. apply only_logs_ret.
Qed.

Lemma only_logs_for_chunks {A} (body : A -> bytes -> M World (A * bool)) :
  (forall a c, only_logs (body a c)) ->
  forall fuel g a, only_logs (for_chunks fuel g body a).
Proof.
  intros Hbody. induction fuel as [|fuel IH]; intros g a; [apply only_logs_diverge|].
  cbn [for_chunks]. destruct (next_chunk g) as [[[chunk|]|e|] g'];
    [|apply only_logs_ret|apply only_logs_raise|apply only_logs_diverge].
  apply only_logs_bind; [apply Hbody|]. intros r.
  destruct (snd r); [apply IH|apply only_logs_ret].
Qed.

Lemma only_logs_mapM {A B} (f : A -> M World B) (l : list A) :
  (forall a, only_logs (f a)) -> only_logs (mapM f l).
Proof.
  intros Hf. induction l as [|a l IH]; [apply only_logs_ret|].
  cbn [mapM]. apply only_logs_bind; [apply Hf|]. intros b.
  apply only_logs_bind; [exact IH|]. intros bs. apply only_logs_ret.
Qed.

Lemma only_logs_FileNode_verify (n : node) (fileSeed fileSize : Z) :
  only_logs (FileNode_verify gen n fileSeed fileSize).
Proof.
  unfold FileNode_verify. apply only_logs_bind; [apply only_logs_path_of|]. intros p.
  apply only_logs_bind; [apply only_logs_isFile|]. intros is_file.
  destruct (negb is_file); [apply only_logs_ret|].
  apply only_logs_bind; [apply only_logs_verifySize|]. intros size_ok.
  destruct (negb size_ok); [apply only_logs_ret|].
  apply only_logs_bind.
  - unfold verifyContents. apply only_logs_bind; [apply only_logs_open_rb|]. intros input.
    apply only_logs_bind; [|intros r; apply only_logs_ret].
    apply only_logs_for_chunks. intros a c. apply only_logs_verifyChunk.
  - intros contents_ok. destruct contents_ok; [apply only_logs_ret|].
    apply only_logs_bind; [apply only_logs_log_msg|]. intros _. apply only_logs_ret.
Qed.

Lemma only_logs_CopyNode_verify (n : node) (sourcePath : string) :
  only_logs (CopyNode_verify n sourcePath).
Proof.
  unfold CopyNode_verify. apply only_logs_bind; [apply only_logs_isFile|]. intros src_ok.
  destruct (negb src_ok); [apply only_logs_ret|].
  apply only_logs_bind; [apply only_logs_path_of|]. intros p.
  apply only_logs_bind; [apply only_logs_isFile|]. intros dst_ok.
  destruct (negb dst_ok); [apply only_logs_ret|apply only_logs_filecmp].
Qed.

Lemma only_logs_verify (t : RandomDirTree) (fuel : nat) :
  forall self, only_logs (verify gen fuel t self).
Proof.
  induction fuel as [|fuel IH]; intros self; [apply only_logs_diverge|].
  cbn [verify]. destruct (nodes t !! self) as [n|]; [|apply only_logs_raise].
  destruct (node_kind_of n) as [children|fileSeed fileSize|src].
  - apply only_logs_bind; [apply only_logs_path_of|]. intros p.
    apply only_logs_get. intros w0.
    destruct (negb (os_path_isdir w0 p)).
    + apply only_logs_bind; [apply only_logs_log_msg|]. intros _. apply only_logs_ret.
    + apply only_logs_bind; [apply only_logs_mapM, IH|]. intros rs. apply only_logs_ret.
  - apply only_logs_FileNode_verify.
  - apply only_logs_CopyNode_verify.
Qed.

Lemma only_logs_RandomDirTree_verify (t : RandomDirTree) :
  only_logs (RandomDirTree_verify gen t).
Proof.
  unfold RandomDirTree_verify. apply only_logs_bind; [apply only_logs_log_msg|].
  intros _. apply only_logs_verify.
Qed.


End ReadOnly.

(** ** Writing touches the paths of the tree only *)
Section WriteFrame.
Context {R : NumpyRandomState}.
Variable gen : Config.

(** [m] changes the file system at the paths of [S] at most, keeps the
    lines of the log, and its results satisfy [Q]. *)
Definition writes_only (S : list string) {A} (m : M World A) (Q : A -> Prop) : Prop :=
  forall w,
    (forall p, p ∉ S -> fs (snd (m w)) !! p = fs w !! p)
    /\ walk (snd (m w)) = walk w
    /\ (exists l, log (snd (m w)) = log w ++ l)
    /\ forall a, fst (m w) = Ok a -> Q a.

Lemma writes_only_bind (S : list string) {A B} (m : M World A) (k : A -> M World B)
    (Q : A -> Prop) (Q' : B -> Prop) :
  writes_only S m Q -> (forall a, Q a -> writes_only S (k a) Q') ->
  writes_only S (bind m k) Q'.
Proof.
  intros Hm Hk w. unfold bind. destruct (Hm w) as (Hfs & Hwalk & (l & Hlog) & HQ).
  destruct (m w) as [[a|e|] w1]; cbn [fst snd] in *.
  - destruct (Hk a (HQ a eq_refl) w1) as (Hfs' & Hwalk' & (l' & Hlog') & HQ').
    split; [intros p Hp; rewrite Hfs', Hfs by exact Hp; reflexivity|].
    split; [congruence|]. split; [|exact HQ'].
    exists (l ++ l'). rewrite Hlog', Hlog, app_assoc. reflexivity.
  - split; [exact Hfs|]. split; [exact Hwalk|]. split; [eauto|discriminate].
  - split; [exact Hfs|]. split; [exact Hwalk|]. split; [eauto|discriminate].
Qed.

Lemma writes_only_weaken (S : list string) {A} (m : M World A) (Q Q' : A -> Prop) :
  writes_only S m Q -> (forall a, Q a -> Q' a) -> writes_only S m Q'.
Proof.
  intros Hm HQ w. destruct (Hm w) as (H1 & H2 & H3 & H4).
  repeat split; auto.
Qed.

(** What only logs writes nowhere. *)
Lemma only_logs_writes_only (S : list string) {A} (m : M World A) :
  only_logs m -> writes_only S m (fun _ => True).
Proof.
  intros Hm w. destruct (Hm w) as (H1 & H2 & H3).
  split; [intros p _; rewrite H1; reflexivity|]. repeat split; auto.
Qed.

Lemma writes_only_ret (S : list string) {A} (a : A) (Q : A -> Prop) :
  Q a -> writes_only S (ret a) Q.
Proof.
  intros Ha w. cbn. split; [reflexivity|]. split; [reflexivity|].
  split; [exists []; symmetry; apply app_nil_r|]. intros b [= <-]. exact Ha.
Qed.

Lemma writes_only_fail (S : list string) {A} (o : outcome A) (Q : A -> Prop) :
  (forall a, o <> Ok a) -> writes_only S (fun w => (o, w)) Q.
Proof.
  intros Ho w. cbn. split; [reflexivity|]. split; [reflexivity|].
  split; [exists []; symmetry; apply app_nil_r|]. intros a Ha. destruct (Ho a Ha).
Qed.

Lemma writes_only_raise (S : list string) {A} (e : exn) (Q : A -> Prop) :
  writes_only S (raise e) Q.
Proof. apply writes_only_fail. discriminate. Qed.

Lemma writes_only_diverge (S : list string) {A} (Q : A -> Prop) :
  writes_only S (@diverge World A) Q.
Proof. apply writes_only_fail. discriminate. Qed.

(** A step that sets the entry of one path of [S]. *)
Lemma writes_only_insert (S : list string) (w : World) (p : string) (e : entry) :
  p ∈ S -> forall q, q ∉ S -> fs (set_fs (<[p := e]> (fs w)) w) !! q = fs w !! q.
Proof.
  intros Hp q Hq. cbn. apply lookup_insert_ne. intros ->. contradiction.
Qed.

Lemma writes_only_path_of (S : list string) (n : node) :
  writes_only S (path_of n) (fun p => node_path n = Some p).
Proof.
  unfold path_of. destruct (node_path n);
    [apply writes_only_ret; reflexivity|apply writes_only_raise].
Qed.

Lemma writes_only_os_mkdir (S : list string) (p : string) :
  p ∈ S -> writes_only S (os_mkdir p) (fun _ => True).
Proof.
  intros Hp w. unfold os_mkdir. destruct (fs w !! p); cbn [fst snd].
  - split; [reflexivity|]. split; [reflexivity|].
    split; [exists []; symmetry; apply app_nil_r|trivial].
  - split; [apply writes_only_insert, Hp|]. split; [reflexivity|].
    split; [exists []; symmetry; apply app_nil_r|trivial].
Qed.

Lemma writes_only_open_wb (S : list string) (p : string) :
  p ∈ S -> writes_only S (open_wb p) (fun f => f_path f = p).
Proof.
  intros Hp w. unfold open_wb. destruct (fs w !! p) as [[|c]|]; cbn [fst snd].
  - split; [reflexivity|]. split; [reflexivity|].
    split; [exists []; symmetry; apply app_nil_r|discriminate].
  - split; [apply writes_only_insert, Hp|]. split; [reflexivity|].
    split; [exists []; symmetry; apply app_nil_r|]. intros a [= <-]. reflexivity.
  - split; [apply writes_only_insert, Hp|]. split; [reflexivity|].
    split; [exists []; symmetry; apply app_nil_r|]. intros a [= <-]. reflexivity.
Qed.

Lemma writes_only_set_content (S : list string) (f : file) (c : bytes) :
  f_path f ∈ S -> writes_only S (set_content f c) (fun _ => True).
Proof.
  intros Hp w. unfold set_content, modify. cbn [fst snd].
  split; [apply writes_only_insert, Hp|]. split; [reflexivity|].
  split; [exists []; symmetry; apply app_nil_r|trivial].
Qed.

Lemma writes_only_file_truncate (S : list string) (f : file) (size : Z) :
  f_path f ∈ S -> writes_only S (file_truncate f size) (fun _ => True).
Proof.
  intros Hp. unfold file_truncate. destruct (size <? 0); [apply writes_only_raise|].
  eapply writes_only_bind; [apply only_logs_writes_only, only_logs_file_content|].
  intros c _. apply writes_only_set_content, Hp.
Qed.

Lemma writes_only_file_seek (S : list string) (f : file) (pos : Z) :
  writes_only S (file_seek f pos) (fun f' => f_path f' = f_path f).
Proof.
  unfold file_seek. destruct (pos <? 0); [apply writes_only_raise|].
  apply writes_only_ret. reflexivity.
Qed.

Lemma writes_only_file_write (S : list string) (f : file) (data : pyobj) :
  f_path f ∈ S -> writes_only S (file_write f data) (fun f' => f_path f' = f_path f).
Proof.
  intros Hp. unfold file_write. destruct data; try apply writes_only_raise.
  eapply writes_only_bind; [apply only_logs_writes_only, only_logs_file_content|].
  intros c _.
  eapply writes_only_bind; [apply writes_only_set_content, Hp|]. intros _ _.
  apply writes_only_ret. reflexivity.
Qed.

Lemma writes_only_shutil_copyfile (S : list string) (src dst : string) :
  dst ∈ S -> writes_only S (shutil_copyfile src dst) (fun _ => True).
Proof.
  intros Hdst w. unfold shutil_copyfile.
  assert (Hsame : forall o : outcome unit,
            (forall p, p ∉ S -> fs (snd (o, w)) !! p = fs w !! p)
            /\ walk (snd (o, w)) = walk w
            /\ (exists l, log (snd (o, w)) = log w ++ l)
            /\ forall a, fst (o, w) = Ok a -> True).
  { intros o. split; [reflexivity|]. split; [reflexivity|].
    split; [exists []; symmetry; apply app_nil_r|trivial]. }
  destruct (fs w !! src) as [[|c]|]; try apply Hsame.
  destruct (fs w !! dst) as [[|c']|], (String.eqb src dst); try apply Hsame;
    (split; [apply writes_only_insert, Hdst|]; split; [reflexivity|];
     split; [exists []; symmetry; apply app_nil_r|trivial]).
Qed.

Lemma writes_only_fsync_dir (S : list string) (p : string) :
  writes_only S (fsync_dir p) (fun _ => True).
Proof.
  apply only_logs_writes_only. unfold fsync_dir. apply only_logs_get. intros w0.
  destruct (os_path_exists w0 p); [apply only_logs_ret|apply only_logs_raise].
Qed.

Lemma writes_only_for_chunks (S : list string) (p : string)
    (body : file -> bytes -> M World (file * bool)) :
  (forall f chunk, f_path f = p ->
     writes_only S (body f chunk) (fun r => f_path (fst r) = p)) ->
  forall fuel g f, f_path f = p ->
    writes_only S (for_chunks fuel g body f) (fun _ => True).
Proof.
  intros Hbody. induction fuel as [|fuel IH]; intros g f Hf; [apply writes_only_diverge|].
  cbn [for_chunks]. destruct (next_chunk g) as [[[chunk|]|e|] g'];
    [|apply writes_only_ret; trivial|apply writes_only_raise|apply writes_only_diverge].
  eapply writes_only_bind; [apply Hbody, Hf|]. intros r Hr.
  destruct (snd r); [apply IH, Hr|apply writes_only_ret; trivial].
Qed.

Lemma writes_only_forM_ (S : list string) {A} (f : A -> M World unit) (l : list A) :
  (forall a, writes_only S (f a) (fun _ => True)) ->
  writes_only S (forM_ f l) (fun _ => True).
Proof.
  intros Hf. induction l as [|a l IH]; [apply writes_only_ret; trivial|].
  cbn [forM_]. eapply writes_only_bind; [apply Hf|]. intros _ _. exact IH.
Qed.

Lemma writes_only_FileNode_write (S : list string) (n : node) (fileSeed fileSize : Z) :
  (forall p, node_path n = Some p -> p ∈ S) ->
  writes_only S (FileNode_write gen n fileSeed fileSize) (fun _ => True).
Proof.
  intros Hn. unfold FileNode_write.
  eapply writes_only_bind; [apply writes_only_path_of|]. intros p Hp.
  specialize (Hn p Hp).
  eapply writes_only_bind; [apply writes_only_open_wb, Hn|]. intros f Hf.
  eapply writes_only_bind with (Q := fun f' => f_path f' = p).
  { destruct (gen_truncate gen); [|apply writes_only_ret, Hf].
    unfold FileNode_truncate.
    eapply writes_only_bind; [apply writes_only_file_truncate; rewrite Hf; exact Hn|].
    intros _ _. destruct (0 <? fileSize); [|apply writes_only_ret, Hf].
    eapply writes_only_bind; [apply writes_only_file_seek|]. intros f' Hf'.
    eapply writes_only_weaken;
      [apply writes_only_file_write; rewrite Hf', Hf; exact Hn|].
    intros f'' ->. congruence. }
  intros f1 Hf1.
  eapply writes_only_bind with (Q := fun f' => f_path f' = p).
  { eapply writes_only_weaken; [apply writes_only_file_seek|]. intros f' ->. exact Hf1. }
  intros f2 Hf2.
  eapply writes_only_bind; [|intros _ _; apply writes_only_ret; trivial].
  apply (writes_only_for_chunks S p); [|exact Hf2].
  intros f' chunk Hf'.
  eapply writes_only_bind; [apply writes_only_file_write; rewrite Hf'; exact Hn|].
  intros f'' Hf''. apply writes_only_ret. cbn [fst]. congruence.
Qed.

(** The paths of the nodes of a tree. *)
Definition node_paths (t : RandomDirTree) : list string := omap node_path (nodes t).

Lemma node_paths_path (t : RandomDirTree) (i : nat) (n : node) (p : string) :
  nodes t !! i = Some n -> node_path n = Some p -> p ∈ node_paths t.
Proof.
  intros Hi Hp. apply list_elem_of_omap. exists n. split; [|exact Hp].
  eapply list_elem_of_lookup_2, Hi.
Qed.

Lemma writes_only_write (t : RandomDirTree) (fuel : nat) :
  forall self, writes_only (node_paths t) (write gen fuel t self) (fun _ => True).
Proof.
  induction fuel as [|fuel IH]; intros self; [apply writes_only_diverge|].
  cbn [write]. destruct (nodes t !! self) as [n|] eqn:Hn; [|apply writes_only_raise].
  destruct (node_kind_of n) as [children|fileSeed fileSize|src] eqn:Hk.
  - eapply writes_only_bind with (Q := fun _ => True).
    { destruct (isRoot n); [apply writes_only_ret; trivial|].
      eapply writes_only_bind; [apply writes_only_path_of|]. intros p Hp.
      apply writes_only_os_mkdir. eapply node_paths_path; eauto. }
    intros _ _. eapply writes_only_bind; [apply writes_only_forM_, IH|]. intros _ _.
    destruct (gen_fsync gen); [|apply writes_only_ret; trivial].
    eapply writes_only_bind; [apply writes_only_path_of|]. intros p Hp.
    apply writes_only_fsync_dir.
  - apply writes_only_FileNode_write. intros p Hp. eapply node_paths_path; eauto.
  - unfold CopyNode_write. eapply writes_only_bind; [apply writes_only_path_of|].
    intros p Hp. apply writes_only_shutil_copyfile. eapply node_paths_path; eauto.
Qed.

(** X2.  Writing a tree changes the file system at the paths of its nodes
    and nowhere else, whatever the outcome: the files the copies are made
    from and every other entry are as before. *)
Theorem write_touches_tree_paths_only (t : RandomDirTree) (w : World) (p : string) :
  p ∉ node_paths t ->
  fs (snd (RandomDirTree_write gen t w)) !! p = fs w !! p.
Proof.
  intros Hp. unfold RandomDirTree_write.
  assert (H : writes_only (node_paths t)
                (log_info ("Writing random tree at " +:+ root_path t) ;;;
                 write gen (length (nodes t)) t root) (fun _ => True)).
  { eapply writes_only_bind;
      [apply only_logs_writes_only, only_logs_log_msg|].
    intros _ _. apply writes_only_write. }
  destruct (H w) as (Hfs & _). apply Hfs, Hp.
Qed.

End WriteFrame.

(** ** One file, written and verified *)
Section FileRoundTrip.
Context {R : NumpyRandomState}.
Variable gen : Config.

(** The configuration of the chunk generator is in the range where it runs
    to its end: a percentage, and blocks of at least one byte for
    compressible data. *)
Definition chunks_ok : Prop :=
  0 <= gen_compressible_percentage gen <= 100
  /\ (0 < gen_compressible_percentage gen ->
      1 <= gen_compressible_blockSize gen < 2 ^ 53).

Lemma chunks_exist (fileSeed fileSize : Z) :
  chunks_ok ->
  exists chunks,
    all_chunks (S (Z.to_nat fileSize)) (generateChunks gen fileSeed fileSize) = Ok chunks
    /\ Z.of_nat (length (concat chunks)) = Z.max fileSize 0.
Proof.
  intros [Hp Hb].
  destruct (generateChunks_start gen fileSeed fileSize Hp) as (Hrng & Hrate & Hmax & Hrem).
  pose proof (effective_chunk_size_bounds gen Hb) as Heff.
  destruct (all_chunks_ok (gen_compressible_percentage gen)
              (S (Z.to_nat fileSize)) (generateChunks gen fileSeed fileSize))
    as (chunks & Hall & _ & Hcat & _); try assumption.
  { rewrite Hmax. exact Heff. }
  { rewrite Hrem. lia. }
  exists chunks. split; [exact Hall|]. rewrite Hcat, Hrem. reflexivity.
Qed.


Lemma isFile_missing (p : string) (w : World) :
  fs w !! p = None ->
  isFile p w
  = (Ok false, {| fs := fs w; walk := walk w;
                  log := log w ++ [(ERROR, p +:+ ": missing!")] |}).
Proof.
  intros H. unfold isFile, bind, get, os_path_exists. rewrite H. reflexivity.
Qed.

Lemma isFile_dir (p : string) (w : World) :
  fs w !! p = Some Dir ->
  isFile p w
  = (Ok false, {| fs := fs w; walk := walk w;
                  log := log w ++ [(ERROR, p +:+ ": not a regular file!")] |}).
Proof.
  intros H. unfold isFile, bind, get, os_path_exists, os_path_isfile. rewrite H.
  reflexivity.
Qed.

Lemma verifySize_false (p : string) (c : bytes) (fileSize : Z) (w : World) :
  fs w !! p = Some (File c) -> Z.of_nat (length c) <> fileSize ->
  verifySize p fileSize w
  = (Ok false, {| fs := fs w; walk := walk w;
                  log := log w ++ [(ERROR, p +:+ " is " +:+ str_of_Z (Z.of_nat (length c))
                                           +:+ " bytes; should be "
                                           +:+ str_of_Z fileSize)] |}).
Proof.
  intros H Hne. unfold verifySize, bind, os_path_getsize. rewrite H.
  replace (Z.of_nat (length c) =? fileSize) with false
    by (symmetry; apply Z.eqb_neq; exact Hne).
  reflexivity.
Qed.

Lemma FileNode_verify_missing (n : node) (fileSeed fileSize : Z) (p : string)
    (w : World) :
  node_path n = Some p -> fs w !! p = None ->
  FileNode_verify gen n fileSeed fileSize w
  = (Ok false, {| fs := fs w; walk := walk w;
                  log := log w ++ [(ERROR, p +:+ ": missing!")] |}).
Proof.
  intros Hpath H. unfold FileNode_verify, path_of. rewrite Hpath.
  unfold bind at 1. cbn [ret]. unfold bind at 1.
  rewrite (isFile_missing p w H). reflexivity.
Qed.

Lemma FileNode_verify_dir (n : node) (fileSeed fileSize : Z) (p : string)
    (w : World) :
  node_path n = Some p -> fs w !! p = Some Dir ->
  FileNode_verify gen n fileSeed fileSize w
  = (Ok false, {| fs := fs w; walk := walk w;
                  log := log w ++ [(ERROR, p +:+ ": not a regular file!")] |}).
Proof.
  intros Hpath H. unfold FileNode_verify, path_of. rewrite Hpath.
  unfold bind at 1. cbn [ret]. unfold bind at 1.
  rewrite (isFile_dir p w H). reflexivity.
Qed.

Lemma FileNode_verify_size (n : node) (fileSeed fileSize : Z) (p : string)
    (c : bytes) (w : World) :
  node_path n = Some p -> fs w !! p = Some (File c) ->
  Z.of_nat (length c) <> fileSize ->
  FileNode_verify gen n fileSeed fileSize w
  = (Ok false, {| fs := fs w; walk := walk w;
                  log := log w ++ [(ERROR, p +:+ " is "
                                           +:+ str_of_Z (Z.of_nat (length c))
                                           +:+ " bytes; should be "
                                           +:+ str_of_Z fileSize)] |}).
Proof.
  intros Hpath H Hne. unfold FileNode_verify, path_of. rewrite Hpath.
  unfold bind at 1. cbn [ret]. unfold bind at 1.
  rewrite (isFile_true p c w H). cbn [negb]. unfold bind at 1.
  rewrite (verifySize_false p c fileSize w H Hne). reflexivity.
Qed.

(** X4.  What [FileNode.verify] reports for a file that is not there, for a
    directory in its place and for a file of another size: it returns
    [False] after one line [missing!], one line [not a regular file!], or
    one line with the two sizes, and does not read the file. *)
Theorem file_verify_failures (n : node) (fileSeed fileSize : Z) (p : string)
    (w : World) :
  node_path n = Some p ->
  (fs w !! p = None ->
   FileNode_verify gen n fileSeed fileSize w
   = (Ok false, {| fs := fs w; walk := walk w;
                   log := log w ++ [(ERROR, p +:+ ": missing!")] |}))
  /\ (fs w !! p = Some Dir ->
      FileNode_verify gen n fileSeed fileSize w
      = (Ok false, {| fs := fs w; walk := walk w;
                      log := log w ++ [(ERROR, p +:+ ": not a regular file!")] |}))
  /\ (forall c, fs w !! p = Some (File c) -> Z.of_nat (length c) <> fileSize ->
      FileNode_verify gen n fileSeed fileSize w
      = (Ok false, {| fs := fs w; walk := walk w;
                      log := log w ++ [(ERROR, p +:+ " is "
                                               +:+ str_of_Z (Z.of_nat (length c))
                                               +:+ " bytes; should be "
                                               +:+ str_of_Z fileSize)] |})).
Proof.
  intros Hpath. split; [|split].
  - apply FileNode_verify_missing, Hpath.
  - apply FileNode_verify_dir, Hpath.
  - intros c. apply FileNode_verify_size, Hpath.
Qed.




End FileRoundTrip.

(** ** What a verification run reports *)
Section VerifyReports.
Context {R : NumpyRandomState}.
Variable gen : Config.

(** The log gained an error line. *)
Definition error_logged (w w' : World) : Prop :=
  exists l msg, log w' = log w ++ l /\ (ERROR, msg) ∈ l.

(** A check that answers [True] without a trace, and [False] only after an
    error line. *)
Definition reports (m : M World bool) : Prop :=
  forall w,
    match m w with
    | (Ok true, w') => w' = w
    | (Ok false, w') => error_logged w w'
    | _ => True
    end.

(** The same without the second half: [False] may come without a line. *)
Definition quiet_on_true (m : M World bool) : Prop :=
  forall w w', m w = (Ok true, w') -> w' = w.

Lemma reports_quiet (m : M World bool) : reports m -> quiet_on_true m.
Proof. intros Hm w w' H. specialize (Hm w). rewrite H in Hm. exact Hm. Qed.

Lemma error_logged_one (w : World) (msg : string) :
  error_logged w {| fs := fs w; walk := walk w; log := log w ++ [(ERROR, msg)] |}.
Proof. exists [(ERROR, msg)], msg. split; [reflexivity|]. left. Qed.

Lemma error_logged_before (w w1 w2 : World) :
  error_logged w w1 -> (exists l, log w2 = log w1 ++ l) -> error_logged w w2.
Proof.
  intros (l & msg & Hl & Hin) (l' & Hl').
  exists (l ++ l'), msg. split; [rewrite Hl', Hl, app_assoc; reflexivity|].
  apply elem_of_app. left. exact Hin.
Qed.

Lemma error_logged_after (w w1 w2 : World) :
  (exists l, log w1 = log w ++ l) -> error_logged w1 w2 -> error_logged w w2.
Proof.
  intros (l & Hl) (l' & msg & Hl' & Hin).
  exists (l ++ l'), msg. split; [rewrite Hl', Hl, app_assoc; reflexivity|].
  apply elem_of_app. right. exact Hin.
Qed.

Lemma isFile_reports (p : string) : reports (isFile p).
Proof.
  intros w. unfold isFile, bind, get.
  destruct (negb (os_path_exists w p)); [apply error_logged_one|].
  destruct (negb (os_path_isfile w p)); [|reflexivity].
  apply error_logged_one.
Qed.

Lemma verifySize_reports (p : string) (fileSize : Z) : reports (verifySize p fileSize).
Proof.
  intros w. unfold verifySize, bind, os_path_getsize.
  destruct (fs w !! p) as [[|c]|]; [| |exact I].
  - destruct (negb (4096 =? fileSize)); [apply error_logged_one|reflexivity].
  - destruct (negb (Z.of_nat (length c) =? fileSize)); [apply error_logged_one|reflexivity].
Qed.

(** One chunk: [True] leaves no trace. *)
Lemma verifyChunk_true (p : string) (input input' : file) (expected : bytes)
    (w w' : World) :
  verifyChunk p input expected w = (Ok (input', true), w') -> w' = w.
Proof.
  unfold verifyChunk, file_read, bind, file_content.
  destruct (fs w !! f_path input) as [[|c]|]; try discriminate.
  cbn [fst snd ret].
  destruct (bool_decide _); [intros [= _ <-]; reflexivity|].
  destruct (negb _); [discriminate|].
  destruct (bytes_encode expected "hex"); [discriminate|].
  destruct (bytes_encode _ "hex"); discriminate.
Qed.

Lemma for_chunks_verify_true (p : string) (fuel : nat) :
  forall g input input' w w',
    for_chunks fuel g (verifyChunk p) input w = (Ok (input', true), w') -> w' = w.
Proof.
  induction fuel as [|fuel IH]; intros g input input' w w' H; [discriminate|].
  cbn [for_chunks] in H.
  destruct (next_chunk g) as [[[chunk|]|e|] g']; try discriminate.
  - unfold bind in H.
    destruct (verifyChunk p input chunk w) as [[[i ok]|e|] w1] eqn:Hc; try discriminate.
    cbn [fst snd] in H. destruct ok; [|discriminate].
    apply verifyChunk_true in Hc. subst w1. eapply IH, H.
  - injection H as _ <-. reflexivity.
Qed.

Lemma FileNode_verify_reports (n : node) (fileSeed fileSize : Z) :
  reports (FileNode_verify gen n fileSeed fileSize).
Proof.
  intros w. unfold FileNode_verify, path_of.
  destruct (node_path n) as [p|]; [|exact I].
  unfold bind at 1. cbn [ret]. unfold bind at 1.
  pose proof (isFile_reports p w) as H1.
  destruct (isFile p w) as [[[]|e|] w1]; try exact I; [subst w1|exact H1].
  cbn [negb]. unfold bind at 1.
  pose proof (verifySize_reports p fileSize w) as H2.
  destruct (verifySize p fileSize w) as [[[]|e|] w2]; try exact I; [subst w2|exact H2].
  cbn [negb]. unfold bind at 1.
  destruct (verifyContents gen p fileSeed fileSize w) as [[[]|e|] w3] eqn:H3; try exact I.
  - unfold verifyContents, bind in H3.
    destruct (open_rb p w) as [[input|e|] w4] eqn:Hopen; try discriminate.
    assert (w4 = w) as ->.
    { unfold open_rb in Hopen. destruct (fs w !! p) as [[|c]|]; congruence. }
    destruct (for_chunks _ _ (verifyChunk p) input w) as [[[i ok]|e|] w5] eqn:Hloop;
      try discriminate.
    cbn [fst snd ret] in H3. injection H3 as -> <-.
    eapply for_chunks_verify_true, Hloop.
  - cbn. destruct (only_logs_bind (open_rb p)
                    (fun input => let* r := for_chunks (S (Z.to_nat fileSize))
                                              (generateChunks gen fileSeed fileSize)
                                              (verifyChunk p) input in ret (snd r))
                    (only_logs_open_rb p)
                    ltac:(intros input; apply only_logs_bind;
                          [apply only_logs_for_chunks; intros; apply only_logs_verifyChunk
                          |intros; apply only_logs_ret]) w) as (_ & _ & Hlog).
    unfold verifyContents in H3. rewrite H3 in Hlog. cbn [snd] in Hlog.
    eapply error_logged_after; [exact Hlog|apply error_logged_one].
Qed.

Lemma CopyNode_verify_quiet (n : node) (src : string) :
  quiet_on_true (CopyNode_verify n src).
Proof.
  intros w w' H. unfold CopyNode_verify in H. unfold bind at 1 in H.
  pose proof (isFile_reports src w) as H1.
  destruct (isFile src w) as [[[]|e|] w1]; try discriminate. subst w1.
  cbn [negb] in H. unfold path_of in H. destruct (node_path n) as [p|]; [|discriminate].
  unfold bind at 1 in H. cbn [ret] in H. unfold bind at 1 in H.
  pose proof (isFile_reports p w) as H2.
  destruct (isFile p w) as [[[]|e|] w2]; try discriminate. subst w2.
  cbn [negb] in H. unfold filecmp_cmp in H.
  destruct (fs w !! src) as [[|a]|]; try discriminate.
  destruct (fs w !! p) as [[|b]|]; try discriminate. congruence.
Qed.

(** The children of a directory: all [True] leaves no trace; one [False]
    that was reported stays reported. *)
Lemma mapM_quiet (f : nat -> M World bool) (l : list nat) :
  (forall a, quiet_on_true (f a)) ->
  forall w rs w', mapM f l w = (Ok rs, w') -> forallb id rs = true -> w' = w.
Proof.
  intros Hf. induction l as [|a l IH]; intros w rs w' H Hall.
  - injection H as <- <-. reflexivity.
  - cbn [mapM] in H. unfold bind at 1 in H.
    destruct (f a w) as [[b|e|] w1] eqn:Ha; try discriminate.
    unfold bind at 1 in H.
    destruct (mapM f l w1) as [[bs|e|] w2] eqn:Hl; try discriminate.
    injection H as <- <-. cbn [forallb id] in Hall.
    apply andb_true_iff in Hall as [Hb Hbs]. unfold id in Hb. subst b.
    apply (Hf a) in Ha. subst w1. eapply IH; eassumption.
Qed.

Lemma mapM_reports (f : nat -> M World bool) (l : list nat) :
  (forall a, reports (f a)) -> (forall a, only_logs (f a)) ->
  forall w rs w', mapM f l w = (Ok rs, w') -> forallb id rs = false ->
                  error_logged w w'.
Proof.
  intros Hf Hlog. induction l as [|a l IH]; intros w rs w' H Hall.
  - injection H as <- <-. discriminate.
  - cbn [mapM] in H. unfold bind at 1 in H.
    pose proof (Hf a w) as Ha. destruct (Hlog a w) as (_ & _ & Hla).
    destruct (f a w) as [[b|e|] w1]; try discriminate.
    unfold bind at 1 in H.
    destruct (only_logs_mapM f l Hlog w1) as (_ & _ & Hll).
    destruct (mapM f l w1) as [[bs|e|] w2] eqn:Hl; try discriminate.
    injection H as <- <-. cbn [forallb id snd] in *.
    destruct b.
    + subst w1. eapply IH; eassumption.
    + eapply error_logged_before; eassumption.
Qed.

(** No node of the tree is a copy. *)
Definition no_copies (t : RandomDirTree) : Prop :=
  forall i n src, nodes t !! i = Some n -> node_kind_of n <> CopyNode src.

Lemma verify_quiet (t : RandomDirTree) (fuel : nat) :
  forall self, quiet_on_true (verify gen fuel t self).
Proof.
  induction fuel as [|fuel IH]; intros self w w' H; [discriminate|].
  cbn [verify] in H. destruct (nodes t !! self) as [n|]; [|discriminate].
  destruct (node_kind_of n) as [children|fileSeed fileSize|src].
  - unfold path_of in H. destruct (node_path n) as [p|]; [|discriminate].
    unfold bind at 1 in H. cbn [ret] in H. unfold bind at 1, get at 1 in H.
    destruct (negb (os_path_isdir w p)); [discriminate|].
    unfold bind in H.
    destruct (mapM (verify gen fuel t) children w) as [[rs|e|] w1] eqn:Hm;
      try discriminate.
    injection H as Hall <-. eapply mapM_quiet; eauto.
  - eapply reports_quiet; [apply FileNode_verify_reports|exact H].
  - eapply CopyNode_verify_quiet, H.
Qed.

Lemma verify_reports (t : RandomDirTree) (fuel : nat) :
  no_copies t -> forall self, reports (verify gen fuel t self).
Proof.
  intros Hno. induction fuel as [|fuel IH]; intros self w; [exact I|].
  cbn [verify]. destruct (nodes t !! self) as [n|] eqn:Hn; [|exact I].
  destruct (node_kind_of n) as [children|fileSeed fileSize|src] eqn:Hk.
  - unfold path_of. destruct (node_path n) as [p|]; [|exact I].
    unfold bind at 1. cbn [ret]. unfold bind at 1, get at 1.
    destruct (negb (os_path_isdir w p)); [apply error_logged_one|].
    unfold bind.
    destruct (mapM (verify gen fuel t) children w) as [[rs|e|] w1] eqn:Hm;
      try exact I.
    cbn [ret]. destruct (forallb id rs) eqn:Hall.
    + eapply mapM_quiet; [intros a; apply verify_quiet|exact Hm|exact Hall].
    + eapply mapM_reports; [exact IH|intros a; apply only_logs_verify|exact Hm|exact Hall].
  - apply FileNode_verify_reports.
  - destruct (Hno self n src Hn Hk).
Qed.

(** X7.  The verification of a tree answers [True] without a trace: the
    world is as before but for the line that announces the run.  It answers
    [False] only after a line at level ERROR, when no node is a copy; the
    comparison of a copy with its source is the one check that fails
    without a line. *)
Theorem verify_result_and_log (t : RandomDirTree) (w : World) :
  let started := {| fs := fs w; walk := walk w;
                    log := log w ++ [(INFO, "Verifying tree at " +:+ root_path t)] |} in
  (forall w', RandomDirTree_verify gen t w = (Ok true, w') -> w' = started)
  /\ (no_copies t ->
      forall w', RandomDirTree_verify gen t w = (Ok false, w') ->
                 error_logged started w').
Proof.
  cbv zeta. unfold RandomDirTree_verify, bind, log_info, log_msg, modify. cbn [fst snd].
  split.
  - intros w' H. eapply verify_quiet. exact H.
  - intros Hno w' H.
    pose proof (verify_reports t (length (nodes t)) Hno root
                  {| fs := fs w; walk := walk w;
                     log := log w ++ [(INFO, "Verifying tree at " +:+ root_path t)] |})
      as Hr.
    rewrite H in Hr. exact Hr.
Qed.

End VerifyReports.

(** ** Seeds *)
Section Seeds.
Context {R : NumpyRandomState}.

Lemma le_bytes_bound (vs : list Z) :
  0 <= fold_right (fun v acc => v mod 256 + 256 * acc) 0 vs < 256 ^ Z.of_nat (length vs).
Proof.
  induction vs as [|v vs IH].
  - simpl. lia.
  - cbn [fold_right length]. rewrite Nat2Z.inj_succ, Z.pow_succ_r by lia.
    pose proof (Z.mod_pos_bound v 256 ltac:(lia)). lia.
Qed.

Lemma int64_of_le_bytes_range (vs : list Z) :
  length vs = 8%nat ->
  - 2 ^ 63 <= RandomState.int64_of_le_bytes vs < 2 ^ 63.
Proof.
  intros Hlen. unfold RandomState.int64_of_le_bytes.
  pose proof (le_bytes_bound vs) as Hb. rewrite Hlen in Hb.
  change (256 ^ Z.of_nat 8) with (2 ^ 64) in Hb.
  set (u := fold_right _ 0 vs) in *.
  destruct (u <? 2 ^ 63) eqn:Hu; [apply Z.ltb_lt in Hu|apply Z.ltb_ge in Hu]; lia.
Qed.

Lemma seed_words_range (seed : Z) :
  Forall (fun x => 0 <= x < 2 ^ 32) (RandomState.seed_words seed).
Proof.
  unfold RandomState.seed_words.
  repeat constructor; apply Z.mod_pos_bound; lia.
Qed.

Lemma seed_words_inj (u v : Z) :
  - 2 ^ 63 <= u < 2 ^ 63 -> - 2 ^ 63 <= v < 2 ^ 63 ->
  RandomState.seed_words u = RandomState.seed_words v -> u = v.
Proof.
  unfold RandomState.seed_words. intros Hu Hv [= Hlo Hhi].
  change (2 ^ 63) with 9223372036854775808 in *.
  change (2 ^ 32) with 4294967296 in *.
  pose proof (Z.div_mod u 4294967296 ltac:(lia)) as Eu.
  pose proof (Z.div_mod v 4294967296 ltac:(lia)) as Ev.
  pose proof (Z.div_mod (u / 4294967296) 4294967296 ltac:(lia)) as Eu'.
  pose proof (Z.div_mod (v / 4294967296) 4294967296 ltac:(lia)) as Ev'.
  pose proof (Z.mod_pos_bound u 4294967296 ltac:(lia)).
  pose proof (Z.mod_pos_bound v 4294967296 ltac:(lia)).
  lia.
Qed.

(** X8.  [randomSeed] always returns, with a signed 64-bit integer; the two
    words [RandomState(seed)] makes of such a seed are unsigned 32-bit
    integers, and two different 64-bit seeds never give the same words. *)
Theorem randomSeed_is_a_seed (st : rng_state) :
  exists (v : Z) (st' : rng_state),
    RandomState.randomSeed st = (Ok v, st')
    /\ - 2 ^ 63 <= v < 2 ^ 63
    /\ Forall (fun x => 0 <= x < 2 ^ 32) (RandomState.seed_words v)
    /\ forall u, - 2 ^ 63 <= u < 2 ^ 63 ->
                 RandomState.seed_words u = RandomState.seed_words v -> u = v.
Proof.
  destruct (np_randint_array_ok 256 8 st ltac:(lia)) as (vs & st' & Hvs & Hlen & _).
  exists (RandomState.int64_of_le_bytes vs), st'.
  pose proof (int64_of_le_bytes_range vs Hlen) as Hrange.
  split; [unfold RandomState.randomSeed, bind; rewrite Hvs; reflexivity|].
  split; [exact Hrange|]. split; [apply seed_words_range|].
  intros u Hu. apply seed_words_inj; assumption.
Qed.

End Seeds.

(** ** Fully compressible data *)
Section FullFill.
Context {R : NumpyRandomState}.
Variable gen : Config.

Lemma Zdigits2_ge (m b : Z) : 0 < m -> 0 <= b -> 2 ^ b <= m -> b < Zdigits2 m.
Proof.
  intros Hm Hb Hle. destruct (Zdigits2_bounds m Hm) as [_ Hhi].
  pose proof (Zdigits2_nonneg m).
  destruct (Z_lt_le_dec b (Zdigits2 m)) as [|Hge]; [assumption|exfalso].
  assert (2 ^ Zdigits2 m <= 2 ^ b) by (apply Z.pow_le_mono_r; lia).
  lia.
Qed.

(** Rounding the exact value [c * 2^K / 2^K] of a 53-bit integer [c] gives
    a float whose floor is [c]. *)
Lemma round_floor_exact (M : positive) (K c : Z) :
  0 <= K -> 0 < c < 2 ^ 53 -> Z.pos M = c * 2 ^ K ->
  Float.floor (binary_round_aux Float.prec Float.emax false (Z.pos M) (- K) loc_Exact)
  = inr c.
Proof.
  intros HK Hc HM.
  assert (HpK : 0 < 2 ^ K) by (apply Z.pow_pos_nonneg; lia).
  pose proof (Zdigits2_bounds c ltac:(lia)) as [HcLo HcHi].
  pose proof (Zdigits2_nonneg c) as Hdc0.
  assert (Hdc : 1 <= Zdigits2 c <= 53).
  { split; [|apply Zdigits2_le; lia].
    destruct (Z.eq_dec (Zdigits2 c) 0) as [E|]; [|lia].
    rewrite E in HcHi. simpl in HcHi. lia. }
  set (dc := Zdigits2 c) in *.
  assert (Hd : Zdigits2 (Z.pos M) = dc + K).
  { apply Z.le_antisymm.
    - apply Zdigits2_le; [lia|lia|]. rewrite HM, Z.pow_add_r by lia. nia.
    - assert (dc + K - 1 < Zdigits2 (Z.pos M)); [|lia].
      apply Zdigits2_ge; [lia|lia|].
      rewrite HM. replace (dc + K - 1) with (dc - 1 + K) by lia.
      rewrite Z.pow_add_r by lia. nia. }
  unfold binary_round_aux, shr_fexp, Float.prec, Float.emax.
  cbn [shr_record_of_loc]. rewrite Hd.
  assert (Hn1 : fexp 53 1024 (dc + K + - K) - - K = dc - 53 + K).
  { unfold fexp, emin. lia. }
  rewrite Hn1.
  destruct (shr_spec (Z.pos M) (- K) (dc - 53 + K) ltac:(lia)) as (r & s & Hshr & Hex).
  rewrite Hshr. cbn [shr_m].
  set (t1 := Z.max (dc - 53 + K) 0) in *.
  assert (Ht1 : 0 <= t1 <= K) by (unfold t1; lia).
  assert (Hpt1 : 0 < 2 ^ t1) by (apply Z.pow_pos_nonneg; lia).
  set (k := K - t1).
  assert (Hk : 0 <= k) by (unfold k; lia).
  assert (Hpk : 0 < 2 ^ k) by (apply Z.pow_pos_nonneg; lia).
  assert (HKs : 2 ^ K = 2 ^ k * 2 ^ t1).
  { rewrite <- Z.pow_add_r by lia. f_equal. unfold k. lia. }
  assert (HM' : Z.pos M = (c * 2 ^ k) * 2 ^ t1) by (rewrite HM, HKs; ring).
  assert (Hm1 : Z.pos M / 2 ^ t1 = c * 2 ^ k).
  { rewrite HM'. apply Z_div_mult. lia. }
  assert (Hrs : r || s = false).
  { destruct (r || s) eqn:E; [|reflexivity]. exfalso. apply (Hex eq_refl).
    rewrite HM'. apply Z_mod_mult. }
  apply orb_false_iff in Hrs as [-> ->].
  rewrite Hm1.
  assert (Hck : 0 < c * 2 ^ k) by nia.
  assert (Hround : round_nearest_even (c * 2 ^ k)
                     (loc_of_shr_record (Build_shr_record (c * 2 ^ k) false false))
                   = c * 2 ^ k) by reflexivity.
  rewrite Hround.
  (* the digits of the shifted mantissa *)
  assert (Hd2 : Zdigits2 (c * 2 ^ k) = dc + k).
  { apply Z.le_antisymm.
    - apply Zdigits2_le; [lia|lia|]. rewrite Z.pow_add_r by lia. nia.
    - assert (dc + k - 1 < Zdigits2 (c * 2 ^ k)); [|lia].
      apply Zdigits2_ge; [lia|lia|].
      replace (dc + k - 1) with (dc - 1 + k) by lia.
      rewrite Z.pow_add_r by lia. nia. }
  rewrite Hd2.
  assert (Hn2 : fexp 53 1024 (dc + k + (- K + t1)) - (- K + t1) <= 0).
  { unfold fexp, emin, k, t1. lia. }
  rewrite shr_noop by exact Hn2. cbn [shr_m].
  destruct (c * 2 ^ k) as [|q|q] eqn:Eq; try lia.
  assert (He : - K + t1 = - k) by (unfold k; lia).
  rewrite He.
  replace (- k <=? 1024 - 53) with true by (symmetry; apply Z.leb_le; lia).
  cbn [Float.floor]. f_equal.
  destruct (0 <=? - k) eqn:E0.
  - apply Z.leb_le in E0. assert (k = 0) as Hk0 by lia.
    rewrite Hk0 in *. simpl in *. lia.
  - rewrite Z.opp_involutive, <- Eq. apply Z_div_mult. lia.
Qed.

(** At 100 percent the fill count is the size of the chunk. *)
Lemma compress_size_100 (c : Z) :
  0 < c < 2 ^ 53 -> compress_size c (Float.of_int 100) = inr c.
Proof.
  intros Hc. unfold compress_size.
  destruct (of_int_small c Hc) as (mc & ec & -> & Hec & Hmc).
  assert (Hone : Float.div (Float.of_int 100) (Float.of_int 100)
                 = S754_finite false 4503599627370496 (-52)) by (vm_compute; reflexivity).
  rewrite Hone. unfold Float.mul, SFmul. cbn [xorb].
  replace (ec + -52) with (- (52 - ec)) by lia.
  apply round_floor_exact; [lia|lia|].
  rewrite Pos2Z.inj_mul, Hmc.
  replace (52 - ec) with (- ec + 52) by lia.
  rewrite Z.pow_add_r by lia. change (2 ^ 52) with 4503599627370496. ring.
Qed.

Lemma layout_all_fill (st : rng_state) (chunks : list bytes) :
  chunk_layout (fun c => match compress_size c (Float.of_int 100) with
                         | inr k => Some k | inl _ => None end) st chunks ->
  Forall (fun c => c <> [] /\ Z.of_nat (length c) < 2 ^ 53) chunks ->
  concat chunks = repeat xff (length (concat chunks)).
Proof.
  induction 1 as [|st st' c cs k random Hfill Hk Hbytes Hc Hlay IH]; intros Hall.
  - reflexivity.
  - apply Forall_cons in Hall as [[Hne Hlt] Hall].
    assert (Hpos : 0 < Z.of_nat (length c)) by (destruct c; [congruence|simpl; lia]).
    rewrite compress_size_100 in Hfill by lia. injection Hfill as <-.
    destruct (np_bytes_ok (Z.of_nat (length c) - Z.of_nat (length c)) st ltac:(lia))
      as (b & st'' & Hb & Hlen).
    rewrite Hb in Hbytes. injection Hbytes as <- <-.
    assert (b = []) as -> by (destruct b; [reflexivity|simpl in Hlen; lia]).
    rewrite app_nil_r, Nat2Z.id in Hc.
    cbn [concat]. rewrite length_app, repeat_app, <- IH by exact Hall.
    rewrite <- Hc. reflexivity.
Qed.

(** X9.  With [compressible.percentage = 100] the content of a file does
    not depend on its seed: the chunks of every seed are [fileSize] bytes
    0xFF. *)
Theorem full_fill_ignores_seed (fileSeed fileSize : Z) :
  gen_compressible_percentage gen = 100 ->
  1 <= gen_compressible_blockSize gen < 2 ^ 53 ->
  0 <= fileSize ->
  exists chunks,
    all_chunks (S (Z.to_nat fileSize)) (generateChunks gen fileSeed fileSize) = Ok chunks
    /\ concat chunks = repeat xff (Z.to_nat fileSize).
Proof.
  intros Hp Hb Hsize.
  assert (Hp' : 0 <= gen_compressible_percentage gen <= 100) by lia.
  destruct (generateChunks_start gen fileSeed fileSize Hp') as (Hrng & Hrate & Hmax & Hrem).
  assert (Heff : effective_chunk_size gen = gen_compressible_blockSize gen).
  { unfold effective_chunk_size. rewrite Hp. reflexivity. }
  destruct (all_chunks_ok (gen_compressible_percentage gen)
              (S (Z.to_nat fileSize)) (generateChunks gen fileSeed fileSize))
    as (chunks & Hall & Hsz & Hcat & Hne & Hlay); try assumption.
  { rewrite Hmax, Heff. exact Hb. }
  { rewrite Hrem. lia. }
  exists chunks. split; [exact Hall|].
  rewrite Hp in Hlay.
  rewrite (layout_all_fill _ _ Hlay).
  - f_equal. rewrite Hrem in Hcat. lia.
  - rewrite Forall_forall in Hne. apply Forall_forall. intros c Hc.
    split; [apply Hne, Hc|].
    apply list_elem_of_lookup in Hc as [i Hi].
    rewrite (Hsz i c Hi), Hmax, Heff. lia.
Qed.

End FullFill.

(** ** The steps of the tree builder, in general *)
Section Builder.
Context {R : NumpyRandomState}.
Variable gen : Config.

(** The store after the node [nd], allocated last, is attached to the
    directory [q]. *)
Definition attached (t : RandomDirTree) (nd : node) (q : nat) (t' : RandomDirTree)
  : Prop :=
  exists st' qn cs,
    nodes t !! q = Some qn /\ node_kind_of qn = DirNode cs
    /\ t' = {| rng := st';
               nodes := <[q := set_children (cs ++ [length (nodes t)]) qn]>
                          (nodes t ++ [set_parent q (node_depth qn + 1) nd]);
               dirNodes := dirNodes t
                           ++ (if isDir nd then [length (nodes t)] else []) |}.

(** The nodes of the store after an attachment. *)
Lemma attached_lookup (t : RandomDirTree) (nd : node) (q : nat) (t' : RandomDirTree) :
  attached t nd q t' ->
  exists qn cs,
    nodes t !! q = Some qn /\ node_kind_of qn = DirNode cs
    /\ (q < length (nodes t))%nat
    /\ length (nodes t') = S (length (nodes t))
    /\ nodes t' !! q = Some (set_children (cs ++ [length (nodes t)]) qn)
    /\ nodes t' !! length (nodes t) = Some (set_parent q (node_depth qn + 1) nd)
    /\ (forall i, i <> q -> i <> length (nodes t) -> nodes t' !! i = nodes t !! i)
    /\ dirNodes t' = dirNodes t ++ (if isDir nd then [length (nodes t)] else []).
Proof.
  intros (st' & qn & cs & Hq & Hcs & ->). exists qn, cs.
  assert (Hlt : (q < length (nodes t))%nat) by (apply lookup_lt_Some in Hq; exact Hq).
  cbn [nodes dirNodes].
  split; [exact Hq|]. split; [exact Hcs|]. split; [exact Hlt|].
  split; [rewrite length_insert, length_app; simpl; lia|].
  split; [apply list_lookup_insert_eq; rewrite length_app; simpl; lia|].
  split; [rewrite list_lookup_insert_ne by lia; apply list_lookup_middle; reflexivity|].
  split; [|reflexivity].
  intros i Hiq Hin. rewrite list_lookup_insert_ne by congruence.
  destruct (decide (i < length (nodes t))%nat) as [Hi|Hi].
  - apply lookup_app_l. exact Hi.
  - rewrite (lookup_ge_None_2 (nodes t)) by lia.
    apply lookup_ge_None_2. rewrite length_app. simpl. lia.
Qed.

(** [_attach] of a node that was just allocated succeeds, and attaches the
    node to a directory; a file or a copy goes to a directory of the
    pool. *)
Lemma attach_step (t : RandomDirTree) (nd : node) :
  dir_ok gen t ->
  exists t' q,
    _attach gen (length (nodes t)) (snd (new_node nd t)) = (Ok tt, t')
    /\ attached t nd q t'
    /\ dir_ok gen t'
    /\ (isDir nd = false -> q ∈ dirNodes t)
    /\ (forall f, valid_file f t -> valid_file f t')
    /\ (isFileNode nd = true -> valid_file (length (nodes t)) t').
Proof.
  intros Hok.
  destruct (attach_new gen t nd Hok)
    as (v & st' & p & pn & q & qn & cs & Hv & Hv0 & Hp & Hpn & Hpdir & Hq & Hqn & Hcs & Heq).
  destruct (attach_new_props gen t nd Hok)
    as (t' & Heq' & Hok' & _ & Hold & (nd' & Hnd' & Hkind & _) & _).
  cbv zeta in Heq, Heq'. rewrite Heq in Heq'. injection Heq' as <-.
  eexists _, q. split; [exact Heq|]. split; [|split; [exact Hok'|split; [|split]]].
  - exists st', qn, cs. auto.
  - intros Hleaf. rewrite Hleaf in Hq. cbn [andb] in Hq. injection Hq as ->.
    apply list_elem_of_lookup. eauto.
  - intros f (b & Hb & Hbf).
    destruct (Hold f b Hb) as (b' & Hb' & (_ & _ & _ & Hc & _)).
    exists b'. split; [exact Hb'|].
    apply isFileNode_class. rewrite Hc. apply isFileNode_class. exact Hbf.
  - intros Hf. exists nd'. split; [exact Hnd'|].
    unfold isFileNode in *. rewrite Hkind. exact Hf.
Qed.

(** The pool after [dirNodes.pop(0)], which is done when it holds more than
    the root. *)
Definition popped (t : RandomDirTree) : RandomDirTree :=
  if (1 <? length (dirNodes t))%nat
  then {| rng := rng t; nodes := nodes t; dirNodes := drop 1 (dirNodes t) |}
  else t.

Lemma dir_ok_popped (t : RandomDirTree) : dir_ok gen t -> dir_ok gen (popped t).
Proof.
  intros Hok. unfold popped.
  destruct (1 <? length (dirNodes t))%nat eqn:Hlen; [|exact Hok].
  apply Nat.ltb_lt in Hlen. destruct Hok as [H1 H2 H3 H4].
  constructor; cbn [nodes dirNodes]; try assumption.
  - destruct (dirNodes t) as [|a [|b l]]; simpl in *; try lia. discriminate.
  - intros i Hi. apply H3. destruct (dirNodes t); [inversion Hi|].
    simpl in Hi. rewrite drop_0 in Hi. right. exact Hi.
Qed.

(** The four size categories, in the order in which they are filled. *)
Definition categories : list category :=
  [gen_huge gen; gen_large gen; gen_medium gen; gen_small gen].

(** A size that was drawn for a category that asks for files: it lies in
    the range of the category when that is a range of 64-bit integers that
    is not empty. *)
Definition drawn (size : Z) : Prop :=
  exists c, c ∈ categories /\ 0 < cat_num c
            /\ (range_ok c -> cat_min c <= size <= cat_max c).

(** A file or a copy that may join the tree: a generated file, new or
    cloned, or a copy of one of [srcs]. *)
Definition leaf_for (srcs : list string) (nd : node) : Prop :=
  (exists seed size, node_kind_of nd = FileNode seed size /\ drawn size)
  \/ exists src, src ∈ srcs /\ nd = Node_init (CopyNode src).

Lemma leaf_for_not_dir (srcs : list string) (nd : node) :
  leaf_for srcs nd -> isDir nd = false.
Proof.
  intros [(seed & size & H & _)|(src & _ & ->)]; [|reflexivity].
  unfold isDir. rewrite H. reflexivity.
Qed.

(** The node [f] is a generated file of a size that was drawn. *)
Definition sized_file (f : nat) (t : RandomDirTree) : Prop :=
  exists b seed size, nodes t !! f = Some b /\ node_kind_of b = FileNode seed size
                      /\ drawn size.

(** The size of a new file node. *)
Lemma FileNode_init_size (c : category) (t : RandomDirTree) (seed size : Z)
    (st' : rng_state) :
  FileNode_init c t
  = (Ok (length (nodes t)),
     snd (new_node (Node_init (FileNode seed size))
            {| rng := st'; nodes := nodes t; dirNodes := dirNodes t |})) ->
  range_ok c -> cat_min c <= size <= cat_max c.
Proof.
  intros H (Hlo & Hne & Hhi). unfold FileNode_init in H.
  destruct (randomSeed_ok (rng t)) as (sd & st1 & Hseed & _).
  unfold bind at 1, lift_rng at 1 in H. rewrite Hseed in H.
  unfold bind at 1, lift_rng at 1 in H. cbn [rng nodes dirNodes] in H.
  destruct (np_random_integers_ok _ _ st1 Hlo Hne Hhi) as (v & st2 & Hv & Hrange).
  rewrite Hv in H. unfold new_node in H. cbn [snd rng nodes dirNodes] in H.
  apply (f_equal snd) in H. apply (f_equal nodes) in H. cbn [snd nodes] in H.
  apply app_inv_head in H. injection H as _ <-. exact Hrange.
Qed.

(** The regular files under the source directory of the copies. *)
Definition copy_sources (w : World) : list string :=
  filter (fun f => os_path_isfile w f = true) (walk w (gen_copied_sourceDir gen)).

(** *** Two invariants, one for each phase

    [J1 k] holds after [k] directories were attached and is kept by the
    attachment of one more; [J] holds from [dirNodes.pop(0)] on and is kept
    by the attachment of files and copies, and by the naming of nodes. *)
Section Phases.
Variable w : World.
Variable J1 : nat -> RandomDirTree -> Prop.
Variable J : RandomDirTree -> Prop.
Hypothesis J1_dir :
  forall k t q t', J1 k t -> dir_ok gen t ->
                   attached t (Node_init (DirNode [])) q t' -> J1 (S k) t'.
Hypothesis J1_J :
  forall t, J1 (Z.to_nat (gen_dirs_num gen)) t -> dir_ok gen t -> J (popped t).
Hypothesis J_stable : stable J.
Hypothesis J_leaf :
  forall t nd q t', J t -> dir_ok gen t -> leaf_for (copy_sources w) nd ->
                    q ∈ dirNodes t -> attached t nd q t' -> J t'.
Hypothesis J_path :
  forall t i n s, J t -> nodes t !! i = Some n ->
    J {| rng := rng t; nodes := <[i := set_path s n]> (nodes t);
         dirNodes := dirNodes t |}.

(** The invariant of the second phase, with that of the directories. *)
Definition K (t : RandomDirTree) : Prop := J t /\ dir_ok gen t.

Lemma K_stable : stable K.
Proof.
  intros t t' [H1 H2] Hn Hd.
  split; [eapply J_stable|eapply dir_ok_stable]; eauto.
Qed.

Lemma phase1 (n : nat) :
  forall k t, J1 k t -> dir_ok gen t ->
    exists t', repeatM n (attach_DirNode gen) t = (Ok tt, t')
               /\ J1 (k + n) t' /\ dir_ok gen t'.
Proof.
  induction n as [|n IH]; intros k t HJ Hok.
  - exists t. rewrite Nat.add_0_r. auto.
  - cbn [repeatM]. unfold bind at 1. unfold attach_DirNode at 1. unfold bind at 1.
    destruct (attach_step t (Node_init (DirNode [])) Hok)
      as (t1 & q & Heq & Hatt & Hok1 & _).
    change (new_node (Node_init (DirNode [])) t)
      with (Ok (length (nodes t)), snd (new_node (Node_init (DirNode [])) t)).
    cbv beta iota. rewrite Heq.
    destruct (IH (S k) t1 (J1_dir _ _ _ _ HJ Hok Hatt) Hok1) as (t' & Hrun & HJ' & Hok').
    exists t'. split; [exact Hrun|]. split; [|exact Hok'].
    replace (k + S n)%nat with (S k + n)%nat by lia. exact HJ'.
Qed.

Lemma leaf_step (t : RandomDirTree) (nd : node) :
  K t -> leaf_for (copy_sources w) nd ->
  exists t',
    _attach gen (length (nodes t)) (snd (new_node nd t)) = (Ok tt, t')
    /\ K t'
    /\ (forall f, sized_file f t -> sized_file f t')
    /\ (forall seed size, node_kind_of nd = FileNode seed size -> drawn size ->
         sized_file (length (nodes t)) t').
Proof.
  intros [HJ Hok] Hnd.
  destruct (attach_step t nd Hok) as (t' & q & Heq & Hatt & Hok' & Hq & _).
  destruct (attached_lookup t nd q t' Hatt)
    as (qn & cs & Hqn & Hcs & Hqlt & _ & _ & Hn' & Hother & _).
  exists t'. split; [exact Heq|]. split; [|split].
  - split; [|exact Hok'].
    eapply J_leaf; eauto. apply Hq. eapply leaf_for_not_dir, Hnd.
  - intros f (b & seed & size & Hb & Hk & Hd).
    exists b, seed, size. split; [|split; assumption].
    rewrite Hother; [exact Hb| |].
    + intros ->. congruence.
    + apply lookup_lt_Some in Hb. lia.
  - intros seed size Hk Hd. eexists _, seed, size.
    split; [exact Hn'|]. split; [exact Hk|exact Hd].
Qed.

Lemma sized_file_stable (f : nat) : stable (sized_file f).
Proof.
  intros t t' (b & seed & size & Hb & Hk & Hd) Hn _.
  exists b, seed, size. rewrite Hn. auto.
Qed.

Lemma K_new_leaf (nd : node) :
  leaf_for (copy_sources w) nd ->
  keeps K (let* n := new_node nd in _attach gen n).
Proof.
  intros Hnd t HK. unfold bind.
  destruct (leaf_step t nd HK Hnd) as (t' & Heq & HK' & _).
  change (new_node nd t) with (Ok (length (nodes t)), snd (new_node nd t)).
  cbv beta iota. rewrite Heq. exact HK'.
Qed.

Lemma K_clone (f : nat) :
  hoare (fun t => K t /\ sized_file f t)
        (let* clone := copy_copy f in _attach gen clone)
        (fun _ t => K t /\ sized_file f t) (fun _ => False).
Proof.
  intros t [HK Hf]. pose proof Hf as (b & seed & size & Hb & Hbk & Hbd).
  unfold bind at 1, copy_copy, bind at 1. rewrite (get_node_eq _ _ _ Hb).
  destruct (leaf_step t b HK (or_introl (ex_intro _ seed (ex_intro _ size (conj Hbk Hbd)))))
    as (t' & Heq & HK' & Hold & _).
  change (new_node b t) with (Ok (length (nodes t)), snd (new_node b t)).
  cbv beta iota. rewrite Heq. auto.
Qed.

Lemma K_loop (c : category) (fuel : nat) :
  c ∈ categories ->
  forall numFiles numCoal numCoalLegacy,
    numFiles <= cat_num c ->
    keeps K (createFileNodes_loop gen fuel c numFiles numCoal numCoalLegacy).
Proof.
  intros Hc.
  induction fuel as [|fuel IH]; intros numFiles numCoal numCoalLegacy Hle t HK.
  - cbn [createFileNodes_loop]. destruct (0 <? numFiles); exact HK.
  - cbn [createFileNodes_loop]. destruct (0 <? numFiles) eqn:Hpos; [|exact HK].
    apply Z.ltb_lt in Hpos.
    destruct (FileNode_init_cases c t)
      as [(seed & size & st1 & Hinit)|(o & st' & Herr & Ho & _)].
    2:{ unfold bind at 1. rewrite Herr.
        assert (HK' : K {| rng := st'; nodes := nodes t; dirNodes := dirNodes t |})
          by (eapply K_stable; [exact HK|reflexivity|reflexivity]).
        destruct o as [a|e|]; [destruct (Ho a eq_refl)|exact HK'|exact HK']. }
    unfold bind at 1. rewrite Hinit.
    set (t0 := {| rng := st1; nodes := nodes t; dirNodes := dirNodes t |}).
    assert (HK0 : K t0) by (eapply K_stable; [exact HK|reflexivity|reflexivity]).
    assert (Hd : drawn size).
    { exists c. split; [exact Hc|]. split; [lia|].
      intros Hr. eapply FileNode_init_size; eauto. }
    destruct (leaf_step t0 (Node_init (FileNode seed size)) HK0
                (or_introl (ex_intro _ seed (ex_intro _ size (conj eq_refl Hd)))))
      as (t1 & Hatt & HK1 & _ & Hvalid).
    change (length (nodes t0)) with (length (nodes t)) in Hatt, Hvalid.
    unfold bind at 1. rewrite Hatt.
    specialize (Hvalid seed size eq_refl Hd).
    set (f := length (nodes t)) in *.
    unfold bind at 1, lift_rng at 1.
    destruct (coalescence_ok (numFiles - 1) numCoal numCoalLegacy (rng t1))
      as ([[copies nc] ncl] & st2 & Hco & _).
    rewrite Hco.
    set (t2 := {| rng := st2; nodes := nodes t1; dirNodes := dirNodes t1 |}).
    assert (HK2 : K t2 /\ sized_file f t2).
    { split; [eapply K_stable|eapply sized_file_stable]; eauto. }
    destruct (0 <? Z.min copies (numFiles - 1)) eqn:Hcopies.
    + apply Z.ltb_lt in Hcopies.
      assert (Htail :
        hoare (fun t => K t /\ sized_file f t)
              (repeatM (Z.to_nat (Z.min copies (numFiles - 1)))
                       (let* clone := copy_copy f in _attach gen clone);;;
               createFileNodes_loop gen fuel c
                 (numFiles - 1 - Z.min copies (numFiles - 1)) nc ncl)
              (fun _ => K) K).
      { eapply hoare_bind.
        - eapply hoare_weaken;
            [apply (hoare_repeatM (fun t => K t /\ sized_file f t) (fun _ => False));
             apply K_clone
            |auto|intros a s H; exact H|intros s []].
        - intros []. eapply hoare_weaken;
            [apply IH; lia|intros s [H _]; exact H|auto|auto]. }
      exact (Htail t2 HK2).
    + exact (IH (numFiles - 1) nc ncl ltac:(lia) t2 (proj1 HK2)).
Qed.

Lemma K_files (c : category) : c ∈ categories -> keeps K (_createFileNodes gen c).
Proof.
  intros Hc t HK. unfold _createFileNodes.
  destruct ((cat_num c <? cat_numCoalescent c) || (cat_num c <? cat_coalescent c));
    [exact HK|].
  apply K_loop; [exact Hc|lia|exact HK].
Qed.

Lemma K_copies : keeps K (_createCopyNodes gen w).
Proof.
  unfold _createCopyNodes. fold (copy_sources w).
  destruct (gen_copied_num gen =? 0); [apply keeps_ret|].
  assert (Hsub : forall x, x ∈ copy_sources w -> x ∈ copy_sources w) by auto.
  revert Hsub. generalize (copy_sources w) at 1 3 4 as srcs. intros srcs Hsub.
  destruct srcs as [|s l]; [apply keeps_raise|].
  apply keeps_repeatM.
  intros t HK. unfold bind at 1, lift_rng.
  destruct (choice_ok (s :: l) (rng t) ltac:(discriminate))
    as (v & st' & src & _ & _ & Hsrcv & Hchoice).
  rewrite Hchoice.
  apply (K_new_leaf (Node_init (CopyNode src))).
  - right. exists src. split; [|reflexivity].
    apply Hsub. apply list_elem_of_lookup. eauto.
  - eapply K_stable; [exact HK|reflexivity|reflexivity].
Qed.

(** [_createNodes], whatever its outcome. *)
Lemma createNodes_phases (t : RandomDirTree) :
  J1 0 t -> dir_ok gen t -> K (snd (_createNodes gen w t)).
Proof.
  intros HJ Hok. unfold _createNodes.
  destruct (phase1 (Z.to_nat (gen_dirs_num gen)) 0 t HJ Hok) as (t1 & Hrun & HJ1 & Hok1).
  unfold bind at 1. rewrite Hrun.
  unfold bind at 1, gets at 1.
  assert (HK : K (popped t1))
    by (split; [apply J1_J; assumption|apply dir_ok_popped; exact Hok1]).
  assert (Hrest : keeps K (_createFileNodes gen (gen_huge gen) ;;;
                           _createFileNodes gen (gen_large gen) ;;;
                           _createFileNodes gen (gen_medium gen) ;;;
                           _createFileNodes gen (gen_small gen) ;;;
                           _createCopyNodes gen w)).
  { repeat (apply keeps_bind;
              [apply K_files; unfold categories; rewrite !elem_of_cons; auto 6|];
            intros []).
    apply K_copies. }
  unfold bind at 1. unfold popped in HK.
  destruct (1 <? length (dirNodes t1))%nat.
  - unfold set_dirNodes, modify.
    specialize (Hrest _ HK).
    destruct ((_createFileNodes gen (gen_huge gen) ;;; _) _) as [[a|e|] t2]; exact Hrest.
  - cbn [ret]. specialize (Hrest _ HK).
    destruct ((_createFileNodes gen (gen_huge gen) ;;; _) _) as [[a|e|] t2]; exact Hrest.
Qed.

Lemma K_path (t : RandomDirTree) (i : nat) (n : node) (s : string) :
  K t -> nodes t !! i = Some n ->
  K {| rng := rng t; nodes := <[i := set_path s n]> (nodes t); dirNodes := dirNodes t |}.
Proof.
  intros [HJ Hok] Hi. split; [apply J_path; assumption|].
  apply (tree_ok_set_path gen (all_sources t) t i n s); [|exact Hi].
  split; [exact Hok|apply copies_from_all_sources].
Qed.

Lemma K_nameNodes (fuel : nat) :
  forall self namer, keeps K (nameNodes gen fuel self namer).
Proof.
  assert (Hset : forall self name, keeps K (setName gen self name)).
  { intros self name t HK. unfold setName, bind, get_node.
    destruct (nodes t !! self) as [n|] eqn:Hn; [|exact HK].
    destruct (node_parent n) as [p|]; [|exact HK].
    destruct (nodes t !! p) as [pn|]; [|exact HK].
    destruct (node_path pn) as [pp|]; [|exact HK].
    apply K_path; assumption. }
  assert (Hname : forall self namer, keeps K (Node_nameNodes gen self namer)).
  { intros self namer. unfold Node_nameNodes.
    apply keeps_bind; [apply Hset|]. intros []. apply keeps_ret. }
  induction fuel as [|fuel IH]; intros self namer; cbn [nameNodes].
  - apply keeps_diverge.
  - apply keeps_bind; [apply keeps_get_node|]. intros n.
    destruct (node_kind_of n); try apply Hname.
    apply keeps_bind.
    + destruct (isRoot n); [apply keeps_ret|apply Hname].
    + intros namer'. apply keeps_foldM. intros b a. apply IH.
Qed.

(** The tree [RandomDirTree(rootDir, stats)] leaves, whatever its outcome,
    when the depth limit is not negative. *)
Lemma build_phases (rootDir : string) :
  0 <= gen_dirs_maxDepth gen ->
  J1 0 (RandomDirTree_new gen rootDir) ->
  K (snd (RandomDirTree_init gen w rootDir)).
Proof.
  intros Hmax HJ. unfold RandomDirTree_init, RandomDirTree_build.
  replace (gen_dirs_maxDepth gen <? 0) with false by (symmetry; apply Z.ltb_ge; lia).
  unfold bind at 1. cbn [ret]. unfold bind at 1.
  pose proof (createNodes_phases _ HJ (dir_ok_new gen rootDir)) as HK.
  destruct (_createNodes gen w (RandomDirTree_new gen rootDir)) as [[[]|e|] t1];
    try exact HK.
  cbn [snd] in HK.
  assert (Hrest : keeps K
            ((if gen_readable_filenames gen
              then let* t := get in
                   let* _ := nameNodes gen (length (nodes t)) root 0 in ret tt
              else raise (Error "ugly filenames are not currently supported")) ;;;
             let* t := get in
             match measure (length (nodes t)) w t root GenerateStats_init with
             | Ok stats => ret stats
             | Raise e => raise e
             | Diverge => diverge
             end)).
  { apply keeps_bind.
    - destruct (gen_readable_filenames gen); [|apply keeps_raise].
      apply keeps_bind; [apply keeps_get|]. intros t.
      apply keeps_bind; [apply K_nameNodes|]. intros ?. apply keeps_ret.
    - intros []. apply keeps_bind; [apply keeps_get|]. intros t.
      destruct (measure _ _ _ _ _); [apply keeps_ret|apply keeps_raise|apply keeps_diverge]. }
  specialize (Hrest t1 HK).
  destruct ((_ ;;; _) t1) as [[a|e|] t2]; exact Hrest.
Qed.

End Phases.

End Builder.

(** ** The shape of the tree *)
Section Shape.
Context {R : NumpyRandomState}.
Variable gen : Config.

(** The nodes form a tree in the order of their allocation: a directory
    lists each of its children once, they were allocated after it and name
    it as their parent; and a node either has no parent and is the root, or
    is among the children of its parent, one level below it. *)
Definition linked (t : RandomDirTree) : Prop :=
  (forall p pn cs, nodes t !! p = Some pn -> node_kind_of pn = DirNode cs ->
     NoDup cs
     /\ forall c, c ∈ cs ->
          (p < c)%nat /\ exists cn, nodes t !! c = Some cn /\ node_parent cn = Some p)
  /\ (forall c cn, nodes t !! c = Some cn ->
        match node_parent cn with
        | Some p => exists pn cs, nodes t !! p = Some pn /\ node_kind_of pn = DirNode cs
                                  /\ c ∈ cs /\ node_depth cn = node_depth pn + 1
        | None => c = root
        end).

Lemma linked_new (rootDir : string) : linked (RandomDirTree_new gen rootDir).
Proof.
  split.
  - intros [|p] pn cs Hp Hcs; [|destruct p; discriminate].
    injection Hp as <-. injection Hcs as <-.
    split; [constructor|]. intros c Hc. inversion Hc.
  - intros [|c] cn Hc; [|destruct c; discriminate].
    injection Hc as <-. reflexivity.
Qed.

Lemma linked_same_nodes (t t' : RandomDirTree) :
  linked t -> nodes t' = nodes t -> linked t'.
Proof. intros [H1 H2] Hn. split; rewrite Hn; assumption. Qed.

Lemma linked_stable : stable linked.
Proof. intros t t' H Hn _. eapply linked_same_nodes; eauto. Qed.

Lemma linked_popped (t : RandomDirTree) : linked t -> linked (popped t).
Proof.
  intros H. unfold popped. destruct (1 <? length (dirNodes t))%nat; [|exact H].
  eapply linked_same_nodes; [exact H|reflexivity].
Qed.

(** A store whose nodes differ from those of [t] in their paths only. *)
Lemma linked_path (t : RandomDirTree) (i : nat) (n : node) (s : string) :
  linked t -> nodes t !! i = Some n ->
  linked {| rng := rng t; nodes := <[i := set_path s n]> (nodes t);
            dirNodes := dirNodes t |}.
Proof.
  intros [H1 H2] Hi.
  assert (Hlt : (i < length (nodes t))%nat) by (apply lookup_lt_Some in Hi; exact Hi).
  assert (Hlook : forall j m, <[i := set_path s n]> (nodes t) !! j = Some m ->
            exists m0, nodes t !! j = Some m0 /\ node_parent m = node_parent m0
                       /\ node_depth m = node_depth m0
                       /\ node_kind_of m = node_kind_of m0).
  { intros j m Hj. destruct (decide (j = i)) as [->|Hne].
    - rewrite list_lookup_insert_eq in Hj by exact Hlt. injection Hj as <-.
      exists n. auto.
    - rewrite list_lookup_insert_ne in Hj by congruence. exists m. auto. }
  assert (Hback : forall j m0, nodes t !! j = Some m0 ->
            exists m, <[i := set_path s n]> (nodes t) !! j = Some m
                      /\ node_parent m = node_parent m0
                      /\ node_depth m = node_depth m0
                      /\ node_kind_of m = node_kind_of m0).
  { intros j m0 Hj. destruct (decide (j = i)) as [->|Hne].
    - exists (set_path s n). rewrite list_lookup_insert_eq by exact Hlt.
      replace m0 with n by congruence. auto.
    - exists m0. rewrite list_lookup_insert_ne by congruence. auto. }
  split; cbn [nodes].
  - intros p pn cs Hp Hcs.
    destruct (Hlook p pn Hp) as (pn0 & Hpn0 & _ & _ & Hk).
    destruct (H1 p pn0 cs Hpn0 ltac:(congruence)) as [Hnd Hch].
    split; [exact Hnd|]. intros c Hc.
    destruct (Hch c Hc) as (Hlt' & cn0 & Hcn0 & Hpar).
    split; [exact Hlt'|].
    destruct (Hback c cn0 Hcn0) as (cn & Hcn & Hp' & _). exists cn.
    split; [exact Hcn|congruence].
  - intros c cn Hc.
    destruct (Hlook c cn Hc) as (cn0 & Hcn0 & Hp & Hd & _).
    specialize (H2 c cn0 Hcn0). rewrite Hp, Hd.
    destruct (node_parent cn0) as [p|]; [|exact H2].
    destruct H2 as (pn0 & cs & Hpn0 & Hcs & Hin & Hdep).
    destruct (Hback p pn0 Hpn0) as (pn & Hpn & _ & Hd' & Hk').
    exists pn, cs. repeat split; try assumption; congruence.
Qed.

(** The attachment of a node without children of its own. *)
Lemma linked_attached (t : RandomDirTree) (nd : node) (q : nat) (t' : RandomDirTree) :
  linked t -> attached t nd q t' ->
  (forall cs, node_kind_of nd = DirNode cs -> cs = []) ->
  linked t'.
Proof.
  intros [H1 H2] Hatt Hnd.
  destruct (attached_lookup t nd q t' Hatt)
    as (qn & cs & Hq & Hcs & Hqlt & Hlen & Hq' & Hn' & Hother & _).
  set (n := length (nodes t)) in *.
  assert (Hbound : forall c, c ∈ cs -> (c < n)%nat).
  { intros c Hc. destruct (H1 q qn cs Hq Hcs) as [_ Hch].
    destruct (Hch c Hc) as (_ & cn & Hcn & _).
    apply lookup_lt_Some in Hcn. exact Hcn. }
  (* the nodes of [t] in [t'] *)
  assert (Hold : forall i m0, nodes t !! i = Some m0 ->
            exists m, nodes t' !! i = Some m /\ node_parent m = node_parent m0
                      /\ node_depth m = node_depth m0).
  { intros i m0 Hi. destruct (decide (i = q)) as [->|Hne].
    - eexists. split; [exact Hq'|]. replace m0 with qn by congruence. auto.
    - exists m0. rewrite Hother; [auto|exact Hne|].
      apply lookup_lt_Some in Hi. fold n in Hi. lia. }
  split.
  - intros p pn cs0 Hp Hcs0.
    destruct (decide (p = q)) as [->|Hpq]; [|destruct (decide (p = n)) as [->|Hpn]].
    + rewrite Hq' in Hp. injection Hp as <-. cbn in Hcs0. injection Hcs0 as <-.
      destruct (H1 q qn cs Hq Hcs) as [Hnd' Hch].
      split.
      * apply NoDup_app. split; [exact Hnd'|]. split; [|apply NoDup_singleton].
        intros c Hc Hc'. apply list_elem_of_singleton in Hc'. subst c.
        specialize (Hbound n Hc). lia.
      * intros c Hc. apply elem_of_app in Hc as [Hc|Hc].
        -- destruct (Hch c Hc) as (Hlt & cn & Hcn & Hpar).
           split; [exact Hlt|].
           destruct (Hold c cn Hcn) as (cn' & Hcn' & Hpar' & _).
           exists cn'. split; [exact Hcn'|congruence].
        -- apply list_elem_of_singleton in Hc. subst c.
           split; [exact Hqlt|]. eexists. split; [exact Hn'|reflexivity].
    + rewrite Hn' in Hp. injection Hp as <-. cbn in Hcs0.
      rewrite (Hnd cs0 Hcs0). split; [constructor|]. intros c Hc. inversion Hc.
    + rewrite Hother in Hp by assumption.
      destruct (H1 p pn cs0 Hp Hcs0) as [Hnd' Hch].
      split; [exact Hnd'|]. intros c Hc.
      destruct (Hch c Hc) as (Hlt & cn & Hcn & Hpar).
      split; [exact Hlt|].
      destruct (Hold c cn Hcn) as (cn' & Hcn' & Hpar' & _).
      exists cn'. split; [exact Hcn'|congruence].
  - intros c cn Hc.
    (* the directory [p] in [t'] lists what it listed in [t] *)
    assert (Hdirs : forall p pn0 cs0, nodes t !! p = Some pn0 ->
              node_kind_of pn0 = DirNode cs0 ->
              exists pn cs1, nodes t' !! p = Some pn /\ node_kind_of pn = DirNode cs1
                             /\ (forall x, x ∈ cs0 -> x ∈ cs1)
                             /\ node_depth pn = node_depth pn0).
    { intros p pn0 cs0 Hp Hcs0. destruct (decide (p = q)) as [->|Hpq].
      - eexists _, _. split; [exact Hq'|]. split; [reflexivity|].
        replace pn0 with qn in * by congruence.
        replace cs0 with cs by congruence.
        split; [|reflexivity]. intros x Hx. apply elem_of_app. left. exact Hx.
      - exists pn0, cs0. rewrite Hother; [auto|exact Hpq|].
        apply lookup_lt_Some in Hp. fold n in Hp. lia. }
    destruct (decide (c = n)) as [->|Hcn]; [|destruct (decide (c = q)) as [->|Hcq]].
    + rewrite Hn' in Hc. injection Hc as <-. cbn.
      eexists _, _. split; [exact Hq'|]. split; [reflexivity|].
      split; [apply elem_of_app; right; left|reflexivity].
    + rewrite Hq' in Hc. injection Hc as <-. cbn.
      specialize (H2 q qn Hq). destruct (node_parent qn) as [p|]; [|exact H2].
      destruct H2 as (pn0 & cs0 & Hpn0 & Hcs0 & Hin & Hdep).
      destruct (Hdirs p pn0 cs0 Hpn0 Hcs0) as (pn & cs1 & Hpn & Hcs1 & Hsub & Hd).
      exists pn, cs1. repeat split; auto. lia.
    + rewrite Hother in Hc by assumption.
      specialize (H2 c cn Hc). destruct (node_parent cn) as [p|]; [|exact H2].
      destruct H2 as (pn0 & cs0 & Hpn0 & Hcs0 & Hin & Hdep).
      destruct (Hdirs p pn0 cs0 Hpn0 Hcs0) as (pn & cs1 & Hpn & Hcs1 & Hsub & Hd).
      exists pn, cs1. repeat split; auto. lia.
Qed.

Lemma leaf_no_children (srcs : list string) (nd : node) :
  leaf_for gen srcs nd -> forall cs, node_kind_of nd = DirNode cs -> cs = [].
Proof.
  intros Hleaf cs Hcs. apply leaf_for_not_dir in Hleaf.
  unfold isDir in Hleaf. rewrite Hcs in Hleaf. discriminate.
Qed.

Lemma linked_init (w : World) (rootDir : string) :
  0 <= gen_dirs_maxDepth gen ->
  linked (snd (RandomDirTree_init gen w rootDir)).
Proof.
  intros Hmax.
  refine (proj1 (build_phases gen w (fun _ => linked) linked _ _ _ _ _ rootDir Hmax
                   (linked_new rootDir))).
  - intros k t q t' H _ Hatt. eapply linked_attached; [exact H|exact Hatt|].
    intros cs [= <-]. reflexivity.
  - intros t H _. apply linked_popped, H.
  - exact linked_stable.
  - intros t nd q t' H _ Hleaf _ Hatt.
    eapply linked_attached; [exact H|exact Hatt|eapply leaf_no_children, Hleaf].
  - intros t i n s. apply linked_path.
Qed.

(** X10.  The nodes of a tree form a tree: whatever the outcome of the
    build, the nodes are [linked], and no node is listed by two
    directories. *)
Theorem tree_shape (w : World) (rootDir : string) :
  0 <= gen_dirs_maxDepth gen ->
  let t := snd (RandomDirTree_init gen w rootDir) in
  linked t
  /\ forall p p' pn pn' cs cs' c,
       nodes t !! p = Some pn -> node_kind_of pn = DirNode cs ->
       nodes t !! p' = Some pn' -> node_kind_of pn' = DirNode cs' ->
       c ∈ cs -> c ∈ cs' -> p = p'.
Proof.
  intros Hmax t. pose proof (linked_init w rootDir Hmax) as HL. fold t in HL.
  split; [exact HL|].
  intros p p' pn pn' cs cs' c Hp Hcs Hp' Hcs' Hc Hc'.
  destruct HL as [H1 _].
  destruct (H1 p pn cs Hp Hcs) as [_ Hch]. destruct (Hch c Hc) as (_ & cn & Hcn & Hpar).
  destruct (H1 p' pn' cs' Hp' Hcs') as [_ Hch']. destruct (Hch' c Hc') as (_ & cn' & Hcn' & Hpar').
  congruence.
Qed.

End Shape.

(** ** Directories and where the files go *)
Section Placement.
Context {R : NumpyRandomState}.
Variable gen : Config.

(** The number of nodes of a kind. *)
Definition count_if (f : node -> bool) (l : list node) : nat :=
  length (filter (fun n => f n = true) l).

Lemma count_if_app (f : node -> bool) (l : list node) (x : node) :
  count_if f (l ++ [x]) = (count_if f l + (if f x then 1 else 0))%nat.
Proof.
  unfold count_if. rewrite filter_app, length_app, filter_cons, filter_nil.
  destruct (decide (f x = true)) as [->|Hx]; simpl; [reflexivity|].
  destruct (f x); [congruence|reflexivity].
Qed.

Lemma count_if_insert (f : node -> bool) (l : list node) (q : nat) (x y : node) :
  l !! q = Some y -> f x = f y -> count_if f (<[q := x]> l) = count_if f l.
Proof.
  unfold count_if. revert q. induction l as [|a l IH]; intros q Hq Hxy.
  - discriminate.
  - destruct q as [|q]; simpl in Hq.
    + injection Hq as ->. cbn [insert list_insert]. rewrite !filter_cons, Hxy.
      destruct (decide (f y = true)); reflexivity.
    + change (<[S q := x]> (a :: l)) with (a :: <[q := x]> l).
      rewrite !filter_cons. specialize (IH q Hq Hxy).
      destruct (decide (f a = true)); simpl length; lia.
Qed.

Lemma count_if_attached (f : node -> bool) (t : RandomDirTree) (nd : node) (q : nat)
    (t' : RandomDirTree) :
  attached t nd q t' ->
  (forall n cs cs', node_kind_of n = DirNode cs -> f (set_children cs' n) = f n) ->
  (forall p d, f (set_parent p d nd) = f nd) ->
  count_if f (nodes t') = (count_if f (nodes t) + (if f nd then 1 else 0))%nat.
Proof.
  intros (st' & qn & cs & Hq & Hcs & ->) Hch Hpar. cbn [nodes].
  rewrite (count_if_insert f _ q _ qn).
  - rewrite count_if_app, Hpar. reflexivity.
  - apply lookup_app_l_Some. exact Hq.
  - eapply Hch, Hcs.
Qed.

Lemma isDir_set_children (n : node) (cs cs' : list nat) :
  node_kind_of n = DirNode cs -> isDir (set_children cs' n) = isDir n.
Proof. intros H. unfold isDir. rewrite H. reflexivity. Qed.

Lemma count_if_path (f : node -> bool) (l : list node) (i : nat) (n : node) (s : string) :
  l !! i = Some n -> f (set_path s n) = f n ->
  count_if f (<[i := set_path s n]> l) = count_if f l.
Proof. intros Hi Hf. eapply count_if_insert; eauto. Qed.

Lemma count_dirs_init (w : World) (rootDir : string) :
  0 <= gen_dirs_maxDepth gen ->
  count_if isDir (nodes (snd (RandomDirTree_init gen w rootDir)))
  = S (Z.to_nat (gen_dirs_num gen)).
Proof.
  intros Hmax.
  refine (proj1 (build_phases gen w
                   (fun k t => count_if isDir (nodes t) = S k)
                   (fun t => count_if isDir (nodes t) = S (Z.to_nat (gen_dirs_num gen)))
                   _ _ _ _ _ rootDir Hmax eq_refl)).
  - intros k t q t' H _ Hatt.
    rewrite (count_if_attached isDir t _ q t' Hatt);
      [cbn; lia|apply isDir_set_children|reflexivity].
  - intros t H _. unfold popped. destruct (1 <? length (dirNodes t))%nat; exact H.
  - intros t t' H Hn _. rewrite Hn. exact H.
  - intros t nd q t' H _ Hleaf _ Hatt.
    rewrite (count_if_attached isDir t _ q t' Hatt);
      [|apply isDir_set_children|reflexivity].
    rewrite (leaf_for_not_dir gen _ _ Hleaf). lia.
  - intros t i n s H Hi. cbn [nodes]. rewrite count_if_path; auto.
Qed.


(** No file and no copy is in the root directory. *)
Definition root_has_no_files (t : RandomDirTree) : Prop :=
  forall c cn, nodes t !! c = Some cn -> isDir cn = false -> node_parent cn <> Some root.

Lemma files_below_init (w : World) (rootDir : string) :
  0 <= gen_dirs_maxDepth gen ->
  (0 < Z.to_nat (gen_dirs_num gen))%nat ->
  (root ∉ dirNodes (snd (RandomDirTree_init gen w rootDir)))
  /\ root_has_no_files (snd (RandomDirTree_init gen w rootDir)).
Proof.
  intros Hmax Hnum.
  refine (proj1 (build_phases gen w
            (fun k t => dirNodes t = seq 0 (S k) /\ length (nodes t) = S k
                        /\ forall c cn, nodes t !! c = Some cn -> isDir cn = true)
            (fun t => (0 < Z.to_nat (gen_dirs_num gen))%nat ->
                      (root ∉ dirNodes t) /\ root_has_no_files t)
            _ _ _ _ _ rootDir Hmax _) Hnum).
  - intros k t q t' (Hdn & Hlen & Hall) _ Hatt.
    destruct (attached_lookup t _ q t' Hatt)
      as (qn & cs & Hq & Hcs & Hqlt & Hlen' & Hq' & Hn' & Hother & Hdn').
    split; [|split].
    + rewrite Hdn', Hdn, Hlen. cbn [isDir Node_init node_kind_of].
      rewrite (seq_S (S k) 0). reflexivity.
    + lia.
    + intros c cn Hc.
      destruct (decide (c = q)) as [->|Hcq];
        [|destruct (decide (c = length (nodes t))) as [->|Hcn]].
      * rewrite Hq' in Hc. injection Hc as <-. reflexivity.
      * rewrite Hn' in Hc. injection Hc as <-. reflexivity.
      * rewrite Hother in Hc by assumption. eapply Hall, Hc.
  - intros t (Hdn & Hlen & Hall) _ Hpos. unfold popped.
    rewrite Hdn, length_seq.
    replace (1 <? S (Z.to_nat (gen_dirs_num gen)))%nat with true
      by (symmetry; apply Nat.ltb_lt; lia).
    cbn [dirNodes nodes]. split.
    + cbn [seq drop]. intros Hin. apply elem_of_seq in Hin. unfold root in Hin. lia.
    + intros c cn Hc Hleaf. rewrite (Hall c cn Hc) in Hleaf. discriminate.
  - intros t t' H Hn Hd Hpos. destruct (H Hpos) as [H1 H2].
    split; [rewrite Hd; exact H1|]. intros c cn Hc. rewrite Hn in Hc. eauto.
  - intros t nd q t' H _ Hleaf Hq Hatt Hpos. destruct (H Hpos) as [H1 H2].
    destruct (attached_lookup t _ q t' Hatt)
      as (qn & cs & Hqn & Hcs & Hqlt & Hlen' & Hq' & Hn' & Hother & Hdn').
    rewrite (leaf_for_not_dir gen _ _ Hleaf), app_nil_r in Hdn'.
    split; [rewrite Hdn'; exact H1|].
    intros c cn Hc Hcleaf.
    destruct (decide (c = q)) as [->|Hcq];
      [|destruct (decide (c = length (nodes t))) as [->|Hcn]].
    + rewrite Hq' in Hc. injection Hc as <-. discriminate.
    + rewrite Hn' in Hc. injection Hc as <-. cbn. intros [= ->]. contradiction.
    + rewrite Hother in Hc by assumption. eauto.
  - intros t i n s H Hi Hpos. destruct (H Hpos) as [H1 H2].
    split; [exact H1|]. intros c cn Hc Hcleaf. cbn [nodes] in Hc.
    destruct (decide (c = i)) as [->|Hne].
    + rewrite list_lookup_insert_eq in Hc by (apply lookup_lt_Some in Hi; exact Hi).
      injection Hc as <-. cbn. eapply (H2 i n Hi). exact Hcleaf.
    + rewrite list_lookup_insert_ne in Hc by congruence. eauto.
  - split; [reflexivity|]. split; [reflexivity|].
    intros [|c] cn Hc; [|destruct c; discriminate]. injection Hc as <-. reflexivity.
Qed.

(** X12.  When subdirectories are asked for, no file and no copy is put in
    the root directory: the parent of every file and copy node is another
    directory. *)
Theorem files_go_below_the_root (w : World) (rootDir : string) (c : nat) (cn : node) :
  0 <= gen_dirs_maxDepth gen ->
  1 <= gen_dirs_num gen ->
  nodes (snd (RandomDirTree_init gen w rootDir)) !! c = Some cn ->
  isDir cn = false ->
  exists p pn, node_parent cn = Some p /\ p <> root
               /\ nodes (snd (RandomDirTree_init gen w rootDir)) !! p = Some pn
               /\ isDir pn = true.
Proof.
  intros Hmax Hnum Hc Hleaf.
  destruct (files_below_init w rootDir Hmax ltac:(lia)) as [_ Hfiles].
  destruct (linked_init gen w rootDir Hmax) as [_ H2].
  specialize (H2 c cn Hc). specialize (Hfiles c cn Hc Hleaf).
  destruct (node_parent cn) as [p|].
  - destruct H2 as (pn & cs & Hpn & Hcs & _).
    exists p, pn. split; [reflexivity|]. split; [congruence|].
    split; [exact Hpn|]. unfold isDir. rewrite Hcs. reflexivity.
  - subst c.
    destruct (ok_root gen _ (dir_ok_init gen w rootDir)) as (r & Hr & Hrdir & _).
    unfold root in *. rewrite Hc in Hr. injection Hr as <-. congruence.
Qed.

End Placement.

(** ** The traversals visit every node once *)
Section Traversal.
Context {R : NumpyRandomState}.
Variable gen : Config.

(** The nodes in the order in which a recursive method visits them from
    the node [i]: a directory first, then its children from the first to
    the last. *)
Fixpoint preorder (fuel : nat) (t : RandomDirTree) (i : nat) : list nat :=
  match fuel with
  | O => []
  | S fuel' =>
      match nodes t !! i with
      | Some n =>
          match node_kind_of n with
          | DirNode cs => i :: (cs ≫= preorder fuel' t)
          | _ => [i]
          end
      | None => []
      end
  end.

(** [i] is [x] or one of the directories above it. *)
Inductive below (t : RandomDirTree) (i : nat) : nat -> Prop :=
  | below_refl : below t i i
  | below_step (x : nat) (xn : node) (p : nat) :
      nodes t !! x = Some xn -> node_parent xn = Some p ->
      below t i p -> below t i x.

Section Linked.
Variable t : RandomDirTree.
Hypothesis Hlinked : linked t.

Lemma parent_lt (x : nat) (xn : node) (p : nat) :
  nodes t !! x = Some xn -> node_parent xn = Some p -> (p < x)%nat.
Proof.
  intros Hx Hp. destruct Hlinked as [H1 H2].
  specialize (H2 x xn Hx). rewrite Hp in H2.
  destruct H2 as (pn & cs & Hpn & Hcs & Hin & _).
  destruct (H1 p pn cs Hpn Hcs) as [_ Hch]. apply Hch, Hin.
Qed.

Lemma child_parent (p : nat) (pn : node) (cs : list nat) (c : nat) :
  nodes t !! p = Some pn -> node_kind_of pn = DirNode cs -> c ∈ cs ->
  (p < c)%nat /\ exists cn, nodes t !! c = Some cn /\ node_parent cn = Some p.
Proof.
  intros Hp Hcs Hc. destruct Hlinked as [H1 _].
  destruct (H1 p pn cs Hp Hcs) as [_ Hch]. apply Hch, Hc.
Qed.

Lemma below_le (i x : nat) : below t i x -> (i <= x)%nat.
Proof.
  induction 1 as [|x xn p Hx Hp _ IH]; [lia|].
  pose proof (parent_lt x xn p Hx Hp). lia.
Qed.

Lemma below_child (i c x : nat) (cn : node) :
  nodes t !! c = Some cn -> node_parent cn = Some i -> below t c x -> below t i x.
Proof.
  intros Hc Hp. induction 1 as [|x xn p Hx Hxp _ IH].
  - eapply below_step; [exact Hc|exact Hp|apply below_refl].
  - eapply below_step; eauto.
Qed.

(** The first step down from [i] towards [x]. *)
Lemma below_first (i x : nat) (ni : node) (cs : list nat) :
  nodes t !! i = Some ni -> node_kind_of ni = DirNode cs ->
  below t i x -> x <> i -> exists c, c ∈ cs /\ below t c x.
Proof.
  intros Hi Hcs. induction 1 as [|x xn p Hx Hp Hbelow IH]; intros Hne; [congruence|].
  destruct (decide (p = i)) as [->|Hpi].
  - exists x. split; [|apply below_refl].
    destruct Hlinked as [_ H2]. specialize (H2 x xn Hx). rewrite Hp in H2.
    destruct H2 as (pn & cs' & Hpn & Hcs' & Hin & _).
    replace cs with cs' by congruence. exact Hin.
  - destruct (IH Hpi) as (c & Hc & Hcp). exists c. split; [exact Hc|].
    eapply below_step; eauto.
Qed.

(** What has a node below it is a directory. *)
Lemma below_dir (i x : nat) :
  below t i x -> x <> i ->
  exists ni cs, nodes t !! i = Some ni /\ node_kind_of ni = DirNode cs.
Proof.
  induction 1 as [|x xn p Hx Hp Hbelow IH]; intros Hne; [congruence|].
  destruct (decide (p = i)) as [->|Hpi]; [|apply IH, Hpi].
  destruct Hlinked as [_ H2]. specialize (H2 x xn Hx). rewrite Hp in H2.
  destruct H2 as (pn & cs & Hpn & Hcs & _). eauto.
Qed.

Lemma below_linear (a b y : nat) :
  below t a y -> below t b y -> below t a b \/ below t b a.
Proof.
  induction 1 as [|y yn p Hy Hp Ha IH]; intros Hb; [right; exact Hb|].
  inversion Hb as [|y' yn' p' Hy' Hp' Hb']; subst.
  - left. eapply below_step; eauto.
  - apply IH. replace p with p' by congruence. exact Hb'.
Qed.

(** Two children of one directory have no node below both. *)
Lemma siblings_apart (i c1 c2 y : nat) (ni : node) (cs : list nat) :
  nodes t !! i = Some ni -> node_kind_of ni = DirNode cs ->
  c1 ∈ cs -> c2 ∈ cs -> below t c1 y -> below t c2 y -> c1 = c2.
Proof.
  intros Hi Hcs Hc1 Hc2 H1 H2.
  destruct (child_parent i ni cs c1 Hi Hcs Hc1) as (Hlt1 & n1 & Hn1 & Hp1).
  destruct (child_parent i ni cs c2 Hi Hcs Hc2) as (Hlt2 & n2 & Hn2 & Hp2).
  assert (Hup : forall a b na nb, nodes t !! a = Some na -> node_parent na = Some i ->
                  nodes t !! b = Some nb -> node_parent nb = Some i ->
                  (i < a)%nat -> below t a b -> a = b).
  { intros a b na nb Ha Hpa Hb Hpb Hlt Hab.
    inversion Hab as [|b' nb' p' Hb' Hpb' Hab']; subst; [reflexivity|].
    replace p' with i in Hab' by congruence.
    apply below_le in Hab'. lia. }
  destruct (below_linear c1 c2 y H1 H2) as [H|H].
  - eapply Hup; eauto.
  - symmetry. eapply Hup; eauto.
Qed.

Lemma preorder_below (fuel : nat) :
  forall i x, x ∈ preorder fuel t i -> below t i x /\ (x < length (nodes t))%nat.
Proof.
  induction fuel as [|fuel IH]; intros i x Hx; [inversion Hx|].
  cbn [preorder] in Hx. destruct (nodes t !! i) as [n|] eqn:Hi; [|inversion Hx].
  assert (Hlt : (i < length (nodes t))%nat) by (apply lookup_lt_Some in Hi; exact Hi).
  destruct (node_kind_of n) as [cs| |] eqn:Hk.
  - apply elem_of_cons in Hx as [->|Hx]; [split; [apply below_refl|exact Hlt]|].
    apply list_elem_of_bind in Hx as (c & Hxc & Hc).
    destruct (IH c x Hxc) as [Hb Hxlt]. split; [|exact Hxlt].
    destruct (child_parent i n cs c Hi Hk Hc) as (_ & cn & Hcn & Hp).
    eapply below_child; eauto.
  - apply list_elem_of_singleton in Hx as ->. split; [apply below_refl|exact Hlt].
  - apply list_elem_of_singleton in Hx as ->. split; [apply below_refl|exact Hlt].
Qed.

Lemma preorder_complete (fuel : nat) :
  forall i x, (length (nodes t) <= fuel + i)%nat -> (i < length (nodes t))%nat ->
              below t i x -> x ∈ preorder fuel t i.
Proof.
  induction fuel as [|fuel IH]; intros i x Hfuel Hi Hb; [lia|].
  cbn [preorder].
  destruct (lookup_lt_is_Some_2 (nodes t) i Hi) as [n Hn]. rewrite Hn.
  destruct (decide (x = i)) as [->|Hne].
  - destruct (node_kind_of n); left.
  - destruct (node_kind_of n) as [cs| |] eqn:Hk.
    + destruct (below_first i x n cs Hn Hk Hb Hne) as (c & Hc & Hcx).
      right. apply list_elem_of_bind. exists c. split; [|exact Hc].
      destruct (child_parent i n cs c Hn Hk Hc) as (Hlt & cn & Hcn & _).
      apply IH; [lia|apply lookup_lt_Some in Hcn; exact Hcn|exact Hcx].
    + destruct (below_dir i x Hb Hne) as (ni & cs & Hni & Hcs). congruence.
    + destruct (below_dir i x Hb Hne) as (ni & cs & Hni & Hcs). congruence.
Qed.

Lemma preorder_NoDup (fuel : nat) : forall i, NoDup (preorder fuel t i).
Proof.
  induction fuel as [|fuel IH]; intros i; [constructor|].
  cbn [preorder]. destruct (nodes t !! i) as [n|] eqn:Hi; [|constructor].
  destruct (node_kind_of n) as [cs| |] eqn:Hk; try apply NoDup_singleton.
  constructor.
  - intros Hin. apply list_elem_of_bind in Hin as (c & Hic & Hc).
    apply preorder_below in Hic as [Hb _]. apply below_le in Hb.
    destruct (child_parent i n cs c Hi Hk Hc) as (Hlt & _). lia.
  - apply NoDup_bind.
    + intros c1 c2 y Hc1 Hc2 Hy1 Hy2.
      apply preorder_below in Hy1 as [Hy1 _]. apply preorder_below in Hy2 as [Hy2 _].
      eapply siblings_apart; eauto.
    + intros c _. apply IH.
    + destruct Hlinked as [H1 _]. apply (H1 i n cs Hi Hk).
Qed.

(** Every node is below the root. *)
Lemma below_root (x : nat) : (x < length (nodes t))%nat -> below t root x.
Proof.
  induction x as [x IH] using lt_wf_ind. intros Hx.
  destruct (lookup_lt_is_Some_2 (nodes t) x Hx) as [xn Hxn].
  destruct (node_parent xn) as [p|] eqn:Hp.
  - pose proof (parent_lt x xn p Hxn Hp) as Hlt.
    eapply below_step; [exact Hxn|exact Hp|]. apply IH; lia.
  - destruct Hlinked as [_ H2]. specialize (H2 x xn Hxn). rewrite Hp in H2.
    subst x. apply below_refl.
Qed.

(** The traversal from the root is a permutation of the nodes. *)
Lemma preorder_all :
  preorder (length (nodes t)) t root ≡ₚ seq 0 (length (nodes t)).
Proof.
  apply NoDup_Permutation; [apply preorder_NoDup|apply NoDup_seq|].
  intros x. rewrite elem_of_seq. split.
  - intros Hx. apply preorder_below in Hx as [_ Hx]. lia.
  - intros [_ Hx]. apply preorder_complete; [unfold root; lia| |apply below_root; lia].
    unfold root. lia.
Qed.

(** One node in the tally of [measure]. *)
Definition node_stats (w : World) (x : nat) (stats : GenerateStats)
  : outcome GenerateStats :=
  match nodes t !! x with
  | None => Raise (Error "dangling reference")
  | Some n =>
      match node_kind_of n with
      | DirNode _ =>
          Ok (if isRoot n then stats
              else {| numBytes := numBytes stats; numFiles := numFiles stats;
                      numDirs := numDirs stats + 1; verified := verified stats |})
      | FileNode _ fileSize =>
          Ok {| numBytes := numBytes stats + fileSize;
                numFiles := numFiles stats + 1;
                numDirs := numDirs stats; verified := verified stats |}
      | CopyNode sourcePath =>
          match fst (os_path_getsize sourcePath w) with
          | Ok size =>
              Ok {| numBytes := numBytes stats + size;
                    numFiles := numFiles stats + 1;
                    numDirs := numDirs stats; verified := verified stats |}
          | Raise e => Raise e
          | Diverge => Diverge
          end
      end
  end.

Definition stats_step (w : World) (acc : outcome GenerateStats) (x : nat)
  : outcome GenerateStats :=
  match acc with Ok stats => node_stats w x stats | _ => acc end.

Lemma stats_step_stuck (w : World) (l : list nat) (acc : outcome GenerateStats) :
  (forall s, acc <> Ok s) -> fold_left (stats_step w) l acc = acc.
Proof.
  intros Hacc. induction l as [|x l IH]; [reflexivity|].
  cbn [fold_left]. destruct acc as [s| |]; [destruct (Hacc s eq_refl)|exact IH..].
Qed.

(** [measure] is the tally of the nodes in the order of the traversal. *)
Lemma measure_fold (w : World) (fuel : nat) :
  forall i stats,
    (length (nodes t) <= fuel + i)%nat -> (i < length (nodes t))%nat ->
    measure fuel w t i stats
    = fold_left (stats_step w) (preorder fuel t i) (Ok stats).
Proof.
  induction fuel as [|fuel IH]; intros i stats Hfuel Hi; [lia|].
  cbn [measure preorder].
  destruct (lookup_lt_is_Some_2 (nodes t) i Hi) as [n Hn]. rewrite Hn.
  destruct (node_kind_of n) as [cs| |] eqn:Hk.
  - cbn [fold_left]. change (stats_step w (Ok stats) i) with (node_stats w i stats).
    unfold node_stats. rewrite Hn, Hk.
    assert (Hcs : forall c, c ∈ cs ->
              (length (nodes t) <= fuel + c)%nat /\ (c < length (nodes t))%nat).
    { intros c Hc. destruct (child_parent i n cs c Hn Hk Hc) as (Hlt & cn & Hcn & _).
      apply lookup_lt_Some in Hcn. lia. }
    generalize (Ok (if isRoot n then stats
                    else {| numBytes := numBytes stats; numFiles := numFiles stats;
                            numDirs := numDirs stats + 1;
                            verified := verified stats |})).
    clear Hk. induction cs as [|c cs IHcs]; intros acc; [reflexivity|].
    cbn [fold_left]. change ((c :: cs) ≫= preorder fuel t)
      with (preorder fuel t c ++ (cs ≫= preorder fuel t)).
    rewrite fold_left_app, IHcs by (intros c' Hc'; apply Hcs; right; exact Hc').
    f_equal. destruct acc as [s| |].
    + apply IH; apply Hcs; left.
    + symmetry. apply stats_step_stuck. discriminate.
    + symmetry. apply stats_step_stuck. discriminate.
  - cbn [fold_left]. unfold stats_step, node_stats. rewrite Hn, Hk. reflexivity.
  - cbn [fold_left]. unfold stats_step, node_stats. rewrite Hn, Hk. reflexivity.
Qed.

End Linked.

End Traversal.

(** ** The statistics of a tree *)
Section Stats.
Context {R : NumpyRandomState}.
Variable gen : Config.

(** The sum of [g] over a list of indices. *)
Definition sum_over (g : nat -> Z) (l : list nat) : Z :=
  foldr (fun x a => g x + a) 0 l.

Lemma sum_over_app (g : nat -> Z) (l k : list nat) :
  sum_over g (l ++ k) = sum_over g l + sum_over g k.
Proof. induction l as [|x l IH]; cbn; [reflexivity|]. unfold sum_over in *. lia. Qed.

Lemma sum_over_perm (g : nat -> Z) (l k : list nat) :
  l ≡ₚ k -> sum_over g l = sum_over g k.
Proof.
  unfold sum_over.
  induction 1 as [|x l k _ IH|x y l|l k m _ IH1 _ IH2]; cbn [foldr]; lia.
Qed.

Lemma sum_over_fmap_S (g : nat -> Z) (l : list nat) :
  sum_over g (S <$> l) = sum_over (fun i => g (S i)) l.
Proof. induction l as [|x l IH]; cbn in *; [reflexivity|]. unfold sum_over in *. lia. Qed.

(** The sum of [f] over the nodes. *)
Definition total (f : node -> Z) (l : list node) : Z :=
  foldr (fun n a => f n + a) 0 l.

Lemma sum_over_seq (f : node -> Z) (l : list node) :
  sum_over (fun i => from_option f 0 (l !! i)) (seq 0 (length l)) = total f l.
Proof.
  induction l as [|a l IH]; [reflexivity|].
  cbn [length seq]. change (sum_over ?g (0%nat :: ?k)) with (g 0%nat + sum_over g k).
  rewrite <- fmap_S_seq, sum_over_fmap_S. cbn [lookup list_lookup from_option total foldr].
  f_equal. exact IH.
Qed.

Lemma count_if_cons (f : node -> bool) (a : node) (l : list node) :
  count_if f (a :: l) = ((if f a then 1 else 0) + count_if f l)%nat.
Proof.
  unfold count_if. rewrite filter_cons.
  destruct (decide (f a = true)) as [->|Hne]; [reflexivity|].
  destruct (f a); [congruence|reflexivity].
Qed.

Lemma count_if_ext (f g : node -> bool) (l : list node) :
  (forall j x, l !! j = Some x -> f x = g x) -> count_if f l = count_if g l.
Proof.
  induction l as [|a l IH]; intros H; [reflexivity|].
  rewrite !count_if_cons, (H 0%nat a eq_refl), IH; [reflexivity|].
  intros j x Hj. exact (H (S j) x Hj).
Qed.

Lemma total_count (f : node -> bool) (l : list node) :
  total (fun n => if f n then 1 else 0) l = Z.of_nat (count_if f l).
Proof.
  unfold count_if. induction l as [|a l IH]; [reflexivity|].
  cbn [total foldr]. rewrite filter_cons. fold (total (fun n => if f n then 1 else 0) l).
  rewrite IH. destruct (decide (f a = true)) as [->|Hne].
  - cbn [length]. lia.
  - destruct (f a); [congruence|lia].
Qed.

(** The bytes a node stands for: the size of a generated file, the size of
    the source of a copy. *)
Definition bytes_of (w : World) (n : node) : Z :=
  match node_kind_of n with
  | DirNode _ => 0
  | FileNode _ fileSize => fileSize
  | CopyNode src =>
      match fs w !! src with
      | Some (File c) => Z.of_nat (length c)
      | Some Dir => 4096
      | None => 0
      end
  end.

Definition add_stats (s : GenerateStats) (files dirs size : Z) : GenerateStats :=
  {| numBytes := numBytes s + size; numFiles := numFiles s + files;
     numDirs := numDirs s + dirs; verified := verified s |}.

Definition is_leaf (n : node) : bool := negb (isDir n).
Definition is_subdir (n : node) : bool := isDir n && negb (isRoot n).

Lemma fold_stats (w : World) (t : RandomDirTree) (l : list nat) :
  (forall x, x ∈ l -> (x < length (nodes t))%nat) ->
  (forall i n src, nodes t !! i = Some n -> node_kind_of n = CopyNode src ->
                   fs w !! src <> None) ->
  forall s,
    fold_left (stats_step t w) l (Ok s)
    = Ok (add_stats s
            (sum_over (fun i => from_option (fun n => if is_leaf n then 1 else 0) 0
                                  (nodes t !! i)) l)
            (sum_over (fun i => from_option (fun n => if is_subdir n then 1 else 0) 0
                                  (nodes t !! i)) l)
            (sum_over (fun i => from_option (bytes_of w) 0 (nodes t !! i)) l)).
Proof.
  intros Hl Hsrc. induction l as [|x l IH]; intros s.
  - cbn. unfold add_stats. destruct s. cbn. f_equal. f_equal; lia.
  - cbn [fold_left]. change (stats_step t w (Ok s) x) with (node_stats t w x s).
    unfold node_stats.
    destruct (lookup_lt_is_Some_2 (nodes t) x (Hl x ltac:(left))) as [n Hn].
    rewrite Hn.
    assert (Hl' : forall y, y ∈ l -> (y < length (nodes t))%nat)
      by (intros y Hy; apply Hl; right; exact Hy).
    change (sum_over ?g (x :: l)) with (g x + sum_over g l).
    cbv beta. rewrite Hn. cbn [from_option].
    destruct (node_kind_of n) as [cs|seed size|src] eqn:Hk.
    + replace (is_leaf n) with false
        by (unfold is_leaf, isDir; rewrite Hk; reflexivity).
      replace (is_subdir n) with (negb (isRoot n))
        by (unfold is_subdir, isDir; rewrite Hk; reflexivity).
      replace (bytes_of w n) with 0 by (unfold bytes_of; rewrite Hk; reflexivity).
      rewrite (IH Hl'). unfold add_stats.
      destruct (isRoot n); cbn [negb numBytes numFiles numDirs verified];
        f_equal; f_equal; lia.
    + replace (is_leaf n) with true
        by (unfold is_leaf, isDir; rewrite Hk; reflexivity).
      replace (is_subdir n) with false
        by (unfold is_subdir, isDir; rewrite Hk; reflexivity).
      replace (bytes_of w n) with size by (unfold bytes_of; rewrite Hk; reflexivity).
      rewrite (IH Hl'). unfold add_stats.
      cbn [numBytes numFiles numDirs verified]. f_equal; f_equal; lia.
    + replace (is_leaf n) with true
        by (unfold is_leaf, isDir; rewrite Hk; reflexivity).
      replace (is_subdir n) with false
        by (unfold is_subdir, isDir; rewrite Hk; reflexivity).
      specialize (Hsrc x n src Hn Hk).
      unfold bytes_of at 1. rewrite Hk. unfold os_path_getsize.
      destruct (fs w !! src) as [[|c]|]; [| |congruence]; cbn [fst];
        rewrite (IH Hl'); unfold add_stats;
        cbn [numBytes numFiles numDirs verified]; f_equal; f_equal; lia.
Qed.

(** The tally of a whole tree. *)
Lemma measure_total (w : World) (t : RandomDirTree) :
  linked t -> nodes t <> [] ->
  (forall i n src, nodes t !! i = Some n -> node_kind_of n = CopyNode src ->
                   fs w !! src <> None) ->
  measure (length (nodes t)) w t root GenerateStats_init
  = Ok {| numBytes := total (bytes_of w) (nodes t);
          numFiles := Z.of_nat (count_if is_leaf (nodes t));
          numDirs := Z.of_nat (count_if is_subdir (nodes t));
          verified := true |}.
Proof.
  intros Hlinked Hne Hsrc.
  assert (Hpos : (0 < length (nodes t))%nat) by (destruct (nodes t); [congruence|simpl; lia]).
  rewrite (measure_fold t Hlinked w) by (unfold root; lia).
  rewrite fold_stats; [|intros x Hx; eapply preorder_below in Hx as [_ Hx]; eauto|exact Hsrc].
  rewrite !(sum_over_perm _ _ _ (preorder_all t Hlinked)).
  rewrite !sum_over_seq, !total_count. reflexivity.
Qed.

(** What a build that returns went through. *)
Lemma init_returns (w : World) (rootDir : string) (stats : GenerateStats)
    (t : RandomDirTree) :
  RandomDirTree_init gen w rootDir = (Ok stats, t) ->
  0 <= gen_dirs_maxDepth gen
  /\ gen_readable_filenames gen = true
  /\ measure (length (nodes t)) w t root GenerateStats_init = Ok stats.
Proof.
  unfold RandomDirTree_init, RandomDirTree_build. intros H.
  destruct (gen_dirs_maxDepth gen <? 0) eqn:Hmax.
  { unfold bind at 1 in H. destruct (str_add _ _); discriminate. }
  apply Z.ltb_ge in Hmax. split; [exact Hmax|].
  unfold bind at 1 in H. cbn [ret] in H. unfold bind at 1 in H.
  destruct (_createNodes gen w _) as [[[]|e|] t1]; try discriminate.
  unfold bind at 1 in H.
  destruct (gen_readable_filenames gen); [|discriminate].
  split; [reflexivity|].
  destruct ((let* t0 := get in _) t1) as [[[]|e|] t2]; try discriminate.
  unfold bind, get in H.
  destruct (measure (length (nodes t2)) w t2 root GenerateStats_init) as [s|e|] eqn:Hm;
    try discriminate.
  injection H as <- <-. exact Hm.
Qed.

(** The copies of a tree were drawn from the regular files below the source
    directory. *)
Definition copies_listed (w : World) (t : RandomDirTree) : Prop :=
  forall j m s, nodes t !! j = Some m -> node_kind_of m = CopyNode s ->
                s ∈ copy_sources gen w.

Lemma copies_listed_attached (w : World) (t : RandomDirTree) (nd : node) (q : nat)
    (t' : RandomDirTree) :
  copies_listed w t -> attached t nd q t' ->
  (forall s, node_kind_of nd = CopyNode s -> s ∈ copy_sources gen w) ->
  copies_listed w t'.
Proof.
  intros H Hatt Hnd j m s Hj Hk.
  destruct (attached_lookup t nd q t' Hatt)
    as (qn & cs & Hq & Hcs & Hqlt & Hlen' & Hq' & Hn' & Hother & _).
  destruct (decide (j = q)) as [->|Hjq];
    [|destruct (decide (j = length (nodes t))) as [->|Hjn]].
  - rewrite Hq' in Hj. injection Hj as <-. discriminate.
  - rewrite Hn' in Hj. injection Hj as <-. apply Hnd. exact Hk.
  - rewrite Hother in Hj by assumption. exact (H j m s Hj Hk).
Qed.

Lemma sources_known (w : World) (rootDir : string) :
  0 <= gen_dirs_maxDepth gen ->
  forall i n src,
    nodes (snd (RandomDirTree_init gen w rootDir)) !! i = Some n ->
    node_kind_of n = CopyNode src ->
    exists c, fs w !! src = Some (File c).
Proof.
  intros Hmax i n src Hi Hk.
  assert (HJ : copies_listed w (snd (RandomDirTree_init gen w rootDir))).
  { refine (proj1 (build_phases gen w (fun _ => copies_listed w) (copies_listed w)
                     _ _ _ _ _ rootDir Hmax _)).
    - intros k t q t' H _ Hatt. eapply copies_listed_attached; eauto.
      intros s [=].
    - intros t H _ j m s Hj Hk'. unfold popped in Hj.
      destruct (1 <? length (dirNodes t))%nat; exact (H j m s Hj Hk').
    - intros t t' H Hn _ j m s Hj Hk'. rewrite Hn in Hj. exact (H j m s Hj Hk').
    - intros t nd q t' H _ Hleaf _ Hatt. eapply copies_listed_attached; eauto.
      intros s Hs. destruct Hleaf as [(seed & size & Hf & _)|(s' & Hs' & ->)].
      + congruence.
      + cbn in Hs. injection Hs as <-. exact Hs'.
    - intros t j0 n0 s0 H Hj0 j m s Hj Hk'. cbn [nodes] in Hj.
      destruct (decide (j = j0)) as [->|Hne].
      + rewrite list_lookup_insert_eq in Hj by (apply lookup_lt_Some in Hj0; exact Hj0).
        injection Hj as <-. cbn in Hk'. exact (H j0 n0 s Hj0 Hk').
      + rewrite list_lookup_insert_ne in Hj by congruence. exact (H j m s Hj Hk').
    - intros [|j] m s Hj Hk'; [|destruct j; discriminate].
      injection Hj as <-. discriminate. }
  specialize (HJ i n src Hi Hk). unfold copy_sources in HJ.
  apply list_elem_of_filter in HJ as [HJ _]. unfold os_path_isfile in HJ.
  destruct (fs w !! src) as [[|c]|]; try discriminate. eauto.
Qed.

(** The directories below the root are all the directories but one. *)
Lemma count_subdirs (t : RandomDirTree) :
  linked t -> dir_ok gen t ->
  Z.of_nat (count_if is_subdir (nodes t)) = Z.of_nat (count_if isDir (nodes t)) - 1.
Proof.
  intros [_ H2] Hok.
  destruct (ok_root gen t Hok) as (r & Hr & Hrdir & Hrpar & _).
  destruct (nodes t) as [|r' l] eqn:Hnodes; [discriminate|].
  unfold root in Hr. cbn in Hr. injection Hr as ->.
  rewrite !count_if_cons.
  replace (is_subdir r) with false
    by (unfold is_subdir, isRoot; rewrite Hrdir, Hrpar; reflexivity).
  rewrite Hrdir.
  rewrite (count_if_ext is_subdir isDir l); [lia|].
  intros j x Hj. specialize (H2 (S j) x Hj). unfold is_subdir, isRoot.
  destruct (node_parent x); [|discriminate].
  apply andb_true_r.
Qed.

(** A node is a directory or a leaf. *)
Lemma count_kinds (l : list node) :
  length l = (count_if isDir l + count_if is_leaf l)%nat.
Proof.
  induction l as [|a l IH]; [reflexivity|].
  rewrite !count_if_cons. cbn [length]. unfold is_leaf at 1.
  destruct (isDir a); cbn [negb]; lia.
Qed.


End Stats.

(** ** The names of the nodes *)
Section Naming.
Context {R : NumpyRandomState}.
Variable gen : Config.

(** The path of the node [j], once it has one. *)
Definition path_at (t : RandomDirTree) (j : nat) : option string :=
  nodes t !! j ≫= node_path.

(** What naming leaves alone in a node. *)
Definition skel (n : node) : node_kind * option nat * Z :=
  (node_kind_of n, node_parent n, node_depth n).

Definition same_shape (t0 t : RandomDirTree) : Prop :=
  forall j, skel <$> (nodes t !! j) = skel <$> (nodes t0 !! j).

(** [t'] is [t] after the nodes of [l] were given the numbers from [k] on,
    in the order of [l], each under the path its parent has in [t']. *)
Definition named (l : list nat) (k : Z) (t t' : RandomDirTree) : Prop :=
  (forall j, j ∉ l -> nodes t' !! j = nodes t !! j)
  /\ (forall pos j, l !! pos = Some j ->
        exists n p pp,
          nodes t !! j = Some n /\ node_parent n = Some p
          /\ path_at t' p = Some pp
          /\ nodes t' !! j
             = Some (set_path (os_path_join pp (gen_name_prefix gen
                                                 +:+ str_of_Z (k + Z.of_nat pos))) n)).

Lemma same_shape_refl (t : RandomDirTree) : same_shape t t.
Proof. intros j. reflexivity. Qed.

Lemma same_shape_lookup (t0 t : RandomDirTree) (j : nat) (n0 : node) :
  same_shape t0 t -> nodes t0 !! j = Some n0 ->
  exists n, nodes t !! j = Some n /\ node_kind_of n = node_kind_of n0
            /\ node_parent n = node_parent n0 /\ node_depth n = node_depth n0.
Proof.
  intros Hs Hj. specialize (Hs j). rewrite Hj in Hs.
  destruct (nodes t !! j) as [n|]; [|discriminate].
  exists n. split; [reflexivity|]. cbn in Hs. unfold skel in Hs.
  injection Hs as H1 H2 H3. auto.
Qed.

Lemma same_shape_sym (t0 t : RandomDirTree) : same_shape t0 t -> same_shape t t0.
Proof. intros Hs j. symmetry. apply Hs. Qed.

Lemma same_shape_length (t0 t : RandomDirTree) :
  same_shape t0 t -> length (nodes t) = length (nodes t0).
Proof.
  intros Hs.
  assert (H1 : forall a b : RandomDirTree, same_shape a b ->
                 (length (nodes b) <= length (nodes a))%nat).
  { intros a b Hab. specialize (Hab (length (nodes a))).
    rewrite (lookup_ge_None_2 (nodes a)) in Hab by lia.
    destruct (nodes b !! length (nodes a)) as [n|] eqn:Hn; [discriminate|].
    apply lookup_ge_None_1 in Hn. exact Hn. }
  pose proof (H1 _ _ Hs). pose proof (H1 _ _ (same_shape_sym _ _ Hs)). lia.
Qed.

Lemma preorder_shape (t0 t : RandomDirTree) (fuel : nat) :
  same_shape t0 t -> forall i, preorder fuel t i = preorder fuel t0 i.
Proof.
  intros Hs. induction fuel as [|fuel IH]; intros i; [reflexivity|].
  cbn [preorder]. pose proof (Hs i) as Hi.
  destruct (nodes t0 !! i) as [n0|], (nodes t !! i) as [n|]; try discriminate;
    [|reflexivity].
  cbn in Hi. unfold skel in Hi. injection Hi as -> _ _.
  destruct (node_kind_of n0); try reflexivity.
  f_equal. apply list_bind_ext; [exact IH|reflexivity].
Qed.

Lemma named_nil (k : Z) (t : RandomDirTree) : named [] k t t.
Proof. split; [reflexivity|]. intros pos j Hj. discriminate. Qed.

Lemma named_shape (t0 t t' : RandomDirTree) (l : list nat) (k : Z) :
  same_shape t0 t -> named l k t t' -> same_shape t0 t'.
Proof.
  intros Hs [Hout Hin] j. destruct (decide (j ∈ l)) as [Hj|Hj].
  - apply list_elem_of_lookup in Hj as [pos Hpos].
    destruct (Hin pos j Hpos) as (n & p & pp & Hn & _ & _ & Hn').
    rewrite Hn', <- Hs, Hn. reflexivity.
  - rewrite (Hout j Hj). apply Hs.
Qed.

(** Naming one list of nodes after another. *)
Lemma named_app (l1 l2 : list nat) (k : Z) (t t1 t2 : RandomDirTree) :
  named l1 k t t1 -> named l2 (k + Z.of_nat (length l1)) t1 t2 ->
  (forall x, x ∈ l1 -> x ∉ l2) ->
  (forall x n p, x ∈ l1 -> nodes t !! x = Some n -> node_parent n = Some p -> p ∉ l2) ->
  named (l1 ++ l2) k t t2.
Proof.
  intros [Hout1 Hin1] [Hout2 Hin2] Hdisj Hpar. split.
  - intros j Hj. apply not_elem_of_app in Hj as [Hj1 Hj2].
    rewrite (Hout2 j Hj2). apply Hout1, Hj1.
  - intros pos j Hpos. apply lookup_app_Some in Hpos as [Hpos|[Hlen Hpos]].
    + destruct (Hin1 pos j Hpos) as (n & p & pp & Hn & Hp & Hpp & Hn').
      assert (Hj : j ∈ l1) by (apply list_elem_of_lookup; eauto).
      exists n, p, pp. split; [exact Hn|]. split; [exact Hp|]. split.
      * unfold path_at. rewrite (Hout2 p); [exact Hpp|]. eapply Hpar; eauto.
      * rewrite (Hout2 j); [exact Hn'|]. apply Hdisj, Hj.
    + destruct (Hin2 _ j Hpos) as (n & p & pp & Hn & Hp & Hpp & Hn').
      assert (Hj : j ∉ l1).
      { intros Hj. apply (Hdisj j Hj). apply list_elem_of_lookup. eauto. }
      rewrite (Hout1 j Hj) in Hn.
      exists n, p, pp. split; [exact Hn|]. split; [exact Hp|]. split; [exact Hpp|].
      rewrite Hn'.
      replace (k + Z.of_nat (length l1) + Z.of_nat (pos - length l1))
        with (k + Z.of_nat pos) by lia.
      reflexivity.
Qed.

Section Fixed.
Variable t0 : RandomDirTree.
Hypothesis Hlinked : linked t0.

(** [Node.nameNodes] of a node whose parent has a path. *)
Lemma name_one (i : nat) (k : Z) (t : RandomDirTree) (n0 : node) (p : nat)
    (pp : string) :
  same_shape t0 t -> nodes t0 !! i = Some n0 -> node_parent n0 = Some p ->
  path_at t p = Some pp ->
  exists t', Node_nameNodes gen i k t = (Ok (k + 1), t')
             /\ named [i] k t t'
             /\ exists s, path_at t' i = Some s.
Proof.
  intros Hs Hi Hp Hpp.
  destruct (same_shape_lookup t0 t i n0 Hs Hi) as (n & Hn & _ & Hnp & _).
  rewrite Hp in Hnp.
  assert (Hlt : (i < length (nodes t))%nat) by (apply lookup_lt_Some in Hn; exact Hn).
  assert (Hpi : p <> i).
  { pose proof (parent_lt t0 Hlinked i n0 p Hi Hp). lia. }
  unfold path_at in Hpp. destruct (nodes t !! p) as [pn|] eqn:Hpn; [|discriminate].
  cbn in Hpp.
  eexists. split; [|split].
  - unfold Node_nameNodes, setName. unfold bind at 1. unfold bind at 1.
    rewrite (get_node_eq _ _ _ Hn). rewrite Hnp.
    unfold bind at 1. rewrite (get_node_eq _ _ _ Hpn). rewrite Hpp.
    unfold set_node, modify. cbn [ret]. reflexivity.
  - split; cbn [nodes].
    + intros j Hj. apply list_lookup_insert_ne. intros ->. apply Hj. left.
    + intros [|pos] j Hj; [|destruct pos; discriminate]. injection Hj as <-.
      exists n, p, pp. split; [exact Hn|]. split; [exact Hnp|]. split.
      * unfold path_at. cbn [nodes]. rewrite list_lookup_insert_ne by congruence.
        rewrite Hpn. exact Hpp.
      * rewrite list_lookup_insert_eq by exact Hlt.
        replace (k + Z.of_nat 0) with k by lia. reflexivity.
  - unfold path_at. cbn [nodes]. rewrite list_lookup_insert_eq by exact Hlt.
    cbn. eauto.
Qed.

(** The recursion names the nodes in the order of the traversal. *)
Definition names_from (fuel : nat) : Prop :=
  forall i k t n0 p pp,
    same_shape t0 t -> (length (nodes t0) <= fuel + i)%nat ->
    nodes t0 !! i = Some n0 -> node_parent n0 = Some p -> path_at t p = Some pp ->
    exists t',
      nameNodes gen fuel i k t
      = (Ok (k + Z.of_nat (length (preorder fuel t0 i))), t')
      /\ named (preorder fuel t0 i) k t t'.

Lemma above_children (i : nat) (ni : node) (cs : list nat) (fuel : nat)
    (l : list nat) (x : nat) :
  nodes t0 !! i = Some ni -> node_kind_of ni = DirNode cs ->
  (forall c, c ∈ l -> c ∈ cs) ->
  x ∈ l ≫= preorder fuel t0 -> (i < x)%nat.
Proof.
  intros Hi Hk Hsub Hx. apply list_elem_of_bind in Hx as (c & Hx & Hc).
  apply (preorder_below t0 Hlinked) in Hx as [Hb _]. apply (below_le t0 Hlinked) in Hb.
  destruct (child_parent t0 Hlinked i ni cs c Hi Hk (Hsub c Hc)) as [Hlt _]. lia.
Qed.

Lemma fold_children (fuel : nat) (i : nat) (ni : node) (cs : list nat) :
  names_from fuel ->
  nodes t0 !! i = Some ni -> node_kind_of ni = DirNode cs ->
  (length (nodes t0) <= S fuel + i)%nat ->
  forall l k t pp,
    (forall c, c ∈ l -> c ∈ cs) -> NoDup l ->
    same_shape t0 t -> path_at t i = Some pp ->
    exists t',
      foldM (fun namer child => nameNodes gen fuel child namer) l k t
      = (Ok (k + Z.of_nat (length (l ≫= preorder fuel t0))), t')
      /\ named (l ≫= preorder fuel t0) k t t'.
Proof.
  intros Hnames Hi Hk Hfuel.
  induction l as [|c rest IH]; intros k t pp Hsub Hnd Hs Hpp.
  - exists t. split; [|apply named_nil]. cbn. rewrite Z.add_0_r. reflexivity.
  - assert (Hcin : c ∈ cs) by (apply Hsub; left).
    assert (Hrest : forall c', c' ∈ rest -> c' ∈ cs) by (intros c' Hc'; apply Hsub; right; exact Hc').
    destruct (child_parent t0 Hlinked i ni cs c Hi Hk Hcin) as (Hlt & cn & Hcn & Hcp).
    destruct (Hnames c k t cn i pp Hs ltac:(lia) Hcn Hcp Hpp) as (t1 & Hrun & Hnamed).
    apply NoDup_cons in Hnd as [Hc Hnd].
    assert (Hs1 : same_shape t0 t1) by (eapply named_shape; eauto).
    assert (Hpp1 : path_at t1 i = Some pp).
    { unfold path_at. rewrite (proj1 Hnamed i); [exact Hpp|].
      intros Hin. apply (preorder_below t0 Hlinked) in Hin as [Hb _].
      apply (below_le t0 Hlinked) in Hb. lia. }
    destruct (IH (k + Z.of_nat (length (preorder fuel t0 c))) t1 pp Hrest Hnd Hs1 Hpp1)
      as (t2 & Hrun2 & Hnamed2).
    exists t2. cbn [foldM]. unfold bind. rewrite Hrun, Hrun2.
    change ((c :: rest) ≫= preorder fuel t0)
      with (preorder fuel t0 c ++ (rest ≫= preorder fuel t0)).
    split; [rewrite length_app; do 2 f_equal; lia|].
    eapply named_app; [exact Hnamed|exact Hnamed2| |].
    + intros x Hx Hx2. apply list_elem_of_bind in Hx2 as (c' & Hx2 & Hc').
      apply (preorder_below t0 Hlinked) in Hx as [Hb _].
      apply (preorder_below t0 Hlinked) in Hx2 as [Hb' _].
      pose proof (siblings_apart t0 Hlinked i c c' x ni cs Hi Hk Hcin (Hrest c' Hc') Hb Hb').
      subst c'. contradiction.
    + intros x n p Hx Hn Hp Hp2.
      destruct (same_shape_lookup t t0 x n (same_shape_sym _ _ Hs) Hn)
        as (n0 & Hn0 & _ & Hn0p & _).
      rewrite Hp in Hn0p.
      apply (preorder_below t0 Hlinked) in Hx as [Hb _].
      inversion Hb as [Heq|x' xn p' Hx' Hp' Hb']; subst.
      * assert (p = i) by congruence. subst p.
        pose proof (above_children i ni cs fuel rest i Hi Hk Hrest Hp2). lia.
      * assert (p' = p) by congruence. subst p'.
        apply list_elem_of_bind in Hp2 as (c' & Hp2 & Hc').
        apply (preorder_below t0 Hlinked) in Hp2 as [Hb2 _].
        pose proof (siblings_apart t0 Hlinked i c c' p ni cs Hi Hk Hcin (Hrest c' Hc') Hb' Hb2).
        subst c'. contradiction.
Qed.

Lemma names_from_all (fuel : nat) : names_from fuel.
Proof.
  induction fuel as [|fuel IH]; intros i k t n0 p pp Hs Hfuel Hi Hp Hpp.
  - apply lookup_lt_Some in Hi. lia.
  - destruct (same_shape_lookup t0 t i n0 Hs Hi) as (n & Hn & Hnk & Hnp & _).
    destruct (name_one i k t n0 p pp Hs Hi Hp Hpp) as (t1 & Hrun1 & Hnamed1 & s & Hs1).
    cbn [nameNodes preorder]. unfold bind at 1. rewrite (get_node_eq _ _ _ Hn).
    rewrite Hi, Hnk.
    destruct (node_kind_of n0) as [cs| |] eqn:Hk.
    + unfold isRoot. rewrite Hnp, Hp. unfold bind at 1. rewrite Hrun1.
      pose proof Hlinked as [H1 _]. destruct (H1 i n0 cs Hi Hk) as [Hnd _].
      destruct (fold_children fuel i n0 cs IH Hi Hk Hfuel cs (k + 1) t1 s
                  ltac:(auto) Hnd ltac:(eapply named_shape; eauto) Hs1)
        as (t2 & Hrun2 & Hnamed2).
      exists t2. rewrite Hrun2. split; [cbn [length]; do 2 f_equal; lia|].
      change (i :: cs ≫= preorder fuel t0) with ([i] ++ (cs ≫= preorder fuel t0)).
      eapply named_app; [exact Hnamed1|exact Hnamed2| |].
      * intros x Hx Hx2. apply list_elem_of_singleton in Hx as ->.
        pose proof (above_children i n0 cs fuel cs i Hi Hk ltac:(auto) Hx2). lia.
      * intros x n' p' Hx Hn' Hp' Hp2. apply list_elem_of_singleton in Hx as ->.
        assert (p' = p) by congruence. subst p'.
        pose proof (above_children i n0 cs fuel cs p Hi Hk ltac:(auto) Hp2).
        pose proof (parent_lt t0 Hlinked i n0 p Hi Hp). lia.
    + exists t1. rewrite Hrun1. split; [reflexivity|exact Hnamed1].
    + exists t1. rewrite Hrun1. split; [reflexivity|exact Hnamed1].
Qed.

(** [root.nameNodes(itertools.count())]: the root keeps its path, and the
    other nodes are numbered from 0 in the order of the traversal. *)
Lemma nameNodes_root (r : node) (cs : list nat) (pp : string) :
  nodes t0 !! root = Some r -> node_parent r = None ->
  node_kind_of r = DirNode cs -> node_path r = Some pp ->
  exists t',
    nameNodes gen (length (nodes t0)) root 0 t0
    = (Ok (Z.of_nat (length (nodes t0)) - 1), t')
    /\ named (tail (preorder (length (nodes t0)) t0 root)) 0 t0 t'.
Proof.
  intros Hr Hrp Hrk Hrpath.
  pose proof (Permutation_length (preorder_all t0 Hlinked)) as Hlen.
  rewrite length_seq in Hlen.
  destruct (length (nodes t0)) as [|m] eqn:Hm.
  { apply lookup_lt_Some in Hr. unfold root in Hr. lia. }
  cbn [preorder] in Hlen |- *. rewrite Hr, Hrk in Hlen |- *. cbn [tail length] in Hlen |- *.
  pose proof Hlinked as [H1 H2]. destruct (H1 root r cs Hr Hrk) as [Hnd _].
  destruct (fold_children m root r cs (names_from_all m) Hr Hrk ltac:(unfold root; lia)
              cs 0 t0 pp ltac:(auto) Hnd (same_shape_refl t0))
    as (t' & Hrun & Hnamed).
  { unfold path_at. rewrite Hr. exact Hrpath. }
  exists t'. split; [|exact Hnamed].
  cbn [nameNodes]. unfold bind at 1. rewrite (get_node_eq _ _ _ Hr). rewrite Hrk.
  unfold isRoot. rewrite Hrp. unfold bind at 1. cbn [ret]. rewrite Hrun.
  do 2 f_equal. lia.
Qed.

End Fixed.

End Naming.

(** ** The steps of a build *)
Section Steps.
Context {R : NumpyRandomState}.
Variable gen : Config.

(** The root has the path the tree was created with. *)
Definition rooted (rootDir : string) (t : RandomDirTree) : Prop :=
  path_at t root = Some rootDir.

Lemma rooted_attached (rootDir : string) (t : RandomDirTree) (nd : node) (q : nat)
    (t' : RandomDirTree) :
  rooted rootDir t -> attached t nd q t' -> rooted rootDir t'.
Proof.
  unfold rooted, path_at. intros Hr Hatt.
  destruct (attached_lookup t nd q t' Hatt)
    as (qn & cs & Hq & Hcs & Hqlt & Hlen & Hq' & Hn' & Hother & _).
  destruct (decide (root = q)) as [<-|Hne].
  - rewrite Hq'. rewrite Hq in Hr. exact Hr.
  - rewrite Hother; [exact Hr|exact Hne|unfold root in *; lia].
Qed.

(** The tree after [_createNodes], whatever its outcome. *)
Lemma createNodes_tree (w : World) (rootDir : string) :
  let t1 := snd (_createNodes gen w (RandomDirTree_new gen rootDir)) in
  linked t1 /\ rooted rootDir t1 /\ dir_ok gen t1.
Proof.
  intros t1.
  destruct (createNodes_phases gen w
              (fun _ t => linked t /\ rooted rootDir t)
              (fun t => linked t /\ rooted rootDir t)) with (t := RandomDirTree_new gen rootDir)
    as [[H1 H2] H3].
  - intros k t q t' [HL HR] _ Hatt. split; [|eapply rooted_attached; eauto].
    eapply linked_attached; [exact HL|exact Hatt|]. intros cs [= <-]. reflexivity.
  - intros t [HL HR] _. split; [apply linked_popped, HL|].
    unfold rooted, path_at, popped in *.
    destruct (1 <? length (dirNodes t))%nat; exact HR.
  - intros t t' [HL HR] Hn Hd. split; [eapply linked_same_nodes; eauto|].
    unfold rooted, path_at in *. rewrite Hn. exact HR.
  - intros t nd q t' [HL HR] _ Hleaf _ Hatt. split; [|eapply rooted_attached; eauto].
    eapply linked_attached; [exact HL|exact Hatt|eapply leaf_no_children, Hleaf].
  - split; [apply linked_new|reflexivity].
  - apply dir_ok_new.
  - auto.
Qed.

(** A build is the four steps of [RandomDirTree.__init__], one after the
    other. *)
Lemma init_steps (w : World) (rootDir : string) (stats : GenerateStats)
    (t : RandomDirTree) :
  RandomDirTree_init gen w rootDir = (Ok stats, t)
  <-> 0 <= gen_dirs_maxDepth gen
      /\ gen_readable_filenames gen = true
      /\ exists t1 k,
           _createNodes gen w (RandomDirTree_new gen rootDir) = (Ok tt, t1)
           /\ nameNodes gen (length (nodes t1)) root 0 t1 = (Ok k, t)
           /\ measure (length (nodes t)) w t root GenerateStats_init = Ok stats.
Proof.
  unfold RandomDirTree_init, RandomDirTree_build. split.
  - intros H.
    destruct (gen_dirs_maxDepth gen <? 0) eqn:Hmax.
    { unfold bind at 1 in H. destruct (str_add _ _); discriminate. }
    apply Z.ltb_ge in Hmax. split; [exact Hmax|].
    unfold bind at 1 in H. cbn [ret] in H. unfold bind at 1 in H.
    destruct (_createNodes gen w _) as [[[]|e|] t1]; try discriminate.
    unfold bind at 1 in H.
    destruct (gen_readable_filenames gen); [|discriminate].
    split; [reflexivity|]. exists t1.
    unfold bind at 1 in H. unfold get at 1 in H. unfold bind at 1 in H.
    destruct (nameNodes gen (length (nodes t1)) root 0 t1) as [[k|e|] t2];
      try discriminate.
    exists k. cbn [ret] in H. unfold bind, get in H.
    destruct (measure (length (nodes t2)) w t2 root GenerateStats_init) as [s|e|] eqn:Hm;
      try discriminate.
    injection H as <- <-. auto.
  - intros (Hmax & Hread & t1 & k & Hc & Hn & Hm).
    replace (gen_dirs_maxDepth gen <? 0) with false by (symmetry; apply Z.ltb_ge; lia).
    unfold bind at 1. cbn [ret]. unfold bind at 1. rewrite Hc.
    rewrite Hread. unfold bind at 1. unfold bind at 1. unfold get at 1.
    unfold bind at 1. rewrite Hn. cbn [ret]. unfold bind, get. rewrite Hm.
    reflexivity.
Qed.

(** The names of a tree that was built, by the position of the nodes in the
    traversal from the root. *)
Lemma names_of_build (w : World) (rootDir : string) (stats : GenerateStats)
    (t : RandomDirTree) :
  RandomDirTree_init gen w rootDir = (Ok stats, t) ->
  linked t /\ dir_ok gen t
  /\ path_at t root = Some rootDir
  /\ exists rest,
       preorder (length (nodes t)) t root = root :: rest
       /\ forall pos c,
            rest !! pos = Some c ->
            exists cn p pp,
              nodes t !! c = Some cn /\ node_parent cn = Some p
              /\ path_at t p = Some pp
              /\ node_path cn
                 = Some (os_path_join pp
                           (gen_name_prefix gen +:+ str_of_Z (Z.of_nat pos))).
Proof.
  intros Hinit.
  assert (Hsnd : t = snd (RandomDirTree_init gen w rootDir)) by (rewrite Hinit; reflexivity).
  apply init_steps in Hinit as (Hmax & _ & t1 & k & Hc & Hn & _).
  split; [rewrite Hsnd; apply linked_init, Hmax|].
  split; [rewrite Hsnd; apply dir_ok_init|]. clear Hsnd.
  destruct (createNodes_tree w rootDir) as (HL & HR & Hok). rewrite Hc in HL, HR, Hok.
  cbn [snd] in HL, HR, Hok.
  destruct (ok_root gen t1 Hok) as (r & Hr & Hrdir & Hrpar & _).
  assert (Hk : exists cs, node_kind_of r = DirNode cs).
  { unfold isDir in Hrdir. destruct (node_kind_of r); try discriminate. eauto. }
  destruct Hk as [cs Hk].
  assert (Hrpath : node_path r = Some rootDir).
  { unfold rooted, path_at in HR. rewrite Hr in HR. exact HR. }
  destruct (nameNodes_root gen t1 HL r cs rootDir Hr Hrpar Hk Hrpath)
    as (t' & Hrun & Hnamed).
  assert (t' = t) by congruence. subst t'.
  assert (Hs : same_shape t1 t) by (eapply named_shape; [apply same_shape_refl|eauto]).
  rewrite (same_shape_length t1 t Hs), (preorder_shape t1 t _ Hs).
  assert (Hhead : exists rest, preorder (length (nodes t1)) t1 root = root :: rest).
  { destruct (length (nodes t1)) eqn:Hlen.
    - apply lookup_lt_Some in Hr. unfold root in Hr. lia.
    - cbn [preorder]. rewrite Hr, Hk. eauto. }
  destruct Hhead as [rest Hrest].
  pose proof (preorder_NoDup t1 HL (length (nodes t1)) root) as Hnd.
  rewrite Hrest in Hnamed, Hnd |- *. cbn [tail] in Hnamed.
  apply NoDup_cons in Hnd as [Hroot _].
  split.
  - unfold path_at. rewrite (proj1 Hnamed root Hroot). exact HR.
  - exists rest. split; [reflexivity|]. intros pos c Hpos.
    destruct (proj2 Hnamed pos c Hpos) as (n & p & pp & Hcn & Hp & Hpp & Hc').
    eexists _, p, pp. split; [exact Hc'|]. split; [exact Hp|]. split; [exact Hpp|].
    reflexivity.
Qed.

(** X15.  The names of a tree that was built: the traversal from the root
    visits every node once; the root keeps the path of the tree, and the
    node that comes at position [pos + 1] is named with the prefix and the
    number [pos], under the path of its parent. *)
Theorem names_follow_the_traversal (w : World) (rootDir : string)
    (stats : GenerateStats) (t : RandomDirTree) :
  RandomDirTree_init gen w rootDir = (Ok stats, t) ->
  let order := preorder (length (nodes t)) t root in
  order ≡ₚ seq 0 (length (nodes t))
  /\ order !! 0%nat = Some root
  /\ path_at t root = Some rootDir
  /\ forall pos c,
       order !! S pos = Some c ->
       exists cn p pp,
         nodes t !! c = Some cn /\ node_parent cn = Some p
         /\ path_at t p = Some pp
         /\ node_path cn
            = Some (os_path_join pp (gen_name_prefix gen +:+ str_of_Z (Z.of_nat pos))).
Proof.
  intros Hinit order.
  destruct (names_of_build w rootDir stats t Hinit) as (HL & _ & HR & rest & Hrest & Hn).
  split; [apply preorder_all, HL|]. unfold order. rewrite Hrest.
  split; [reflexivity|]. split; [exact HR|].
  intros pos c Hpos. exact (Hn pos c Hpos).
Qed.

End Steps.

(** ** Configurations that build *)
Section Returns.
Context {R : NumpyRandomState}.
Variable gen : Config.
Variable w : World.

(** A size category the builder can fill: the coalescence counts are not
    above the number of files and, when files are asked for, the sizes are
    drawn from a range that is not empty. *)
Definition category_fine (c : category) : Prop :=
  cat_numCoalescent c <= cat_num c /\ cat_coalescent c <= cat_num c
  /\ (0 < cat_num c -> range_ok c).

(** A configuration the builder can carry out in the world [w]. *)
Definition buildable : Prop :=
  0 <= gen_dirs_maxDepth gen
  /\ gen_readable_filenames gen = true
  /\ category_fine (gen_huge gen) /\ category_fine (gen_large gen)
  /\ category_fine (gen_medium gen) /\ category_fine (gen_small gen)
  /\ (gen_copied_num gen = 0 \/ copy_sources gen w <> []).

Lemma createFileNodes_returns (c : category) (k : Z) :
  category_fine c ->
  hoare (Inv gen [] k) (_createFileNodes gen c)
        (fun _ => Inv gen [] (k + Z.max (cat_num c) 0)) (fun _ => False).
Proof.
  intros (Hcoal & Hleg & Hrange). unfold _createFileNodes.
  replace (cat_num c <? cat_numCoalescent c) with false
    by (symmetry; apply Z.ltb_ge; lia).
  replace (cat_num c <? cat_coalescent c) with false
    by (symmetry; apply Z.ltb_ge; lia).
  cbn [orb].
  destruct (Z_lt_le_dec 0 (cat_num c)) as [Hpos|Hneg].
  - eapply hoare_weaken;
      [apply (createFileNodes_loop_spec gen [] c (Z.to_nat (cat_num c)) (cat_num c)
                (cat_numCoalescent c) (cat_coalescent c) k); lia
      |auto|auto|].
    intros s [_ Hbad]. apply Hbad, Hrange, Hpos.
  - replace (Z.to_nat (cat_num c)) with 0%nat by lia.
    cbn [createFileNodes_loop].
    replace (0 <? cat_num c) with false by (symmetry; apply Z.ltb_ge; lia).
    apply hoare_ret. intros s Hs.
    replace (k + Z.max (cat_num c) 0) with k by lia. exact Hs.
Qed.

(** Without copy nodes, the leaves are the generated files. *)
Lemma leaves_are_files (t : RandomDirTree) :
  copies_from [] t -> Z.of_nat (count_if is_leaf (nodes t)) = count_files (nodes t).
Proof.
  intros Hno. unfold count_files.
  change (length (filter (fun n => isFileNode n = true) (nodes t)))
    with (count_if isFileNode (nodes t)).
  f_equal. apply count_if_ext. intros j x Hj.
  unfold is_leaf, isDir, isFileNode.
  destruct (node_kind_of x) as [cs|seed size|src] eqn:Hk; try reflexivity.
  specialize (Hno j x src Hj Hk). inversion Hno.
Qed.

Definition leaves (j : Z) (t : RandomDirTree) : Prop :=
  dir_ok gen t /\ Z.of_nat (count_if is_leaf (nodes t)) = j.

Lemma createCopyNodes_returns (j : Z) :
  gen_copied_num gen = 0 \/ copy_sources gen w <> [] ->
  hoare (leaves j) (_createCopyNodes gen w)
        (fun _ => leaves (j + Z.max (gen_copied_num gen) 0)) (fun _ => False).
Proof.
  intros Hsrc. unfold _createCopyNodes.
  destruct (gen_copied_num gen =? 0) eqn:Hnum.
  { apply Z.eqb_eq in Hnum. apply hoare_ret. intros s Hs.
    replace (j + Z.max (gen_copied_num gen) 0) with j by lia. exact Hs. }
  apply Z.eqb_neq in Hnum. destruct Hsrc as [?|Hsrc]; [contradiction|].
  unfold copy_sources in Hsrc.
  destruct (filter _ _) as [|s l]; [contradiction|].
  eapply hoare_weaken;
    [apply (hoare_repeatM_count leaves (fun _ => False) _ _ j)|auto| |auto].
  2:{ intros [] t Ht.
      replace (j + Z.max (gen_copied_num gen) 0)
        with (j + Z.of_nat (Z.to_nat (gen_copied_num gen))) by lia.
      exact Ht. }
  intros i t [Hok Hcount]. unfold bind at 1, lift_rng.
  destruct (choice_ok (s :: l) (rng t) ltac:(discriminate))
    as (v & st' & src & _ & _ & _ & Hchoice).
  rewrite Hchoice.
  set (t0 := {| rng := st'; nodes := nodes t; dirNodes := dirNodes t |}).
  assert (Hok0 : dir_ok gen t0)
    by (eapply dir_ok_stable; [exact Hok|reflexivity|reflexivity]).
  destruct (attach_step gen t0 (Node_init (CopyNode src)) Hok0)
    as (t' & q & Heq & Hatt & Hok' & _).
  unfold bind.
  change (new_node (Node_init (CopyNode src)) t0)
    with (Ok (length (nodes t0)), snd (new_node (Node_init (CopyNode src)) t0)).
  cbv beta iota. rewrite Heq. split; [exact Hok'|].
  rewrite (count_if_attached is_leaf t0 _ q t' Hatt).
  - change (nodes t0) with (nodes t). cbn. lia.
  - intros n cs cs' Hk. unfold is_leaf, isDir. cbn. rewrite Hk. reflexivity.
  - reflexivity.
Qed.

Definition files_asked : Z :=
  Z.max (cat_num (gen_huge gen)) 0 + Z.max (cat_num (gen_large gen)) 0
  + Z.max (cat_num (gen_medium gen)) 0 + Z.max (cat_num (gen_small gen)) 0.

Lemma createNodes_returns (rootDir : string) :
  buildable ->
  exists t1,
    _createNodes gen w (RandomDirTree_new gen rootDir) = (Ok tt, t1)
    /\ Z.of_nat (count_if is_leaf (nodes t1))
       = files_asked + Z.max (gen_copied_num gen) 0.
Proof.
  intros (_ & _ & Hh & Hl & Hm & Hs & Hsrc).
  assert (H : hoare (Inv gen [] 0) (_createNodes gen w)
                (fun _ => leaves (files_asked + Z.max (gen_copied_num gen) 0))
                (fun _ => False)).
  { unfold _createNodes.
    eapply hoare_bind; [apply hoare_repeatM, hoare_attach_DirNode|]. intros [].
    eapply hoare_bind with (Q := fun dn t => Inv gen [] 0 t /\ dn = dirNodes t).
    { intros t Ht. split; [exact Ht|reflexivity]. }
    intros dn.
    eapply hoare_bind with (Q := fun _ => Inv gen [] 0).
    { intros t [(Hok & Hcount & Hno) ->].
      assert (HI : Inv gen [] 0 (popped t))
        by (split; [apply dir_ok_popped, Hok|];
            unfold popped; destruct (1 <? length (dirNodes t))%nat; auto).
      unfold popped in HI. destruct (1 <? length (dirNodes t))%nat; exact HI. }
    intros [].
    eapply hoare_bind; [apply (createFileNodes_returns _ 0 Hh)|]. intros [].
    eapply hoare_bind; [eapply createFileNodes_returns, Hl|]. intros [].
    eapply hoare_bind; [eapply createFileNodes_returns, Hm|]. intros [].
    eapply hoare_bind; [eapply createFileNodes_returns, Hs|]. intros [].
    eapply hoare_weaken; [apply (createCopyNodes_returns files_asked Hsrc)| |auto|auto].
    intros t (Hok & Hcount & Hno). split; [exact Hok|].
    rewrite (leaves_are_files t Hno), Hcount. unfold files_asked. lia. }
  specialize (H (RandomDirTree_new gen rootDir)).
  destruct (_createNodes gen w (RandomDirTree_new gen rootDir)) as [[[]|e|] t1].
  - exists t1. split; [reflexivity|]. apply H.
    split; [apply dir_ok_new|]. split; [reflexivity|].
    intros [|i] n src Hn Hsrc'; [|destruct i; discriminate].
    injection Hn as <-. discriminate.
  - destruct H. split; [apply dir_ok_new|]. split; [reflexivity|].
    intros [|i] n src Hn Hsrc'; [|destruct i; discriminate].
    injection Hn as <-. discriminate.
  - destruct H. split; [apply dir_ok_new|]. split; [reflexivity|].
    intros [|i] n src Hn Hsrc'; [|destruct i; discriminate].
    injection Hn as <-. discriminate.
Qed.

Lemma count_if_shape (f : node -> bool) (t0 t : RandomDirTree) :
  (forall n n', skel n = skel n' -> f n = f n') ->
  same_shape t0 t -> count_if f (nodes t) = count_if f (nodes t0).
Proof.
  intros Hf Hs. unfold same_shape in Hs.
  generalize dependent (nodes t). generalize (nodes t0). clear t0 t.
  induction l as [|a l IH]; intros l' Hs.
  - destruct l' as [|b l']; [reflexivity|]. specialize (Hs 0%nat). discriminate.
  - destruct l' as [|b l']; [specialize (Hs 0%nat); discriminate|].
    rewrite !count_if_cons. pose proof (Hs 0%nat) as H0. cbn in H0.
    assert (Hba : skel b = skel a) by congruence.
    rewrite (Hf b a Hba). f_equal.
    apply IH. intros j. exact (Hs (S j)).
Qed.


End Returns.

(** ** Writing a whole tree and verifying it *)
Section TreeRoundTrip.
Context {R : NumpyRandomState}.
Variable gen : Config.
Variable t : RandomDirTree.
Variable w0 : World.

(** What the node [n] is on disk after the tree was written to [w0]: a
    directory, the bytes of the generator, or the bytes of the source. *)
Definition expected (n : node) : option entry :=
  match node_kind_of n with
  | DirNode _ => Some Dir
  | FileNode _ _ => File <$> generated_content gen n
  | CopyNode src =>
      match fs w0 !! src with
      | Some (File c) => Some (File c)
      | _ => None
      end
  end.

Definition on_disk (w : World) (j : nat) : Prop :=
  exists n p e, nodes t !! j = Some n /\ node_path n = Some p
                /\ expected n = Some e /\ fs w !! p = Some e.

(** A tree that can be written to [w0]: its nodes are linked and named, no
    two with the same path; no file has a negative size; the sources of the
    copies are regular files, none at a path of the tree; and of the paths
    of the tree, [w0] has the root directory only. *)
Record writable : Prop := {
  wr_linked : linked t;
  wr_root : exists r cs, nodes t !! root = Some r /\ node_kind_of r = DirNode cs
                         /\ node_parent r = None;
  wr_named : forall j n, nodes t !! j = Some n -> exists p, node_path n = Some p;
  wr_distinct :
    forall j j' n n' p, nodes t !! j = Some n -> nodes t !! j' = Some n' ->
                        node_path n = Some p -> node_path n' = Some p -> j = j';
  wr_sizes :
    forall j n seed size, nodes t !! j = Some n ->
                          node_kind_of n = FileNode seed size -> 0 <= size;
  wr_sources :
    forall j n src, nodes t !! j = Some n -> node_kind_of n = CopyNode src ->
                    (exists c, fs w0 !! src = Some (File c))
                    /\ forall j' n', nodes t !! j' = Some n' -> node_path n' <> Some src;
  wr_root_dir : fs w0 !! root_path t = Some Dir;
  wr_free :
    forall j n p, nodes t !! j = Some n -> j <> root -> node_path n = Some p ->
                  fs w0 !! p = None
}.

Hypothesis Hw : writable.
Hypothesis Hchunks : chunks_ok gen.
Hypothesis Htrunc : gen_truncate gen = false.

Definition sources_kept (w : World) : Prop :=
  forall j n src, nodes t !! j = Some n -> node_kind_of n = CopyNode src ->
                  fs w !! src = fs w0 !! src.

Definition free_at (w : World) (l : list nat) : Prop :=
  forall j n p, j ∈ l -> j <> root -> nodes t !! j = Some n -> node_path n = Some p ->
                fs w !! p = None.

(** From [w] to [w'], only the paths of the nodes of [l] changed. *)
Definition frame (l : list nat) (w w' : World) : Prop :=
  forall p, (forall j n, j ∈ l -> nodes t !! j = Some n -> node_path n <> Some p) ->
            fs w' !! p = fs w !! p.

Lemma frame_sources (l : list nat) (w w' : World) :
  frame l w w' -> sources_kept w -> sources_kept w'.
Proof.
  intros Hf Hs j n src Hj Hk. rewrite <- (Hs j n src Hj Hk). apply Hf.
  intros j' n' _ Hj'. exact (proj2 (wr_sources Hw j n src Hj Hk) j' n' Hj').
Qed.

Lemma frame_free (l l' : list nat) (w w' : World) :
  frame l w w' -> free_at w l' -> (forall x, x ∈ l -> x ∉ l') -> free_at w' l'.
Proof.
  intros Hf Hfree Hdisj j n p Hj Hjr Hn Hp.
  rewrite <- (Hfree j n p Hj Hjr Hn Hp). apply Hf.
  intros j' n' Hj' Hn' Hp'.
  assert (j' = j) by (eapply (wr_distinct Hw); eauto). subst j'.
  exact (Hdisj j Hj' Hj).
Qed.

Lemma frame_on_disk (l : list nat) (w w' : World) (j : nat) :
  frame l w w' -> on_disk w j -> j ∉ l -> on_disk w' j.
Proof.
  intros Hf (n & p & e & Hn & Hp & He & Hfs) Hj.
  exists n, p, e. repeat (split; [assumption|]).
  rewrite <- Hfs. apply Hf. intros j' n' Hj' Hn' Hp'.
  assert (j' = j) by (eapply (wr_distinct Hw); eauto). subst j'. contradiction.
Qed.

Lemma frame_app (l1 l2 : list nat) (w w1 w2 : World) :
  frame l1 w w1 -> frame l2 w1 w2 -> frame (l1 ++ l2) w w2.
Proof.
  intros H1 H2 p Hp. rewrite (H2 p), (H1 p); [reflexivity| |].
  - intros j n Hj. apply Hp. apply elem_of_app. left. exact Hj.
  - intros j n Hj. apply Hp. apply elem_of_app. right. exact Hj.
Qed.

Lemma root_is_dir (i : nat) (n : node) :
  nodes t !! i = Some n -> node_parent n = None ->
  i = root /\ exists cs, node_kind_of n = DirNode cs.
Proof.
  intros Hi Hp. pose proof (wr_linked Hw) as [_ H2].
  specialize (H2 i n Hi). rewrite Hp in H2. subst i. split; [reflexivity|].
  destruct (wr_root Hw) as (r & cs & Hr & Hk & _).
  exists cs. congruence.
Qed.

Lemma not_root (i : nat) (n : node) (p : nat) :
  nodes t !! i = Some n -> node_parent n = Some p -> i <> root.
Proof.
  intros Hi Hp ->. destruct (wr_root Hw) as (r & cs & Hr & _ & Hrp). congruence.
Qed.

Lemma CopyNode_write_ok (n : node) (src p : string) (c : bytes) (w : World) :
  node_path n = Some p -> fs w !! src = Some (File c) ->
  fs w !! p <> Some Dir -> src <> p ->
  CopyNode_write n src w = (Ok tt, set_fs (<[p := File c]> (fs w)) w).
Proof.
  intros Hpath Hsrc Hdir Hne.
  unfold CopyNode_write, path_of. rewrite Hpath. unfold bind. cbn [ret].
  unfold shutil_copyfile. rewrite Hsrc.
  replace (String.eqb src p) with false by (symmetry; apply String.eqb_neq; exact Hne).
  destruct (fs w !! p) as [[|d]|]; [congruence|reflexivity|reflexivity].
Qed.

Lemma CopyNode_verify_same (n : node) (src p : string) (c : bytes) (w : World) :
  node_path n = Some p -> fs w !! src = Some (File c) -> fs w !! p = Some (File c) ->
  CopyNode_verify n src w = (Ok true, w).
Proof.
  intros Hpath Ha Hb. unfold CopyNode_verify, path_of. rewrite Hpath.
  unfold bind at 1. rewrite (isFile_true src c w Ha). cbn [negb].
  unfold bind at 1. cbn [ret]. unfold bind at 1.
  rewrite (isFile_true p c w Hb). cbn [negb].
  unfold filecmp_cmp. rewrite Ha, Hb.
  rewrite bool_decide_eq_true_2 by reflexivity. reflexivity.
Qed.

Definition writes (fuel : nat) : Prop :=
  forall i w,
    (length (nodes t) <= fuel + i)%nat -> (i < length (nodes t))%nat ->
    free_at w (preorder fuel t i) ->
    (i = root -> fs w !! root_path t = Some Dir) ->
    sources_kept w ->
    exists w',
      write gen fuel t i w = (Ok tt, w')
      /\ frame (preorder fuel t i) w w'
      /\ forall j, j ∈ preorder fuel t i -> on_disk w' j.

Lemma apart (i : nat) (ni : node) (cs : list nat) (fuel : nat) (c : nat)
    (rest : list nat) (x : nat) :
  nodes t !! i = Some ni -> node_kind_of ni = DirNode cs ->
  c ∈ cs -> (forall c', c' ∈ rest -> c' ∈ cs) -> c ∉ rest ->
  x ∈ preorder fuel t c -> x ∉ rest ≫= preorder fuel t.
Proof.
  intros Hi Hk Hc Hrest Hnot Hx Hx2.
  apply list_elem_of_bind in Hx2 as (c' & Hx2 & Hc').
  apply (preorder_below t (wr_linked Hw)) in Hx as [Hb _].
  apply (preorder_below t (wr_linked Hw)) in Hx2 as [Hb' _].
  pose proof (siblings_apart t (wr_linked Hw) i c c' x ni cs Hi Hk Hc (Hrest c' Hc') Hb Hb').
  subst c'. contradiction.
Qed.

Lemma below_children (i : nat) (ni : node) (cs : list nat) (fuel : nat)
    (l : list nat) (x : nat) :
  nodes t !! i = Some ni -> node_kind_of ni = DirNode cs ->
  (forall c, c ∈ l -> c ∈ cs) ->
  x ∈ l ≫= preorder fuel t -> (i < x)%nat.
Proof.
  intros Hi Hk Hsub Hx. apply list_elem_of_bind in Hx as (c & Hx & Hc).
  apply (preorder_below t (wr_linked Hw)) in Hx as [Hb _].
  apply (below_le t (wr_linked Hw)) in Hb.
  destruct (child_parent t (wr_linked Hw) i ni cs c Hi Hk (Hsub c Hc)) as [Hlt _]. lia.
Qed.

Lemma write_children (fuel : nat) (i : nat) (ni : node) (cs : list nat) :
  writes fuel ->
  nodes t !! i = Some ni -> node_kind_of ni = DirNode cs ->
  (length (nodes t) <= S fuel + i)%nat ->
  forall l w,
    (forall c, c ∈ l -> c ∈ cs) -> NoDup l ->
    free_at w (l ≫= preorder fuel t) -> sources_kept w ->
    exists w',
      forM_ (write gen fuel t) l w = (Ok tt, w')
      /\ frame (l ≫= preorder fuel t) w w'
      /\ forall j, j ∈ l ≫= preorder fuel t -> on_disk w' j.
Proof.
  intros HW Hi Hk Hfuel.
  induction l as [|c rest IH]; intros w Hsub Hnd Hfree Hsrc.
  - exists w. split; [reflexivity|]. split; [intros p _; reflexivity|].
    intros j Hj. inversion Hj.
  - assert (Hcin : c ∈ cs) by (apply Hsub; left).
    assert (Hrest : forall c', c' ∈ rest -> c' ∈ cs)
      by (intros c' Hc'; apply Hsub; right; exact Hc').
    destruct (child_parent t (wr_linked Hw) i ni cs c Hi Hk Hcin) as (Hlt & cn & Hcn & Hcp).
    apply NoDup_cons in Hnd as [Hc Hnd].
    change ((c :: rest) ≫= preorder fuel t)
      with (preorder fuel t c ++ (rest ≫= preorder fuel t)) in *.
    destruct (HW c w ltac:(lia) ltac:(apply lookup_lt_Some in Hcn; exact Hcn))
      as (w1 & Hrun1 & Hframe1 & Hdisk1).
    { intros j n p Hj. apply Hfree. apply elem_of_app. left. exact Hj. }
    { intros ->. unfold root in Hlt. lia. }
    { exact Hsrc. }
    destruct (IH w1 Hrest Hnd) as (w2 & Hrun2 & Hframe2 & Hdisk2).
    { eapply frame_free; [exact Hframe1| |].
      - intros j n p Hj. apply Hfree. apply elem_of_app. right. exact Hj.
      - intros x Hx. exact (apart i ni cs fuel c rest x Hi Hk Hcin Hrest Hc Hx). }
    { eapply frame_sources; eauto. }
    exists w2. cbn [forM_]. unfold bind. rewrite Hrun1, Hrun2.
    split; [reflexivity|]. split; [eapply frame_app; eauto|].
    intros j Hj. apply elem_of_app in Hj as [Hj|Hj]; [|apply Hdisk2, Hj].
    eapply frame_on_disk; [exact Hframe2|apply Hdisk1, Hj|].
    exact (apart i ni cs fuel c rest j Hi Hk Hcin Hrest Hc Hj).
Qed.

Lemma writes_all (fuel : nat) : writes fuel.
Proof.
  induction fuel as [|fuel IH]; intros i w Hfuel Hlt Hfree Hroot Hsrc; [lia|].
  destruct (lookup_lt_is_Some_2 (nodes t) i Hlt) as [n Hn].
  destruct (wr_named Hw i n Hn) as [p Hp].
  cbn [write preorder] in *. rewrite Hn in *.
  destruct (node_kind_of n) as [cs|seed size|src] eqn:Hk.
  - (* a directory *)
    assert (Hmk : exists w1,
              (if isRoot n then ret tt else let* p := path_of n in os_mkdir p) w
              = (Ok tt, w1)
              /\ fs w1 !! p = Some Dir
              /\ (forall p', p' <> p -> fs w1 !! p' = fs w !! p')).
    { unfold isRoot. destruct (node_parent n) as [q|] eqn:Hq.
      - assert (Hir : i <> root) by (eapply not_root; eauto).
        assert (Hnone : fs w !! p = None) by (apply (Hfree i n p); [left| | |]; auto).
        exists (set_fs (<[p := Dir]> (fs w)) w).
        unfold path_of. rewrite Hp. unfold bind. cbn [ret]. unfold os_mkdir.
        rewrite Hnone. split; [reflexivity|]. cbn [fs set_fs].
        split; [apply lookup_insert_eq|].
        intros p' Hp'. apply lookup_insert_ne. congruence.
      - destruct (root_is_dir i n Hn Hq) as [-> _].
        exists w. split; [reflexivity|]. split; [|reflexivity].
        specialize (Hroot eq_refl). unfold root_path in Hroot.
        rewrite Hn, Hp in Hroot. exact Hroot. }
    destruct Hmk as (w1 & Hmk & Hdir1 & Hother1).
    pose proof (wr_linked Hw) as [H1 _]. destruct (H1 i n cs Hn Hk) as [Hnd _].
    assert (Hpath_ne : forall j m, j ∈ cs ≫= preorder fuel t ->
              nodes t !! j = Some m -> node_path m <> Some p).
    { intros j m Hj Hm Hmp.
      pose proof (below_children i n cs fuel cs j Hn Hk ltac:(auto) Hj).
      assert (j = i) by (eapply (wr_distinct Hw); eauto). lia. }
    destruct (write_children fuel i n cs IH Hn Hk Hfuel cs w1 ltac:(auto) Hnd)
      as (w2 & Hrun2 & Hframe2 & Hdisk2).
    { intros j m q Hj Hjr Hm Hq. rewrite Hother1.
      - apply (Hfree j m q); auto. right. exact Hj.
      - intros ->. exact (Hpath_ne j m Hj Hm Hq). }
    { intros j m src Hj Hkm. rewrite Hother1; [exact (Hsrc j m src Hj Hkm)|].
      intros ->. exact (proj2 (wr_sources Hw j m p Hj Hkm) i n Hn Hp). }
    assert (Hdir2 : fs w2 !! p = Some Dir).
    { rewrite <- Hdir1. apply Hframe2. intros j m Hj Hm. exact (Hpath_ne j m Hj Hm). }
    exists w2. split; [|split].
    + unfold bind at 1. rewrite Hmk. unfold bind at 1. rewrite Hrun2.
      destruct (gen_fsync gen); [|reflexivity].
      unfold path_of. rewrite Hp. unfold bind. cbn [ret]. unfold fsync_dir, bind, get.
      unfold os_path_exists. rewrite Hdir2. reflexivity.
    + intros p' Hp'. rewrite (Hframe2 p').
      * apply Hother1. intros ->. exact (Hp' i n ltac:(left) Hn Hp).
      * intros j m Hj. apply Hp'. right. exact Hj.
    + intros j Hj. apply elem_of_cons in Hj as [->|Hj]; [|apply Hdisk2, Hj].
      exists n, p, Dir. split; [exact Hn|]. split; [exact Hp|].
      split; [unfold expected; rewrite Hk; reflexivity|exact Hdir2].
  - (* a generated file *)
    assert (Hir : i <> root).
    { intros ->. destruct (wr_root Hw) as (r & cs & Hr & Hrk & _). congruence. }
    assert (Hnone : fs w !! p = None) by (apply (Hfree i n p); [left| | |]; auto).
    destruct (chunks_exist gen seed size Hchunks) as (chunks & Hall & Hlen).
    pose proof (wr_sizes Hw i n seed size Hn Hk) as Hsize.
    exists (set_fs (<[p := File (concat chunks)]> (fs w)) w). split; [|split].
    + apply FileNode_write_ok; auto. rewrite Hnone. discriminate.
    + intros p' Hp'. cbn [fs set_fs]. apply lookup_insert_ne.
      intros ->. exact (Hp' i n ltac:(left) Hn Hp).
    + intros j Hj. apply list_elem_of_singleton in Hj as ->.
      exists n, p, (File (concat chunks)). split; [exact Hn|]. split; [exact Hp|].
      split; [|cbn [fs set_fs]; apply lookup_insert_eq].
      unfold expected, generated_content. rewrite Hk, Hall.
      replace (Z.of_nat (length (concat chunks)) =? size) with true
        by (symmetry; apply Z.eqb_eq; lia).
      reflexivity.
  - (* a copy *)
    assert (Hir : i <> root).
    { intros ->. destruct (wr_root Hw) as (r & cs & Hr & Hrk & _). congruence. }
    assert (Hnone : fs w !! p = None) by (apply (Hfree i n p); [left| | |]; auto).
    destruct (wr_sources Hw i n src Hn Hk) as [[c Hc] Hnot].
    assert (Hc' : fs w !! src = Some (File c)) by (rewrite (Hsrc i n src Hn Hk); exact Hc).
    exists (set_fs (<[p := File c]> (fs w)) w). split; [|split].
    + apply CopyNode_write_ok; auto.
      * rewrite Hnone. discriminate.
      * intros ->. exact (Hnot i n Hn Hp).
    + intros p' Hp'. cbn [fs set_fs]. apply lookup_insert_ne.
      intros ->. exact (Hp' i n ltac:(left) Hn Hp).
    + intros j Hj. apply list_elem_of_singleton in Hj as ->.
      exists n, p, (File c). split; [exact Hn|]. split; [exact Hp|].
      split; [|cbn [fs set_fs]; apply lookup_insert_eq].
      unfold expected. rewrite Hk, Hc. reflexivity.
Qed.

Definition verifies (fuel : nat) : Prop :=
  forall i w,
    (length (nodes t) <= fuel + i)%nat -> (i < length (nodes t))%nat ->
    (forall j, j ∈ preorder fuel t i -> on_disk w j) -> sources_kept w ->
    verify gen fuel t i w = (Ok true, w).

Lemma verify_children (fuel : nat) (i : nat) (ni : node) (cs : list nat) :
  verifies fuel ->
  nodes t !! i = Some ni -> node_kind_of ni = DirNode cs ->
  (length (nodes t) <= S fuel + i)%nat ->
  forall l w,
    (forall c, c ∈ l -> c ∈ cs) ->
    (forall j, j ∈ l ≫= preorder fuel t -> on_disk w j) -> sources_kept w ->
    exists results,
      mapM (verify gen fuel t) l w = (Ok results, w) /\ forallb id results = true.
Proof.
  intros HV Hi Hk Hfuel.
  induction l as [|c rest IH]; intros w Hsub Hdisk Hsrc.
  - exists []. split; reflexivity.
  - assert (Hcin : c ∈ cs) by (apply Hsub; left).
    destruct (child_parent t (wr_linked Hw) i ni cs c Hi Hk Hcin) as (Hlt & cn & Hcn & Hcp).
    change ((c :: rest) ≫= preorder fuel t)
      with (preorder fuel t c ++ (rest ≫= preorder fuel t)) in Hdisk.
    pose proof (HV c w ltac:(lia) ltac:(apply lookup_lt_Some in Hcn; exact Hcn)) as Hrun.
    destruct (IH w) as (results & Hrest & Hall).
    { intros c' Hc'. apply Hsub. right. exact Hc'. }
    { intros j Hj. apply Hdisk. apply elem_of_app. right. exact Hj. }
    { exact Hsrc. }
    exists (true :: results). cbn [mapM]. unfold bind. rewrite Hrun, Hrest.
    + split; [reflexivity|exact Hall].
    + intros j Hj. apply Hdisk. apply elem_of_app. left. exact Hj.
    + exact Hsrc.
Qed.

Lemma verifies_all (fuel : nat) : verifies fuel.
Proof.
  induction fuel as [|fuel IH]; intros i w Hfuel Hlt Hdisk Hsrc; [lia|].
  destruct (lookup_lt_is_Some_2 (nodes t) i Hlt) as [n Hn].
  cbn [verify preorder] in *. rewrite Hn in *.
  destruct (node_kind_of n) as [cs|seed size|src] eqn:Hk.
  - destruct (Hdisk i ltac:(left)) as (n' & p & e & Hn' & Hp & He & Hfs).
    assert (n' = n) by congruence. subst n'.
    unfold expected in He. rewrite Hk in He. injection He as <-.
    destruct (verify_children fuel i n cs IH Hn Hk Hfuel cs w ltac:(auto))
      as (results & Hrun & Hall); [|exact Hsrc|].
    { intros j Hj. apply Hdisk. right. exact Hj. }
    unfold path_of. rewrite Hp. unfold bind at 1. cbn [ret].
    unfold bind at 1. unfold get at 1. unfold os_path_isdir. rewrite Hfs. cbn [negb].
    unfold bind. rewrite Hrun. cbn [ret]. rewrite Hall. reflexivity.
  - destruct (Hdisk i ltac:(left)) as (n' & p & e & Hn' & Hp & He & Hfs).
    assert (n' = n) by congruence. subst n'.
    unfold expected, generated_content in He. rewrite Hk in He.
    destruct (all_chunks _ _) as [chunks| |] eqn:Hall; try discriminate.
    destruct (Z.of_nat (length (concat chunks)) =? size) eqn:Hlen; try discriminate.
    cbn in He. injection He as <-. apply Z.eqb_eq in Hlen.
    eapply FileNode_verify_ok; eauto.
  - destruct (Hdisk i ltac:(left)) as (n' & p & e & Hn' & Hp & He & Hfs).
    assert (n' = n) by congruence. subst n'.
    unfold expected in He. rewrite Hk in He.
    destruct (fs w0 !! src) as [[|c]|] eqn:Hc; try discriminate. injection He as <-.
    eapply CopyNode_verify_same; eauto.
    rewrite (Hsrc i n src Hn Hk). exact Hc.
Qed.


End TreeRoundTrip.

(** ** The sizes of the generated files *)
Section Sizes.
Context {R : NumpyRandomState}.
Variable gen : Config.

(** Every generated file has a size that was drawn for a category. *)
Definition all_sized (t : RandomDirTree) : Prop :=
  forall j n seed size, nodes t !! j = Some n -> node_kind_of n = FileNode seed size ->
                        drawn gen size.

Lemma all_sized_attached (t : RandomDirTree) (nd : node) (q : nat) (t' : RandomDirTree) :
  all_sized t -> attached t nd q t' ->
  (forall seed size, node_kind_of nd = FileNode seed size -> drawn gen size) ->
  all_sized t'.
Proof.
  intros H Hatt Hnd j n seed size Hj Hk.
  destruct (attached_lookup t nd q t' Hatt)
    as (qn & cs & Hq & Hcs & Hqlt & Hlen' & Hq' & Hn' & Hother & _).
  destruct (decide (j = q)) as [->|Hjq];
    [|destruct (decide (j = length (nodes t))) as [->|Hjn]].
  - rewrite Hq' in Hj. injection Hj as <-. discriminate.
  - rewrite Hn' in Hj. injection Hj as <-. exact (Hnd seed size Hk).
  - rewrite Hother in Hj by assumption. exact (H j n seed size Hj Hk).
Qed.

Lemma sized_init (w : World) (rootDir : string) :
  0 <= gen_dirs_maxDepth gen ->
  all_sized (snd (RandomDirTree_init gen w rootDir)).
Proof.
  intros Hmax.
  refine (proj1 (build_phases gen w (fun _ => all_sized) all_sized
                   _ _ _ _ _ rootDir Hmax _)).
  - intros k t q t' H _ Hatt. eapply all_sized_attached; eauto. intros seed size [=].
  - intros t H _ j n seed size Hj Hk. unfold popped in Hj.
    destruct (1 <? length (dirNodes t))%nat; exact (H j n seed size Hj Hk).
  - intros t t' H Hn _ j n seed size Hj Hk. rewrite Hn in Hj.
    exact (H j n seed size Hj Hk).
  - intros t nd q t' H _ Hleaf _ Hatt. eapply all_sized_attached; eauto.
    intros seed size Hk. destruct Hleaf as [(sd & sz & Hf & Hd)|(s' & _ & ->)].
    + assert (sz = size) by congruence. subst sz. exact Hd.
    + discriminate.
  - intros t j0 n0 s0 H Hj0 j n seed size Hj Hk. cbn [nodes] in Hj.
    destruct (decide (j = j0)) as [->|Hne].
    + rewrite list_lookup_insert_eq in Hj by (apply lookup_lt_Some in Hj0; exact Hj0).
      injection Hj as <-. cbn in Hk. exact (H j0 n0 seed size Hj0 Hk).
    + rewrite list_lookup_insert_ne in Hj by congruence. exact (H j n seed size Hj Hk).
  - intros [|j] n seed size Hj Hk; [|destruct j; discriminate].
    injection Hj as <-. discriminate.
Qed.

(** X18.  The size of every generated file of a tree, clones included, was
    drawn for one of the four categories, one that asks for files; it lies
    between the bounds of that category when these are 64-bit integers
    with [min <= max]. *)
Theorem file_sizes_in_range (w : World) (rootDir : string) (j : nat) (n : node)
    (seed size : Z) :
  0 <= gen_dirs_maxDepth gen ->
  nodes (snd (RandomDirTree_init gen w rootDir)) !! j = Some n ->
  node_kind_of n = FileNode seed size ->
  exists c,
    c ∈ [gen_huge gen; gen_large gen; gen_medium gen; gen_small gen]
    /\ 0 < cat_num c
    /\ (- 2 ^ 63 <= cat_min c -> cat_min c <= cat_max c -> cat_max c < 2 ^ 63 ->
        cat_min c <= size <= cat_max c).
Proof.
  intros Hmax Hj Hk.
  destruct (sized_init w rootDir Hmax j n seed size Hj Hk) as (c & Hc & Hnum & Hr).
  exists c. split; [exact Hc|]. split; [exact Hnum|].
  intros Hlo Hne Hhi. apply Hr. repeat split; assumption.
Qed.

End Sizes.

(** ** Paths and numbers *)
From Stdlib Require Import Ascii.
From Stdlib Require DecimalZ DecimalPos.

(** ** Paths *)
Section Paths.

(** No character of [s] is a slash. *)
Fixpoint no_slash (s : string) : bool :=
  match s with
  | EmptyString => true
  | String c s' => negb (Ascii.eqb c "/"%char) && no_slash s'
  end.

(** The last component of a path: what follows its last slash. *)
Fixpoint basename (s : string) : string :=
  match s with
  | EmptyString => EmptyString
  | String c s' =>
      if Ascii.eqb c "/"%char then basename s'
      else if no_slash s' then s else basename s'
  end.

Lemma append_nil_l (b : string) : EmptyString +:+ b = b.
Proof. reflexivity. Qed.

Lemma append_cons (c : ascii) (a b : string) : String c a +:+ b = String c (a +:+ b).
Proof. reflexivity. Qed.

Lemma no_slash_app (a b : string) :
  no_slash (a +:+ b) = no_slash a && no_slash b.
Proof.
  induction a as [|c a IH]; [reflexivity|].
  rewrite append_cons. cbn [no_slash]. rewrite IH. apply andb_assoc.
Qed.

Lemma basename_no_slash (b : string) : no_slash b = true -> basename b = b.
Proof.
  destruct b as [|c b]; [reflexivity|]. cbn [no_slash basename].
  intros H. apply andb_true_iff in H as [Hc Hb].
  apply negb_true_iff in Hc. rewrite Hc, Hb. reflexivity.
Qed.

Lemma basename_after_slash (a b : string) :
  no_slash b = true -> basename (a +:+ String "/"%char b) = b.
Proof.
  intros Hb. induction a as [|c a IH].
  - rewrite append_nil_l. cbn [basename Ascii.eqb]. cbn.
    apply basename_no_slash, Hb.
  - rewrite append_cons. cbn [basename]. destruct (Ascii.eqb c "/"%char); [exact IH|].
    rewrite no_slash_app. cbn [no_slash]. cbn. rewrite andb_false_r. exact IH.
Qed.

Lemma append_assoc (a b c : string) : (a +:+ b) +:+ c = a +:+ (b +:+ c).
Proof.
  induction a as [|x a IH]; [reflexivity|]. rewrite !append_cons, IH. reflexivity.
Qed.

Lemma append_length (a b : string) :
  String.length (a +:+ b) = (String.length a + String.length b)%nat.
Proof.
  induction a as [|x a IH]; [reflexivity|].
  rewrite append_cons. cbn [String.length]. rewrite IH. reflexivity.
Qed.

Lemma append_inv_head (a b c : string) : a +:+ b = a +:+ c -> b = c.
Proof.
  induction a as [|x a IH]; [auto|]. rewrite !append_cons. intros H.
  injection H as H. exact (IH H).
Qed.

(** A string whose last character is a slash. *)
Lemma ends_with_slash (a : string) :
  String.eqb (String.substring (String.length a - 1) 1 a) "/" = true ->
  exists y, a = y +:+ "/".
Proof.
  induction a as [|c a IH]; [discriminate|].
  cbn [String.length]. rewrite Nat.sub_succ, Nat.sub_0_r.
  destruct a as [|d a'].
  - cbn. intros H. exists EmptyString. rewrite append_nil_l.
    destruct (Ascii.eqb_spec c "/"%char) as [->|]; [reflexivity|discriminate].
  - cbn [String.length String.substring]. intros H.
    destruct IH as [y Hy].
    { cbn [String.length]. rewrite Nat.sub_succ, Nat.sub_0_r. exact H. }
    exists (String c y). rewrite append_cons, <- Hy. reflexivity.
Qed.

Lemma prefix_slash (b : string) :
  no_slash b = true -> String.prefix "/" b = false.
Proof.
  destruct b as [|c b]; [reflexivity|]. cbn [no_slash String.prefix]. intros H.
  apply andb_true_iff in H as [Hc _]. apply negb_true_iff in Hc.
  destruct (Ascii.ascii_dec "/"%char c) as [<-|]; [discriminate|reflexivity].
Qed.

(** [os.path.join] with a name that has no slash: the name is the last
    component, and the path is longer than the directory. *)
Lemma join_name (a b : string) :
  no_slash b = true -> b <> EmptyString ->
  basename (os_path_join a b) = b
  /\ (String.length a < String.length (os_path_join a b))%nat.
Proof.
  intros Hb Hne. unfold os_path_join. rewrite (prefix_slash b Hb).
  assert (Hlen : (0 < String.length b)%nat)
    by (destruct b; [congruence|cbn; lia]).
  destruct (String.eqb a "") eqn:Ha.
  - apply String.eqb_eq in Ha. subst a. cbn [orb]. rewrite append_nil_l.
    split; [apply basename_no_slash, Hb|cbn; lia].
  - cbn [orb].
    destruct (String.eqb (String.substring (String.length a - 1) 1 a) "/") eqn:Hs.
    + destruct (ends_with_slash a Hs) as [y ->]. rewrite append_assoc.
      change ("/" +:+ b) with (String "/"%char b).
      split; [apply basename_after_slash, Hb|].
      rewrite !append_length. cbn [String.length]. lia.
    + change ("/" +:+ b) with (String "/"%char b).
      split; [apply basename_after_slash, Hb|].
      rewrite !append_length. cbn [String.length]. lia.
Qed.

Lemma no_slash_uint (d : Decimal.uint) : no_slash (NilEmpty.string_of_uint d) = true.
Proof. induction d; cbn; auto. Qed.

Lemma no_slash_str_of_Z (z : Z) : no_slash (str_of_Z z) = true.
Proof.
  unfold str_of_Z, NilZero.string_of_int, NilZero.string_of_uint.
  destruct (Z.to_int z) as [d|d]; destruct d; cbn; try reflexivity;
    apply no_slash_uint.
Qed.

Lemma str_of_Z_nonempty (z : Z) : str_of_Z z <> EmptyString.
Proof.
  unfold str_of_Z, NilZero.string_of_int, NilZero.string_of_uint.
  destruct (Z.to_int z) as [d|d]; destruct d; discriminate.
Qed.

Lemma str_of_Z_inj (a b : Z) : str_of_Z a = str_of_Z b -> a = b.
Proof.
  intros H. apply DecimalZ.to_int_inj.
  assert (Hnn : forall z, Z.to_int z <> Decimal.Pos Decimal.Nil
                          /\ Z.to_int z <> Decimal.Neg Decimal.Nil).
  { intros [|p|p]; cbn; split; try discriminate;
      intros [= E]; exact (DecimalPos.Unsigned.to_uint_nonnil p E). }
  pose proof (NilZero.isi (Z.to_int a) (proj1 (Hnn a)) (proj2 (Hnn a))) as Ha.
  pose proof (NilZero.isi (Z.to_int b) (proj1 (Hnn b)) (proj2 (Hnn b))) as Hb.
  unfold str_of_Z in H. rewrite H in Ha. congruence.
Qed.

End Paths.

(** ** The paths of a tree that was built *)
Section BuiltPaths.
Context {R : NumpyRandomState}.
Variable gen : Config.
Hypothesis Hprefix : no_slash (gen_name_prefix gen) = true.

(** The name with the number [pos]. *)
Definition name_of (pos : nat) : string :=
  gen_name_prefix gen +:+ str_of_Z (Z.of_nat pos).

Lemma name_of_no_slash (pos : nat) : no_slash (name_of pos) = true.
Proof.
  unfold name_of. rewrite no_slash_app, Hprefix, no_slash_str_of_Z. reflexivity.
Qed.

Lemma name_of_nonempty (pos : nat) : name_of pos <> EmptyString.
Proof.
  unfold name_of. intros H.
  apply (f_equal String.length) in H. rewrite append_length in H. cbn in H.
  pose proof (str_of_Z_nonempty (Z.of_nat pos)) as Hne.
  destruct (str_of_Z (Z.of_nat pos)); [congruence|]. cbn in H. lia.
Qed.

Lemma name_of_inj (pos pos' : nat) : name_of pos = name_of pos' -> pos = pos'.
Proof.
  unfold name_of. intros H. apply append_inv_head, str_of_Z_inj in H. lia.
Qed.

Section Built.
Variables (w : World) (rootDir : string) (stats : GenerateStats) (t : RandomDirTree).
Hypothesis Hinit : RandomDirTree_init gen w rootDir = (Ok stats, t).

(** Every node but the root has a number. *)
Lemma numbered (j : nat) (n : node) :
  nodes t !! j = Some n -> j <> root ->
  exists pos p pp s,
    node_parent n = Some p /\ (p < j)%nat /\ path_at t p = Some pp
    /\ node_path n = Some s
    /\ basename s = name_of pos
    /\ (String.length pp < String.length s)%nat
    /\ forall j' n' s',
         nodes t !! j' = Some n' -> j' <> root -> node_path n' = Some s' ->
         basename s' = name_of pos -> j' = j.
Proof.
  intros Hj Hjr.
  destruct (names_of_build gen w rootDir stats t Hinit)
    as (HL & _ & HR & rest & Hrest & Hn).
  assert (Hpos : forall i, (i < length (nodes t))%nat -> i <> root ->
                           exists pos, rest !! pos = Some i).
  { intros i Hi Hir. apply list_elem_of_lookup.
    assert (Hin : i ∈ root :: rest).
    { rewrite <- Hrest. rewrite (preorder_all t HL). apply elem_of_seq. lia. }
    apply elem_of_cons in Hin as [?|Hin]; [contradiction|exact Hin]. }
  destruct (Hpos j ltac:(apply lookup_lt_Some in Hj; exact Hj) Hjr) as [pos Hp].
  destruct (Hn pos j Hp) as (cn & p & pp & Hcn & Hpar & Hpp & Hpath).
  assert (cn = n) by congruence. subst cn.
  destruct (join_name pp (name_of pos) (name_of_no_slash pos) (name_of_nonempty pos))
    as [Hbase Hlen].
  exists pos, p, pp, (os_path_join pp (name_of pos)).
  split; [exact Hpar|]. split; [exact (parent_lt t HL j n p Hj Hpar)|].
  split; [exact Hpp|]. split; [exact Hpath|]. split; [exact Hbase|].
  split; [exact Hlen|].
  intros j' n' s' Hj' Hjr' Hs' Hb'.
  destruct (Hpos j' ltac:(apply lookup_lt_Some in Hj'; exact Hj') Hjr') as [pos' Hp'].
  destruct (Hn pos' j' Hp') as (cn' & q & qq & Hcn' & _ & _ & Hpath').
  assert (cn' = n') by congruence. subst cn'.
  rewrite Hs' in Hpath'. injection Hpath' as ->.
  destruct (join_name qq (name_of pos') (name_of_no_slash pos') (name_of_nonempty pos'))
    as [Hbase' _].
  fold (name_of pos') in Hb'. rewrite Hbase' in Hb'. apply name_of_inj in Hb'.
  subst pos'. congruence.
Qed.

(** The path of a node below the root is longer than that of the root. *)
Lemma longer_than_root (j : nat) :
  forall n s, nodes t !! j = Some n -> j <> root -> node_path n = Some s ->
              (String.length rootDir < String.length s)%nat.
Proof.
  induction j as [j IH] using lt_wf_ind. intros n s Hj Hjr Hs.
  destruct (numbered j n Hj Hjr) as (pos & p & pp & s' & Hpar & Hlt & Hpp & Hs' & _ & Hlen & _).
  assert (s' = s) by congruence. subst s'.
  destruct (names_of_build gen w rootDir stats t Hinit) as (_ & _ & HR & _).
  destruct (decide (p = root)) as [->|Hpr].
  - rewrite HR in Hpp. injection Hpp as <-. exact Hlen.
  - unfold path_at in Hpp. destruct (nodes t !! p) as [pn|] eqn:Hpn; [|discriminate].
    cbn in Hpp. pose proof (IH p Hlt pn pp Hpn Hpr Hpp). lia.
Qed.

Lemma built_distinct (j j' : nat) (n n' : node) (p : string) :
  nodes t !! j = Some n -> nodes t !! j' = Some n' ->
  node_path n = Some p -> node_path n' = Some p -> j = j'.
Proof.
  intros Hj Hj' Hp Hp'.
  destruct (names_of_build gen w rootDir stats t Hinit) as (_ & _ & HR & _).
  assert (Hroot : forall i m, nodes t !! i = Some m -> node_path m = Some p ->
                              i <> root -> (String.length rootDir < String.length p)%nat).
  { intros i m Hi Hm Hir. eapply longer_than_root; eauto. }
  assert (Hrp : forall m, nodes t !! root = Some m -> node_path m = Some p -> p = rootDir).
  { intros m Hm Hmp. unfold path_at in HR. rewrite Hm in HR. cbn in HR. congruence. }
  destruct (decide (j = root)) as [->|Hjr], (decide (j' = root)) as [->|Hjr'].
  - reflexivity.
  - pose proof (Hrp n Hj Hp). pose proof (Hroot j' n' Hj' Hp' Hjr'). subst p. lia.
  - pose proof (Hrp n' Hj' Hp'). pose proof (Hroot j n Hj Hp Hjr). subst p. lia.
  - destruct (numbered j n Hj Hjr) as (pos & _ & _ & s & _ & _ & _ & Hs & Hb & _ & Huniq).
    assert (s = p) by congruence. subst s.
    symmetry. exact (Huniq j' n' p Hj' Hjr' Hp' Hb).
Qed.

Lemma built_named (j : nat) (n : node) :
  nodes t !! j = Some n -> exists p, node_path n = Some p.
Proof.
  intros Hj. destruct (decide (j = root)) as [->|Hjr].
  - destruct (names_of_build gen w rootDir stats t Hinit) as (_ & _ & HR & _).
    unfold path_at in HR. rewrite Hj in HR. cbn in HR. eauto.
  - destruct (numbered j n Hj Hjr) as (_ & _ & _ & s & _ & _ & _ & Hs & _). eauto.
Qed.

End Built.

(** X19.  With a name prefix that has no slash, every node of a tree that
    was built has a path, and no two nodes have the same: nothing the tree
    writes is written over by another of its nodes. *)
Theorem paths_are_distinct (w : World) (rootDir : string) (stats : GenerateStats)
    (t : RandomDirTree) (j j' : nat) (n n' : node) :
  RandomDirTree_init gen w rootDir = (Ok stats, t) ->
  nodes t !! j = Some n -> nodes t !! j' = Some n' -> j <> j' ->
  exists p p', node_path n = Some p /\ node_path n' = Some p' /\ p <> p'.
Proof.
  intros Hinit Hj Hj' Hne.
  destruct (built_named w rootDir stats t Hinit j n Hj) as [p Hp].
  destruct (built_named w rootDir stats t Hinit j' n' Hj') as [p' Hp'].
  exists p, p'. split; [exact Hp|]. split; [exact Hp'|].
  intros <-. apply Hne. eapply built_distinct; eauto.
Qed.

(** X17.  A tree that was built can be written to the world it was built
    in, when the name prefix has no slash, no category draws a negative
    size, the root directory is there and the other paths of the tree are
    free: the tree is [writable]. *)
Theorem built_tree_is_writable (w : World) (rootDir : string)
    (stats : GenerateStats) (t : RandomDirTree) :
  RandomDirTree_init gen w rootDir = (Ok stats, t) ->
  (forall c, c ∈ categories gen -> 0 < cat_num c -> range_ok c /\ 0 <= cat_min c) ->
  fs w !! rootDir = Some Dir ->
  (forall j n p, nodes t !! j = Some n -> j <> root -> node_path n = Some p ->
                 fs w !! p = None) ->
  writable t w.
Proof.
  intros Hinit Hcat Hroot Hfree.
  destruct (names_of_build gen w rootDir stats t Hinit) as (HL & Hok & HR & _).
  assert (Hsnd : t = snd (RandomDirTree_init gen w rootDir)) by (rewrite Hinit; reflexivity).
  assert (Hmax : 0 <= gen_dirs_maxDepth gen).
  { apply init_steps in Hinit. tauto. }
  destruct (ok_root gen t Hok) as (r & Hr & Hrdir & Hrpar & _).
  assert (Hrootpath : root_path t = rootDir).
  { unfold root_path. unfold path_at in HR. rewrite Hr in HR |- *. cbn in HR.
    rewrite HR. reflexivity. }
  constructor.
  - exact HL.
  - unfold isDir in Hrdir. destruct (node_kind_of r) as [cs| |] eqn:Hk; try discriminate.
    exists r, cs. auto.
  - intros j n Hj. eapply built_named; eauto.
  - intros j j' n n' p. eapply built_distinct; eauto.
  - intros j n seed size Hj Hk. rewrite Hsnd in Hj.
    destruct (sized_init gen w rootDir Hmax j n seed size Hj Hk) as (c & Hc & Hnum & Hr').
    destruct (Hcat c Hc Hnum) as [Hrange Hmin]. specialize (Hr' Hrange). lia.
  - intros j n src Hj Hk. pose proof Hj as Hj0. rewrite Hsnd in Hj0.
    destruct (sources_known gen w rootDir Hmax j n src Hj0 Hk) as [c Hc].
    split; [eauto|]. intros j' n' Hj' Hp'.
    destruct (decide (j' = root)) as [->|Hjr'].
    + unfold path_at in HR. rewrite Hj' in HR. cbn in HR. congruence.
    + rewrite (Hfree j' n' src Hj' Hjr' Hp') in Hc. discriminate.
  - rewrite Hrootpath. exact Hroot.
  - exact Hfree.
Qed.

End BuiltPaths.

(** ** Configurations that do not build *)
Section ConfigErrors.
Context {R : NumpyRandomState}.
Variable gen : Config.
Variable w : World.

(** A computation that cannot fail from [P] returns. *)
Lemma hoare_returns {St A} (P : St -> Prop) (m : M St A) (Q : A -> St -> Prop) (s : St) :
  hoare P m Q (fun _ => False) -> P s -> exists a s', m s = (Ok a, s') /\ Q a s'.
Proof.
  intros H Hs. specialize (H s Hs). destruct (m s) as [[a|e|] s']; [eauto|contradiction..].
Qed.

Lemma bind_ext {St A B} (m : M St A) (k1 k2 : A -> M St B) (s : St) :
  (forall a s', k1 a s' = k2 a s') -> bind m k1 s = bind m k2 s.
Proof.
  intros H. unfold bind. destruct (m s) as [[a|e|] s']; [apply H|reflexivity..].
Qed.

(** The categories are filled in the order of their list. *)
Lemma createNodes_unfold (t : RandomDirTree) :
  _createNodes gen w t
  = (repeatM (Z.to_nat (gen_dirs_num gen)) (attach_DirNode gen) ;;;
     let* dn := gets dirNodes in
     (if (1 <? length dn)%nat then set_dirNodes (drop 1 dn) else ret tt) ;;;
     forM_ (_createFileNodes gen) (categories gen) ;;;
     _createCopyNodes gen w) t.
Proof.
  unfold _createNodes, categories. cbn [forM_].
  apply bind_ext. intros [] s1. apply bind_ext. intros dn s2.
  apply bind_ext. intros [] s3. unfold bind.
  destruct (_createFileNodes gen (gen_huge gen) s3) as [[[]|e|] t3]; [|reflexivity..].
  destruct (_createFileNodes gen (gen_large gen) t3) as [[[]|e|] t4]; [|reflexivity..].
  destruct (_createFileNodes gen (gen_medium gen) t4) as [[[]|e|] t5]; [|reflexivity..].
  destruct (_createFileNodes gen (gen_small gen) t5) as [[[]|e|] t6]; reflexivity.
Qed.

(** The state in which the categories are filled. *)
Lemma before_categories (rootDir : string) :
  exists t2,
    Inv gen [] 0 t2
    /\ forall k : M RandomDirTree unit,
         (repeatM (Z.to_nat (gen_dirs_num gen)) (attach_DirNode gen) ;;;
          let* dn := gets dirNodes in
          (if (1 <? length dn)%nat then set_dirNodes (drop 1 dn) else ret tt) ;;;
          k) (RandomDirTree_new gen rootDir)
         = k t2.
Proof.
  assert (H0 : Inv gen [] 0 (RandomDirTree_new gen rootDir)).
  { split; [apply dir_ok_new|]. split; [reflexivity|].
    intros [|i] n src Hn Hsrc'; [|destruct i; discriminate].
    injection Hn as <-. discriminate. }
  destruct (hoare_returns _ _ _ _
              (hoare_repeatM _ _ (Z.to_nat (gen_dirs_num gen)) _
                 (hoare_attach_DirNode gen [] 0)) H0) as ([] & t1 & Hrun & HI).
  exists (popped t1). split.
  - destruct HI as (Hok & Hcount & Hno).
    split; [apply dir_ok_popped, Hok|].
    unfold popped. destruct (1 <? length (dirNodes t1))%nat; auto.
  - intros k. unfold bind at 1. rewrite Hrun. unfold bind at 1, gets.
    unfold bind at 1, popped.
    destruct (1 <? length (dirNodes t1))%nat; reflexivity.
Qed.

(** A category whose coalescence counts are above its number of files. *)
Definition over_coalescent (c : category) : Prop :=
  cat_num c < cat_numCoalescent c \/ cat_num c < cat_coalescent c.

Lemma fill_categories (l : list category) :
  Forall (category_fine) l ->
  forall k, hoare (Inv gen [] k) (forM_ (_createFileNodes gen) l)
                  (fun _ => Inv gen [] (k + foldr (fun c a => Z.max (cat_num c) 0 + a) 0 l))
                  (fun _ => False).
Proof.
  induction 1 as [|c l Hc _ IH]; intros k; cbn [forM_ foldr].
  - apply hoare_ret. intros s Hs. rewrite Z.add_0_r. exact Hs.
  - eapply hoare_bind; [apply (createFileNodes_returns gen c k Hc)|]. intros [].
    eapply hoare_weaken; [apply (IH (k + Z.max (cat_num c) 0))|auto| |auto].
    intros [] s Hs.
    replace (k + (Z.max (cat_num c) 0 + foldr (fun c a => Z.max (cat_num c) 0 + a) 0 l))
      with (k + Z.max (cat_num c) 0 + foldr (fun c a => Z.max (cat_num c) 0 + a) 0 l)
      by lia.
    exact Hs.
Qed.

Lemma forM_app {St A} (f : A -> M St unit) (l1 l2 : list A) (s : St) :
  forM_ f (l1 ++ l2) s = (forM_ f l1 ;;; forM_ f l2) s.
Proof.
  revert s. induction l1 as [|a l1 IH]; intros s; [reflexivity|].
  cbn [app forM_]. unfold bind.
  destruct (f a s) as [[[]|e|] s1]; [|reflexivity..].
  rewrite IH. reflexivity.
Qed.



End ConfigErrors.

(** ** The properties on the scenarios *)

Definition set_copied (num : Z) (sourceDir : string) (g : Config) : Config := {|
  gen_huge := gen_huge g; gen_large := gen_large g; gen_medium := gen_medium g;
  gen_small := gen_small g;
  gen_copied_num := num; gen_copied_sourceDir := sourceDir;
  gen_dirs_num := gen_dirs_num g; gen_dirs_maxDepth := gen_dirs_maxDepth g;
  gen_compressible_percentage := gen_compressible_percentage g;
  gen_compressible_blockSize := gen_compressible_blockSize g;
  gen_root_dir := gen_root_dir g; gen_readable_filenames := gen_readable_filenames g;
  gen_fsync := gen_fsync g; gen_truncate := gen_truncate g;
  gen_randseed := gen_randseed g; gen_name_prefix := gen_name_prefix g
|}.

(** Scenario A with files that are all fill. *)
Definition config_full : Config := set_compressible 100 100 config_A.

(** Scenario A with two copies from a directory that lists no file. *)
Definition config_copies : Config := set_copied 2 "/src" config_A.

(** One small file, two of them coalescent. *)
Definition config_over : Config :=
  set_small {| cat_min := 0; cat_max := 10; cat_num := 1;
               cat_numCoalescent := 2; cat_coalescent := 0 |}
            (initConfig "/data" 42).

(** A copy of [/src/a] under the root. *)
Definition copy_0 : node :=
  {| node_parent := Some 0%nat; node_depth := 1; node_path := Some "/data/0";
     node_kind_of := CopyNode "/src/a" |}.

(** A world with the root directory and a file to copy. *)
Definition source_world : World :=
  {| fs := {["/data" := Dir; "/src/a" := File [x01; x02]]};
     walk := fun _ => []; log := [] |}.

(** The tree of [config_dirs]. *)
Definition tree_dirs : RandomDirTree :=
  snd (RandomDirTree_init (R := lcg) config_dirs empty_world "/data").

(** X2 on scenario A: writing the tree leaves [/other] as it was. *)
Lemma write_touches_tree_paths_only_witness :
  fs (snd (RandomDirTree_write (R := lcg) config_A tree_A other_world)) !! "/other"
  = fs other_world !! "/other".
Proof.
  apply (write_touches_tree_paths_only (R := lcg) config_A tree_A other_world "/other").
  refine (@bool_decide_unpack _ _ _). vm_compute. exact I.
Defined.

Lemma chunks_ok_A : chunks_ok config_A.
Proof. split; [cbn; lia|]. cbn. lia. Qed.


(** X4 on the first file of scenario A, before anything is written. *)
Lemma file_verify_failures_witness :
  FileNode_verify (R := lcg) config_A file_0 6841984511428724933 10 empty_world
  = (Ok false,
     {| fs := fs empty_world; walk := walk empty_world;
        log := log empty_world ++ [(ERROR, "/data/0" +:+ ": missing!")] |}).
Proof.
  apply (file_verify_failures (R := lcg) config_A file_0 6841984511428724933 10
           "/data/0" empty_world); reflexivity.
Defined.



(** X9: ten bytes of fill, whatever the seed. *)
Lemma full_fill_ignores_seed_witness :
  exists chunks,
    all_chunks (R := lcg) (S (Z.to_nat 10)) (generateChunks config_full 7 10) = Ok chunks
    /\ concat chunks = repeat xff (Z.to_nat 10).
Proof.
  apply (full_fill_ignores_seed (R := lcg) config_full 7 10).
  - reflexivity.
  - cbn. lia.
  - lia.
Defined.

(** X10 on the tree of [config_dirs]. *)
Lemma tree_shape_witness :
  linked tree_dirs
  /\ forall p p' pn pn' cs cs' c,
       nodes tree_dirs !! p = Some pn -> node_kind_of pn = DirNode cs ->
       nodes tree_dirs !! p' = Some pn' -> node_kind_of pn' = DirNode cs' ->
       c ∈ cs -> c ∈ cs' -> p = p'.
Proof.
  unfold tree_dirs.
  apply (tree_shape (R := lcg) config_dirs empty_world "/data"). cbn. lia.
Defined.


(** X12 on the first file of [config_dirs]. *)
Lemma files_go_below_the_root_witness :
  match nodes tree_dirs !! 6%nat with
  | Some cn =>
      exists p pn, node_parent cn = Some p /\ p <> root
                   /\ nodes tree_dirs !! p = Some pn /\ isDir pn = true
  | None => False
  end.
Proof.
  unfold tree_dirs.
  destruct (nodes _ !! 6%nat) as [cn|] eqn:H.
  - apply (files_go_below_the_root (R := lcg) config_dirs empty_world "/data" 6 cn).
    + cbn. lia.
    + cbn. lia.
    + exact H.
    + vm_compute in H. injection H as <-. reflexivity.
  - vm_compute in H. discriminate.
Defined.

Lemma init_A :
  RandomDirTree_init (R := lcg) config_A empty_world "/data" = (Ok stats_A, tree_A).
Proof. vm_compute. reflexivity. Qed.


Lemma category_fine_default (c : category) :
  cat_num c = 0 -> cat_numCoalescent c = 0 -> cat_coalescent c = 0 -> category_fine c.
Proof. intros H1 H2 H3. unfold category_fine. rewrite H1, H2, H3. repeat split; lia. Qed.

Lemma category_fine_three_small : category_fine three_small.
Proof. unfold category_fine, range_ok. cbn. repeat split; lia. Qed.


(** X15 on scenario A. *)
Lemma names_follow_the_traversal_witness :
  let order := preorder (length (nodes tree_A)) tree_A root in
  order ≡ₚ seq 0 (length (nodes tree_A))
  /\ order !! 0%nat = Some root
  /\ path_at tree_A root = Some "/data"
  /\ forall pos c,
       order !! S pos = Some c ->
       exists cn p pp,
         nodes tree_A !! c = Some cn /\ node_parent cn = Some p
         /\ path_at tree_A p = Some pp
         /\ node_path cn
            = Some (os_path_join pp (gen_name_prefix config_A
                                       +:+ str_of_Z (Z.of_nat pos))).
Proof.
  apply (names_follow_the_traversal (R := lcg) config_A empty_world "/data" stats_A).
  exact init_A.
Defined.

Lemma nodes_A (j : nat) (n : node) :
  nodes tree_A !! j = Some n ->
  (j = 0%nat /\ n = root_A)
  \/ (exists k seed, (j = S k) /\ (k < 3)%nat
        /\ n = {| node_parent := Some 0%nat; node_depth := 1;
                  node_path := Some ("/data/" +:+ str_of_Z (Z.of_nat k));
                  node_kind_of := FileNode seed 10 |}).
Proof.
  intros H. destruct j as [|[|[|[|j]]]]; vm_compute in H; try discriminate;
    injection H as <-.
  - left. split; reflexivity.
  - right. exists 0%nat. eexists. repeat split; lia.
  - right. exists 1%nat. eexists. repeat split; lia.
  - right. exists 2%nat. eexists. repeat split; lia.
Qed.

Lemma tree_A_writable : writable tree_A empty_world.
Proof.
  constructor.
  - apply (linked_init (R := lcg) config_A empty_world "/data"). cbn. lia.
  - exists root_A, [1; 2; 3]%nat. repeat split.
  - intros j n H. destruct (nodes_A j n H) as [[_ ->]|(k & seed & _ & _ & ->)];
      eexists; reflexivity.
  - intros j j' n n' p H H' Hp Hp'.
    assert (E : node_path n = node_path n') by congruence. clear Hp Hp'.
    destruct (nodes_A j n H) as [[-> ->]|(k & sd & -> & _ & ->)];
      destruct (nodes_A j' n' H') as [[-> ->]|(k' & sd' & -> & _ & ->)];
      cbn [node_path root_A] in E.
    + reflexivity.
    + injection E as E. apply (f_equal String.length) in E.
      rewrite append_length in E. cbn [String.length] in E. lia.
    + injection E as E. apply (f_equal String.length) in E.
      rewrite append_length in E. cbn [String.length] in E. lia.
    + injection E as E. apply append_inv_head, str_of_Z_inj in E. lia.
  - intros j n seed size H Hk.
    destruct (nodes_A j n H) as [[_ ->]|(k & sd & _ & _ & ->)];
      cbn [node_kind_of root_A] in Hk; [discriminate Hk|]. injection Hk as _ <-. lia.
  - intros j n src H Hk.
    destruct (nodes_A j n H) as [[_ ->]|(k & sd & _ & _ & ->)];
      cbn [node_kind_of root_A] in Hk; discriminate Hk.
  - vm_compute. reflexivity.
  - intros j n p H Hj Hp.
    destruct (nodes_A j n H) as [[-> ->]|(k & sd & -> & Hk & ->)]; [contradiction|].
    cbn [node_path] in Hp. injection Hp as <-.
    destruct k as [|[|[|k]]]; [vm_compute; reflexivity..|lia].
Qed.


(** X17 on scenario A. *)
Lemma built_tree_is_writable_witness : writable tree_A empty_world.
Proof.
  apply (built_tree_is_writable (R := lcg) config_A eq_refl empty_world "/data"
           stats_A tree_A).
  - exact init_A.
  - intros c Hc Hnum. unfold categories in Hc. rewrite !elem_of_cons in Hc.
    destruct Hc as [->|[->|[->|[->|Hc]]]];
      [vm_compute in Hnum; discriminate..| |inversion Hc].
    split; [unfold range_ok; cbn; lia|cbn; lia].
  - vm_compute. reflexivity.
  - exact (wr_free _ _ tree_A_writable).
Defined.

(** X18 on the first file of scenario A. *)
Lemma file_sizes_in_range_witness :
  exists c,
    c ∈ [gen_huge config_A; gen_large config_A; gen_medium config_A; gen_small config_A]
    /\ 0 < cat_num c
    /\ (- 2 ^ 63 <= cat_min c -> cat_min c <= cat_max c -> cat_max c < 2 ^ 63 ->
        cat_min c <= 10 <= cat_max c).
Proof.
  apply (file_sizes_in_range (R := lcg) config_A empty_world "/data" 1 file_0
           6841984511428724933 10).
  - cbn. lia.
  - vm_compute. reflexivity.
  - reflexivity.
Defined.

(** X19 on the first two files of scenario A. *)
Lemma paths_are_distinct_witness :
  match nodes tree_A !! 2%nat with
  | Some n' =>
      exists p p', node_path file_0 = Some p /\ node_path n' = Some p' /\ p <> p'
  | None => False
  end.
Proof.
  destruct (nodes tree_A !! 2%nat) as [n'|] eqn:H.
  - apply (paths_are_distinct (R := lcg) config_A eq_refl empty_world "/data" stats_A
             tree_A 1 2 file_0 n').
    + exact init_A.
    + vm_compute. reflexivity.
    + exact H.
    + discriminate.
  - vm_compute in H. discriminate H.
Defined.



(** The root directory with ten zero bytes where the first file of scenario
    A goes. *)
Definition zero_world : World :=
  {| fs := {["/data" := Dir; "/data/0" := File (repeat x00 10)]};
     walk := fun _ => []; log := [] |}.

(** The bytes of the first file of scenario A. *)
Definition chunks_0 : list bytes :=
  match all_chunks (R := lcg) 11 (generateChunks config_A 6841984511428724933 10) with
  | Ok chunks => chunks
  | _ => []
  end.

